(** * reCBZ2: page conversion, extraction order and format benchmark

    A shallow embedding of [reCBZ2/util.py], [reCBZ2/models/page.py] and
    [reCBZ2/models/comic_archive.py], and the properties of the
    repository's specification stated over it.

    Conventions.
    - Python [int] is [Z]; [len] and list positions are [nat].
    - Python [str] is [string]; the characters are code points below
      256.
    - What the code prints is not part of the model: the calls of
      [mylog], which reads [config.loglevel] and writes to the terminal
      only, are left out.
    - A [pathlib.Path] is the list of its parts.
    - A Python exception is a value of [exn]; a function that can raise
      returns a [result]. *)

From Stdlib Require Import ZArith List String Ascii Bool Lia Arith.
From Stdlib Require Import Sorted Permutation.
From Stdlib Require Import QArith Qabs Lqa.
From Stdlib Require Import Floats.SpecFloat.
From stdpp Require Import base option list gmap strings.
Import ListNotations.

Local Open Scope string_scope.
Local Open Scope Z_scope.
Local Open Scope list_scope.

Abbreviation len := List.length.
Infix "+:+" := String.append (at level 60, right associativity).
#[local] Arguments String.append !_ _ / : simpl nomatch.

(* ===================================================================== *)
(** ** Python values and errors                                           *)
(* ===================================================================== *)

Module Py.

(** The exceptions the modelled code raises or lets through. *)
Inductive exn : Type :=
| ValueError (msg : string)
| AssertionError (msg : string)
| KeyError (msg : string)
| TypeError
| IndexError
| IOError
| UnidentifiedImageError
| AttributeError
| ZeroDivisionError
| OverflowError
| BadZipFile
| FileNotFoundError
| NotImplementedError
| KeyboardInterrupt.

Inductive result (A : Type) : Type :=
| Ok (a : A)
| Raise (e : exn).
Arguments Ok {A} a.
Arguments Raise {A} e.

Definition rbind {A B} (r : result A) (k : A -> result B) : result B :=
  match r with
  | Ok a => k a
  | Raise e => Raise e
  end.

(** [[f(x) for x in l]]: the first call that raises ends it *)
Fixpoint map_result {A B} (f : A -> result B) (l : list A) : result (list B) :=
  match l with
  | [] => Ok []
  | x :: l' =>
      match f x with
      | Raise e => Raise e
      | Ok y =>
          match map_result f l' with
          | Raise e => Raise e
          | Ok r => Ok (y :: r)
          end
      end
  end.

(** *** Slices [l[start:stop:step]] with a positive step.

    Python first normalises the two bounds against [len l] (a negative
    bound counts from the end, and both are clamped into [0, len l]) and
    then walks from the lower bound in steps of [step]. *)

Definition slice_bound (size : nat) (i : Z) : nat :=
  let n := Z.of_nat size in
  let i' := if i <? 0 then i + n else i in
  Z.to_nat (Z.max 0 (Z.min n i')).

(** every [step]-th element of [l], the first one included *)
Fixpoint every {A} (skip step : nat) (l : list A) : list A :=
  match l with
  | [] => []
  | x :: l' =>
      match skip with
      | O => x :: every (Nat.pred step) step l'
      | S k => every k step l'
      end
  end.

Definition slice {A} (l : list A) (start stop : Z) (step : nat) : list A :=
  let lo := slice_bound (len l) start in
  let hi := slice_bound (len l) stop in
  every 0 step (firstn (hi - lo) (skipn lo l)).

(** [l[start:]], [l[:stop]] *)
Definition slice_from {A} (l : list A) (start : Z) : list A :=
  skipn (slice_bound (len l) start) l.
Definition slice_to {A} (l : list A) (stop : Z) : list A :=
  firstn (slice_bound (len l) stop) l.

(** *** [sorted]: a stable sort that only asks [<].

    The comparison may raise ([None] stands for the [TypeError] of
    comparing an [int] with a [str]).  Python's sort is stable, so on keys
    that are all comparable its result is the one of any stable sort; the
    model is the stable insertion sort. *)

Section Sorted.
Context {A : Type} (lt : A -> A -> option bool).

(** insert [x] in front of the first element that is not below it *)
Fixpoint insort (x : A) (l : list A) : option (list A) :=
  match l with
  | [] => Some [x]
  | y :: l' =>
      match lt y x with
      | None => None
      | Some true =>
          match insort x l' with
          | Some r => Some (y :: r)
          | None => None
          end
      | Some false => Some (x :: l)
      end
  end.

Fixpoint sorted (l : list A) : option (list A) :=
  match l with
  | [] => Some []
  | x :: l' =>
      match sorted l' with
      | Some r => insort x r
      | None => None
      end
  end.
End Sorted.

(** *** Comparison of [str], [int] and of lists of them *)

Inductive val : Type :=
| VInt (z : Z)
| VStr (s : string).

Definition val_eqb (a b : val) : bool :=
  match a, b with
  | VInt x, VInt y => x =? y
  | VStr s, VStr t => String.eqb s t
  | _, _ => false
  end.

(** [a < b]; an [int] against a [str] is a [TypeError] *)
Definition val_lt (a b : val) : option bool :=
  match a, b with
  | VInt x, VInt y => Some (x <? y)
  | VStr s, VStr t => Some (String.ltb s t)
  | _, _ => None
  end.

(** list comparison: the first position where the two differ decides, a
    proper prefix is smaller *)
Fixpoint list_lt (a b : list val) : option bool :=
  match a, b with
  | [], [] => Some false
  | [], _ :: _ => Some true
  | _ :: _, [] => Some false
  | x :: a', y :: b' =>
      if val_eqb x y then list_lt a' b' else val_lt x y
  end.

(** [sorted(l, key=key)]: the keys are computed first, one for every
    element and in their order, and the elements are then put in the
    order of their keys *)
Definition sorted_key {A} (key : A -> result (list val)) (l : list A)
  : result (list A) :=
  match map_result key l with
  | Raise e => Raise e
  | Ok keys =>
      match sorted (fun a b => list_lt (fst a) (fst b)) (combine keys l) with
      | Some r => Ok (map snd r)
      | None => Raise TypeError
      end
  end.

(** *** [str.isdecimal], [str.isdigit] and [int(str)]

    Of the code points below 256 the decimal digits are ['0'..'9'], the
    class [[0-9]] of a regular expression.  [str.isdigit] accepts them
    and the superscripts two, three and one (178, 179 and 185), which
    [int] rejects. *)

Definition is_digit (c : ascii) : bool :=
  let n := nat_of_ascii c in
  (48 <=? n)%nat && (n <=? 57)%nat.

Definition is_superscript (c : ascii) : bool :=
  let n := nat_of_ascii c in
  (n =? 178)%nat || (n =? 179)%nat || (n =? 185)%nat.

Fixpoint all_digits (s : string) : bool :=
  match s with
  | EmptyString => true
  | String c s' => is_digit c && all_digits s'
  end.

(** [s.isdecimal()] *)
Definition isdecimal (s : string) : bool :=
  match s with
  | EmptyString => false
  | _ => all_digits s
  end.

Fixpoint all_isdigit (s : string) : bool :=
  match s with
  | EmptyString => true
  | String c s' => (is_digit c || is_superscript c) && all_isdigit s'
  end.

(** [s.isdigit()] *)
Definition isdigit (s : string) : bool :=
  match s with
  | EmptyString => false
  | _ => all_isdigit s
  end.

Definition digit_val (c : ascii) : Z := Z.of_nat (nat_of_ascii c) - 48.

Fixpoint int_of_digits (acc : Z) (s : string) : Z :=
  match s with
  | EmptyString => acc
  | String c s' => int_of_digits (10 * acc + digit_val c) s'
  end.

(** the number a run of decimal digits stands for *)
Definition int_of_str (s : string) : Z := int_of_digits 0 s.

(** [int(s)] for a text that [isdigit] accepts: a [ValueError] unless all
    its characters are decimal digits *)
Definition int (s : string) : result Z :=
  if isdecimal s then Ok (int_of_str s)
  else Raise (ValueError "invalid literal for int() with base 10").

(** *** [str(n)] and the format [{n:0{w}d}] for [n >= 0] *)

Definition digit_char (d : nat) : ascii := ascii_of_nat (48 + d).

Fixpoint str_digits (fuel n : nat) (acc : string) : string :=
  match fuel with
  | O => acc
  | S fuel' =>
      let acc' := String (digit_char (n mod 10)) acc in
      if (n <? 10)%nat then acc' else str_digits fuel' (n / 10) acc'
  end.

(** [str(n)] *)
Definition str_of_nat (n : nat) : string := str_digits (S n) n "".

Fixpoint zeros (k : nat) : string :=
  match k with
  | O => ""
  | S k' => String "0" (zeros k')
  end.

(** [f"{n:0{w}d}"]: [str(n)], padded on the left with zeros up to the
    width [w] *)
Definition format_0d (w n : nat) : string :=
  let s := str_of_nat n in
  zeros (w - String.length s) +:+ s.

(** *** [list.insert(i, x)] and [list.pop(i)] *)

(** [l.insert(i, x)] never raises: the position is clamped like a slice
    bound *)
Definition list_insert {A} (l : list A) (i : Z) (x : A) : list A :=
  let k := slice_bound (len l) i in
  firstn k l ++ x :: skipn k l.

(** [l.pop(i)] raises [IndexError] outside [-len l, len l) *)
Definition list_pop {A} (l : list A) (i : Z) : result (A * list A) :=
  let n := Z.of_nat (len l) in
  let i' := if i <? 0 then i + n else i in
  if (i' <? 0) || (n <=? i') then Raise IndexError
  else
    let k := Z.to_nat i' in
    match nth_error l k with
    | Some x => Ok (x, firstn k l ++ skipn (S k) l)
    | None => Raise IndexError
    end.

(** [all(t)] for a pair of integers *)
Definition all2 (t : Z * Z) : bool := negb (fst t =? 0) && negb (snd t =? 0).

(** [sum] of integers *)
Definition sum (l : list Z) : Z := fold_right Z.add 0 l.

(** *** [float]: IEEE 754 binary64 *)

Definition prec : Z := 53.
Definition emax : Z := 1024.
Abbreviation float := spec_float.

Definition is_zero (f : float) : bool :=
  match f with S754_zero _ => true | _ => false end.

(** [float(z)], rounded to nearest even *)
Definition float_of_int (z : Z) : result float :=
  match binary_normalize prec emax z 0 false with
  | S754_infinity _ => Raise OverflowError
  | f => Ok f
  end.

(** [a / b] for two [int]: the correctly rounded quotient *)
Definition int_truediv (a b : Z) : result float :=
  match a, b with
  | _, Z0 => Raise ZeroDivisionError
  | Z0, _ => Ok (S754_zero (b <? 0))
  | _, _ =>
      let '(mz, ez, lz) :=
        SFdiv_core_binary prec emax (Z.abs a) 0 (Z.abs b) 0 in
      match binary_round_aux prec emax (xorb (a <? 0) (b <? 0)) mz ez lz with
      | S754_infinity _ => Raise OverflowError
      | f => Ok f
      end
  end.

(** [x / y] for two [float] *)
Definition float_div (x y : float) : result float :=
  if is_zero y then Raise ZeroDivisionError else Ok (SFdiv prec emax x y).

Definition float_mul (x y : float) : float := SFmul prec emax x y.
Definition float_sub (x y : float) : float := SFsub prec emax x y.
Definition float_abs (x : float) : float := SFabs x.
Definition float_lt (x y : float) : bool := SFltb x y.
(** [x >= y] *)
Definition float_ge (x y : float) : bool := SFleb y x.

(** [math.floor] and [math.ceil] *)
Definition math_floor (f : float) : result Z :=
  match f with
  | S754_zero _ => Ok 0
  | S754_finite s m e =>
      let v := if s then Z.neg m else Z.pos m in
      Ok (if 0 <=? e then v * 2 ^ e else v / 2 ^ (- e))
  | S754_infinity _ => Raise OverflowError
  | S754_nan => Raise (ValueError "cannot convert float NaN to integer")
  end.

Definition math_ceil (f : float) : result Z :=
  match f with
  | S754_zero _ => Ok 0
  | S754_finite s m e =>
      let v := if s then Z.neg m else Z.pos m in
      Ok (if 0 <=? e then v * 2 ^ e else - ((- v) / 2 ^ (- e)))
  | S754_infinity _ => Raise OverflowError
  | S754_nan => Raise (ValueError "cannot convert float NaN to integer")
  end.

End Py.

(* ===================================================================== *)
(** ** [pathlib]                                                           *)
(* ===================================================================== *)

Module Pathlib.
Import Py.

(** A path is the list of its parts; an absolute path starts with the
    part ["/"], and the empty list is the current directory ["."]. *)
Definition path : Type := list string.

Definition is_sep (c : ascii) : bool := Ascii.eqb c "/".

Fixpoint split_sep (cur : string) (s : string) : list string :=
  match s with
  | EmptyString => [cur]
  | String c s' =>
      if is_sep c then cur :: split_sep "" s'
      else split_sep (cur +:+ String c "") s'
  end.

Definition is_part (x : string) : bool :=
  negb (String.eqb x "") && negb (String.eqb x ".").

Definition starts_with_sep (s : string) : bool :=
  match s with
  | String c _ => is_sep c
  | EmptyString => false
  end.

(** [Path(s)] *)
Definition Path (s : string) : path :=
  let parts := List.filter is_part (split_sep "" s) in
  if starts_with_sep s then "/" :: parts else parts.

Fixpoint join_parts (p : path) : string :=
  match p with
  | [] => ""
  | [a] => a
  | a :: p' => a +:+ "/" +:+ join_parts p'
  end.

(** [str(p)] *)
Definition path_str (p : path) : string :=
  match p with
  | [] => "."
  | a :: p' => if String.eqb a "/" then "/" +:+ join_parts p' else join_parts p
  end.

(** [p.name] *)
Definition name_of (p : path) : string := List.last p "".

(** [s.rfind(".")] *)
Fixpoint rfind_dot (s : string) (i : nat) (found : option nat) : option nat :=
  match s with
  | EmptyString => found
  | String c s' =>
      rfind_dot s' (S i) (if Ascii.eqb c "." then Some i else found)
  end.

(** [p.stem]: the name without its last suffix; a leading or a trailing
    dot starts no suffix *)
Definition stem_of_name (name : string) : string :=
  match rfind_dot name 0 None with
  | Some i =>
      if (0 <? i)%nat && (i <? String.length name - 1)%nat
      then String.substring 0 i name
      else name
  | None => name
  end.

Definition stem_of (p : path) : string := stem_of_name (name_of p).

(** the directory of [p] *)
Definition parent (p : path) : path := List.removelast p.

Definition is_root (p : path) : bool :=
  match p with
  | [] => true
  | [a] => String.eqb a "/"
  | _ => false
  end.

(** [p.parents[0]]; the root and ["."] have no parents *)
Definition parents0 (p : path) : result path :=
  if is_root p then Raise IndexError else Ok (parent p).

(** [Path.joinpath(d, s)] for a name [s], and [d / q]: an absolute [q]
    replaces [d] *)
Definition joinpath (d : path) (s : string) : path := d ++ [s].
Definition is_absolute (q : path) : bool :=
  match q with
  | a :: _ => String.eqb a "/"
  | [] => false
  end.
Definition join (d q : path) : path := if is_absolute q then q else d ++ q.

Definition path_eqb (p q : path) : bool :=
  bool_decide (p = q).

(** [p.relative_to(base)] raises [ValueError] unless [base] is a prefix *)
Fixpoint relative_to (p base : path) : result path :=
  match base, p with
  | [], _ => Ok p
  | b :: base', a :: p' =>
      if String.eqb a b then relative_to p' base'
      else Raise (ValueError "is not in the subpath of")
  | _ :: _, [] => Raise (ValueError "is not in the subpath of")
  end.

Fixpoint is_under (dir p : path) : bool :=
  match dir, p with
  | [], _ :: _ => true
  | d :: dir', a :: p' => String.eqb a d && is_under dir' p'
  | _, _ => false
  end.

(** [needle in hay] for strings *)
Fixpoint contains (needle hay : string) : bool :=
  String.prefix needle hay ||
  match hay with
  | EmptyString => false
  | String _ hay' => contains needle hay'
  end.

End Pathlib.

(* ===================================================================== *)
(** ** The world: file system, module globals, objects                     *)
(* ===================================================================== *)

Module World.
Import Py Pathlib.

(** *** Images and files

    The codec is an external library.  An image is what the code reads of
    a decoded [PIL.Image]: the codec's format name, the colour mode and
    the size (width, height). *)
Record Image : Type := mkImage {
  im_format : option string;
  im_mode : string;
  im_size : Z * Z
}.

(** The format classes of [reCBZ2.formats], compared by identity. *)
Inductive Format : Type := Png | Jpeg | WebpLossless | WebpLossy.

Definition Format_eqb (a b : Format) : bool :=
  match a, b with
  | Png, Png | Jpeg, Jpeg | WebpLossless, WebpLossless
  | WebpLossy, WebpLossy => true
  | _, _ => false
  end.

(** A file is an image the codec can decode (with the first bytes of the
    file and its size in bytes), a zip container, or anything else.  A
    member of a zip container has a name, a content and is deflated or
    stored; a member whose name ends with ["/"] is a directory. *)
#[warnings="-register-all"]
Inductive file : Type :=
| FImage (im : Image) (head : string) (st_size : Z)
| FZip (members : list (string * file * bool)) (comment : string)
| FData (st_size : Z).

Inductive node : Type :=
| NFile (f : file)
| NDir.

(** *** Pages, options, archives *)

Record Page : Type := mkPage {
  fp : path;
  rel_path : path;
  name : string;
  stem : string;
  _img : option Image;
  _fmt : option Format;
  _closed : bool
}.

(** the [options] dictionary of a batch *)
Record Options : Type := mkOptions {
  opt_format : option Format;
  opt_quality : Z;
  opt_size : Z * Z;
  opt_keep_ratio : bool;
  opt_grayscale : bool;
  opt_noup : bool;
  opt_nodown : bool
}.

(** An element of [ComicArchive._index]: a [Page], or the bare path that
    [add_page] inserts. *)
Inductive entry : Type :=
| EPage (p : Page)
| EPath (p : path).

Record Archive : Type := mkArchive {
  a_fp : path;
  _page_opt : Options;
  _index : list entry;
  _chapter_lengths : list Z;
  _bad_files : list path;
  _cachedir : path
}.

(** *** Module globals *)

Inductive handler : Type := default_int_handler | pool_CTRL_C_handler | SIG_IGN.

(** [reCBZ2.config] (the attributes the modelled code reads) *)
Record Config : Type := mkConfig {
  ignore_page_err : bool;
  samples_count : Z;
  processes : Z;
  compress_zip : bool;
  ZIPCOMMENT : string;
  allowed_page_formats : list Format
}.

(** What the platform and the modules that are not modelled decide:
    constants of [reCBZ2/__init__.py] and [reCBZ2/formats.py], the
    machine, and the orders that are not determined by the program. *)
Record Env : Type := mkEnv {
  CACHE_PREFIX : string;
  gettempdir : path;
  cpu_count : option Z;
  fmt_name : Format -> string;
  fmt_desc : Format -> string;
  fmt_ext : Format -> string;
  (** [FormatDict]: the format class of a format name *)
  FormatDict : string -> option Format;
  (** where the ebook packager writes the book of a title *)
  epub_dest : string -> path;
  (** size in bytes of an image encoded in a format at a quality *)
  encoded_size : Format -> Z -> Image -> Z;
  (** the order in which a directory tree is enumerated *)
  listing : list path -> list path;
  (** the order in which a pool completes [n] tasks *)
  completion : nat -> list nat;
  (** whether a [SIGINT] arrives while a worker converts a source, before
      the step of that number *)
  sigint_arrives : entry -> nat -> bool
}.

Record world : Type := mkWorld {
  fs : gmap path node;
  LossyFmt_quality : Z;
  ctrl_c_entered : option bool;
  sigint : handler;
  default_sigint_handler : handler;
  cfg : Config;
  env : Env;
  heap : gmap nat Archive
}.

Definition set_fs (f : gmap path node) (w : world) : world :=
  mkWorld f (LossyFmt_quality w) (ctrl_c_entered w) (sigint w)
    (default_sigint_handler w) (cfg w) (env w) (heap w).
Definition set_quality (q : Z) (w : world) : world :=
  mkWorld (fs w) q (ctrl_c_entered w) (sigint w)
    (default_sigint_handler w) (cfg w) (env w) (heap w).
Definition set_ctrl_c (c : option bool) (w : world) : world :=
  mkWorld (fs w) (LossyFmt_quality w) c (sigint w)
    (default_sigint_handler w) (cfg w) (env w) (heap w).
Definition set_sigint (h : handler) (w : world) : world :=
  mkWorld (fs w) (LossyFmt_quality w) (ctrl_c_entered w) h
    (default_sigint_handler w) (cfg w) (env w) (heap w).
Definition set_default_handler (h : handler) (w : world) : world :=
  mkWorld (fs w) (LossyFmt_quality w) (ctrl_c_entered w) (sigint w)
    h (cfg w) (env w) (heap w).
Definition set_heap (h : gmap nat Archive) (w : world) : world :=
  mkWorld (fs w) (LossyFmt_quality w) (ctrl_c_entered w) (sigint w)
    (default_sigint_handler w) (cfg w) (env w) h.

(** *** Computations that read and change the world and may raise *)

Definition M (A : Type) : Type := world -> result A * world.

Definition ret {A} (a : A) : M A := fun w => (Ok a, w).
Definition raise {A} (e : exn) : M A := fun w => (Raise e, w).
Definition bind {A B} (m : M A) (k : A -> M B) : M B :=
  fun w =>
    match m w with
    | (Ok a, w') => k a w'
    | (Raise e, w') => (Raise e, w')
    end.
Definition lift {A} (r : result A) : M A := fun w => (r, w).
Definition get : M world := fun w => (Ok w, w).
Definition modify (f : world -> world) : M unit := fun w => (Ok tt, f w).

(** [try: m except <handled>: h] *)
Definition try_except {A} (m : M A) (handled : exn -> bool) (h : exn -> M A)
  : M A :=
  fun w =>
    match m w with
    | (Raise e, w') => if handled e then h e w' else (Raise e, w')
    | r => r
    end.

(** [for x in l: body x] *)
Fixpoint for_each {A} (l : list A) (body : A -> M unit) : M unit :=
  match l with
  | [] => ret tt
  | x :: l' => bind (body x) (fun _ => for_each l' body)
  end.

(** [[f x for x in l]] *)
Fixpoint map_M {A B} (f : A -> M B) (l : list A) : M (list B) :=
  match l with
  | [] => ret []
  | x :: l' => bind (f x) (fun y => bind (map_M f l') (fun r => ret (y :: r)))
  end.

End World.

Declare Scope M_scope.
Delimit Scope M_scope with M.
Notation "x <- m ;; k" := (World.bind m (fun x => k))
  (at level 100, m at next level, right associativity) : M_scope.
Notation "m ;;; k" := (World.bind m (fun _ => k))
  (at level 100, right associativity) : M_scope.

Local Open Scope M_scope.

(* ===================================================================== *)
(** ** The file system, the codec and the format classes                   *)
(* ===================================================================== *)

Module OS.
Import Py Pathlib World.

(** [p.exists()], [p.is_dir()], [p.is_file()] *)
Definition exists_in (f : gmap path node) (p : path) : bool :=
  is_root p || bool_decide (is_Some (f !! p)).
Definition is_dir_in (f : gmap path node) (p : path) : bool :=
  is_root p || match f !! p with Some NDir => true | _ => false end.
Definition is_file_in (f : gmap path node) (p : path) : bool :=
  match f !! p with Some (NFile _) => true | _ => false end.

Definition path_exists (p : path) : M bool :=
  w <- get ;; ret (exists_in (fs w) p).
Definition path_is_dir (p : path) : M bool :=
  w <- get ;; ret (is_dir_in (fs w) p).

(** [p.unlink()] *)
Definition unlink (p : path) : M unit :=
  w <- get ;;
  match fs w !! p with
  | Some (NFile _) => modify (set_fs (delete p (fs w)))
  | _ => raise IOError
  end.

(** create or replace the file [p]; its directory must exist *)
Definition write_file (p : path) (f : file) : M unit :=
  w <- get ;;
  if is_dir_in (fs w) (parent p) && negb (is_dir_in (fs w) p)
  then modify (set_fs (<[p := NFile f]> (fs w)))
  else raise IOError.

(** [Path.mkdir(p)] *)
Definition mkdir (p : path) : M unit :=
  w <- get ;;
  if exists_in (fs w) p then raise IOError
  else if is_dir_in (fs w) (parent p)
  then modify (set_fs (<[p := NDir]> (fs w)))
  else raise IOError.

(** the directories above [p], outermost first, created where missing *)
Fixpoint ancestors (p : path) (k : nat) : list path :=
  match k with
  | O => []
  | S k' => ancestors p k' ++ [firstn k p]
  end.

Definition makedirs (p : path) : M unit :=
  for_each (ancestors p (len p)) (fun d =>
    w <- get ;;
    if exists_in (fs w) d then
      (if is_dir_in (fs w) d then ret tt else raise IOError)
    else modify (set_fs (<[d := NDir]> (fs w)))).

Definition read_file (p : path) : M file :=
  w <- get ;;
  match fs w !! p with
  | Some (NFile f) => ret f
  | _ => raise IOError
  end.

(** [p.stat().st_size] *)
Definition stat_size (p : path) : M Z :=
  f <- read_file p ;;
  match f with
  | FImage _ _ n => ret n
  | FData n => ret n
  | FZip _ _ => ret 0
  end.

(** [Path(dir).rglob("*")]: everything below [dir], in the order the
    platform enumerates it *)
Definition rglob (dir : path) : M (list path) :=
  w <- get ;;
  ret (listing (env w)
         (List.filter (is_under dir) (map fst (map_to_list (fs w))))).

End OS.

Module PIL.
Import Py Pathlib World OS.

(** [Image.open(fp)]: an [OSError] when the file cannot be read,
    [UnidentifiedImageError] when it is not an image *)
Definition Image_open (p : path) : M Image :=
  w <- get ;;
  match fs w !! p with
  | Some (NFile (FImage im _ _)) => ret im
  | Some (NFile _) => raise UnidentifiedImageError
  | _ => raise IOError
  end.

(** [img.convert(mode)] and [img.resize(size, resample)]: new images, not
    read from a file; the resampling filter only decides pixel values *)
Definition convert (img : Image) (mode : string) : Image :=
  mkImage None mode (im_size img).
Definition resize (img : Image) (size : Z * Z) : Image :=
  mkImage None (im_mode img) size.

End PIL.

Module Formats.
Import Py Pathlib World OS.

(** the codec's name of a format *)
Definition pil_name (f : Format) : string :=
  match f with
  | Png => "PNG"
  | Jpeg => "JPEG"
  | WebpLossless | WebpLossy => "WEBP"
  end.

(** the first sixteen bytes of an encoded file; a WebP file names its
    bitstream in bytes 12 to 15, ["VP8L"] when lossless *)
Definition head_of (f : Format) : string :=
  match f with
  | WebpLossless => "RIFF0000WEBPVP8L"
  | WebpLossy => "RIFF0000WEBPVP8 "
  | _ => ""
  end.

(** Modelled from the spec: [reCBZ2/formats.py] is not among the sources.
    [fmt.save(img, dest)] encodes the image with the format's parameters
    (the quality is the class attribute [LossyFmt.quality]) and writes it
    at [dest]. *)
Definition save (f : Format) (img : Image) (dest : path) : M unit :=
  w <- get ;;
  write_file dest
    (FImage (mkImage (Some (pil_name f)) (im_mode img) (im_size img))
       (head_of f)
       (encoded_size (env w) f (LossyFmt_quality w) img)).

End Formats.

(* ===================================================================== *)
(** ** [reCBZ2/models/page.py]                                             *)
(* ===================================================================== *)

Module PageM.
Import Py Pathlib World OS PIL.

(** [Page.__init__] *)
Definition init (file_name : path) : M Page :=
  w <- get ;;
  let fp := file_name in
  let uuid_part := List.filter (contains (CACHE_PREFIX (env w))) fp in
  match uuid_part with
  | [] => raise IndexError
  | u :: _ =>
      let global_cache := joinpath (gettempdir (env w)) u in
      rel <- lift (relative_to fp global_cache) ;;
      match rel with
      | [] => raise IndexError
      | first :: _ =>
          let local_cache := joinpath global_cache first in
          rel_path <- lift (relative_to fp local_cache) ;;
          ret (mkPage fp rel_path (name_of fp) (stem_of fp) None None true)
      end
  end.

(** the [img] property: opens the file the first time *)
Definition img (p : Page) : M (Image * Page) :=
  if _closed p then
    i <- Image_open (fp p) ;;
    ret (i, mkPage (fp p) (rel_path p) (name p) (stem p) (Some i) (_fmt p) false)
  else
    match _img p with
    | Some i => ret (i, p)
    | None => raise AttributeError
    end.

(** [file.read(16)[-1:] == b"L"] *)
Definition sixteenth_is_L (head : string) : bool :=
  let s := String.substring 0 16 head in
  match String.get (String.length s - 1) s with
  | Some c => Ascii.eqb c "L"
  | None => false
  end.

(** the [fmt] property *)
Definition fmt (p : Page) : M (Format * Page) :=
  match _fmt p with
  | Some f => ret (f, p)
  | None =>
      ip <- img p ;;
      let '(i, p) := ip in
      match im_format i with
      | None => raise (KeyError "Image.format returned None")
      | Some pillow_format =>
          if String.eqb pillow_format "PNG" then ret (Png, p)
          else if String.eqb pillow_format "JPEG" then ret (Jpeg, p)
          else if String.eqb pillow_format "WEBP" then
            f <- read_file (fp p) ;;
            match f with
            | FImage _ head _ =>
                ret (if sixteenth_is_L head then WebpLossless else WebpLossy, p)
            | _ => ret (WebpLossy, p)
            end
          else raise (KeyError "invalid format")
      end
  end.

(** the setters of [fmt] and [img] *)
Definition set_fmt (new : Format) (p : Page) : Page :=
  mkPage (fp p) (rel_path p) (name p) (stem p) (_img p) (Some new) (_closed p).
Definition set_img (new : Image) (p : Page) : Page :=
  mkPage (fp p) (rel_path p) (name p) (stem p) (Some new) (_fmt p) false.

(** the [size] and [landscape] properties *)
Definition size (p : Page) : M (Z * Z * Page) :=
  ip <- img p ;; ret (im_size (fst ip), snd ip).

Definition landscape (p : Page) : M (bool * Page) :=
  sp <- size p ;;
  let '(s, p) := sp in
  ret (if snd s <? fst s then true else false, p).

(** [Page.save(dest)] *)
Definition save (p : Page) (dest : path) : M Page :=
  fp1 <- fmt p ;;
  let '(f, p) := fp1 in
  ip <- img p ;;
  let '(i, p) := ip in
  Formats.save f i dest ;;;
  ret (mkPage dest (rel_path p) (name_of dest) (stem_of dest)
         (_img p) (_fmt p) true).

End PageM.

(* ===================================================================== *)
(** ** [reCBZ2/config.py] and [reCBZ2/util.py]                             *)
(* ===================================================================== *)

Module ConfigM.
Import Py World.

(** [config.pcount()] *)
Definition pcount (w : world) : Z :=
  let default_value := 4 in
  if 0 <? processes (cfg w) then processes (cfg w)
  else
    match cpu_count (env w) with
    | None => default_value
    | Some logical_cores =>
        if (1 <=? logical_cores) && (logical_cores <? 3) then logical_cores
        else logical_cores - 1
    end.

End ConfigM.

Module Util.
Import Py Pathlib World OS.

(** *** [human_sort] *)

(** [re.split("([0-9]+)", key)]: the text runs and the digit runs of
    [key], alternating; the first and the last piece are text runs (empty
    when [key] starts or ends with a digit).
    [cur] is the run being read and [in_digits] its kind. *)
Fixpoint split_runs (in_digits : bool) (cur : string) (s : string)
  : list string :=
  match s with
  | EmptyString => if in_digits then [cur; ""] else [cur]
  | String c s' =>
      if is_digit c then
        if in_digits then split_runs true (cur +:+ String c "") s'
        else cur :: split_runs true (String c "") s'
      else
        if in_digits then cur :: split_runs false (String c "") s'
        else split_runs false (cur +:+ String c "") s'
  end.

Definition re_split_digits (key : string) : list string :=
  split_runs false "" key.

(** [convert = lambda text: int(text) if text.isdigit() else text] *)
Definition convert (text : string) : result val :=
  if isdigit text then rbind (int text) (fun z => Ok (VInt z))
  else Ok (VStr text).

(** [alphanum_key = lambda key: [convert(c) for c in split("([0-9]+)", key)]] *)
Definition alphanum_key (key : string) : result (list val) :=
  map_result convert (re_split_digits key).

(** [human_sort(lst)] on strings: [sorted(lst, key=alphanum_key)];
    [lst[0]] raises [IndexError] on an empty sequence *)
Definition human_sort (lst : list string) : result (list string) :=
  match lst with
  | [] => Raise IndexError
  | _ => sorted_key alphanum_key lst
  end.

(** on paths, which [human_sort] first turns into strings *)
Definition human_sort_paths (lst : list path) : result (list string) :=
  human_sort (map path_str lst).

(** *** Interrupt handling of the workers *)

(** [init_pool], run once in every process of a pool *)
Definition init_pool (w : world) : world :=
  set_sigint pool_CTRL_C_handler
    (set_default_handler (sigint w) (set_ctrl_c (Some false) w)).

(** What the handler in place does with a [SIGINT]: the default handler
    raises [KeyboardInterrupt], [pool_CTRL_C_handler] sets
    [ctrl_c_entered], and [SIG_IGN] drops the signal. *)
Definition handle_sigint : M unit :=
  w <- get ;;
  match sigint w with
  | default_int_handler => raise KeyboardInterrupt
  | pool_CTRL_C_handler => modify (set_ctrl_c (Some true))
  | SIG_IGN => ret tt
  end.

(** A point of the conversion of [source] at which a [SIGINT] that has
    arrived is handled.  A signal is taken to arrive, if at all, while
    the decorated function is running. *)
Definition sigint_point (source : entry) (step : nat) : M unit :=
  w <- get ;;
  if sigint_arrives (env w) source step then handle_sigint else ret tt.

Definition is_KeyboardInterrupt (e : exn) : bool :=
  match e with
  | KeyboardInterrupt => true
  | _ => false
  end.

(** what a decorated worker returns: the value of the function, or an
    exception object ([return KeyboardInterrupt()]) *)
Inductive returned (B : Type) : Type :=
| Value (b : B)
| Exc (e : exn).
Arguments Value {B} b.
Arguments Exc {B} e.

(** [try: m finally: f] *)
Definition try_finally {A} (m : M A) (f : world -> world) : M A :=
  fun w => let '(r, w') := m w in (r, f w').

(** [worker_sigint_CTRL_C(func)] *)
Definition worker_sigint_CTRL_C {B} (func : M B) : M (returned B) :=
  w <- get ;;
  match ctrl_c_entered w with
  | None => b <- func ;; ret (Value b)
  | Some false =>
      modify (set_sigint (default_sigint_handler w)) ;;;
      try_finally
        (try_except (b <- func ;; ret (Value b)) is_KeyboardInterrupt
           (fun _ =>
              modify (set_ctrl_c (Some true)) ;;;
              ret (Exc KeyboardInterrupt)))
        (set_sigint pool_CTRL_C_handler)
  | Some true => ret (Exc KeyboardInterrupt)
  end.

(** *** [map_workers] *)

(** What [map_workers] returns: the lazy, one-shot iterator of the
    builtin [map], which calls [func] when it is iterated, or the list a
    pool returns. *)
Inductive results (A B : Type) : Type :=
| map_object (func : A -> M B) (tasks : list A)
| result_list (l : list B).
Arguments map_object {A B} func tasks.
Arguments result_list {A B} l.

(** [for item in r]: the items, and [r] afterwards *)
Definition iterate {A B} (r : results A B) : M (list B * results A B) :=
  match r with
  | map_object func tasks =>
      l <- map_M func tasks ;; ret (l, map_object func [])
  | result_list l => ret (l, r)
  end.

(** A pool hands the tasks to its workers, and stores the value of the
    task at position [i] in slot [i] of the result when that task
    completes.  The tasks complete in the order [completion n]. *)
Fixpoint pool_run {A B} (func : A -> M B) (tasks : list A)
    (order : list nat) (slots : list (option B)) : M (list (option B)) :=
  match order with
  | [] => ret slots
  | i :: order' =>
      match tasks !! i with
      | Some x =>
          y <- func x ;;
          pool_run func tasks order' (<[i := Some y]> slots)
      | None => pool_run func tasks order' slots
      end
  end.

Fixpoint collect {B} (slots : list (option B)) : option (list B) :=
  match slots with
  | [] => Some []
  | Some y :: slots' =>
      match collect slots' with
      | Some r => Some (y :: r)
      | None => None
      end
  | None :: _ => None
  end.

(** [pool.map(func, tasks)]; it returns when every task has completed *)
Definition pool_map {A B} (func : A -> M B) (tasks : list A) : M (list B) :=
  w <- get ;;
  let n := len tasks in
  slots <- pool_run func tasks (completion (env w) n) (replicate n None) ;;
  match collect slots with
  | Some l => ret l
  | None => raise (AssertionError "a task of the pool never completed")
  end.

(** the tasks of a process pool run in other processes: what they do to
    the module globals and to the objects is lost, what they do to the
    file system stays.  The values come back as the tasks computed them;
    of a [Page], which is created anew from its [fp] on arrival
    ([Page.__reduce__]), [fp] is what is meaningful afterwards. *)
Definition in_processes {B} (m : M B) : M B :=
  fun w => let '(r, w') := m (init_pool w) in (r, set_fs (fs w') w).

Definition map_workers {A B} (func : A -> M B) (tasks : list A)
    (multithread : bool) : M (results A B) :=
  w <- get ;;
  let pcount := Z.min (Z.of_nat (len tasks)) (ConfigM.pcount w) in
  if pcount =? 1 then ret (map_object func tasks)
  else if pcount <? 1 then
    raise (ValueError "Number of processes must be at least 1")
  else if multithread then
    l <- pool_map func tasks ;; ret (result_list l)
  else
    (* [platform.system == "windows"] compares a function with a string
       and is never true *)
    l <- in_processes (pool_map func tasks) ;; ret (result_list l).

(** *** [write_zip] *)

Definition entry_page (e : entry) : M Page :=
  match e with
  | EPage p => ret p
  | EPath _ => raise AttributeError
  end.

(** [new_zip.write(fp, dest, compress_type)] on the container at [zip] *)
Definition zip_write (zip : path) (src : path) (dest : path) (deflated : bool)
  : M unit :=
  f <- read_file src ;;
  z <- read_file zip ;;
  match z with
  | FZip members comment =>
      write_file zip (FZip (members ++ [(path_str dest, f, deflated)]) comment)
  | _ => raise BadZipFile
  end.

Definition zip_set_comment (zip : path) (comment : string) : M unit :=
  z <- read_file zip ;;
  match z with
  | FZip members _ => write_file zip (FZip members comment)
  | _ => raise BadZipFile
  end.

(** the destination of a page of chapter [i] (from 0) of [n] chapters *)
Definition zip_dest (chapter_prefix : string) (n i : nat) (p : Page) : path :=
  let lead_zeroes := String.length (str_of_nat n) in
  if (1 <? n)%nat
  then join (Path (chapter_prefix +:+ format_0d lead_zeroes (i + 1))) (rel_path p)
  else rel_path p.

Fixpoint write_chapters (save_path : path) (chapter_prefix : string)
    (n i : nat) (chapters : list (list entry)) : M unit :=
  match chapters with
  | [] => ret tt
  | chapter :: rest =>
      for_each chapter (fun e =>
        page <- entry_page e ;;
        let dest := zip_dest chapter_prefix n i page in
        w <- get ;;
        zip_write save_path (fp page) dest (compress_zip (cfg w))) ;;;
      write_chapters save_path chapter_prefix n (S i) rest
  end.

Definition write_zip (save_path : path) (chapters : list (list entry))
    (chapter_prefix : string) : M path :=
  write_file save_path (FZip [] "") ;;;
  write_chapters save_path chapter_prefix (len chapters) 0 chapters ;;;
  w <- get ;;
  zip_set_comment save_path (ZIPCOMMENT (cfg w)) ;;;
  ret save_path.

End Util.

#[global] Instance result_mbind : MBind Py.result :=
  fun A B k r => Py.rbind r k.

(* ===================================================================== *)
(** ** [reCBZ2/models/comic_archive.py]                                    *)
(* ===================================================================== *)

Module ComicArchive.
Import Py Pathlib World OS PIL Util.

Definition SOURCE_NAME : string := "Source".
Definition VALID_BOOK_FORMATS : list string := ["cbz"; "zip"; "epub"; "mobi"].
Definition chapter_prefix : string := "v".

(** *** [get_size_that_preserves_ratio] *)

(** [min(a, b, key=key)]: [b] only when its key is strictly below *)
Definition min_by_key (key : Z -> result float) (a b : Z) : result Z :=
  ka ← key a;
  kb ← key b;
  Ok (if float_lt kb ka then b else a).

(** [round_aspect(number, key)] *)
Definition round_aspect (number : float) (key : Z -> result float) : result Z :=
  lo ← math_floor number;
  hi ← math_ceil number;
  m ← min_by_key key lo hi;
  Ok (Z.max m 1).

Definition get_size_that_preserves_ratio
    (img_size : Z * Z) (size_of_viewport : Z * Z) : result (Z * Z) :=
  let '(x, y) := size_of_viewport in
  let '(width, height) := img_size in
  aspect ← int_truediv width height;
  r ← int_truediv x y;
  if float_ge r aspect then
    fy ← float_of_int y;
    x' ← round_aspect (float_mul fy aspect)
           (fun n => q ← int_truediv n y; Ok (float_abs (float_sub aspect q)));
    Ok (x', y)
  else
    fx ← float_of_int x;
    number ← float_div fx aspect;
    y' ← round_aspect number
           (fun n =>
              if n =? 0 then Ok (S754_zero false)
              else q ← int_truediv x n; Ok (float_abs (float_sub aspect q)));
    Ok (x, y').

(** *** [convert_page_worker] *)

Definition entry_fp (e : entry) : M path :=
  match e with
  | EPage p => ret (fp p)
  | EPath _ => raise AttributeError
  end.

Definition is_open_error (e : exn) : bool :=
  match e with
  | IOError | UnidentifiedImageError => true
  | _ => false
  end.
Definition is_KeyError (e : exn) : bool :=
  match e with
  | KeyError _ => true
  | _ => false
  end.

(** the resize of the transform steps: the size the image is resized to,
    or [None] when no branch resizes *)
Definition resize_target (options : Options) (landscape : bool)
    (img_size : Z * Z) : result (option (Z * Z)) :=
  let '(width, height) := img_size in
  let new_size := opt_size options in
  let new_size := if landscape then (snd new_size, fst new_size) else new_size in
  let '(n_width, n_height) := new_size in
  resize_size ←
    (if opt_keep_ratio options
     then get_size_that_preserves_ratio (width, height) new_size
     else Ok new_size);
  if (n_width <? width) && (n_height <? height) && negb (opt_nodown options)
  then Ok (Some resize_size)
  else if negb (opt_noup options) then Ok (Some resize_size)
  else Ok None.

(** the body of [convert_page_worker]; a [SIGINT] is handled before the
    page is read, between the assignment of [LossyFmt.quality] and the
    save, or after the save *)
Definition convert_page (source : entry) (options : Options)
    (savedir : option path) : M (bool * Page) :=
  sigint_point source 0 ;;;
  src_fp <- entry_fp source ;;
  page <- PageM.init src_fp ;;
  opened <-
    try_except
      (try_except
         (fp1 <- PageM.fmt page ;;
          ip <- PageM.img (snd fp1) ;;
          ret (inl (fst fp1, fst ip, snd ip)))
         is_open_error
         (fun err =>
            w <- get ;;
            if ignore_page_err (cfg w) then ret (inr page) else raise err))
      is_KeyError
      (fun err =>
         w <- get ;;
         if ignore_page_err (cfg w) then
           (* the format is rejected after the file has been opened, and
              the page stays open *)
           ip <- PageM.img page ;; ret (inr (snd ip))
         else raise err) ;;
  match opened with
  | inr page => ret (false, page)
  | inl (source_fmt, img, page) =>
      let new_fmt :=
        match opt_format options with
        | Some f => f
        | None => source_fmt
        end in
      let page := PageM.set_fmt new_fmt page in
      let img :=
        if Format_eqb new_fmt Jpeg && negb (String.eqb (im_mode img) "RGB")
        then PIL.convert img "RGB" else img in
      let img := if opt_grayscale options then PIL.convert img "L" else img in
      img_page <-
        (if all2 (opt_size options) then
           lp <- PageM.landscape page ;;
           target <- lift (resize_target options (fst lp) (im_size img)) ;;
           match target with
           | Some resize_size => ret (PIL.resize img resize_size, snd lp)
           | None => ret (img, snd lp)
           end
         else ret (img, page)) ;;
      let '(img, page) := img_page in
      modify (set_quality (opt_quality options)) ;;;
      sigint_point source 1 ;;;
      let page := PageM.set_img img page in
      w <- get ;;
      let ext := fmt_ext (env w) new_fmt in
      new_fp <-
        match savedir with
        | Some d => ret (joinpath d (stem page +:+ ext))
        | None =>
            dir <- lift (parents0 (fp page)) ;;
            ret (joinpath dir (stem page +:+ ext))
        end ;;
      page <- PageM.save page new_fp ;;
      sigint_point source 2 ;;;
      ret (true, page)
  end.

(** [convert_page_worker], decorated with [worker_sigint_CTRL_C] *)
Definition convert_page_worker (source : entry) (options : Options)
    (savedir : option path) : M (returned (bool * Page)) :=
  worker_sigint_CTRL_C (convert_page source options savedir).

(** *** The archive object *)

Definition get_self (self : nat) : M Archive :=
  w <- get ;;
  match heap w !! self with
  | Some a => ret a
  | None => raise AttributeError
  end.

Definition put_self (self : nat) (a : Archive) : M unit :=
  modify (fun w => set_heap (<[self := a]> (heap w)) w).

Definition set_index (l : list entry) (a : Archive) : Archive :=
  mkArchive (a_fp a) (_page_opt a) l (_chapter_lengths a) (_bad_files a)
    (_cachedir a).
Definition set_chapter_lengths (l : list Z) (a : Archive) : Archive :=
  mkArchive (a_fp a) (_page_opt a) (_index a) l (_bad_files a) (_cachedir a).
Definition set_bad_files (l : list path) (a : Archive) : Archive :=
  mkArchive (a_fp a) (_page_opt a) (_index a) (_chapter_lengths a) l
    (_cachedir a).

Definition set_opt_format (f : option Format) (o : Options) : Options :=
  mkOptions f (opt_quality o) (opt_size o) (opt_keep_ratio o)
    (opt_grayscale o) (opt_noup o) (opt_nodown o).
Definition set_opt_quality (q : Z) (o : Options) : Options :=
  mkOptions (opt_format o) q (opt_size o) (opt_keep_ratio o)
    (opt_grayscale o) (opt_noup o) (opt_nodown o).
Definition set_opt_grayscale (g : bool) (o : Options) : Options :=
  mkOptions (opt_format o) (opt_quality o) (opt_size o) (opt_keep_ratio o)
    g (opt_noup o) (opt_nodown o).
Definition set_opt_size (s : Z * Z) (o : Options) : Options :=
  mkOptions (opt_format o) (opt_quality o) s (opt_keep_ratio o)
    (opt_grayscale o) (opt_noup o) (opt_nodown o).

(** [get_format_class(name)] *)
Definition get_format_class (name : option string) : M (option Format) :=
  match name with
  | None => ret None
  | Some n =>
      if String.eqb n "" then ret None
      else
        w <- get ;;
        match FormatDict (env w) n with
        | Some f => ret (Some f)
        | None => raise (ValueError "Invalid format name")
        end
  end.

(** *** [extract] *)

Definition is_dir_member (name : string) : bool :=
  match String.get (String.length name - 1) name with
  | Some c => is_sep c
  | None => false
  end.

(** [ZipFile.getinfo(name)]: the last member of that name *)
Fixpoint getinfo (members : list (string * file * bool)) (name : string)
  : option file :=
  match members with
  | [] => None
  | (n, f, _) :: rest =>
      match getinfo rest name with
      | Some g => Some g
      | None => if String.eqb n name then Some f else None
      end
  end.

(** the parts of a member name that [extract] keeps *)
Definition is_member_part (x : string) : bool :=
  is_part x && negb (String.eqb x "..").

(** [source_zip.extract(name, cachedir)] *)
Definition zip_extract (members : list (string * file * bool))
    (name : string) (cachedir : path) : M unit :=
  match getinfo members name with
  | None => raise (KeyError "There is no item named in the archive")
  | Some f =>
      let target := cachedir ++ List.filter is_member_part (split_sep "" name) in
      if is_dir_member name then makedirs target
      else makedirs (parent target) ;;; write_file target f
  end.

(** the members [extract] unpacks: all of them, or for [count > 0] every
    second one of the [2 * count] around the middle.  [int(n / 2)] is
    [n / 2] for the length [n] of a list, which a [float] holds exactly. *)
Definition select_members (compressed_files : list string) (count : Z)
  : result (list string) :=
  if 0 <? count then
    if Z.of_nat (len compressed_files) <? count * 2
    then Raise (ValueError "is smaller than samples * 2")
    else
      let delta := Z.of_nat (len compressed_files) / 2 in
      Ok (slice compressed_files (delta - count) (delta + count) 2)
  else Ok compressed_files.

(** [extract(count)], with [raw] left at [False] *)
Definition extract (self : nat) (count : Z) : M (list Page) :=
  a <- get_self self ;;
  z <- read_file (a_fp a) ;;
  match z with
  | FZip members _ =>
      let compressed_files := map (fun m => fst (fst m)) members in
      if (len compressed_files <? 1)%nat
      then raise (AssertionError "no files in archive")
      else
        selected <- lift (select_members compressed_files count) ;;
        for_each selected (fun file =>
          zip_extract members file (_cachedir a)) ;;;
        found <- rglob (_cachedir a) ;;
        w <- get ;;
        let raw_paths := List.filter (is_file_in (fs w)) found in
        sorted_paths <- lift (human_sort_paths raw_paths) ;;
        map_M (fun p => PageM.init (Path p)) sorted_paths
  | _ => raise (ValueError "not a zip file")
  end.

(** *** [fetch_pages], [fetch_chapters] *)

Definition fetch_pages (self : nat) : M (list entry) :=
  a <- get_self self ;;
  if (len (_index a) =? 0)%nat then
    pages <- extract self 0 ;;
    a <- get_self self ;;
    put_self self (set_index (map EPage pages) a) ;;;
    ret (map EPage pages)
  else ret (_index a).

(** the loop of [fetch_chapters]: [chapters.append(index_copy[:length])]
    and [del index_copy[:length]] for every length *)
Fixpoint cut_chapters {A} (index_copy : list A) (lengths : list Z)
  : list (list A) :=
  match lengths with
  | [] => []
  | length :: rest =>
      slice_to index_copy length ::
      cut_chapters (skipn (len (slice_to index_copy length)) index_copy) rest
  end.

Definition fetch_chapters (self : nat) : M (list (list entry)) :=
  index_copy <- fetch_pages self ;;
  a <- get_self self ;;
  (if (len (_chapter_lengths a) =? 0)%nat
   then put_self self (set_chapter_lengths [Z.of_nat (len index_copy)] a)
   else ret tt) ;;;
  a <- get_self self ;;
  ret (cut_chapters index_copy (_chapter_lengths a)).

(** *** [add_chapter], [convert_pages], [add_page], [remove_page] *)

Definition truthy (z : option Z) : bool :=
  match z with
  | Some v => negb (v =? 0)
  | None => false
  end.

Definition add_chapter (self second_archive : nat) (start end_ : option Z)
  : M (list entry) :=
  new_chapter <- fetch_pages second_archive ;;
  let new_chapter :=
    match start with
    | Some s => if negb (s =? 0) then slice_from new_chapter s else new_chapter
    | None => new_chapter
    end in
  new_chapter <-
    match end_ with
    | Some e =>
        if negb (e =? 0) then
          (* [assert type(start) is int]: the type of [start] is tested,
             also here *)
          match start with
          | Some _ => ret (slice_to new_chapter e)
          | None => raise (ValueError "end must be an integer")
          end
        else ret new_chapter
    | None => ret new_chapter
    end ;;
  fetch_chapters self ;;;
  a <- get_self self ;;
  let a := set_chapter_lengths
             (_chapter_lengths a ++ [Z.of_nat (len new_chapter)]) a in
  put_self self (set_index (_index a ++ new_chapter) a) ;;;
  fetch_pages self.

(** [item[0]] and [item[1]] of what a worker returned *)
Definition item (r : returned (bool * Page)) : M (bool * Page) :=
  match r with
  | Value v => ret v
  | Exc _ => raise TypeError
  end.

Definition convert_pages (self : nat) (fmt : option string)
    (quality : option Z) (grayscale : option bool) (size : option (Z * Z))
  : M (list entry) :=
  a <- get_self self ;;
  let options := _page_opt a in
  options <-
    match fmt with
    | Some _ => f <- get_format_class fmt ;; ret (set_opt_format f options)
    | None => ret options
    end ;;
  let options :=
    match quality with
    | Some q => set_opt_quality q options
    | None => options
    end in
  let options :=
    match grayscale with
    | Some g => set_opt_grayscale g options
    | None => options
    end in
  let options :=
    match size with
    | Some s => set_opt_size s options
    | None => options
    end in
  let worker := fun source => convert_page_worker source options None in
  tasks <- fetch_pages self ;;
  results <- map_workers worker tasks false ;;
  (* [[item[1].fp for item in results if item[0] is False]] *)
  it1 <- iterate results ;;
  items1 <- map_M item (fst it1) ;;
  a <- get_self self ;;
  put_self self
    (set_bad_files
       (map (fun i => fp (snd i)) (List.filter (fun i => negb (fst i)) items1))
       a) ;;;
  (* [[item[1] for item in results if item[0]]] *)
  it2 <- iterate (snd it1) ;;
  items2 <- map_M item (fst it2) ;;
  a <- get_self self ;;
  let index := map (fun i => EPage (snd i)) (List.filter fst items2) in
  put_self self (set_index index a) ;;;
  ret index.

Definition add_page (self : nat) (fp : path) (index : Z) : M unit :=
  ok <- path_exists fp ;;
  if ok then
    PageM.init fp ;;;
    a <- get_self self ;;
    put_self self (set_index (list_insert (_index a) index (EPath fp)) a)
  else raise (ValueError "can't open")
.

Definition remove_page (self : nat) (index : Z) : M entry :=
  a <- get_self self ;;
  r <- lift (list_pop (_index a) index) ;;
  put_self self (set_index (snd r) a) ;;;
  ret (fst r).

(** *** [compute_fmt_sizes] *)

(** a row of the size report: bytes, description, name *)
Definition fsize : Type := Z * string * string.

Definition fsize_key (r : fsize) : list val :=
  [VInt (fst (fst r)); VStr (snd (fst r)); VStr (snd r)].

(** [r < r'] on tuples *)
Definition fsize_lt (r r' : fsize) : option bool :=
  list_lt (fsize_key r) (fsize_key r').

(** the last step: [sorted_fmts = list(sorted(fmt_fsizes))] and
    [sorted_fmts.insert(0, source_fsize)] *)
Definition rank_fmt_sizes (source_fsize : fsize) (fmt_fsizes : list fsize)
  : result (list fsize) :=
  match sorted fsize_lt fmt_fsizes with
  | Some sorted_fmts => Ok (list_insert sorted_fmts 0 source_fsize)
  | None => Raise TypeError
  end.

Definition sum_sizes (paths : list path) : M Z :=
  sizes <- map_M stat_size paths ;; ret (sum sizes).

Definition compute_single_fmt (sample_pages : list Page) (cachedir : path)
    (options0 : Options) (fmt : Format) : M fsize :=
  w <- get ;;
  let fmtdir := joinpath cachedir (fmt_name (env w) fmt) in
  mkdir fmtdir ;;;
  let options := set_opt_format (Some fmt) options0 in
  let worker := fun source => convert_page_worker source options (Some fmtdir) in
  results <- map_workers worker (map EPage sample_pages) false ;;
  it <- iterate results ;;
  items <- map_M item (fst it) ;;
  let converted_pages := map snd (List.filter fst items) in
  nbytes <- sum_sizes (map fp converted_pages) ;;
  ret (nbytes, fmt_desc (env w) fmt, fmt_name (env w) fmt).

Definition compute_fmt_sizes (self : nat) : M (list fsize) :=
  w <- get ;;
  source_pages <- extract self (samples_count (cfg w)) ;;
  nbytes <- sum_sizes (map fp source_pages) ;;
  match source_pages with
  | [] => raise IndexError
  | first :: _ =>
      sf <- PageM.fmt first ;;
      let source_fmt := fst sf in
      let source_fsize : fsize :=
        (nbytes,
         SOURCE_NAME +:+ " (" +:+ fmt_desc (env w) source_fmt +:+ ")",
         fmt_name (env w) source_fmt) in
      a <- get_self self ;;
      let worker := compute_single_fmt source_pages (_cachedir a) (_page_opt a) in
      results <- map_workers worker (allowed_page_formats (cfg w)) true ;;
      it <- iterate results ;;
      lift (rank_fmt_sizes source_fsize (fst it))
  end.

(** *** [write_archive] *)

(** Modelled from the spec: [reCBZ2/epub.py] is not among the sources.
    The ebook packager is an external service that builds the book of a
    title from the ordered chapters and returns where it wrote it. *)
Definition write_epub (save_path : path) (chapters : list (list entry))
  : M path :=
  w <- get ;;
  let title := stem_of save_path in
  let dest := epub_dest (env w) title in
  write_file dest (FData 0) ;;;
  ret dest.

Definition str_in (x : string) (l : list string) : bool :=
  existsb (String.eqb x) l.

(** the dispatch on the book format, at the end of [write_archive] *)
Definition write_container (self : nat) (book_format : string)
    (new_path : path) : M path :=
  if String.eqb book_format "cbz" then
    chapters <- fetch_chapters self ;;
    write_zip new_path chapters chapter_prefix
  else if String.eqb book_format "zip" then
    chapters <- fetch_chapters self ;;
    write_zip new_path chapters chapter_prefix
  else if String.eqb book_format "epub" then
    chapters <- fetch_chapters self ;;
    write_epub new_path chapters
  else if String.eqb book_format "mobi" then raise NotImplementedError
  else raise (ValueError "").

(** the destination [write_archive] computes *)
Definition destination (a : Archive) (book_format file_name : string) : path :=
  if negb (String.eqb file_name "")
  then Path (file_name +:+ "." +:+ book_format)
  else Path (stem_of (a_fp a) +:+ "." +:+ book_format).

Definition write_archive (self : nat) (book_format : string)
    (file_name : string) : M path :=
  if negb (str_in book_format VALID_BOOK_FORMATS)
  then raise (ValueError "Invalid format")
  else
    a <- get_self self ;;
    (if negb (String.eqb file_name "") then
       parent_dir <- lift (parents0 (Path file_name)) ;;
       ex <- path_exists parent_dir ;;
       isd <- path_is_dir parent_dir ;;
       if ex && isd then ret tt
       else raise (ValueError "Parent folder does not exist")
     else ret tt) ;;;
    let new_path := destination a book_format file_name in
    ex <- path_exists new_path ;;
    (if ex then unlink new_path else ret tt) ;;;
    write_container self book_format new_path.

End ComicArchive.

(* ===================================================================== *)
(** ** A small world to run the code in                                    *)
(* ===================================================================== *)

Module Sample.
Import Py Pathlib World OS PIL Util ComicArchive.

Definition name_of_fmt (f : Format) : string :=
  match f with
  | Png => "png"
  | Jpeg => "jpeg"
  | WebpLossless => "webpll"
  | WebpLossy => "webp"
  end.

Definition desc_of_fmt (f : Format) : string :=
  match f with
  | Png => "PNG"
  | Jpeg => "JPEG"
  | WebpLossless => "WebP Lossless"
  | WebpLossy => "WebP"
  end.

Definition ext_of_fmt (f : Format) : string :=
  match f with
  | Png => ".png"
  | Jpeg => ".jpeg"
  | WebpLossless | WebpLossy => ".webp"
  end.

Definition format_dict (n : string) : option Format :=
  if String.eqb n "png" then Some Png
  else if String.eqb n "jpeg" then Some Jpeg
  else if String.eqb n "webpll" then Some WebpLossless
  else if String.eqb n "webp" then Some WebpLossy
  else None.

(** an encoder under which a page weighs 800 bytes as WebP, 900 as JPEG,
    1200 as lossless WebP and 1000 as PNG *)
Definition size_of_fmt (f : Format) (quality : Z) (i : Image) : Z :=
  match f with
  | WebpLossy => 800
  | Jpeg => 900
  | Png => 1000
  | WebpLossless => 1200
  end.

Definition env0 : Env :=
  {| CACHE_PREFIX := "reCBZ";
     gettempdir := ["/"; "tmp"];
     cpu_count := Some 4;
     fmt_name := name_of_fmt;
     fmt_desc := desc_of_fmt;
     fmt_ext := ext_of_fmt;
     FormatDict := format_dict;
     epub_dest := fun title => [title +:+ ".epub"];
     encoded_size := size_of_fmt;
     listing := fun l => rev l;
     completion := fun n => rev (seq 0 n);
     sigint_arrives := fun _ _ => false |}.

Definition cfg0 : Config :=
  {| ignore_page_err := true;
     samples_count := 1;
     processes := 0;
     compress_zip := false;
     ZIPCOMMENT := "repacked with reCBZ";
     allowed_page_formats := [WebpLossy; WebpLossless; Jpeg] |}.

Definition png (w h : Z) : file :=
  FImage (mkImage (Some "PNG") "RGB" (w, h)) "" 1000.

(** a book of four members, one of them not an image *)
Definition book_members : list (string * file * bool) :=
  [("p10.png", png 100 100, false); ("p2.png", png 100 100, false);
   ("p1.png", png 200 100, false); ("notes.txt", FData 12, false)].
Definition book : file := FZip book_members "".

Definition global_cachedir : path := ["/"; "tmp"; "reCBZ_0"].
Definition cachedir0 : path := global_cachedir ++ ["book_0"].
Definition cachedir1 : path := global_cachedir ++ ["book_1"].

Definition options0 : Options :=
  {| opt_format := None;
     opt_quality := 80;
     opt_size := (0, 0);
     opt_keep_ratio := false;
     opt_grayscale := false;
     opt_noup := false;
     opt_nodown := false |}.

(** what [ComicArchive(filename)] builds *)
Definition new_archive (filename : path) (cachedir : path) : Archive :=
  {| a_fp := filename;
     _page_opt := options0;
     _index := [];
     _chapter_lengths := [];
     _bad_files := [];
     _cachedir := cachedir |}.

Definition fs0 : gmap path node :=
  list_to_map
    [(["book.cbz"], NFile book);
     (["/"; "tmp"], NDir);
     (global_cachedir, NDir);
     (cachedir0, NDir);
     (cachedir1, NDir)].

Definition w0 : world :=
  {| fs := fs0;
     LossyFmt_quality := 80;
     ctrl_c_entered := None;
     sigint := default_int_handler;
     default_sigint_handler := default_int_handler;
     cfg := cfg0;
     env := env0;
     heap := {[ 0%nat := new_archive ["book.cbz"] cachedir0;
                1%nat := new_archive ["book.cbz"] cachedir1 ]} |}.

(** six converted pages in three chapters of 2, 1 and 3 pages *)
Definition page_at (dir : path) (name : string) : Page :=
  mkPage (dir ++ [name]) [name] name (stem_of_name name) None None true.

Definition chapters3 : list (list Page) :=
  [[page_at cachedir0 "a1.png"; page_at cachedir0 "a2.png"];
   [page_at cachedir0 "b1.png"];
   [page_at cachedir0 "c1.png"; page_at cachedir0 "c2.png";
    page_at cachedir0 "c3.png"]].

(** the pages on disk, and a file left by an earlier run *)
Definition fs3 : gmap path node :=
  list_to_map
    ([(["/"; "tmp"], NDir); (global_cachedir, NDir); (cachedir0, NDir);
      (["out.cbz"], NFile (FData 7))] ++
     map (fun p => (fp p, NFile (png 100 100))) (List.concat chapters3)).

Definition w3 : world :=
  mkWorld fs3 80 None default_int_handler default_int_handler cfg0 env0
    {[ 0%nat := mkArchive ["book.cbz"] options0
                  (map EPage (List.concat chapters3)) [2; 1; 3] [] cachedir0 ]}.

End Sample.

(* ===================================================================== *)
(** * Properties                                                           *)
(* ===================================================================== *)

Import Py Pathlib World OS PIL Util ComicArchive.

(* ===================================================================== *)
(** ** Reasoning about computations                                        *)
(* ===================================================================== *)

Lemma bind_Ok_inv {A B} (m : M A) (k : A -> M B) w b w' :
  bind m k w = (Ok b, w') ->
  exists a w1, m w = (Ok a, w1) /\ k a w1 = (Ok b, w').
Proof.
  unfold bind. destruct (m w) as [[a|e] w1]; [eauto|discriminate].
Qed.

Lemma bind_Ok {A B} (m : M A) (k : A -> M B) w a w1 :
  m w = (Ok a, w1) -> bind m k w = k a w1.
Proof. unfold bind. now intros ->. Qed.

Lemma bind_Raise {A B} (m : M A) (k : A -> M B) w e w1 :
  m w = (Raise e, w1) -> bind m k w = (Raise e, w1).
Proof. unfold bind. now intros ->. Qed.

Lemma lift_Ok_inv {A} (r : result A) w a w' :
  lift r w = (Ok a, w') -> r = Ok a /\ w' = w.
Proof. unfold lift. intros [= -> ->]. auto. Qed.

Lemma map_M_Ok_inv {A B} (f : A -> M B) (P : A -> B -> Prop) :
  (forall x w y w', f x w = (Ok y, w') -> P x y) ->
  forall l w r w', map_M f l w = (Ok r, w') -> Forall2 P l r.
Proof.
  intros Hf. induction l as [|x l IH]; simpl; intros w r w' H.
  - injection H as <- _. constructor.
  - apply bind_Ok_inv in H as (y & w1 & Hy & H).
    apply bind_Ok_inv in H as (r' & w2 & Hr & H).
    injection H as <- _. constructor; eauto.
Qed.

(* ===================================================================== *)
(** ** The orders of [str], of keys and of tuples                          *)
(* ===================================================================== *)

Module Order.

(** A comparison of values that never raises, to reason about [list_lt]:
    it agrees with [<] whenever the two values are of one kind. *)
Definition val_cmp (a b : val) : comparison :=
  match a, b with
  | VInt x, VInt y => x ?= y
  | VStr s, VStr t => String.compare s t
  | VInt _, VStr _ => Lt
  | VStr _, VInt _ => Gt
  end.

Fixpoint list_cmp (a b : list val) : comparison :=
  match a, b with
  | [], [] => Eq
  | [], _ :: _ => Lt
  | _ :: _, [] => Gt
  | x :: a', y :: b' =>
      match val_cmp x y with
      | Eq => list_cmp a' b'
      | c => c
      end
  end.

Definition is_Lt (c : comparison) : bool :=
  match c with Lt => true | _ => false end.

(** [a <= b] *)
Definition list_le (a b : list val) : Prop := list_cmp a b <> Gt.

Lemma ascii_compare_refl c : Ascii.compare c c = Eq.
Proof. unfold Ascii.compare. apply N.compare_refl. Qed.

Lemma ascii_compare_trans a b c :
  Ascii.compare a b = Lt -> Ascii.compare b c = Lt -> Ascii.compare a c = Lt.
Proof.
  unfold Ascii.compare. rewrite !N.compare_lt_iff. lia.
Qed.

Lemma string_compare_refl s : String.compare s s = Eq.
Proof.
  induction s as [|c s IH]; simpl; [reflexivity|].
  now rewrite ascii_compare_refl.
Qed.

Lemma string_compare_eq s t : String.compare s t = Eq <-> s = t.
Proof.
  split; [apply String.compare_eq_iff|].
  intros ->. apply string_compare_refl.
Qed.

Lemma string_compare_trans s : forall t u,
  String.compare s t = Lt -> String.compare t u = Lt -> String.compare s u = Lt.
Proof.
  induction s as [|a s IH]; intros [|b t] [|c u]; simpl; try easy.
  destruct (Ascii.compare a b) eqn:Hab; try easy.
  - apply Ascii.compare_eq_iff in Hab. subst b.
    destruct (Ascii.compare a c) eqn:Hac; try easy.
    apply IH.
  - destruct (Ascii.compare b c) eqn:Hbc; try easy.
    + apply Ascii.compare_eq_iff in Hbc. subst c. now rewrite Hab.
    + now rewrite (ascii_compare_trans _ _ _ Hab Hbc).
Qed.

Lemma val_cmp_eq a b : val_cmp a b = Eq <-> a = b.
Proof.
  destruct a as [x|s], b as [y|t]; simpl; try (split; easy).
  - rewrite Z.compare_eq_iff. split; congruence.
  - rewrite string_compare_eq. split; congruence.
Qed.

Lemma val_cmp_antisym a b : val_cmp b a = CompOpp (val_cmp a b).
Proof.
  destruct a as [x|s], b as [y|t]; simpl; try reflexivity.
  - apply Z.compare_antisym.
  - apply String.compare_antisym.
Qed.

Lemma val_cmp_trans a b c :
  val_cmp a b = Lt -> val_cmp b c = Lt -> val_cmp a c = Lt.
Proof.
  destruct a as [x|s], b as [y|t], c as [z|u]; simpl; try easy.
  - rewrite !Z.compare_lt_iff. lia.
  - apply string_compare_trans.
Qed.

Lemma val_eqb_cmp a b : val_eqb a b = true <-> val_cmp a b = Eq.
Proof.
  rewrite val_cmp_eq.
  destruct a as [x|s], b as [y|t]; simpl; try (split; easy).
  - rewrite Z.eqb_eq. split; congruence.
  - rewrite String.eqb_eq. split; congruence.
Qed.

Lemma list_cmp_refl a : list_cmp a a = Eq.
Proof.
  induction a as [|x a IH]; simpl; [reflexivity|].
  now rewrite (proj2 (val_cmp_eq x x) eq_refl).
Qed.

Lemma list_cmp_eq a : forall b, list_cmp a b = Eq <-> a = b.
Proof.
  induction a as [|x a IH]; intros [|y b]; simpl; try (split; easy).
  destruct (val_cmp x y) eqn:Hxy.
  - apply val_cmp_eq in Hxy. subst y. rewrite IH. split; congruence.
  - split; [easy|]. intros [= -> _].
    now rewrite (proj2 (val_cmp_eq y y) eq_refl) in Hxy.
  - split; [easy|]. intros [= -> _].
    now rewrite (proj2 (val_cmp_eq y y) eq_refl) in Hxy.
Qed.

Lemma list_cmp_antisym a : forall b, list_cmp b a = CompOpp (list_cmp a b).
Proof.
  induction a as [|x a IH]; intros [|y b]; simpl; try reflexivity.
  rewrite (val_cmp_antisym x y).
  destruct (val_cmp x y); simpl; auto.
Qed.

Lemma list_cmp_trans a : forall b c,
  list_cmp a b = Lt -> list_cmp b c = Lt -> list_cmp a c = Lt.
Proof.
  induction a as [|x a IH]; intros [|y b] [|z c]; simpl; try easy.
  destruct (val_cmp x y) eqn:Hxy; try easy.
  - apply val_cmp_eq in Hxy. subst y.
    destruct (val_cmp x z); try easy. apply IH.
  - destruct (val_cmp y z) eqn:Hyz; try easy.
    + apply val_cmp_eq in Hyz. subst z. now rewrite Hxy.
    + now rewrite (val_cmp_trans _ _ _ Hxy Hyz).
Qed.

Lemma list_le_trans a b c : list_le a b -> list_le b c -> list_le a c.
Proof.
  unfold list_le. intros Hab Hbc.
  destruct (list_cmp a b) eqn:E1; [|clear Hab|easy].
  - apply list_cmp_eq in E1. now subst b.
  - destruct (list_cmp b c) eqn:E2; [| |easy].
    + apply list_cmp_eq in E2. subst c. now rewrite E1.
    + now rewrite (list_cmp_trans _ _ _ E1 E2).
Qed.

(** *** Lists of one shape compare without a [TypeError] *)

Definition same_kind (a b : val) : bool :=
  match a, b with
  | VInt _, VInt _ | VStr _, VStr _ => true
  | _, _ => false
  end.

Fixpoint same_shape (a b : list val) : bool :=
  match a, b with
  | x :: a', y :: b' => same_kind x y && same_shape a' b'
  | _, _ => true
  end.

Lemma val_lt_cmp a b :
  same_kind a b = true -> val_lt a b = Some (is_Lt (val_cmp a b)).
Proof.
  destruct a as [x|s], b as [y|t]; simpl; easy.
Qed.

Lemma list_lt_cmp a : forall b,
  same_shape a b = true -> list_lt a b = Some (is_Lt (list_cmp a b)).
Proof.
  induction a as [|x a IH]; intros [|y b]; simpl; try easy.
  intros [Hk Hs]%andb_prop.
  destruct (val_eqb x y) eqn:E.
  - apply val_eqb_cmp in E. rewrite E. now apply IH.
  - rewrite (val_lt_cmp _ _ Hk).
    destruct (val_cmp x y) eqn:C; try reflexivity.
    apply val_eqb_cmp in C. congruence.
Qed.

End Order.

(* ===================================================================== *)
(** ** [sorted] sorts                                                      *)
(* ===================================================================== *)

Lemma StronglySorted_weaken {A} (R R' : A -> A -> Prop) (l : list A) :
  (forall a b, R a b -> R' a b) -> StronglySorted R l -> StronglySorted R' l.
Proof.
  intros HR. induction 1 as [|a l Hs IH Hall]; constructor; auto.
  eapply Forall_impl; [exact Hall|]. auto.
Qed.

Section SortedFacts.
Context {A : Type} (lt : A -> A -> option bool) (key : A -> list val).
Hypothesis lt_key :
  forall a b, lt a b = Some (Order.is_Lt (Order.list_cmp (key a) (key b))).

(** [a] is not above [b] *)
Definition key_le (a b : A) : Prop := Order.list_le (key a) (key b).

Lemma insort_spec x l :
  StronglySorted key_le l ->
  exists r, insort lt x l = Some r /\ Permutation (x :: l) r /\
            StronglySorted key_le r.
Proof using lt_key.
  induction 1 as [|y l Hs IH Hall]; simpl.
  - exists [x]. repeat split; auto. repeat constructor.
  - rewrite lt_key.
    destruct (Order.list_cmp (key y) (key x)) eqn:C; simpl.
    + exists (x :: y :: l). repeat split; auto.
      constructor; [now constructor|].
      assert (Hxy : key_le x y).
      { unfold key_le, Order.list_le.
        rewrite Order.list_cmp_antisym, C. easy. }
      constructor; [exact Hxy|].
      eapply Forall_impl; [exact Hall|].
      intros z Hz. eapply Order.list_le_trans; eauto.
    + destruct IH as (r & -> & Hp & Hr).
      exists (y :: r). repeat split.
      * rewrite perm_swap. now constructor.
      * constructor; [exact Hr|].
        eapply Permutation_Forall; [exact Hp|].
        constructor; [|exact Hall].
        unfold key_le, Order.list_le. now rewrite C.
    + exists (x :: y :: l). repeat split; auto.
      constructor; [now constructor|].
      assert (Hxy : key_le x y).
      { unfold key_le, Order.list_le.
        rewrite Order.list_cmp_antisym, C. easy. }
      constructor; [exact Hxy|].
      eapply Forall_impl; [exact Hall|].
      intros z Hz. eapply Order.list_le_trans; eauto.
Qed.

Lemma sorted_spec l :
  exists r, sorted lt l = Some r /\ Permutation l r /\
            StronglySorted key_le r.
Proof using lt_key.
  induction l as [|x l (r & Hr & Hp & Hs)]; simpl.
  - exists []. repeat split; auto. constructor.
  - rewrite Hr.
    destruct (insort_spec x r Hs) as (r' & Hr' & Hp' & Hs').
    exists r'. repeat split; auto.
    etransitivity; [|exact Hp']. now constructor.
Qed.
End SortedFacts.

(* ===================================================================== *)
(** ** The size report of [compute_fmt_sizes]                              *)
(* ===================================================================== *)

Definition nbytes_of (r : fsize) : Z := fst (fst r).
Definition desc_of (r : fsize) : string := snd (fst r).
Definition fmt_of (r : fsize) : string := snd r.

(** the order of the rows: by bytes, then by description, then by name *)
Definition fsize_le (r r' : fsize) : Prop :=
  nbytes_of r < nbytes_of r' \/
  (nbytes_of r = nbytes_of r' /\
   (String.compare (desc_of r) (desc_of r') = Lt \/
    (desc_of r = desc_of r' /\
     String.compare (fmt_of r) (fmt_of r') <> Gt))).

Lemma fsize_lt_key r r' :
  fsize_lt r r' =
  Some (Order.is_Lt (Order.list_cmp (fsize_key r) (fsize_key r'))).
Proof. apply Order.list_lt_cmp. reflexivity. Qed.

Lemma fsize_key_le r r' :
  Order.list_le (fsize_key r) (fsize_key r') <-> fsize_le r r'.
Proof.
  destruct r as [[n d] f], r' as [[n' d'] f'].
  unfold Order.list_le, fsize_le, fsize_key, nbytes_of, desc_of, fmt_of; simpl.
  destruct (n ?= n') eqn:Hn.
  - apply Z.compare_eq_iff in Hn. subst n'.
    destruct (String.compare d d') eqn:Hd.
    + apply Order.string_compare_eq in Hd. subst d'.
      destruct (String.compare f f') eqn:Hf; split; try easy;
        try (intros _; right; split; [reflexivity|];
             right; split; [reflexivity|easy]).
      intros [H|[_ [H|[_ H]]]]; [lia|discriminate|easy].
    + split; [intros _; right; split; auto | easy].
    + split; [easy|].
      intros [H|[_ [H|[H _]]]]; [lia|discriminate|].
      subst d'. now rewrite Order.string_compare_refl in Hd.
  - apply Z.compare_lt_iff in Hn. split; [intros _; now left | easy].
  - apply Z.compare_gt_iff in Hn. split; [easy|].
    intros [H|[H _]]; lia.
Qed.

Lemma list_insert_0 {A} (l : list A) x : list_insert l 0 x = x :: l.
Proof.
  unfold list_insert, slice_bound. simpl.
  replace (Z.to_nat (Z.max 0 (Z.min (Z.of_nat (len l)) 0))) with O by lia.
  reflexivity.
Qed.

(** C1, as the code has it.  The report of a benchmark run starts with
    the baseline row, whatever its size; the rows of the candidate formats
    follow, all of them, ascending by total byte size, rows of one size
    ordered by description and then by format name. *)
Theorem rank_fmt_sizes_baseline_first (source_fsize : fsize)
    (fmt_fsizes : list fsize) :
  exists ranked,
    rank_fmt_sizes source_fsize fmt_fsizes = Ok (source_fsize :: ranked) /\
    Permutation fmt_fsizes ranked /\
    StronglySorted (fun r r' => nbytes_of r <= nbytes_of r') ranked /\
    StronglySorted fsize_le ranked.
Proof.
  destruct (sorted_spec fsize_lt fsize_key fsize_lt_key fmt_fsizes)
    as (ranked & Hs & Hp & Hsorted).
  exists ranked. unfold rank_fmt_sizes. rewrite Hs, list_insert_0.
  assert (Hle : StronglySorted fsize_le ranked).
  { eapply StronglySorted_weaken; [|exact Hsorted].
    intros r r' H. now apply fsize_key_le. }
  repeat split; auto.
  eapply StronglySorted_weaken; [|exact Hle].
  intros r r' [H|[H _]]; lia.
Qed.

(** C1, as the specification has it, fails: with a baseline of 1000 bytes
    and candidates of 800, 1200 and 900 bytes the report is ordered
    1000, 800, 900, 1200. *)
Lemma rank_fmt_sizes_baseline_not_ranked :
  exists report,
    rank_fmt_sizes (1000, "Source (PNG)", "png")
      [(800, "WebP", "webp"); (1200, "WebP Lossless", "webpll");
       (900, "JPEG", "jpeg")] = Ok report /\
    map nbytes_of report = [1000; 800; 900; 1200] /\
    map nbytes_of report <> [800; 900; 1000; 1200].
Proof.
  eexists. split; [reflexivity|]. split; [reflexivity|discriminate].
Qed.

(** the whole of [compute_fmt_sizes] on the sample book, whose source
    pages are PNG: the report starts with the source row *)
Lemma compute_fmt_sizes_sample_report :
  fst (compute_fmt_sizes 0 Sample.w0) =
  Ok [(1000, "Source (PNG)", "png"); (800, "WebP", "webp");
      (900, "JPEG", "jpeg"); (1200, "WebP Lossless", "webpll")].
Proof. vm_compute. reflexivity. Qed.

(* ===================================================================== *)
(** ** The sample of a partial extraction                                  *)
(* ===================================================================== *)

Lemma every_0_2_cons2 {A} (x y : A) l :
  every 0 2 (x :: y :: l) = x :: every 0 2 l.
Proof. reflexivity. Qed.

Lemma every_0_2_lookup {A} (l : list A) :
  forall i, every 0 2 l !! i = l !! (2 * i)%nat.
Proof.
  induction l as [l IH] using (induction_ltof1 _ (@List.length A)).
  unfold ltof in IH.
  intros i. destruct l as [|x [|y l]].
  - reflexivity.
  - destruct i as [|i]; [reflexivity|].
    simpl. now rewrite !lookup_nil.
  - rewrite every_0_2_cons2. destruct i as [|i]; [reflexivity|].
    replace (2 * S i)%nat with (S (S (2 * i))) by lia. simpl.
    now rewrite IH by (simpl; lia).
Qed.

Lemma every_0_2_length {A} (l : list A) :
  forall k, len l = (2 * k)%nat -> len (every 0 2 l) = k.
Proof.
  induction l as [l IH] using (induction_ltof1 _ (@List.length A)).
  unfold ltof in IH.
  intros k Hk. destruct l as [|x [|y l]].
  - simpl in *. lia.
  - simpl in *. lia.
  - rewrite every_0_2_cons2. simpl in *.
    destruct k as [|k]; [lia|]. f_equal. apply IH; simpl; lia.
Qed.

Lemma slice_bound_in (n : nat) (i : Z) :
  0 <= i <= Z.of_nat n -> slice_bound n i = Z.to_nat i.
Proof.
  intros H. unfold slice_bound.
  destruct (i <? 0) eqn:E; [apply Z.ltb_lt in E; lia|].
  f_equal. lia.
Qed.

(** the window of [2 * k] members around the middle, read with stride 2 *)
Lemma slice_midpoint {A} (l : list A) (k : Z) :
  0 < k -> 2 * k <= Z.of_nat (len l) ->
  let delta := Z.of_nat (len l) / 2 in
  let sample := slice l (delta - k) (delta + k) 2 in
  Z.of_nat (len sample) = k /\
  forall i, 0 <= i < k ->
    sample !! Z.to_nat i = l !! Z.to_nat (delta - k + 2 * i).
Proof.
  intros Hk Hn delta sample.
  assert (Hd : k <= delta) by (unfold delta; apply Z.div_le_lower_bound; lia).
  assert (Hd' : 2 * delta <= Z.of_nat (len l))
    by (unfold delta; apply Z.mul_div_le; lia).
  unfold sample, slice.
  rewrite !slice_bound_in by lia.
  set (lo := Z.to_nat (delta - k)).
  replace (Z.to_nat (delta + k) - lo)%nat with (2 * Z.to_nat k)%nat by lia.
  assert (Hlen : len (firstn (2 * Z.to_nat k) (skipn lo l)) = (2 * Z.to_nat k)%nat).
  { rewrite length_firstn, length_skipn. lia. }
  split.
  - rewrite (every_0_2_length _ (Z.to_nat k) Hlen). lia.
  - intros i Hi. rewrite every_0_2_lookup.
    rewrite lookup_take_lt by lia.
    rewrite lookup_drop. f_equal. lia.
Qed.

(** C3, as the specification has it, fails: from four members and a
    sample count of 1 the selection holds one member, not two. *)
Lemma select_members_not_2k :
  exists sample,
    select_members ["p1"; "p2"; "p3"; "p4"] 1 = Ok sample /\
    sample = ["p2"] /\
    Z.of_nat (len sample) <> 2 * 1.
Proof.
  eexists. split; [reflexivity|]. split; [reflexivity|]. simpl. lia.
Qed.

(* ===================================================================== *)
(** ** [human_sort]                                                        *)
(* ===================================================================== *)

(** a run of text: no digit in it *)
Fixpoint no_digit (s : string) : bool :=
  match s with
  | EmptyString => true
  | String c s' => negb (is_digit c) && no_digit s'
  end.

(** text follows: nothing, or a character that is not a digit *)
Definition starts_text (s : string) : bool :=
  match s with
  | EmptyString => true
  | String c _ => negb (is_digit c)
  end.

(** text precedes: [t] ends with a character that is not a digit, or is
    empty after one ([digit] tells whether a digit is in front of [t]) *)
Fixpoint ends_text (digit : bool) (t : string) : bool :=
  match t with
  | EmptyString => negb digit
  | String c t' => ends_text (is_digit c) t'
  end.

(** keys alternate: text, number, text, ... *)
Fixpoint alt (text : bool) (l : list val) : bool :=
  match l with
  | [] => true
  | VStr _ :: l' => text && alt false l'
  | VInt _ :: l' => negb text && alt true l'
  end.

(** The key of a name whose runs [int] can read: a run of decimal digits
    is its number, every other run is text. *)
Definition plain_convert (text : string) : val :=
  if isdecimal text then VInt (int_of_str text) else VStr text.

Definition plain_key (key : string) : list val :=
  map plain_convert (re_split_digits key).

Definition plain_lt (a b : string) : option bool :=
  list_lt (plain_key a) (plain_key b).

(** [int] can read every run of [s] that [isdigit] accepts: none of them
    is made of superscripts *)
Definition sortable (s : string) : bool :=
  forallb (fun text => negb (isdigit text) || isdecimal text)
    (re_split_digits s).

(** [a] sorts before [b]: the comparison of their keys *)
Definition key_lt (a b : string) : option bool :=
  match alphanum_key a, alphanum_key b with
  | Ok ka, Ok kb => list_lt ka kb
  | _, _ => None
  end.

(** [b] does not sort before [a] *)
Definition not_before (a b : string) : Prop := key_lt b a = Some false.

Lemma append_nil_r s : s +:+ "" = s.
Proof. induction s as [|c s IH]; simpl; congruence. Qed.

Lemma append_assoc s t u : (s +:+ t) +:+ u = s +:+ (t +:+ u).
Proof. induction s as [|c s IH]; simpl; congruence. Qed.

Lemma no_digit_app s t : no_digit (s +:+ t) = no_digit s && no_digit t.
Proof.
  induction s as [|c s IH]; simpl; [reflexivity|].
  rewrite IH. now rewrite andb_assoc.
Qed.

Lemma all_digits_app s t : all_digits (s +:+ t) = all_digits s && all_digits t.
Proof.
  induction s as [|c s IH]; simpl; [reflexivity|].
  rewrite IH. now rewrite andb_assoc.
Qed.

(** *** The key that [alphanum_key] computes *)

Lemma all_digits_all_isdigit s : all_digits s = true -> all_isdigit s = true.
Proof.
  induction s as [|c s IH]; simpl; [reflexivity|].
  intros [Hc Hs]%andb_prop. now rewrite Hc, IH.
Qed.

Lemma isdecimal_isdigit s : isdecimal s = true -> isdigit s = true.
Proof. destruct s; [discriminate|apply all_digits_all_isdigit]. Qed.

Lemma convert_cases text :
  (negb (isdigit text) || isdecimal text = true /\
   convert text = Ok (plain_convert text)) \/
  (negb (isdigit text) || isdecimal text = false /\
   convert text =
   Raise (ValueError "invalid literal for int() with base 10")).
Proof.
  unfold convert, plain_convert, int.
  destruct (isdecimal text) eqn:Hd.
  - left. rewrite (isdecimal_isdigit _ Hd). auto.
  - destruct (isdigit text); [right|left]; auto.
Qed.

Lemma map_convert_cases l :
  (forallb (fun text => negb (isdigit text) || isdecimal text) l = true /\
   map_result convert l = Ok (map plain_convert l)) \/
  (forallb (fun text => negb (isdigit text) || isdecimal text) l = false /\
   map_result convert l =
   Raise (ValueError "invalid literal for int() with base 10")).
Proof.
  induction l as [|x l IH]; [now left|]. cbn [forallb map_result map].
  destruct (convert_cases x) as [[-> ->]|[-> ->]]; [|now right].
  destruct IH as [[-> ->]|[-> ->]]; [now left|now right].
Qed.

(** the key of a name is its plain key, or the [ValueError] of [int] *)
Lemma alphanum_key_cases s :
  (sortable s = true /\ alphanum_key s = Ok (plain_key s)) \/
  (sortable s = false /\
   alphanum_key s =
   Raise (ValueError "invalid literal for int() with base 10")).
Proof. apply map_convert_cases. Qed.

Lemma alphanum_key_sortable s :
  sortable s = true -> alphanum_key s = Ok (plain_key s).
Proof.
  intros H. destruct (alphanum_key_cases s) as [[_ E]|[E _]]; congruence.
Qed.

Lemma alphanum_key_Ok s k : alphanum_key s = Ok k -> sortable s = true.
Proof.
  intros H. destruct (alphanum_key_cases s) as [[E _]|[_ E]]; congruence.
Qed.

Lemma map_alphanum_key_cases lst :
  (forallb sortable lst = true /\
   map_result alphanum_key lst = Ok (map plain_key lst)) \/
  (forallb sortable lst = false /\
   map_result alphanum_key lst =
   Raise (ValueError "invalid literal for int() with base 10")).
Proof.
  induction lst as [|x l IH]; [now left|]. cbn [forallb map_result map].
  destruct (alphanum_key_cases x) as [[-> ->]|[-> ->]]; [|now right].
  destruct IH as [[-> ->]|[-> ->]]; [now left|now right].
Qed.

Lemma key_lt_plain a b :
  sortable a = true -> sortable b = true -> key_lt a b = plain_lt a b.
Proof.
  intros Ha Hb. unfold key_lt.
  now rewrite (alphanum_key_sortable _ Ha), (alphanum_key_sortable _ Hb).
Qed.

(** *** [sorted] with a key *)

Section SortedKey.
Context {A : Type} (k : A -> list val).

Lemma insort_decorated x l :
  insort (fun a b : list val * A => list_lt (fst a) (fst b)) (k x, x)
    (map (fun y => (k y, y)) l) =
  option_map (map (fun y => (k y, y)))
    (insort (fun a b => list_lt (k a) (k b)) x l).
Proof.
  induction l as [|y l IH]; [reflexivity|]. cbn [map insort fst].
  destruct (list_lt (k y) (k x)) as [[|]|]; try reflexivity.
  rewrite IH.
  now destruct (insort (fun a b => list_lt (k a) (k b)) x l).
Qed.

Lemma sorted_decorated l :
  sorted (fun a b : list val * A => list_lt (fst a) (fst b))
    (map (fun y => (k y, y)) l) =
  option_map (map (fun y => (k y, y)))
    (sorted (fun a b => list_lt (k a) (k b)) l).
Proof.
  induction l as [|x l IH]; [reflexivity|]. cbn [map sorted].
  rewrite IH.
  destruct (sorted (fun a b => list_lt (k a) (k b)) l) as [r|];
    [|reflexivity].
  apply insort_decorated.
Qed.

Lemma sorted_key_pure (key : A -> result (list val)) l :
  map_result key l = Ok (map k l) ->
  sorted_key key l =
  match sorted (fun a b => list_lt (k a) (k b)) l with
  | Some r => Ok r
  | None => Raise TypeError
  end.
Proof.
  intros Hk. unfold sorted_key. rewrite Hk.
  replace (combine (map k l) l) with (map (fun y => (k y, y)) l)
    by (clear; induction l as [|x l IH]; simpl; congruence).
  rewrite sorted_decorated.
  destruct (sorted (fun a b => list_lt (k a) (k b)) l) as [r|];
    [|reflexivity].
  cbn [option_map]. f_equal. rewrite List.map_map. apply map_id.
Qed.
End SortedKey.

(** [human_sort] raises the [ValueError] of [int], or sorts by the plain
    keys *)
Lemma human_sort_cases lst :
  lst <> [] ->
  (forallb sortable lst = true /\
   human_sort lst =
   match sorted plain_lt lst with
   | Some r => Ok r
   | None => Raise TypeError
   end) \/
  (forallb sortable lst = false /\
   human_sort lst =
   Raise (ValueError "invalid literal for int() with base 10")).
Proof.
  intros Hne. unfold human_sort. destruct lst as [|x l]; [contradiction|].
  destruct (map_alphanum_key_cases (x :: l)) as [[Hs Hk]|[Hs Hk]].
  - left. split; [exact Hs|]. now apply sorted_key_pure.
  - right. split; [exact Hs|]. unfold sorted_key. now rewrite Hk.
Qed.

(** *** The plain keys alternate *)

Lemma plain_convert_text s : no_digit s = true -> plain_convert s = VStr s.
Proof.
  unfold plain_convert, isdecimal. destruct s as [|c s]; [reflexivity|]. simpl.
  intros [Hc _]%andb_prop. apply negb_true_iff in Hc. now rewrite Hc.
Qed.

Lemma plain_convert_digits s :
  isdecimal s = true -> plain_convert s = VInt (int_of_str s).
Proof. unfold plain_convert. now intros ->. Qed.

Lemma isdecimal_snoc cur c :
  (cur = "" \/ isdecimal cur = true) -> is_digit c = true ->
  isdecimal (cur +:+ String c "") = true.
Proof.
  intros Hcur Hc. destruct cur as [|a cur]; simpl.
  - now rewrite Hc.
  - destruct Hcur as [|H]; [discriminate|].
    simpl in H. apply andb_prop in H as [Ha Hcur]. rewrite Ha. simpl.
    rewrite all_digits_app, Hcur. simpl. now rewrite Hc.
Qed.

(** the pieces [re.split] returns alternate, and so do the keys *)
Lemma split_runs_alt s : forall cur,
  (no_digit cur = true ->
   alt true (map plain_convert (split_runs false cur s)) = true) /\
  (isdecimal cur = true ->
   alt false (map plain_convert (split_runs true cur s)) = true).
Proof.
  induction s as [|c s IH]; intros cur; simpl.
  - split; intros H.
    + now rewrite (plain_convert_text _ H).
    + now rewrite (plain_convert_digits _ H).
  - destruct (is_digit c) eqn:Hc; split; intros H.
    + simpl. rewrite (plain_convert_text _ H). simpl.
      apply IH. apply (isdecimal_snoc ""); auto.
    + apply IH. apply isdecimal_snoc; auto.
    + apply IH. rewrite no_digit_app, H. simpl. now rewrite Hc.
    + simpl. rewrite (plain_convert_digits _ H). simpl.
      apply IH. simpl. now rewrite Hc.
Qed.

Lemma plain_key_alt s : alt true (plain_key s) = true.
Proof. apply split_runs_alt. reflexivity. Qed.

Lemma alt_same_shape a : forall k b,
  alt k a = true -> alt k b = true -> Order.same_shape a b = true.
Proof.
  induction a as [|x a IH]; intros k [|y b]; simpl; try easy.
  destruct x, y, k; simpl; try easy; intros Ha Hb; eapply IH; eauto.
Qed.

Lemma plain_lt_cmp a b :
  plain_lt a b =
  Some (Order.is_Lt (Order.list_cmp (plain_key a) (plain_key b))).
Proof.
  apply Order.list_lt_cmp.
  eapply alt_same_shape; apply plain_key_alt.
Qed.

Lemma key_le_plain_lt a b :
  key_le plain_key a b <-> plain_lt b a = Some false.
Proof.
  unfold key_le, Order.list_le.
  rewrite plain_lt_cmp, (Order.list_cmp_antisym (plain_key a)).
  destruct (Order.list_cmp (plain_key a) (plain_key b)); simpl;
    split; congruence.
Qed.

Lemma StronglySorted_weaken_in {A} (R R' : A -> A -> Prop) (l : list A) :
  (forall a b, In a l -> In b l -> R a b -> R' a b) ->
  StronglySorted R l -> StronglySorted R' l.
Proof.
  intros HR Hs. induction Hs as [|a l Hs IH Hall]; constructor.
  - apply IH. intros x y Hx Hy. apply HR; now right.
  - apply List.Forall_forall. intros b Hb. apply HR; [now left|now right|].
    exact (proj1 (List.Forall_forall _ _) Hall b Hb).
Qed.

(** what [human_sort] returns: the names, none before an earlier one *)
Lemma human_sort_Ok lst r :
  human_sort lst = Ok r ->
  lst <> [] /\ forallb sortable lst = true /\
  sorted plain_lt lst = Some r /\
  Permutation lst r /\ StronglySorted (key_le plain_key) r /\
  StronglySorted not_before r.
Proof.
  intros H.
  assert (Hne : lst <> []) by (intros ->; discriminate).
  destruct (sorted_spec plain_lt plain_key plain_lt_cmp lst)
    as (r' & Hr & Hp & Hs).
  destruct (human_sort_cases lst Hne) as [[Hall E]|[_ E]];
    rewrite E in H; [|discriminate].
  rewrite Hr in H. injection H as <-.
  repeat split; auto.
  eapply StronglySorted_weaken_in; [|exact Hs].
  intros a b Ha Hb Hle. unfold not_before.
  assert (Hin : forall x, In x r' -> sortable x = true).
  { intros x Hx. apply (proj1 (forallb_forall _ _) Hall).
    eapply Permutation_in; [symmetry; exact Hp|exact Hx]. }
  rewrite key_lt_plain by auto. now apply key_le_plain_lt.
Qed.

Lemma human_sort_sortable lst :
  lst <> [] -> forallb sortable lst = true ->
  exists r, human_sort lst = Ok r /\ sorted plain_lt lst = Some r.
Proof.
  intros Hne Hall.
  destruct (sorted_spec plain_lt plain_key plain_lt_cmp lst)
    as (r & Hr & _).
  exists r. split; [|exact Hr].
  destruct (human_sort_cases lst Hne) as [[_ E]|[E _]]; [|congruence].
  now rewrite E, Hr.
Qed.

(** *** Digit runs are numbers *)

Lemma split_text_run t : forall cur s,
  no_digit t = true ->
  split_runs false cur (t +:+ s) = split_runs false (cur +:+ t) s.
Proof.
  induction t as [|c t IH]; intros cur s Ht; simpl.
  - now rewrite append_nil_r.
  - simpl in Ht. apply andb_prop in Ht as [Hc Ht].
    apply negb_true_iff in Hc. rewrite Hc.
    rewrite IH by assumption. now rewrite append_assoc.
Qed.

Lemma split_digit_run d : forall cur u,
  all_digits d = true -> starts_text u = true ->
  split_runs true cur (d +:+ u) = (cur +:+ d) :: re_split_digits u.
Proof.
  induction d as [|c d IH]; intros cur u Hd Hu; simpl.
  - rewrite append_nil_r. destruct u as [|c u]; [reflexivity|].
    simpl in Hu. apply negb_true_iff in Hu.
    unfold re_split_digits. simpl. now rewrite Hu.
  - simpl in Hd. apply andb_prop in Hd as [Hc Hd]. rewrite Hc.
    rewrite IH by assumption. now rewrite append_assoc.
Qed.

(** a prefix that text ends leaves [re.split] in a run of text *)
Lemma split_runs_prefix t : forall digit cur,
  ends_text digit t = true ->
  (digit = false -> no_digit cur = true) ->
  exists pre cur',
    no_digit cur' = true /\
    forall s, split_runs digit cur (t +:+ s) =
              pre ++ split_runs false cur' s.
Proof.
  induction t as [|c t IH]; intros digit cur He Hcur.
  - simpl in He. apply negb_true_iff in He. subst digit.
    exists [], cur. split; [auto|reflexivity].
  - cbn [ends_text] in He. destruct (is_digit c) eqn:Hc.
    + destruct digit.
      * destruct (IH true (cur +:+ String c "") He) as (pre & cur' & Hn & Hs);
          [discriminate|].
        exists pre, cur'. split; [exact Hn|]. intros s. simpl.
        rewrite Hc. apply Hs.
      * destruct (IH true (String c "") He) as (pre & cur' & Hn & Hs);
          [discriminate|].
        exists (cur :: pre), cur'. split; [exact Hn|]. intros s. simpl.
        rewrite Hc. now rewrite Hs.
    + destruct digit.
      * destruct (IH false (String c "") He) as (pre & cur' & Hn & Hs).
        { intros _. simpl. now rewrite Hc. }
        exists (cur :: pre), cur'. split; [exact Hn|]. intros s. simpl.
        rewrite Hc. now rewrite Hs.
      * destruct (IH false (cur +:+ String c "") He) as (pre & cur' & Hn & Hs).
        { intros _. rewrite no_digit_app, (Hcur eq_refl). simpl.
          now rewrite Hc. }
        exists pre, cur'. split; [exact Hn|]. intros s. simpl.
        rewrite Hc. apply Hs.
Qed.

(** the key of a name that is a prefix ended by text, then digits, then
    more: the key of the prefix, the number, the key of the rest *)
Lemma plain_key_number t :
  ends_text false t = true ->
  exists front,
    forall d u, isdecimal d = true -> starts_text u = true ->
      plain_key (t +:+ d +:+ u) =
      front ++ VInt (int_of_str d) :: plain_key u.
Proof.
  intros Ht.
  destruct (split_runs_prefix t false "" Ht) as (pre & cur & Hn & Hs);
    [reflexivity|].
  exists (map plain_convert pre ++ [VStr cur]). intros d u Hd Hu.
  unfold plain_key, re_split_digits. rewrite Hs, map_app.
  rewrite <- app_assoc. f_equal.
  destruct d as [|c d]; [discriminate|].
  simpl in Hd. apply andb_prop in Hd as [Hc Hd]. simpl. rewrite Hc.
  rewrite (split_digit_run d (String c "") u Hd Hu). simpl.
  rewrite (plain_convert_text _ Hn).
  rewrite plain_convert_digits by (simpl; now rewrite Hc, Hd).
  reflexivity.
Qed.

Lemma val_eqb_refl v : val_eqb v v = true.
Proof. destruct v; simpl; [apply Z.eqb_refl|apply String.eqb_refl]. Qed.

Lemma list_lt_app front a b :
  list_lt (front ++ a) (front ++ b) = list_lt a b.
Proof.
  induction front as [|v front IH]; [reflexivity|]. simpl.
  now rewrite val_eqb_refl.
Qed.

Lemma plain_lt_number t d1 d2 u1 u2 :
  ends_text false t = true -> isdecimal d1 = true -> isdecimal d2 = true ->
  starts_text u1 = true -> starts_text u2 = true ->
  int_of_str d1 < int_of_str d2 ->
  plain_lt (t +:+ d1 +:+ u1) (t +:+ d2 +:+ u2) = Some true /\
  plain_lt (t +:+ d2 +:+ u2) (t +:+ d1 +:+ u1) = Some false.
Proof.
  intros Ht H1 H2 Hu1 Hu2 Hlt. unfold plain_lt.
  destruct (plain_key_number t Ht) as (front & Hk).
  rewrite !Hk by assumption. rewrite !list_lt_app. simpl.
  rewrite (proj2 (Z.eqb_neq _ _)) by lia.
  rewrite (proj2 (Z.eqb_neq _ _)) by lia.
  rewrite (proj2 (Z.ltb_lt _ _)) by lia.
  now rewrite (proj2 (Z.ltb_ge _ _)) by lia.
Qed.

Lemma PageM_init_fp p w pg w' : PageM.init p w = (Ok pg, w') -> fp pg = p.
Proof.
  unfold PageM.init. intros H.
  apply bind_Ok_inv in H as (w0 & w1 & Hg & H).
  destruct (List.filter _ p) as [|u ?]; [discriminate|].
  apply bind_Ok_inv in H as (rel & w2 & Hrel & H).
  destruct rel as [|first ?]; [discriminate|].
  apply bind_Ok_inv in H as (rp & w3 & Hrp & H).
  now injection H as <- _.
Qed.

Lemma Forall2_map_eq {A B C} (f : A -> C) (g : B -> C) l l' :
  Forall2 (fun x y => g y = f x) l l' -> map g l' = map f l.
Proof.
  induction 1 as [|x y l l' Hxy HF IH]; [reflexivity|].
  simpl. now rewrite Hxy, IH.
Qed.

Lemma extract_natural_order self count w pages w' :
  extract self count w = (Ok pages, w') ->
  exists sorted_paths,
    map fp pages = map Path sorted_paths /\
    StronglySorted not_before sorted_paths.
Proof.
  unfold extract. intros H.
  apply bind_Ok_inv in H as (a & w1 & Ha & H).
  apply bind_Ok_inv in H as (z & w2 & Hz & H).
  destruct z as [|members comment|]; try discriminate.
  destruct (len _ <? 1)%nat; [discriminate|].
  apply bind_Ok_inv in H as (selected & w3 & Hsel & H).
  apply bind_Ok_inv in H as (u & w4 & Hext & H).
  apply bind_Ok_inv in H as (found & w5 & Hfound & H).
  apply bind_Ok_inv in H as (w6 & w7 & Hget & H).
  apply bind_Ok_inv in H as (sorted_paths & w8 & Hsort & H).
  apply lift_Ok_inv in Hsort as [Hsort _].
  exists sorted_paths. split.
  - eapply (map_M_Ok_inv _ (fun p pg => fp pg = Path p)) in H.
    + now apply Forall2_map_eq.
    + intros x w9 y w10. apply PageM_init_fp.
  - unfold human_sort_paths in Hsort.
    now apply human_sort_Ok in Hsort.
Qed.

(** a name without superscripts can be sorted *)
Fixpoint no_superscript (s : string) : bool :=
  match s with
  | EmptyString => true
  | String c s' => negb (is_superscript c) && no_superscript s'
  end.

Lemma no_superscript_app s t :
  no_superscript (s +:+ t) = no_superscript s && no_superscript t.
Proof.
  induction s as [|c s IH]; simpl; [reflexivity|].
  rewrite IH. now rewrite andb_assoc.
Qed.

Lemma no_superscript_isdigit s :
  no_superscript s = true -> all_isdigit s = true -> all_digits s = true.
Proof.
  induction s as [|c s IH]; simpl; [reflexivity|].
  intros [Hc Hs]%andb_prop [Hd Hall]%andb_prop.
  apply negb_true_iff in Hc. rewrite Hc, orb_false_r in Hd.
  now rewrite Hd, IH.
Qed.

Lemma split_runs_no_superscript s : forall digit cur,
  no_superscript cur = true -> no_superscript s = true ->
  forallb no_superscript (split_runs digit cur s) = true.
Proof.
  induction s as [|c s IH]; intros digit cur Hcur Hs; simpl.
  - destruct digit; simpl; now rewrite Hcur.
  - simpl in Hs. apply andb_prop in Hs as [Hc Hs].
    assert (Hsnoc : no_superscript (cur +:+ String c "") = true)
      by (rewrite no_superscript_app, Hcur; simpl; now rewrite Hc).
    assert (Hone : no_superscript (String c "") = true)
      by (simpl; now rewrite Hc).
    destruct (is_digit c), digit; simpl; rewrite ?Hcur; simpl; auto.
Qed.

Lemma no_superscript_sortable s : no_superscript s = true -> sortable s = true.
Proof.
  intros Hs. unfold sortable, re_split_digits.
  pose proof (split_runs_no_superscript s false "" eq_refl Hs) as Hall.
  apply forallb_forall. intros text Hin.
  pose proof (proj1 (forallb_forall _ _) Hall text Hin) as Ht.
  destruct (isdigit text) eqn:Hd; [|reflexivity]. simpl.
  unfold isdigit, isdecimal in *. destruct text; [discriminate|].
  now apply no_superscript_isdigit.
Qed.

(** the superscript two, which [isdigit] accepts and [int] rejects *)
Definition superscript_two : string := String "178"%char "".

(** C7.  [human_sort], which [extract] applies to the extracted paths,
    sorts by the key that splits a name into its runs of text and of
    decimal digits and reads the digit runs as numbers.  For names that
    it can sort it returns them all, in an order in which no name sorts
    before an earlier one; of two names that differ first in a digit run
    the one with the smaller number comes first, whatever precedes the
    run (as [page2] before [page10], also below a directory whose name
    has digits).  In particular the names p1, p2, p10, in whatever order
    they are stored, are returned as p1, p2, p10, and the pages [extract]
    returns are in that order of their full paths.  Not every set of
    names is sorted, though: a run of superscript digits passes
    [str.isdigit] and is handed to [int], which rejects it, so that
    [human_sort] raises a [ValueError] as soon as one name has such a
    run, as a name that ends with a decimal digit followed by a
    superscript two. *)
Theorem human_sort_natural_order :
  (forall lst : list string, lst <> [] -> forallb sortable lst = true ->
     exists sorted_paths,
       human_sort lst = Ok sorted_paths /\
       Permutation lst sorted_paths /\
       StronglySorted not_before sorted_paths) /\
  (forall t d1 d2 u1 u2 : string,
     ends_text false t = true ->
     isdecimal d1 = true -> isdecimal d2 = true ->
     starts_text u1 = true -> starts_text u2 = true ->
     sortable (t +:+ d1 +:+ u1) = true -> sortable (t +:+ d2 +:+ u2) = true ->
     int_of_str d1 < int_of_str d2 ->
     key_lt (t +:+ d1 +:+ u1) (t +:+ d2 +:+ u2) = Some true /\
     key_lt (t +:+ d2 +:+ u2) (t +:+ d1 +:+ u1) = Some false) /\
  (forall storage : list string,
     Permutation storage ["p1"; "p2"; "p10"] ->
     human_sort storage = Ok ["p1"; "p2"; "p10"]) /\
  (forall self count w pages w',
     extract self count w = (Ok pages, w') ->
     exists sorted_paths,
       map fp pages = map Path sorted_paths /\
       StronglySorted not_before sorted_paths) /\
  (forall lst : list string, lst <> [] -> forallb sortable lst = false ->
     human_sort lst =
     Raise (ValueError "invalid literal for int() with base 10")) /\
  (forall storage : list string,
     Permutation storage ["p1"; "p2" +:+ superscript_two; "p10"] ->
     human_sort storage =
     Raise (ValueError "invalid literal for int() with base 10")).
Proof.
  split; [|split; [|split; [|split; [|split]]]].
  - intros lst Hne Hall.
    destruct (human_sort_sortable lst Hne Hall) as (r & Hr & _).
    exists r. split; [exact Hr|].
    now apply human_sort_Ok in Hr as (_ & _ & _ & Hp & _ & Hs).
  - intros t d1 d2 u1 u2 Ht H1 H2 Hu1 Hu2 Hs1 Hs2 Hlt.
    rewrite !key_lt_plain by assumption. now apply plain_lt_number.
  - intros storage Hp. symmetry in Hp.
    apply permutations_Permutation in Hp.
    cbv [permutations interleave mbind list_bind fmap list_fmap foldr app
         List.concat concat] in Hp.
    set_unfold in Hp.
    destruct Hp as [->|[->|[->|[->|[->|[->|[]]]]]]]; reflexivity.
  - apply extract_natural_order.
  - intros lst Hne Hall.
    destruct (human_sort_cases lst Hne) as [[E _]|[_ E]]; [congruence|exact E].
  - intros storage Hp. symmetry in Hp.
    apply permutations_Permutation in Hp.
    cbv [permutations interleave mbind list_bind fmap list_fmap foldr app
         List.concat concat] in Hp.
    set_unfold in Hp.
    destruct Hp as [->|[->|[->|[->|[->|[->|[]]]]]]]; reflexivity.
Qed.

Lemma human_sort_natural_order_witness :
  (exists sorted_paths,
     human_sort ["p10"; "p1"; "p2"] = Ok sorted_paths /\
     Permutation ["p10"; "p1"; "p2"] sorted_paths /\
     StronglySorted not_before sorted_paths) /\
  (key_lt "/tmp/reCBZ_0/book_0/page2.png" "/tmp/reCBZ_0/book_0/page10.png" =
   Some true /\
   key_lt "/tmp/reCBZ_0/book_0/page10.png" "/tmp/reCBZ_0/book_0/page2.png" =
   Some false) /\
  human_sort ["p10"; "p1"; "p2"] = Ok ["p1"; "p2"; "p10"] /\
  (exists pages w',
     extract 0 0 Sample.w0 = (Ok pages, w') /\
     exists sorted_paths,
       map fp pages = map Path sorted_paths /\
       StronglySorted not_before sorted_paths) /\
  human_sort ["p10"; "p2" +:+ superscript_two; "p1"] =
  Raise (ValueError "invalid literal for int() with base 10").
Proof.
  destruct human_sort_natural_order as (H1 & H2 & H3 & H4 & H5 & _).
  split; [|split; [|split; [|split]]].
  - apply H1; [discriminate|reflexivity].
  - apply (H2 "/tmp/reCBZ_0/book_0/page" "2" "10" ".png" ".png");
      reflexivity.
  - apply H3. apply Permutation_cons_append.
  - assert (Hrun : extract 0 0 Sample.w0 =
                   (match fst (extract 0 0 Sample.w0) with
                    | Ok pages => Ok pages
                    | Raise _ => Ok []
                    end, snd (extract 0 0 Sample.w0)))
      by (vm_compute; reflexivity).
    eexists. eexists. split; [exact Hrun|].
    exact (H4 0%nat 0 Sample.w0 _ _ Hrun).
  - apply H5; [discriminate|reflexivity].
Defined.


(* ===================================================================== *)
(** ** Decimal numerals                                                    *)
(* ===================================================================== *)

Lemma str_digits_unfold fuel n acc :
  str_digits (S fuel) n acc =
  if (n <? 10)%nat then String (digit_char (n mod 10)) acc
  else str_digits fuel (n / 10) (String (digit_char (n mod 10)) acc).
Proof. reflexivity. Qed.

Lemma str_digits_acc n : forall fuel acc,
  (n < fuel)%nat -> str_digits fuel n acc = str_of_nat n +:+ acc.
Proof.
  induction n as [n IH] using lt_wf_ind. intros fuel acc Hf.
  destruct fuel as [|fuel]; [lia|].
  unfold str_of_nat. rewrite !str_digits_unfold.
  destruct (n <? 10)%nat eqn:E; [reflexivity|].
  apply Nat.ltb_ge in E.
  assert (Hq : (n / 10 < n)%nat) by (apply Nat.div_lt; lia).
  rewrite (IH (n / 10)%nat Hq fuel) by lia.
  rewrite (IH (n / 10)%nat Hq n) by lia.
  now rewrite append_assoc.
Qed.

(** the numeral of [n]: one digit below ten, else the numeral of
    [n / 10] followed by the last digit *)
Lemma str_of_nat_small n :
  (n < 10)%nat -> str_of_nat n = String (digit_char n) "".
Proof.
  intros H. unfold str_of_nat. rewrite str_digits_unfold.
  rewrite (proj2 (Nat.ltb_lt _ _) H). now rewrite Nat.mod_small.
Qed.

Lemma str_of_nat_step n :
  (10 <= n)%nat ->
  str_of_nat n = str_of_nat (n / 10) +:+ String (digit_char (n mod 10)) "".
Proof.
  intros H. unfold str_of_nat at 1. rewrite str_digits_unfold.
  rewrite (proj2 (Nat.ltb_ge _ _) H).
  apply str_digits_acc. apply Nat.div_lt; lia.
Qed.

Lemma length_append s t :
  String.length (s +:+ t) = (String.length s + String.length t)%nat.
Proof. induction s as [|c s IH]; simpl; congruence. Qed.

Lemma str_of_nat_length_pos n : (1 <= String.length (str_of_nat n))%nat.
Proof.
  destruct (Nat.lt_ge_cases n 10) as [H|H].
  - rewrite str_of_nat_small by assumption. cbn [String.length]. lia.
  - rewrite str_of_nat_step by assumption. rewrite length_append.
    cbn [String.length]. lia.
Qed.

Lemma str_of_nat_length_mono n : forall m,
  (m <= n)%nat ->
  (String.length (str_of_nat m) <= String.length (str_of_nat n))%nat.
Proof.
  induction n as [n IH] using lt_wf_ind. intros m Hm.
  destruct (Nat.lt_ge_cases m 10) as [H|H].
  - rewrite (str_of_nat_small m H). cbn [String.length].
    apply str_of_nat_length_pos.
  - rewrite (str_of_nat_step m H), (str_of_nat_step n) by lia.
    rewrite !length_append. cbn [String.length].
    assert ((m / 10 <= n / 10)%nat) by (apply Nat.Div0.div_le_mono; lia).
    assert ((n / 10 < n)%nat) by (apply Nat.div_lt; lia).
    specialize (IH (n / 10)%nat ltac:(assumption) (m / 10)%nat ltac:(assumption)).
    lia.
Qed.

Lemma is_digit_digit_char d : (d < 10)%nat -> is_digit (digit_char d) = true.
Proof.
  intros H. unfold is_digit, digit_char.
  rewrite nat_ascii_embedding by lia.
  apply andb_true_intro. split; apply Nat.leb_le; lia.
Qed.

Lemma digit_val_digit_char d :
  (d < 10)%nat -> digit_val (digit_char d) = Z.of_nat d.
Proof.
  intros H. unfold digit_val, digit_char.
  rewrite nat_ascii_embedding by lia. lia.
Qed.

Lemma all_digits_str_of_nat n : all_digits (str_of_nat n) = true.
Proof.
  induction n as [n IH] using lt_wf_ind.
  destruct (Nat.lt_ge_cases n 10) as [H|H].
  - rewrite str_of_nat_small by assumption. cbn [all_digits].
    now rewrite is_digit_digit_char.
  - rewrite str_of_nat_step by assumption. rewrite all_digits_app.
    rewrite IH by (apply Nat.div_lt; lia). cbn [all_digits andb].
    rewrite is_digit_digit_char; [reflexivity|].
    apply Nat.mod_upper_bound. lia.
Qed.

Lemma int_of_digits_app s : forall acc t,
  int_of_digits acc (s +:+ t) = int_of_digits (int_of_digits acc s) t.
Proof. induction s as [|c s IH]; intros acc t; simpl; auto. Qed.

Lemma int_of_str_of_nat n : int_of_str (str_of_nat n) = Z.of_nat n.
Proof.
  induction n as [n IH] using lt_wf_ind. unfold int_of_str in *.
  destruct (Nat.lt_ge_cases n 10) as [H|H].
  - rewrite str_of_nat_small by assumption. cbn [int_of_digits].
    rewrite digit_val_digit_char by assumption. lia.
  - rewrite str_of_nat_step by assumption. rewrite int_of_digits_app.
    rewrite IH by (apply Nat.div_lt; lia). cbn [int_of_digits].
    rewrite digit_val_digit_char by (apply Nat.mod_upper_bound; lia).
    pose proof (Nat.div_mod_eq n 10). lia.
Qed.

Lemma all_digits_zeros k : all_digits (zeros k) = true.
Proof. induction k as [|k IH]; simpl; auto. Qed.

Lemma int_of_digits_zeros k : int_of_digits 0 (zeros k) = 0.
Proof. induction k as [|k IH]; simpl; auto. Qed.

Lemma length_zeros k : String.length (zeros k) = k.
Proof. induction k as [|k IH]; simpl; auto. Qed.

(** [f"{m:0{w}d}"] is a run of digits, of value [m]; it is [w] long when
    the numeral of [m] is not longer *)
Lemma format_0d_spec w m :
  isdecimal (format_0d w m) = true /\
  int_of_str (format_0d w m) = Z.of_nat m /\
  ((String.length (str_of_nat m) <= w)%nat ->
   String.length (format_0d w m) = w).
Proof.
  unfold format_0d. repeat split.
  - assert (H : all_digits (zeros (w - String.length (str_of_nat m)) +:+
                            str_of_nat m) = true)
      by now rewrite all_digits_app, all_digits_zeros, all_digits_str_of_nat.
    pose proof (str_of_nat_length_pos m) as Hpos.
    destruct (zeros _ +:+ str_of_nat m) eqn:E; [|exact H].
    apply (f_equal String.length) in E. rewrite length_append in E.
    simpl in E. lia.
  - unfold int_of_str. rewrite int_of_digits_app, int_of_digits_zeros.
    apply int_of_str_of_nat.
  - intros H. rewrite length_append, length_zeros. lia.
Qed.

(* ===================================================================== *)
(** ** [write_zip]                                                         *)
(* ===================================================================== *)

Fixpoint no_sep (s : string) : bool :=
  match s with
  | EmptyString => true
  | String c s' => negb (is_sep c) && no_sep s'
  end.

Lemma no_sep_app s t : no_sep (s +:+ t) = no_sep s && no_sep t.
Proof.
  induction s as [|c s IH]; simpl; [reflexivity|].
  rewrite IH. now rewrite andb_assoc.
Qed.

Lemma digit_not_sep c : is_digit c = true -> is_sep c = false.
Proof.
  unfold is_digit, is_sep. intros [H _]%andb_prop.
  apply Nat.leb_le in H.
  destruct (Ascii.eqb c "/") eqn:E; [|reflexivity].
  apply Ascii.eqb_eq in E. subst c.
  change (nat_of_ascii "/") with 47%nat in H. lia.
Qed.

Lemma all_digits_no_sep s : all_digits s = true -> no_sep s = true.
Proof.
  induction s as [|c s IH]; simpl; [reflexivity|].
  intros [Hc Hs]%andb_prop. now rewrite (digit_not_sep _ Hc), IH.
Qed.

Lemma isdecimal_all_digits s : isdecimal s = true -> all_digits s = true.
Proof. destruct s; [discriminate|auto]. Qed.

Lemma split_sep_no_sep s : forall cur,
  no_sep s = true -> split_sep cur s = [cur +:+ s].
Proof.
  induction s as [|c s IH]; intros cur; simpl.
  - now rewrite append_nil_r.
  - intros [Hc Hs]%andb_prop. apply negb_true_iff in Hc. rewrite Hc.
    rewrite IH by assumption. now rewrite append_assoc.
Qed.

(** a name without separator is a path of one part *)
Lemma Path_name p d :
  no_sep p = true -> isdecimal d = true -> Path (p +:+ d) = [p +:+ d].
Proof.
  intros Hp Hd. pose proof (isdecimal_all_digits _ Hd) as Hall.
  assert (Hs : no_sep (p +:+ d) = true)
    by now rewrite no_sep_app, Hp, all_digits_no_sep.
  unfold Path. rewrite split_sep_no_sep by assumption. simpl.
  assert (Hlen : (1 <= String.length d)%nat)
    by (destruct d; [discriminate|simpl; lia]).
  assert (Hpart : is_part (p +:+ d) = true).
  { unfold is_part. apply andb_true_intro.
    split; apply negb_true_iff, String.eqb_neq; intros E;
      apply (f_equal String.length) in E as El;
      rewrite length_append in El; simpl in El; [lia|].
    destruct p; [|simpl in El; lia]. simpl in E. now subst d. }
  rewrite Hpart.
  destruct (p +:+ d) as [|c s] eqn:E; [reflexivity|].
  simpl in Hs. apply andb_prop in Hs as [Hc _].
  apply negb_true_iff in Hc. simpl. now rewrite Hc.
Qed.

(** the world in which the container at [sp] holds [ms] *)
Definition with_zip (w : world) (sp : path)
    (ms : list (string * file * bool)) (c : string) : world :=
  set_fs (<[sp := NFile (FZip ms c)]> (fs w)) w.

Definition file_of (w : world) (p : Page) : file :=
  match fs w !! fp p with
  | Some (NFile f) => f
  | _ => FData 0
  end.

(** a page that can be written to the container at [sp] *)
Definition page_ok (w : world) (sp : path) (p : Page) : Prop :=
  is_file_in (fs w) (fp p) = true /\ fp p <> sp /\
  is_absolute (rel_path p) = false.

Lemma set_fs_set_fs f g w : set_fs f (set_fs g w) = set_fs f w.
Proof. reflexivity. Qed.

Section WriteZip.
Context (w : world) (sp : path).
Hypothesis Hdir : is_dir_in (fs w) (parent sp) = true.
Hypothesis Hnd : is_dir_in (fs w) sp = false.

Lemma is_dir_with_zip ms c :
  is_dir_in (fs (with_zip w sp ms c)) (parent sp) = true /\
  is_dir_in (fs (with_zip w sp ms c)) sp = false.
Proof using Hdir Hnd.
  unfold with_zip, is_dir_in in *. simpl.
  apply orb_false_elim in Hnd as [Hroot Hl].
  split.
  - destruct (decide (parent sp = sp)) as [E|E].
    + rewrite E in Hdir. rewrite Hroot, Hl in Hdir. discriminate.
    + now rewrite lookup_insert_ne by congruence.
  - rewrite Hroot, lookup_insert_eq. reflexivity.
Qed.

Lemma write_file_zip_first ms c :
  write_file sp (FZip ms c) w = (Ok tt, with_zip w sp ms c).
Proof using Hdir Hnd.
  unfold write_file, bind, get, modify. now rewrite Hdir, Hnd.
Qed.

Lemma write_file_zip_again ms c ms' c' :
  write_file sp (FZip ms' c') (with_zip w sp ms c) =
  (Ok tt, with_zip w sp ms' c').
Proof using Hdir Hnd.
  destruct (is_dir_with_zip ms c) as [H1 H2].
  unfold write_file, bind, get, modify. rewrite H1, H2. simpl.
  unfold with_zip. simpl. now rewrite insert_insert_eq.
Qed.

Lemma zip_write_page ms c (p : Page) dest deflated :
  page_ok w sp p ->
  zip_write sp (fp p) dest deflated (with_zip w sp ms c) =
  (Ok tt, with_zip w sp (ms ++ [(path_str dest, file_of w p, deflated)]) c).
Proof using Hdir Hnd.
  intros (Hf & Hne & _). unfold zip_write.
  assert (Hsrc : read_file (fp p) (with_zip w sp ms c) =
                 (Ok (file_of w p), with_zip w sp ms c)).
  { unfold read_file, bind, get, with_zip, file_of, is_file_in in *. simpl.
    rewrite lookup_insert_ne by congruence.
    destruct (fs w !! fp p) as [[f|]|]; try discriminate. reflexivity. }
  rewrite (bind_Ok _ _ _ _ _ Hsrc).
  assert (Hzip : read_file sp (with_zip w sp ms c) =
                 (Ok (FZip ms c), with_zip w sp ms c)).
  { unfold read_file, bind, get, with_zip. simpl.
    now rewrite lookup_insert_eq. }
  rewrite (bind_Ok _ _ _ _ _ Hzip).
  apply write_file_zip_again.
Qed.

(** the members a chapter adds *)
Definition chapter_members (prefix : string) (n i : nat)
    (chapter : list Page) : list (string * file * bool) :=
  map (fun p => (path_str (zip_dest prefix n i p), file_of w p,
                 compress_zip (cfg w))) chapter.

Lemma write_chapter_pages prefix n i chapter : forall ms c,
  Forall (page_ok w sp) chapter ->
  for_each (map EPage chapter) (fun e =>
    page <- entry_page e ;;
    let dest := zip_dest prefix n i page in
    w1 <- get ;;
    zip_write sp (fp page) dest (compress_zip (cfg w1)))
    (with_zip w sp ms c) =
  (Ok tt, with_zip w sp (ms ++ chapter_members prefix n i chapter) c).
Proof using Hdir Hnd.
  induction chapter as [|p chapter IH]; intros ms c Hok; simpl.
  - now rewrite app_nil_r.
  - inversion Hok as [|? ? Hp Hrest]; subst.
    unfold bind at 1. unfold bind at 1. simpl.
    unfold bind at 1. simpl.
    rewrite (zip_write_page ms c p _ _ Hp).
    rewrite IH by assumption. now rewrite <- app_assoc.
Qed.

Fixpoint chapters_members (prefix : string) (n i : nat)
    (chapters : list (list Page)) : list (string * file * bool) :=
  match chapters with
  | [] => []
  | chapter :: rest =>
      chapter_members prefix n i chapter ++
      chapters_members prefix n (S i) rest
  end.

Lemma write_chapters_members prefix n chapters : forall i ms c,
  Forall (Forall (page_ok w sp)) chapters ->
  write_chapters sp prefix n i (map (map EPage) chapters)
    (with_zip w sp ms c) =
  (Ok tt, with_zip w sp (ms ++ chapters_members prefix n i chapters) c).
Proof using Hdir Hnd.
  induction chapters as [|chapter rest IH]; intros i ms c Hok; simpl.
  - now rewrite app_nil_r.
  - inversion Hok as [|? ? Hch Hrest]; subst.
    rewrite (bind_Ok _ _ _ _ _ (write_chapter_pages prefix n i chapter ms c Hch)).
    rewrite IH by assumption. now rewrite <- app_assoc.
Qed.

Lemma write_zip_members prefix chapters :
  Forall (Forall (page_ok w sp)) chapters ->
  write_zip sp (map (map EPage) chapters) prefix w =
  (Ok sp,
   with_zip w sp (chapters_members prefix (len chapters) 0 chapters)
     (ZIPCOMMENT (cfg w))).
Proof using Hdir Hnd.
  intros Hok. unfold write_zip.
  rewrite (bind_Ok _ _ _ _ _ (write_file_zip_first [] "")).
  rewrite length_map.
  rewrite (bind_Ok _ _ _ _ _
             (write_chapters_members prefix _ chapters 0%nat [] "" Hok)).
  simpl. unfold bind at 1. simpl.
  unfold zip_set_comment.
  assert (Hzip : forall ms c, read_file sp (with_zip w sp ms c) =
                 (Ok (FZip ms c), with_zip w sp ms c)).
  { intros ms c. unfold read_file, bind, get, with_zip. simpl.
    now rewrite lookup_insert_eq. }
  assert (Hc : zip_set_comment sp (ZIPCOMMENT (cfg w))
                 (with_zip w sp (chapters_members prefix (len chapters) 0 chapters) "") =
               (Ok tt, with_zip w sp (chapters_members prefix (len chapters) 0 chapters)
                         (ZIPCOMMENT (cfg w)))).
  { unfold zip_set_comment. rewrite (bind_Ok _ _ _ _ _ (Hzip _ _)).
    apply write_file_zip_again. }
  unfold zip_set_comment in Hc.
  now rewrite (bind_Ok _ _ _ _ _ Hc).
Qed.
End WriteZip.

Definition member_name (m : string * file * bool) : string := fst (fst m).

Lemma zip_dest_many prefix n i p :
  (1 < n)%nat -> no_sep prefix = true -> is_absolute (rel_path p) = false ->
  zip_dest prefix n i p =
  (prefix +:+ format_0d (String.length (str_of_nat n)) (i + 1)) :: rel_path p.
Proof.
  intros Hn Hp Hrel. unfold zip_dest.
  rewrite (proj2 (Nat.ltb_lt _ _) Hn).
  destruct (format_0d_spec (String.length (str_of_nat n)) (i + 1))
    as (Hd & _ & _).
  rewrite (Path_name _ _ Hp Hd). unfold join. now rewrite Hrel.
Qed.

Lemma zip_dest_one prefix n i p :
  (n <= 1)%nat -> zip_dest prefix n i p = rel_path p.
Proof.
  intros Hn. unfold zip_dest. now rewrite (proj2 (Nat.ltb_ge _ _) Hn).
Qed.

Lemma chapters_members_names w sp prefix n (f : nat -> Page -> path) chapters :
  forall i,
  (forall j p, f j p = zip_dest prefix n j p \/ ~ page_ok w sp p) ->
  Forall (Forall (page_ok w sp)) chapters ->
  map member_name (chapters_members w prefix n i chapters) =
  concat (imap (fun j chapter => map (fun p => path_str (f (i + j)%nat p)) chapter)
            chapters).
Proof.
  intros i Hf. revert i.
  induction chapters as [|chapter rest IH]; intros i Hok; [reflexivity|].
  inversion Hok as [|? ? Hch Hrest]; subst.
  cbn [chapters_members imap concat]. rewrite map_app. f_equal.
  - unfold chapter_members. rewrite map_map. simpl.
    rewrite Nat.add_0_r.
    induction Hch as [|p ps Hp Hps IHp]; [reflexivity|]. simpl. f_equal; auto.
    destruct (Hf i p) as [->|Hn]; [reflexivity|contradiction].
  - rewrite IH by assumption. f_equal. apply imap_ext.
    intros j ch _. simpl. now replace (i + S j)%nat with (S (i + j)) by lia.
Qed.

(** C9.  A zip container written from more than one chapter holds the
    pages of chapter [i] (counted from 1), in their order, under the
    directory named by the chapter prefix ["v"] followed by [i], padded
    with zeros to the number of digits of the chapter count; written from
    one chapter it holds the pages with no directory in front. *)
Theorem write_zip_chapter_dirs (w : world) (save_path : path)
    (chapters : list (list Page)) :
  is_dir_in (fs w) (parent save_path) = true ->
  is_dir_in (fs w) save_path = false ->
  Forall (Forall (page_ok w save_path)) chapters ->
  let n := len chapters in
  let width := String.length (str_of_nat n) in
  let number i := format_0d width (i + 1) in
  exists members w',
    write_zip save_path (map (map EPage) chapters) chapter_prefix w =
    (Ok save_path, w') /\
    fs w' !! save_path =
    Some (NFile (FZip members (ZIPCOMMENT (cfg w)))) /\
    ((1 < n)%nat ->
     map member_name members =
     concat (imap (fun i chapter =>
                     map (fun p => path_str
                            ((chapter_prefix +:+ number i) :: rel_path p))
                       chapter) chapters)) /\
    ((n <= 1)%nat ->
     map member_name members =
     concat (map (map (fun p => path_str (rel_path p))) chapters)) /\
    (forall i, (i < n)%nat ->
       String.length (number i) = width /\
       isdecimal (number i) = true /\
       int_of_str (number i) = Z.of_nat (i + 1)).
Proof.
  intros Hdir Hnd Hok n width number.
  eexists. eexists. split; [apply write_zip_members; assumption|].
  split; [unfold with_zip; simpl; apply lookup_insert_eq|].
  split; [|split].
  - intros Hn.
    rewrite (chapters_members_names w save_path chapter_prefix (len chapters)
               (fun j p => (chapter_prefix +:+ number j) :: rel_path p)
               chapters 0%nat); [reflexivity| |assumption].
    intros j p. destruct (decide (is_absolute (rel_path p) = false)) as [H|H].
    + left. symmetry. now apply zip_dest_many.
    + right. intros (_ & _ & H'). contradiction.
  - intros Hn.
    rewrite (chapters_members_names w save_path chapter_prefix (len chapters)
               (fun j p => rel_path p) chapters 0%nat); [| |assumption].
    + clear. generalize 0%nat. induction chapters as [|ch rest IH]; intros k;
        [reflexivity|].
      cbn [imap concat map]. f_equal. apply (IH (S k)).
    + intros j p. left. symmetry. now apply zip_dest_one.
  - intros i Hi.
    destruct (format_0d_spec width (i + 1)) as (Hd & Hv & Hl).
    repeat split; auto. apply Hl. apply str_of_nat_length_mono. lia.
Qed.

Lemma write_zip_chapter_dirs_witness :
  exists members w',
    write_zip ["out.cbz"] (map (map EPage) Sample.chapters3) chapter_prefix
      Sample.w3 = (Ok ["out.cbz"], w') /\
    fs w' !! ["out.cbz"] =
    Some (NFile (FZip members (ZIPCOMMENT (cfg Sample.w3)))) /\
    map member_name members =
    ["v1/a1.png"; "v1/a2.png"; "v2/b1.png";
     "v3/c1.png"; "v3/c2.png"; "v3/c3.png"].
Proof.
  destruct (write_zip_chapter_dirs Sample.w3 ["out.cbz"] Sample.chapters3)
    as (members & w' & Hrun & Hfs & Hmany & _ & _).
  - reflexivity.
  - reflexivity.
  - repeat constructor; try reflexivity; discriminate.
  - exists members, w'. split; [exact Hrun|]. split; [exact Hfs|].
    rewrite Hmany by (simpl; lia). reflexivity.
Defined.

(* ===================================================================== *)
(** ** [map_workers]                                                       *)
(* ===================================================================== *)

Lemma lookup_map {A B} (f : A -> B) (l : list A) : forall i,
  map f l !! i = option_map f (l !! i).
Proof.
  induction l as [|x l IH]; intros [|i]; simpl; auto.
Qed.

Section Pool.
Context {A B : Type} (func : A -> M B) (g : A -> B) (tasks : list A).
Hypothesis func_value : forall x w, fst (func x w) = Ok (g x).

(** the slots after the tasks of [order] have completed *)
Fixpoint filled (order : list nat) (slots : list (option B))
  : list (option B) :=
  match order with
  | [] => slots
  | i :: order' =>
      match tasks !! i with
      | Some x => filled order' (<[i := Some (g x)]> slots)
      | None => filled order' slots
      end
  end.

Lemma pool_run_filled order : forall slots w,
  exists w', pool_run func tasks order slots w = (Ok (filled order slots), w').
Proof using func_value.
  induction order as [|i order IH]; intros slots w; simpl.
  - eexists. reflexivity.
  - destruct (tasks !! i) as [x|]; [|apply IH].
    pose proof (func_value x w) as Hx.
    destruct (func x w) as [r w1] eqn:E. simpl in Hx. subst r.
    destruct (IH (<[i := Some (g x)]> slots) w1) as [w' Hw'].
    exists w'. unfold bind. now rewrite E.
Qed.

Lemma filled_length order : forall slots,
  len (filled order slots) = len slots.
Proof.
  induction order as [|i order IH]; intros slots; simpl; [reflexivity|].
  destruct (tasks !! i); rewrite IH; [apply length_insert|reflexivity].
Qed.

(** a slot that holds its value keeps it *)
Lemma filled_keeps order : forall slots i x,
  tasks !! i = Some x -> slots !! i = Some (Some (g x)) ->
  filled order slots !! i = Some (Some (g x)).
Proof.
  induction order as [|j order IH]; intros slots i x Hi Hs; simpl; [exact Hs|].
  destruct (tasks !! j) as [y|] eqn:Hj; [|now apply IH].
  apply IH; [exact Hi|].
  destruct (decide (j = i)) as [->|Hne].
  - rewrite Hi in Hj. injection Hj as <-.
    apply list_lookup_insert_eq. now apply lookup_lt_Some in Hs.
  - now rewrite list_lookup_insert_ne.
Qed.

(** a task that completes fills its slot *)
Lemma filled_covers order : forall slots i x,
  i ∈ order -> tasks !! i = Some x -> (i < len slots)%nat ->
  filled order slots !! i = Some (Some (g x)).
Proof.
  induction order as [|j order IH]; intros slots i x Hin Hi Hlen.
  - now apply elem_of_nil in Hin.
  - simpl. apply elem_of_cons in Hin as [->|Hin].
    + rewrite Hi. apply filled_keeps; [exact Hi|].
      now apply list_lookup_insert_eq.
    + destruct (tasks !! j); apply IH; auto.
      now rewrite length_insert.
Qed.

Lemma collect_Some (l : list B) : collect (map Some l) = Some l.
Proof. induction l as [|y l IH]; simpl; [reflexivity|now rewrite IH]. Qed.

Lemma pool_map_in_order w :
  Permutation (completion (env w) (len tasks)) (seq 0 (len tasks)) ->
  exists w', pool_map func tasks w = (Ok (map g tasks), w').
Proof using func_value.
  intros Hperm. unfold pool_map.
  set (n := len tasks) in *. set (order := completion (env w) n) in *.
  destruct (pool_run_filled order (replicate n None) w) as [w' Hrun].
  exists w'. unfold bind at 1. simpl. fold order.
  rewrite (bind_Ok _ _ _ _ _ Hrun).
  assert (Hfilled : filled order (replicate n None) = map Some (map g tasks)).
  { apply list_eq. intros i.
    destruct (tasks !! i) as [x|] eqn:Hi.
    - rewrite (filled_covers order _ i x); auto.
      + rewrite !lookup_map, Hi. reflexivity.
      + rewrite list_elem_of_In. eapply Permutation_in; [symmetry; exact Hperm|].
        apply in_seq. apply lookup_lt_Some in Hi. unfold n. lia.
      + rewrite length_replicate. now apply lookup_lt_Some in Hi.
    - apply lookup_ge_None in Hi.
      rewrite !(proj2 (lookup_ge_None _ _)); auto.
      + now rewrite !length_map.
      + now rewrite filled_length, length_replicate. }
  now rewrite Hfilled, collect_Some.
Qed.
End Pool.

Lemma map_M_value {A B} (func : A -> M B) (g : A -> B) :
  (forall x w, fst (func x w) = Ok (g x)) ->
  forall tasks w, exists w', map_M func tasks w = (Ok (map g tasks), w').
Proof.
  intros Hf. induction tasks as [|x tasks IH]; intros w; simpl.
  - eexists. reflexivity.
  - pose proof (Hf x w) as Hx.
    destruct (func x w) as [r w1] eqn:E. simpl in Hx. subst r.
    destruct (IH w1) as [w' Hw'].
    exists w'. unfold bind at 1. rewrite E.
    unfold bind at 1. now rewrite Hw'.
Qed.



(* ===================================================================== *)
(** ** Chapters and the index                                              *)
(* ===================================================================== *)

(** The chapters partition the index: whenever neither is empty, the
    chapter lengths add up to the length of the index, and the chapters
    [fetch_chapters] cuts are the index, piece after piece. *)
Definition chapters_invariant (a : Archive) : Prop :=
  _chapter_lengths a <> [] -> _index a <> [] ->
  sum (_chapter_lengths a) = Z.of_nat (len (_index a)) /\
  concat (cut_chapters (_index a) (_chapter_lengths a)) = _index a.

(** the archive [self] after a computation that returned *)
Definition archive_after {A} (self : nat) (r : result A * world)
  : option Archive :=
  match fst r with
  | Ok _ => heap (snd r) !! self
  | Raise _ => None
  end.

(** the sample book, opened and cut into its single chapter *)
Definition loaded : world := snd (fetch_chapters 0 Sample.w0).

(** C4 fails on the code.  Start from the sample book of four members
    once [fetch_chapters] has loaded it: four pages in the index, one
    chapter of length 4, the invariant holds.  Each of [remove_page],
    [add_page] and [convert_pages] then changes the index and leaves the
    chapter lengths as they were, and the invariant is lost. *)
Theorem index_mutators_lose_chapters_invariant :
  (exists a,
     heap loaded !! 0%nat = Some a /\ chapters_invariant a /\
     len (_index a) = 4%nat /\ _chapter_lengths a = [4]) /\
  (exists a,
     archive_after 0 (remove_page 0 0 loaded) = Some a /\
     len (_index a) = 3%nat /\ _chapter_lengths a = [4] /\
     ~ chapters_invariant a) /\
  (exists a,
     archive_after 0
       (add_page 0 (Sample.cachedir0 ++ ["p1.png"]) (-1) loaded) = Some a /\
     len (_index a) = 5%nat /\ _chapter_lengths a = [4] /\
     ~ chapters_invariant a) /\
  (exists a,
     archive_after 0 (convert_pages 0 None None None None loaded) = Some a /\
     len (_index a) = 3%nat /\ _chapter_lengths a = [4] /\
     ~ chapters_invariant a).
Proof.
  assert (Hbroken : forall a n,
            len (_index a) = n -> _chapter_lengths a = [4] ->
            n <> 4%nat -> n <> 0%nat -> ~ chapters_invariant a).
  { intros a n Hn Hl Hne H0 Hinv.
    destruct Hinv as [Hsum _].
    - rewrite Hl. discriminate.
    - destruct (_index a); [simpl in Hn; congruence|discriminate].
    - rewrite Hl, Hn in Hsum. unfold Py.sum in Hsum. simpl in Hsum. lia. }
  split; [|split; [|split]].
  - eexists. split; [vm_compute; reflexivity|].
    split; [|split; reflexivity].
    intros _ _. split; reflexivity.
  - eexists. split; [vm_compute; reflexivity|].
    split; [reflexivity|]. split; [reflexivity|].
    apply (Hbroken _ 3%nat); [reflexivity|reflexivity|lia|lia].
  - eexists. split; [vm_compute; reflexivity|].
    split; [reflexivity|]. split; [reflexivity|].
    apply (Hbroken _ 5%nat); [reflexivity|reflexivity|lia|lia].
  - eexists. split; [vm_compute; reflexivity|].
    split; [reflexivity|]. split; [reflexivity|].
    apply (Hbroken _ 3%nat); [reflexivity|reflexivity|lia|lia].
Qed.

(** [add_chapter] extends the index and the chapter lengths together:
    the second copy of the book becomes a second chapter of four. *)
Lemma add_chapter_keeps_chapters_invariant :
  exists a,
    archive_after 0 (add_chapter 0 1 None None loaded) = Some a /\
    len (_index a) = 8%nat /\ _chapter_lengths a = [4; 4] /\
    chapters_invariant a.
Proof.
  eexists. split; [vm_compute; reflexivity |].
  split; [reflexivity |]. split; [reflexivity |].
  intros _ _. split; reflexivity.
Qed.

(* ===================================================================== *)
(** ** [write_archive] over an existing file                               *)
(* ===================================================================== *)

Lemma is_dir_exists f d : is_dir_in f d = true -> exists_in f d = true.
Proof.
  unfold is_dir_in, exists_in. destruct (is_root d); [reflexivity|]. simpl.
  destruct (f !! d) as [[|]|]; try discriminate. intros _.
  apply bool_decide_eq_true. eauto.
Qed.

(** C10.  For a valid book format, when a file is already at the
    destination [write_archive] computes, the call removes it and goes on
    to write the container, exactly as the dispatch on the format does in
    a world in which that file is absent: the file is deleted before
    anything is written, its content plays no part in the outcome, and
    that it existed is no error. *)
Theorem write_archive_removes_existing (self : nat) (w : world) (a : Archive)
    (book_format file_name : string) (old : file) :
  str_in book_format VALID_BOOK_FORMATS = true ->
  heap w !! self = Some a ->
  (file_name <> "" ->
   exists d, parents0 (Path file_name) = Ok d /\ is_dir_in (fs w) d = true) ->
  let new_path := destination a book_format file_name in
  fs w !! new_path = Some (NFile old) ->
  write_archive self book_format file_name w =
  write_container self book_format new_path
    (set_fs (delete new_path (fs w)) w) /\
  fs (set_fs (delete new_path (fs w)) w) !! new_path = None.
Proof.
  intros Hvalid Hself Hparent new_path Hold.
  split; [|simpl; apply lookup_delete_eq].
  unfold write_archive. rewrite Hvalid. simpl.
  assert (Hget : get_self self w = (Ok a, w))
    by (unfold get_self, bind, get; now rewrite Hself).
  rewrite (bind_Ok _ _ _ _ _ Hget).
  assert (Hcheck :
    (if negb (String.eqb file_name "") then
       parent_dir <- lift (parents0 (Path file_name)) ;;
       ex <- path_exists parent_dir ;;
       isd <- path_is_dir parent_dir ;;
       if ex && isd then ret tt
       else raise (ValueError "Parent folder does not exist")
     else ret tt) w = (Ok tt, w)).
  { destruct (String.eqb file_name "") eqn:E; [reflexivity|]. simpl.
    apply String.eqb_neq in E.
    destruct (Hparent E) as (d & Hd & Hdir).
    unfold bind, lift, path_exists, path_is_dir, get, ret. rewrite Hd.
    cbn. now rewrite (is_dir_exists _ _ Hdir), Hdir. }
  rewrite (bind_Ok _ _ _ _ _ Hcheck).
  fold new_path.
  assert (Hex : path_exists new_path w = (Ok true, w)).
  { unfold path_exists, bind, get, ret, exists_in. rewrite Hold.
    rewrite bool_decide_eq_true_2 by eauto. now rewrite orb_true_r. }
  rewrite (bind_Ok _ _ _ _ _ Hex).
  assert (Hun : unlink new_path w =
                (Ok tt, set_fs (delete new_path (fs w)) w)).
  { unfold unlink, bind, get, modify. now rewrite Hold. }
  now rewrite (bind_Ok _ _ _ _ _ Hun).
Qed.

Lemma write_archive_removes_existing_witness :
  fs Sample.w3 !! ["out.cbz"] = Some (NFile (FData 7)) /\
  write_archive 0 "cbz" "out" Sample.w3 =
  write_container 0 "cbz" ["out.cbz"]
    (set_fs (delete ["out.cbz"] (fs Sample.w3)) Sample.w3) /\
  exists members w',
    write_archive 0 "cbz" "out" Sample.w3 = (Ok ["out.cbz"], w') /\
    fs w' !! ["out.cbz"] = Some (NFile (FZip members "repacked with reCBZ")) /\
    len members = 6%nat.
Proof.
  split; [reflexivity|].
  destruct (write_archive_removes_existing 0 Sample.w3
              (mkArchive ["book.cbz"] Sample.options0
                 (map EPage (List.concat Sample.chapters3)) [2; 1; 3] []
                 Sample.cachedir0)
              "cbz" "out" (FData 7)) as [Hrun _].
  - reflexivity.
  - reflexivity.
  - intros _. exists []. split; reflexivity.
  - reflexivity.
  - split; [exact Hrun|].
    eexists. eexists. split; [vm_compute; reflexivity|].
    split; [vm_compute; reflexivity|reflexivity].
Defined.

(* ===================================================================== *)
(** ** The resize of [convert_page_worker]                                 *)
(* ===================================================================== *)

(** the page [p2.png] of the sample book, 100 x 100 *)
Definition page_p2 : entry := EPage (Sample.page_at Sample.cachedir0 "p2.png").

(** no-downscale set, no-upscale unset, viewport 50 x 50 *)
Definition nodown_options (keep_ratio : bool) : Options :=
  {| opt_format := None;
     opt_quality := 80;
     opt_size := (50, 50);
     opt_keep_ratio := keep_ratio;
     opt_grayscale := false;
     opt_noup := false;
     opt_nodown := true |}.

(** C2 fails on the code.  With the no-downscale flag set and the
    no-upscale flag unset, a page larger than the viewport in both
    dimensions is resized all the same, by the branch written for
    upscaling: [resize_target] answers the viewport, and the page of
    100 x 100 converted for a viewport of 50 x 50 is saved as 50 x 50,
    with and without keep-ratio. *)
Theorem nodown_page_is_resized :
  (forall (options : Options) (landscape : bool) (width height : Z),
     opt_nodown options = true -> opt_noup options = false ->
     opt_keep_ratio options = false ->
     let new_size :=
       if landscape then (snd (opt_size options), fst (opt_size options))
       else opt_size options in
     fst new_size < width -> snd new_size < height ->
     resize_target options landscape (width, height) = Ok (Some new_size)) /\
  (forall keep_ratio,
     exists page w',
       fs loaded !! (Sample.cachedir0 ++ ["p2.png"]) =
       Some (NFile (Sample.png 100 100)) /\
       convert_page page_p2 (nodown_options keep_ratio) None loaded =
       (Ok (true, page), w') /\
       fs w' !! fp page = Some (NFile (Sample.png 50 50))).
Proof.
  split.
  - intros options landscape width height Hnd Hnu Hk new_size Hw Hh.
    destruct options as [f q [vw vh] keep gray noup nodown].
    simpl in *. subst nodown noup keep.
    unfold resize_target. simpl. subst new_size.
    destruct landscape; simpl in *; now rewrite andb_false_r.
  - intros keep_ratio.
    destruct keep_ratio; eexists; eexists;
      (split; [vm_compute; reflexivity|]);
      (split; [vm_compute; reflexivity|]);
      vm_compute; reflexivity.
Qed.

Lemma nodown_page_is_resized_witness :
  resize_target (nodown_options false) false (100, 100) = Ok (Some (50, 50)).
Proof.
  destruct nodown_page_is_resized as [H _].
  apply (H (nodown_options false) false 100 100); reflexivity.
Defined.

(* ===================================================================== *)
(** ** Binary64 arithmetic                                                *)
(* ===================================================================== *)

(** [int / int], [float * float], [float / float], [float - float] and
    the comparisons are those of [SpecFloat] at precision 53.  For
    positive operands of moderate size each of them returns the nearest
    float of the exact result: a float of full mantissa whose value is
    within a relative error of [2 ^ -53] of it.  Values are rationals. *)

Module Binary64.
Import Py.

(** the location of the remainder [r] of a division by [B] *)
Definition loc_of (r B : Z) : location :=
  if r =? 0 then loc_Exact else loc_Inexact (2 * r ?= B).

(** [A / B] rounded to the nearest integer, ties to even *)
Definition rne (A B : Z) : Z :=
  round_nearest_even (A / B) (loc_of (A mod B) B).

(** a shift record that stands for the quotient [A / B] *)
Definition stands_for (mrs : shr_record) (A B : Z) : Prop :=
  shr_m mrs = A / B /\ loc_of_shr_record mrs = loc_of (A mod B) B.

(** the float of mantissa [n] in [2^52, 2^53] and exponent [e] *)
Definition mk_float (sx : bool) (n e : Z) : float :=
  if n =? 2 ^ 53 then S754_finite sx (Z.to_pos (2 ^ 52)) (e + 1)
  else S754_finite sx (Z.to_pos n) e.

(** [f] is the rounding of the positive rational [N / D] *)
Definition rounds (f : float) (N D : Z) : Prop :=
  exists k, 2 <= k /\ 2 ^ 52 * D <= N * 2 ^ k < 2 ^ 53 * D /\
            f = mk_float false (rne (N * 2 ^ k) D) (- k).

(** a positive float [m / 2 ^ k] with a full mantissa *)
Definition finite64 (f : float) (m k : Z) : Prop :=
  f = S754_finite false (Z.to_pos m) (- k) /\ 2 ^ 52 <= m < 2 ^ 53 /\ 0 <= k.

(** the rational [N / D], for a positive [D] *)
Definition Qfrac (N D : Z) : Q := Qmake N (Z.to_pos D).

(** the unit roundoff of binary64 *)
Definition roundoff : Q := 1 # 9007199254740992.

(** the value of a float *)
Definition Qval (f : float) : Q :=
  match f with
  | S754_finite s m e =>
      let v := if s then Z.neg m else Z.pos m in
      if 0 <=? e then inject_Z (v * 2 ^ e) else Qfrac v (2 ^ (- e))
  | _ => 0%Q
  end.

(** [f] is [r] up to a relative error of [roundoff] *)
Definition near (f : float) (r : Q) : Prop :=
  (r * (1 - roundoff) <= Qval f /\ Qval f <= r * (1 + roundoff))%Q.

(** a positive float below [2 ^ 52] and above [2 ^ (52 - K)] *)
Definition nrm (K : Z) (f : float) : Prop :=
  exists m k, finite64 f m k /\ 1 <= k <= K.

(** a float that is zero or positive *)
Definition nonneg (f : float) : Prop :=
  f = S754_zero false \/ exists m k, finite64 f m k.

(** *** Rounding to nearest, ties to even *)

Lemma digits2_pos_bounds (p : positive) :
  2 ^ (Z.pos (digits2_pos p) - 1) <= Z.pos p < 2 ^ Z.pos (digits2_pos p).
Proof.
  induction p as [p IH | p IH |]; cbn [digits2_pos].
  - rewrite Pos2Z.inj_succ.
    replace (Z.succ (Z.pos (digits2_pos p)) - 1) with (Z.succ (Z.pos (digits2_pos p) - 1)) by lia.
    rewrite !Z.pow_succ_r by lia. lia.
  - rewrite Pos2Z.inj_succ.
    replace (Z.succ (Z.pos (digits2_pos p)) - 1) with (Z.succ (Z.pos (digits2_pos p) - 1)) by lia.
    rewrite !Z.pow_succ_r by lia. lia.
  - cbn. lia.
Qed.

Lemma digits2_pos_unique (p : positive) (d : Z) :
  2 ^ (d - 1) <= Z.pos p < 2 ^ d -> Z.pos (digits2_pos p) = d.
Proof.
  intros [Hlo Hhi]. pose proof (digits2_pos_bounds p) as [Hlo' Hhi'].
  assert (0 < d).
  { destruct (Z.lt_trichotomy d 0) as [Hn | [-> | Hp]]; [| cbn in Hhi; lia | exact Hp].
    rewrite (Z.pow_neg_r 2 d Hn) in Hhi. lia. }
  destruct (Z.lt_trichotomy (Z.pos (digits2_pos p)) d) as [Hlt | [-> | Hgt]];
    [exfalso | reflexivity | exfalso].
  - assert (2 ^ Z.pos (digits2_pos p) <= 2 ^ (d - 1)) by (apply Z.pow_le_mono_r; lia).
    lia.
  - assert (2 ^ d <= 2 ^ (Z.pos (digits2_pos p) - 1)) by (apply Z.pow_le_mono_r; lia).
    lia.
Qed.

Lemma new_location_loc_of (B r : Z) :
  0 <= r < B -> new_location B r = loc_of r B.
Proof.
  intros Hr. unfold new_location, new_location_even, new_location_odd, loc_of.
  destruct (Z.even B) eqn:Hev; [reflexivity |].
  destruct (r =? 0); [reflexivity |]. f_equal.
  assert (Hodd : Z.odd B = true) by (rewrite <- Z.negb_even, Hev; reflexivity).
  apply Z.odd_spec in Hodd as [c Hc].
  destruct (2 * r + 1 ?= B) eqn:E1; destruct (2 * r ?= B) eqn:E2;
    rewrite ?Z.compare_eq_iff, ?Z.compare_lt_iff, ?Z.compare_gt_iff in *;
    try reflexivity; lia.
Qed.

Lemma loc_of_record (m : Z) (l : location) :
  loc_of_shr_record (shr_record_of_loc m l) = l /\
  shr_m (shr_record_of_loc m l) = m.
Proof. destruct l as [| []]; split; reflexivity. Qed.

Lemma repr_of_loc (A B : Z) :
  stands_for (shr_record_of_loc (A / B) (loc_of (A mod B) B)) A B.
Proof. unfold stands_for. pose proof (loc_of_record (A / B) (loc_of (A mod B) B)). tauto. Qed.

Lemma div_mod_double (A B : Z) :
  0 < B -> 0 <= A ->
  A / (2 * B) = (A / B) / 2 /\
  A mod (2 * B) = A mod B + ((A / B) mod 2) * B.
Proof.
  intros HB HA.
  pose proof (Z.div_mod A B ltac:(lia)) as E1.
  pose proof (Z.mod_pos_bound A B HB) as R1.
  pose proof (Z.div_mod (A / B) 2 ltac:(lia)) as E2.
  pose proof (Z.mod_pos_bound (A / B) 2 ltac:(lia)) as R2.
  assert (E : A = 2 * B * ((A / B) / 2) + (A mod B + ((A / B) mod 2) * B)) by nia.
  assert (R : 0 <= A mod B + (A / B) mod 2 * B < 2 * B) by nia.
  split.
  - symmetry. apply (Z.div_unique_pos A (2 * B) _ _ R E).
  - symmetry. apply (Z.mod_unique_pos A (2 * B) _ _ R E).
Qed.

Lemma shr_1_eq (m : Z) (r s : bool) :
  0 <= m ->
  shr_1 {| shr_m := m; shr_r := r; shr_s := s |} =
  {| shr_m := m / 2; shr_r := Z.odd m; shr_s := orb r s |}.
Proof.
  intros Hm. cbn [shr_1]. destruct m as [| [p | p |] | p]; try reflexivity; try lia.
  - cbn [Z.odd]. f_equal. rewrite Pos2Z.inj_xI.
    apply (Z.div_unique_pos _ 2 _ 1); lia.
  - cbn [Z.odd]. f_equal. rewrite Pos2Z.inj_xO.
    apply (Z.div_unique_pos _ 2 _ 0); lia.
Qed.

Lemma shr_1_repr (mrs : shr_record) (A B : Z) :
  0 < B -> 0 <= A -> stands_for mrs A B -> stands_for (shr_1 mrs) A (2 * B).
Proof.
  intros HB HA [Hm Hl].
  destruct (div_mod_double A B HB HA) as [Eq Er].
  pose proof (Z.mod_pos_bound A B HB) as R1.
  pose proof (Z.mod_pos_bound (A / B) 2 ltac:(lia)) as R2.
  pose proof (Z.div_mod (A / B) 2 ltac:(lia)) as E2.
  assert (Hq : 0 <= A / B) by (apply Z.div_pos; lia).
  unfold stands_for. rewrite Eq, Er.
  destruct mrs as [m r s]. cbn [shr_m] in Hm. subst m.
  assert (Hs : orb r s = negb (A mod B =? 0)).
  { cbn [loc_of_shr_record] in Hl. unfold loc_of in Hl.
    destruct (A mod B =? 0); destruct r, s; cbn; congruence. }
  assert (Hcase := shr_1_eq (A / B) r s Hq).
  rewrite Hcase, Hs. cbn [shr_m loc_of_shr_record]. split; [reflexivity |].
  rewrite Zmod_odd in *. unfold loc_of.
  destruct (Z.odd (A / B)); destruct (A mod B =? 0) eqn:E0; cbn [negb];
    rewrite ?Z.eqb_eq, ?Z.eqb_neq in E0.
  - rewrite E0. replace (0 + 1 * B =? 0) with false by (symmetry; apply Z.eqb_neq; lia).
    f_equal. symmetry. apply Z.compare_eq_iff. lia.
  - replace (A mod B + 1 * B =? 0) with false by (symmetry; apply Z.eqb_neq; lia).
    f_equal. symmetry. apply Z.compare_gt_iff. lia.
  - rewrite E0. reflexivity.
  - replace (A mod B + 0 * B =? 0) with false by (symmetry; apply Z.eqb_neq; lia).
    f_equal. symmetry. apply Z.compare_lt_iff. lia.
Qed.

Lemma iter_pos_repr (p : positive) : forall (mrs : shr_record) (A B : Z),
  0 < B -> 0 <= A -> stands_for mrs A B ->
  stands_for (SpecFloat.iter_pos shr_1 p mrs) A (2 ^ Z.pos p * B).
Proof.
  induction p as [p IH | p IH |]; intros mrs A B HB HA H; cbn [SpecFloat.iter_pos].
  - assert (HP : 0 < 2 ^ Z.pos p) by (apply Z.pow_pos_nonneg; lia).
    replace (2 ^ Z.pos p~1 * B) with (2 ^ Z.pos p * (2 ^ Z.pos p * (2 * B))).
    + apply IH; [nia | lia |]. apply IH; [lia | lia |].
      apply shr_1_repr; assumption.
    + replace (Z.pos p~1) with (Z.pos p + Z.pos p + 1) by lia.
      rewrite !Z.pow_add_r by lia. change (2 ^ 1) with 2. ring.
  - assert (HP : 0 < 2 ^ Z.pos p) by (apply Z.pow_pos_nonneg; lia).
    replace (2 ^ Z.pos p~0 * B) with (2 ^ Z.pos p * (2 ^ Z.pos p * B)).
    + apply IH; [nia | lia |]. apply IH; assumption.
    + replace (Z.pos p~0) with (Z.pos p + Z.pos p) by lia.
      rewrite !Z.pow_add_r by lia. ring.
  - change (2 ^ 1) with 2. apply shr_1_repr; assumption.
Qed.

(** shifting right by [n] divides by [2 ^ n] *)
Lemma shr_repr (mrs : shr_record) (e n A B : Z) :
  0 < B -> 0 <= A -> 0 <= n -> stands_for mrs A B ->
  stands_for (fst (shr mrs e n)) A (2 ^ n * B) /\ snd (shr mrs e n) = e + n.
Proof.
  intros HB HA Hn H. destruct n as [| p | p]; [| | lia]; cbn [shr fst snd].
  - change (2 ^ 0) with 1. rewrite Z.mul_1_l. split; [assumption | lia].
  - split; [apply iter_pos_repr; assumption | reflexivity].
Qed.

Lemma rne_bounds (A B : Z) :
  0 < B -> 0 <= A -> A / B <= rne A B <= A / B + 1.
Proof.
  intros HB HA. unfold rne, round_nearest_even, loc_of.
  destruct (A mod B =? 0); [lia |].
  destruct (2 * (A mod B) ?= B); [destruct (Z.even (A / B)) | |]; lia.
Qed.

(** the error of [rne] is at most one half *)
Lemma rne_error (A B : Z) :
  0 < B -> 0 <= A -> - B <= 2 * (rne A B * B - A) <= B.
Proof.
  intros HB HA.
  pose proof (Z.div_mod A B ltac:(lia)) as E1.
  pose proof (Z.mod_pos_bound A B HB) as R1.
  unfold rne, round_nearest_even, loc_of.
  destruct (A mod B =? 0) eqn:E0; rewrite ?Z.eqb_eq, ?Z.eqb_neq in E0; [nia |].
  destruct (2 * (A mod B) ?= B) eqn:Ec;
    rewrite ?Z.compare_eq_iff, ?Z.compare_lt_iff, ?Z.compare_gt_iff in Ec;
    [destruct (Z.even (A / B)) | |]; nia.
Qed.

(** [rne] depends on the ratio only *)
Lemma rne_ratio (A B C D : Z) :
  0 < B -> 0 < D -> 0 <= A -> 0 <= C -> A * D = C * B -> rne A B = rne C D.
Proof.
  intros HB HD HA HC E.
  pose proof (Z.div_mod A B ltac:(lia)) as E1.
  pose proof (Z.mod_pos_bound A B HB) as R1.
  pose proof (Z.div_mod C D ltac:(lia)) as E2.
  pose proof (Z.mod_pos_bound C D HD) as R2.
  assert (Hr' : (A - B * (C / D)) * D = (C mod D) * B).
  { rewrite Z.mul_sub_distr_r, E. rewrite E2 at 1. ring. }
  assert (Hlo : 0 <= A - B * (C / D)).
  { apply (Z.mul_le_mono_pos_r _ _ D HD). rewrite Hr'. nia. }
  assert (Hhi : A - B * (C / D) < B).
  { apply (Z.mul_lt_mono_pos_r D _ _ HD). rewrite Hr'. nia. }
  assert (Hq : A / B = C / D).
  { symmetry. apply (Z.div_unique_pos A B _ (A - B * (C / D))); lia. }
  assert (Hr : (A mod B) * D = (C mod D) * B).
  { rewrite <- Hr'. f_equal. rewrite <- Hq. lia. }
  unfold rne, loc_of. rewrite Hq.
  destruct (A mod B =? 0) eqn:E0; destruct (C mod D =? 0) eqn:E0';
    rewrite ?Z.eqb_eq, ?Z.eqb_neq in *; try reflexivity; try nia.
  replace (2 * (C mod D) ?= D) with (2 * (A mod B) ?= B); [reflexivity |].
  destruct (2 * (A mod B) ?= B) eqn:Ec;
    rewrite ?Z.compare_eq_iff, ?Z.compare_lt_iff, ?Z.compare_gt_iff in Ec;
    symmetry; rewrite ?Z.compare_eq_iff, ?Z.compare_lt_iff, ?Z.compare_gt_iff; nia.
Qed.

Lemma fexp_normal (d : Z) : -1021 <= d -> fexp prec emax d = d - 53.
Proof. intros H. unfold fexp, emin, prec, emax. lia. Qed.

Lemma Zdigits2_unique (m d : Z) :
  2 ^ (d - 1) <= m < 2 ^ d -> 0 < m -> Zdigits2 m = d.
Proof.
  intros H Hm. destruct m as [| p | p]; try lia.
  cbn [Zdigits2]. apply digits2_pos_unique. assumption.
Qed.

Lemma shr_fexp_spec (m e n A B : Z) (l : location) :
  0 < B -> 0 <= A -> 0 <= n ->
  m = A / B -> l = loc_of (A mod B) B ->
  2 ^ (52 + n) <= m < 2 ^ (53 + n) ->
  -1074 <= e + n ->
  stands_for (fst (shr_fexp prec emax m e l)) A (2 ^ n * B) /\
  snd (shr_fexp prec emax m e l) = e + n.
Proof.
  intros HB HA Hn -> -> Hm He. unfold shr_fexp.
  assert (0 < 2 ^ (52 + n)) by (apply Z.pow_pos_nonneg; lia).
  rewrite (Zdigits2_unique (A / B) (53 + n)) by
    (replace (53 + n - 1) with (52 + n) by lia; lia).
  rewrite fexp_normal by lia.
  replace (53 + n + e - 53 - e) with n by lia.
  apply shr_repr; try assumption. apply repr_of_loc.
Qed.

Lemma binary_round_aux_spec (sx : bool) (mx ex : Z) (lx : location) (A B n : Z) :
  0 < B -> 0 <= A -> 0 <= n ->
  mx = A / B -> lx = loc_of (A mod B) B ->
  2 ^ (52 + n) <= mx < 2 ^ (53 + n) ->
  -1074 <= ex + n -> ex + n < 971 ->
  binary_round_aux prec emax sx mx ex lx = mk_float sx (rne A (2 ^ n * B)) (ex + n) /\
  2 ^ 52 <= rne A (2 ^ n * B) <= 2 ^ 53.
Proof.
  intros HB HA Hn Hmx Hlx Hm Hlo Hhi.
  assert (HP : 0 < 2 ^ n) by (apply Z.pow_pos_nonneg; lia).
  assert (HB' : 0 < 2 ^ n * B) by nia.
  destruct (shr_fexp_spec mx ex n A B lx HB HA Hn Hmx Hlx Hm Hlo) as [[Hr1 Hr2] He'].
  pose proof (rne_bounds A (2 ^ n * B) HB' HA) as Hb.
  assert (Hq : A / (2 ^ n * B) = mx / 2 ^ n).
  { rewrite Hmx, Z.mul_comm, Z.div_div by lia. reflexivity. }
  assert (Hrange : 2 ^ 52 <= A / (2 ^ n * B) < 2 ^ 53).
  { rewrite Hq. rewrite !(Z.add_comm _ n), !Z.pow_add_r in Hm by lia. split.
    - apply Z.div_le_lower_bound; lia.
    - apply Z.div_lt_upper_bound; lia. }
  split; [| lia].
  unfold binary_round_aux.
  destruct (shr_fexp prec emax mx ex lx) as [mrs' e'] eqn:E1. cbn [fst snd] in *.
  subst e'. rewrite Hr1, Hr2.
  change (round_nearest_even (A / (2 ^ n * B)) (loc_of (A mod (2 ^ n * B)) (2 ^ n * B)))
    with (rne A (2 ^ n * B)).
  set (m1 := rne A (2 ^ n * B)) in *.
  unfold mk_float. destruct (m1 =? 2 ^ 53) eqn:Em; rewrite ?Z.eqb_eq, ?Z.eqb_neq in Em.
  - rewrite Em. unfold shr_fexp.
    change (Zdigits2 (2 ^ 53)) with 54. rewrite fexp_normal by lia.
    replace (54 + (ex + n) - 53 - (ex + n)) with 1 by lia.
    cbn [shr shr_record_of_loc SpecFloat.iter_pos]. 
    change (shr_m (shr_1 {| shr_m := 2 ^ 53; shr_r := false; shr_s := false |}))
      with (Z.pos (Z.to_pos (2 ^ 52))).
    cbv iota beta.
    replace (ex + n + 1 <=? emax - prec) with true
      by (symmetry; apply Z.leb_le; unfold emax, prec; lia).
    reflexivity.
  - assert (Hd : Zdigits2 m1 = 53) by (apply Zdigits2_unique; change (53 - 1) with 52; lia).
    unfold shr_fexp. rewrite Hd, fexp_normal by lia.
    replace (53 + (ex + n) - 53 - (ex + n)) with 0 by lia.
    cbn [shr shr_record_of_loc shr_m].
    destruct m1 as [| p | p] eqn:Ep; try lia.
    replace (ex + n <=? emax - prec) with true
      by (symmetry; apply Z.leb_le; unfold emax, prec; lia).
    reflexivity.
Qed.

(** *** The rounding of a positive rational *)

Lemma pow2_pos (k : Z) : 0 <= k -> 0 < 2 ^ k.
Proof. intros. apply Z.pow_pos_nonneg; lia. Qed.

Lemma pow2_split (a b : Z) : 0 <= a -> 0 <= b -> 2 ^ (a + b) = 2 ^ a * 2 ^ b.
Proof. intros. apply Z.pow_add_r; assumption. Qed.

Lemma round_gen (mx ex : Z) (lx : location) (A B N D n : Z) :
  0 < B -> 0 <= A -> 0 < D -> 0 <= N -> 0 <= n ->
  mx = A / B -> lx = loc_of (A mod B) B ->
  2 ^ (52 + n) <= mx < 2 ^ (53 + n) ->
  -1074 <= ex + n <= -2 ->
  A * D = N * 2 ^ (- ex) * B ->
  rounds (binary_round_aux prec emax false mx ex lx) N D.
Proof.
  intros HB HA HD HN Hn Hmx Hlx Hm He E.
  destruct (binary_round_aux_spec false mx ex lx A B n HB HA Hn Hmx Hlx Hm
              ltac:(lia) ltac:(lia)) as [-> _].
  set (k := - (ex + n)).
  assert (Hk : 2 <= k) by (unfold k; lia).
  assert (HPk := pow2_pos k ltac:(lia)). assert (HPn := pow2_pos n Hn).
  assert (Epow : 2 ^ (- ex) = 2 ^ k * 2 ^ n).
  { rewrite <- pow2_split by lia. f_equal. unfold k. lia. }
  rewrite Epow in E.
  assert (Hlo : 2 ^ (52 + n) * B <= A).
  { rewrite Hmx in Hm. pose proof (Z.mul_div_le A B HB). nia. }
  assert (Hhi : A < 2 ^ (53 + n) * B).
  { rewrite Hmx in Hm.
    pose proof (Z.div_mod A B ltac:(lia)). pose proof (Z.mod_pos_bound A B HB). nia. }
  rewrite !pow2_split in Hlo, Hhi by lia.
  exists k. split; [assumption |]. split.
  - split.
    + apply (Z.mul_le_mono_pos_r _ _ (2 ^ n * B)); [nia |]. nia.
    + apply (Z.mul_lt_mono_pos_r (2 ^ n * B)); [nia |]. nia.
  - replace (ex + n) with (- k) by (unfold k; lia). f_equal.
    apply rne_ratio; nia.
Qed.

(** [rounds] depends on the ratio only, and determines the float *)
Lemma rounds_ratio (f : float) (N D N' D' : Z) :
  0 < D -> 0 < D' -> 0 <= N -> 0 <= N' -> N * D' = N' * D ->
  rounds f N D -> rounds f N' D'.
Proof.
  intros HD HD' HN HN' E (k & Hk & [Hlo Hhi] & ->).
  assert (HPk := pow2_pos k ltac:(lia)).
  exists k. split; [assumption |]. split.
  - split.
    + apply (Z.mul_le_mono_pos_r _ _ D); [lia |]. nia.
    + apply (Z.mul_lt_mono_pos_r D); [lia |]. nia.
  - f_equal. apply rne_ratio; nia.
Qed.

Lemma rounds_unique (f g : float) (N D : Z) :
  0 < D -> rounds f N D -> rounds g N D -> f = g.
Proof.
  intros HD (k & Hk & [Hlo Hhi] & ->) (k' & Hk' & [Hlo' Hhi'] & ->).
  assert (k = k'); [| subst; reflexivity].
  destruct (Z.lt_trichotomy k k') as [H | [H | H]]; [exfalso | assumption | exfalso].
  - assert (2 * 2 ^ k <= 2 ^ k').
    { replace k' with (1 + k + (k' - k - 1)) by lia.
      rewrite !pow2_split by lia. pose proof (pow2_pos (k' - k - 1) ltac:(lia)).
      pose proof (pow2_pos k ltac:(lia)). change (2 ^ 1) with 2. nia. }
    nia.
  - assert (2 * 2 ^ k' <= 2 ^ k).
    { replace k with (1 + k' + (k - k' - 1)) by lia.
      rewrite !pow2_split by lia. pose proof (pow2_pos (k - k' - 1) ltac:(lia)).
      pose proof (pow2_pos k' ltac:(lia)). change (2 ^ 1) with 2. nia. }
    nia.
Qed.

(** *** The quotient of two mantissas *)

Lemma Zdigits2_bounds (m : Z) :
  0 < m -> 2 ^ (Zdigits2 m - 1) <= m < 2 ^ Zdigits2 m.
Proof. intros H. destruct m as [| p | p]; try lia. apply digits2_pos_bounds. Qed.

Lemma Zdigits2_pos (m : Z) : 0 < m -> 0 < Zdigits2 m.
Proof. intros H. destruct m as [| p | p]; try lia. cbn. lia. Qed.

Lemma pow2_lt_inv (a b : Z) : 0 <= b -> 2 ^ a < 2 ^ b -> a < b.
Proof.
  intros Hb H. destruct (Z.lt_ge_cases a b) as [|Hge]; [assumption |].
  assert (2 ^ b <= 2 ^ a) by (apply Z.pow_le_mono_r; lia). lia.
Qed.

Lemma pow2_le_mono (a b : Z) : 0 <= a <= b -> 2 ^ a <= 2 ^ b.
Proof. intros. apply Z.pow_le_mono_r; lia. Qed.

Lemma pow2_lt_mono (a b : Z) : 0 <= a < b -> 2 ^ a < 2 ^ b.
Proof. intros. apply Z.pow_lt_mono_r; lia. Qed.

(** the digits of [m], from an upper bound *)
Lemma Zdigits2_le (m d : Z) : 0 < m -> 0 <= d -> m < 2 ^ d -> Zdigits2 m <= d.
Proof.
  intros Hm Hd H. pose proof (Zdigits2_bounds m Hm) as [Hlo _].
  pose proof (Zdigits2_pos m Hm).
  assert (Zdigits2 m - 1 < d); [| lia].
  apply pow2_lt_inv; lia.
Qed.

Lemma Zdigits2_ge (m d : Z) : 0 < m -> 2 ^ d <= m -> d < Zdigits2 m.
Proof.
  intros Hm H. pose proof (Zdigits2_bounds m Hm) as [_ Hhi].
  pose proof (Zdigits2_pos m Hm).
  apply pow2_lt_inv; lia.
Qed.

(** the quotient of two mantissas at exponents [- k1] and [- k2] *)
Lemma SFdiv_core_rounds (m1 m2 k1 k2 : Z) :
  0 < m1 < 2 ^ 53 -> 0 < m2 < 2 ^ 53 ->
  0 <= k1 <= 400 -> 0 <= k2 <= 400 ->
  m1 * 2 ^ k2 < 2 ^ 51 * (m2 * 2 ^ k1) ->
  let '(mz, ez, lz) := SFdiv_core_binary prec emax m1 (- k1) m2 (- k2) in
  rounds (binary_round_aux prec emax false mz ez lz) (m1 * 2 ^ k2) (m2 * 2 ^ k1).
Proof.
  intros Hm1 Hm2 Hk1 Hk2 Hval.
  unfold SFdiv_core_binary.
  pose proof (Zdigits2_bounds m1 ltac:(lia)) as [Hd1l Hd1h].
  pose proof (Zdigits2_bounds m2 ltac:(lia)) as [Hd2l Hd2h].
  pose proof (Zdigits2_pos m1 ltac:(lia)) as Hd1p.
  pose proof (Zdigits2_pos m2 ltac:(lia)) as Hd2p.
  pose proof (Zdigits2_le m1 53 ltac:(lia) ltac:(lia) ltac:(lia)) as Hd1.
  pose proof (Zdigits2_le m2 53 ltac:(lia) ltac:(lia) ltac:(lia)) as Hd2.
  set (d1 := Zdigits2 m1) in *. set (d2 := Zdigits2 m2) in *.
  rewrite fexp_normal by lia.
  rewrite Z.min_l by lia.
  set (e' := d1 + - k1 - (d2 + - k2) - 53).
  set (s := 53 + d2 - d1).
  replace (- k1 - - k2 - e') with s by (unfold e', s; lia).
  assert (Hs : 1 <= s) by (unfold s; lia).
  destruct s as [| ps | ps] eqn:Es; try lia. rewrite <- Es in *.
  rewrite Z.shiftl_mul_pow2 by lia.
  assert (HPs := pow2_pos s ltac:(lia)).
  assert (HPk1 := pow2_pos k1 ltac:(lia)). assert (HPk2 := pow2_pos k2 ltac:(lia)).
  pose proof (Z.div_mod (m1 * 2 ^ s) m2 ltac:(lia)) as Edm.
  pose proof (Z.mod_pos_bound (m1 * 2 ^ s) m2 ltac:(lia)) as Rdm.
  assert (Edq : Z.div_eucl (m1 * 2 ^ s) m2 = ((m1 * 2 ^ s) / m2, (m1 * 2 ^ s) mod m2)).
  { unfold Z.div, Z.modulo. destruct (Z.div_eucl (m1 * 2 ^ s) m2). reflexivity. }
  rewrite Edq.
  set (q := m1 * 2 ^ s / m2) in *. set (r := (m1 * 2 ^ s) mod m2) in *.
  (* the quotient has 53 or 54 digits *)
  assert (Hq52 : 2 ^ 52 <= q).
  { apply Z.div_le_lower_bound; [lia |].
    assert (2 ^ (52 + d2) <= m1 * 2 ^ s).
    { replace (52 + d2) with ((d1 - 1) + s) by (unfold s; lia).
      rewrite pow2_split by lia. nia. }
    rewrite pow2_split in H by lia. nia. }
  assert (Hqp : 0 < q) by lia.
  pose proof (Zdigits2_bounds q Hqp) as [Hql Hqh].
  pose proof (Zdigits2_ge q 52 Hqp Hq52) as Hdq.
  set (n := Zdigits2 q - 53).
  assert (Hqk : q < 2 ^ (51 + (k1 + s - k2))).
  { assert (0 <= k1 + s - k2).
    { destruct (Z.lt_ge_cases (k1 + s) k2) as [Hlt | ]; [exfalso | lia].
      assert (2 ^ k1 * 2 ^ s * 2 <= 2 ^ k2).
      { replace k2 with (k1 + s + 1 + (k2 - k1 - s - 1)) by lia.
        rewrite !pow2_split by lia. change (2 ^ 1) with 2.
        pose proof (pow2_pos (k2 - k1 - s - 1) ltac:(lia)). nia. }
      assert (2 ^ 51 * m2 * 2 ^ k1 * 2 ^ s <= m1 * 2 ^ k2 * 2 ^ s) by nia.
      nia. }
    apply Z.div_lt_upper_bound; [lia |].
    rewrite pow2_split by lia.
    assert (E : 2 ^ (k1 + s - k2) * 2 ^ k2 = 2 ^ k1 * 2 ^ s).
    { rewrite <- !pow2_split by lia. f_equal. lia. }
    apply (Z.mul_lt_mono_pos_r (2 ^ k2)); [lia |]. nia. }
  assert (Hn : Zdigits2 q <= 51 + (k1 + s - k2)).
  { apply Zdigits2_le; try lia.
    destruct (Z.lt_ge_cases (51 + (k1 + s - k2)) 0) as [Hneg |]; [| lia].
    rewrite (Z.pow_neg_r 2 _ Hneg) in Hqk. lia. }
  assert (Hen : -1074 <= e' + n <= -2) by (unfold e', n; unfold s in Hn; lia).
  assert (Hn0 : 0 <= n) by (unfold n; lia).
  assert (Hbq : 2 ^ (52 + n) <= q < 2 ^ (53 + n)).
  { unfold n. replace (52 + (Zdigits2 q - 53)) with (Zdigits2 q - 1) by lia.
    replace (53 + (Zdigits2 q - 53)) with (Zdigits2 q) by lia. lia. }
  assert (Eratio : m1 * 2 ^ s * (m2 * 2 ^ k1) = m1 * 2 ^ k2 * 2 ^ (- e') * m2).
  { replace (- e') with (k1 + s - k2) by (unfold e', s; lia).
    assert (0 <= k1 + s - k2) by (unfold e', n, s in *; lia).
    assert (E : 2 ^ (k1 + s - k2) * 2 ^ k2 = 2 ^ k1 * 2 ^ s).
    { rewrite <- !pow2_split by lia. f_equal. lia. }
    rewrite <- (Z.mul_assoc m1 (2 ^ k2)), (Z.mul_comm (2 ^ k2)), E. ring. }
  assert (Eq : q = m1 * 2 ^ s / m2) by reflexivity.
  assert (Er : r = (m1 * 2 ^ s) mod m2) by reflexivity.
  clearbody e' n q r. clear - Hm1 Hm2 HPs HPk1 HPk2 Rdm Hen Hn0 Hbq Eratio Eq Er.
  apply (round_gen q e' (new_location m2 r) (m1 * 2 ^ s) m2
           (m1 * 2 ^ k2) (m2 * 2 ^ k1) n).
  - lia.
  - apply Z.mul_nonneg_nonneg; lia.
  - apply Z.mul_pos_pos; lia.
  - apply Z.mul_nonneg_nonneg; lia.
  - assumption.
  - assumption.
  - rewrite <- Er. apply new_location_loc_of. assumption.
  - assumption.
  - assumption.
  - assumption.
Qed.

(** *** The operations round *)

Lemma rounds_finite (f : float) (N D : Z) :
  rounds f N D -> exists m e, f = S754_finite false m e.
Proof.
  intros (k & _ & _ & ->). unfold mk_float.
  destruct (_ =? _); eexists _, _; reflexivity.
Qed.

Lemma int_truediv_rounds (a b : Z) :
  0 < a < 2 ^ 51 -> 0 < b < 2 ^ 51 ->
  exists f, int_truediv a b = Ok f /\ rounds f a b.
Proof.
  intros Ha Hb.
  pose proof (SFdiv_core_rounds a b 0 0 ltac:(lia) ltac:(lia) ltac:(lia) ltac:(lia)
                ltac:(change (2 ^ 0) with 1; lia)) as H.
  change (- 0) with 0 in H. change (2 ^ 0) with 1 in H. rewrite !Z.mul_1_r in H.
  unfold int_truediv.
  destruct a as [| pa | pa]; try lia. destruct b as [| pb | pb]; try lia.
  change (Z.abs (Z.pos pa)) with (Z.pos pa). change (Z.abs (Z.pos pb)) with (Z.pos pb).
  change (Z.pos pa <? 0) with false. change (Z.pos pb <? 0) with false.
  cbn [xorb].
  destruct (SFdiv_core_binary prec emax (Z.pos pa) 0 (Z.pos pb) 0) as [[mz ez] lz].
  destruct (rounds_finite _ _ _ H) as (m & e & E). rewrite E in *.
  eexists. split; [reflexivity | assumption].
Qed.

Lemma float_div_rounds (f g : float) (m1 k1 m2 k2 : Z) :
  finite64 f m1 k1 -> finite64 g m2 k2 -> k1 <= 400 -> k2 <= 400 ->
  m1 * 2 ^ k2 < 2 ^ 51 * (m2 * 2 ^ k1) ->
  exists h, float_div f g = Ok h /\ rounds h (m1 * 2 ^ k2) (m2 * 2 ^ k1).
Proof.
  intros (-> & Hm1 & Hk1) (-> & Hm2 & Hk2) Hk1' Hk2' Hval.
  pose proof (SFdiv_core_rounds m1 m2 k1 k2 ltac:(lia) ltac:(lia) ltac:(lia) ltac:(lia)
                Hval) as H.
  unfold float_div. cbn [is_zero SFdiv xorb].
  rewrite !Z2Pos.id by lia.
  destruct (SFdiv_core_binary prec emax m1 (- k1) m2 (- k2)) as [[mz ez] lz].
  eexists. split; [reflexivity | assumption].
Qed.

Lemma iter_xO (d p : positive) : Z.pos (Pos.iter xO p d) = Z.pos p * 2 ^ Z.pos d.
Proof.
  induction d as [| d IH] using Pos.peano_ind.
  - cbn [Pos.iter]. change (2 ^ 1) with 2. lia.
  - rewrite Pos.iter_succ, Pos2Z.inj_xO, IH, Pos2Z.inj_succ, Z.pow_succ_r by lia. ring.
Qed.

Lemma shl_align_spec (mx : positive) (ex ex' : Z) :
  ex' <= ex ->
  Z.pos (fst (shl_align mx ex ex')) = Z.pos mx * 2 ^ (ex - ex').
Proof.
  intros H. unfold shl_align.
  destruct (ex' - ex) as [| d | d] eqn:E; try lia; cbn [fst].
  - replace (ex - ex') with 0 by lia. change (2 ^ 0) with 1. lia.
  - rewrite iter_xO. f_equal. f_equal. lia.
Qed.

(** [binary_round] of [p / 2 ^ kz] *)
Lemma binary_round_rounds (p : positive) (kz : Z) :
  0 <= kz <= 400 -> Z.pos p < 2 ^ 51 * 2 ^ kz ->
  rounds (binary_round prec emax false p (- kz)) (Z.pos p) (2 ^ kz).
Proof.
  intros Hkz Hval. unfold binary_round.
  pose proof (digits2_pos_bounds p) as [Hdl Hdh].
  set (d := Z.pos (digits2_pos p)) in *.
  assert (Hd : 0 < d) by (unfold d; lia).
  assert (HPkz := pow2_pos kz ltac:(lia)).
  assert (Hdk : d <= 51 + kz).
  { assert (d - 1 < 51 + kz); [| lia]. apply pow2_lt_inv; [lia |].
    rewrite pow2_split by lia. lia. }
  rewrite fexp_normal by lia.
  unfold shl_align.
  destruct (d + - kz - 53 - - kz) as [| s | s] eqn:Es.
  - (* 53 digits *)
    assert (d = 53) by lia.
    apply (round_gen (Z.pos p) (- kz) loc_Exact (Z.pos p) 1 (Z.pos p) (2 ^ kz) 0);
      try lia.
    + rewrite Z.div_1_r. reflexivity.
    + unfold loc_of. rewrite Z.mod_1_r. reflexivity.
    + change (52 + 0) with (53 - 1). change (53 + 0) with 53.
      replace 53 with d by assumption. lia.
    + rewrite Z.opp_involutive. ring.
  - (* more digits: the rounding shifts right *)
    assert (Hs : d = 53 + Z.pos s) by lia.
    apply (round_gen (Z.pos p) (- kz) loc_Exact (Z.pos p) 1 (Z.pos p) (2 ^ kz) (Z.pos s));
      try lia.
    + rewrite Z.div_1_r. reflexivity.
    + unfold loc_of. rewrite Z.mod_1_r. reflexivity.
    + replace (52 + Z.pos s) with (d - 1) by lia.
      replace (53 + Z.pos s) with d by lia. lia.
    + rewrite Z.opp_involutive. ring.
  - (* fewer digits: the mantissa is shifted left first *)
    assert (Hs : Z.pos s = 53 - d) by lia.
    rewrite iter_xO.
    assert (HPs := pow2_pos (Z.pos s) ltac:(lia)).
    apply (round_gen _ (d + - kz - 53) loc_Exact (Z.pos p * 2 ^ Z.pos s) 1
             (Z.pos p) (2 ^ kz) 0); try lia.
    + rewrite Z.div_1_r. reflexivity.
    + unfold loc_of. rewrite Z.mod_1_r. reflexivity.
    + change (52 + 0) with 52. change (53 + 0) with 53. split.
      * replace 52 with ((d - 1) + Z.pos s) by lia. rewrite pow2_split by lia. nia.
      * replace 53 with (d + Z.pos s) by lia. rewrite pow2_split by lia. nia.
    + replace (- (d + - kz - 53)) with (Z.pos s + kz) by lia.
      rewrite pow2_split by lia. ring.
Qed.

Lemma float_of_int_rounds (y : Z) :
  0 < y < 2 ^ 51 -> exists f, float_of_int y = Ok f /\ rounds f y 1.
Proof.
  intros Hy. destruct y as [| p | p]; try lia.
  pose proof (binary_round_rounds p 0 ltac:(lia) ltac:(change (2 ^ 0) with 1; lia)) as H.
  unfold float_of_int. cbn [binary_normalize].
  change (- 0) with 0 in H. change (2 ^ 0) with 1 in H.
  destruct (rounds_finite _ _ _ H) as (m & e & E). rewrite E in *.
  eexists. split; [reflexivity | assumption].
Qed.

Lemma float_mul_rounds (f g : float) (m1 k1 m2 k2 : Z) :
  finite64 f m1 k1 -> finite64 g m2 k2 -> k1 + k2 <= 1000 ->
  m1 * m2 < 2 ^ 51 * 2 ^ (k1 + k2) ->
  rounds (float_mul f g) (m1 * m2) (2 ^ (k1 + k2)).
Proof.
  intros (-> & Hm1 & Hk1) (-> & Hm2 & Hk2) Hk Hval.
  unfold float_mul. cbn [SFmul xorb].
  rewrite Pos2Z.inj_mul, !Z2Pos.id by lia.
  assert (Hp : 0 < m1 * m2) by nia.
  pose proof (Zdigits2_bounds (m1 * m2) Hp) as [Hdl Hdh].
  assert (Hlo : 2 ^ 104 <= m1 * m2) by (change (2 ^ 104) with (2 ^ 52 * 2 ^ 52); nia).
  pose proof (Zdigits2_ge _ 104 Hp Hlo) as Hd.
  assert (HPk := pow2_pos (k1 + k2) ltac:(lia)).
  assert (Hdk : Zdigits2 (m1 * m2) <= 51 + (k1 + k2)).
  { apply Zdigits2_le; [assumption | lia |]. rewrite pow2_split by lia. assumption. }
  set (d := Zdigits2 (m1 * m2)) in *.
  apply (round_gen _ _ loc_Exact (m1 * m2) 1 _ _ (d - 53)); try lia.
  - rewrite Z.div_1_r. reflexivity.
  - unfold loc_of. rewrite Z.mod_1_r. reflexivity.
  - replace (52 + (d - 53)) with (d - 1) by lia.
    replace (53 + (d - 53)) with d by lia. lia.
  - replace (- (- k1 + - k2)) with (k1 + k2) by lia. ring.
Qed.

Lemma SFabs_binary_round_aux (sx : bool) (mx ex : Z) (lx : location) :
  SFabs (binary_round_aux prec emax sx mx ex lx) =
  binary_round_aux prec emax false mx ex lx.
Proof.
  unfold binary_round_aux.
  destruct (shr_fexp prec emax mx ex lx) as [mrs' e'].
  destruct (shr_fexp prec emax _ e' loc_Exact) as [mrs'' e''].
  destruct (shr_m mrs'') as [| p | p]; try reflexivity.
  destruct (e'' <=? emax - prec); reflexivity.
Qed.

Lemma SFabs_binary_round (sx : bool) (p : positive) (e : Z) :
  SFabs (binary_round prec emax sx p e) = binary_round prec emax false p e.
Proof.
  unfold binary_round. destruct (shl_align _ _ _) as [mz ez].
  apply SFabs_binary_round_aux.
Qed.

(** [abs(f - g)] *)
Lemma float_abs_sub (f g : float) (m1 k1 m2 k2 : Z) :
  finite64 f m1 k1 -> finite64 g m2 k2 -> 2 <= k1 <= 400 -> 2 <= k2 <= 400 ->
  let kz := Z.max k1 k2 in
  let M := m1 * 2 ^ (kz - k1) - m2 * 2 ^ (kz - k2) in
  (M = 0 -> float_abs (float_sub f g) = S754_zero false) /\
  (M <> 0 -> rounds (float_abs (float_sub f g)) (Z.abs M) (2 ^ kz)).
Proof.
  intros (-> & Hm1 & _) (-> & Hm2 & _) Hk1 Hk2 kz M.
  unfold float_abs, float_sub. cbn [SFsub cond_Zopp].
  replace (Z.min (- k1) (- k2)) with (- kz) by (unfold kz; lia).
  rewrite !shl_align_spec by (unfold kz; lia).
  rewrite !Z2Pos.id by lia.
  replace (- k1 - - kz) with (kz - k1) by lia.
  replace (- k2 - - kz) with (kz - k2) by lia.
  fold M.
  assert (HP1 := pow2_pos (kz - k1) ltac:(unfold kz; lia)).
  assert (HP2 := pow2_pos (kz - k2) ltac:(unfold kz; lia)).
  assert (HPz := pow2_pos kz ltac:(unfold kz; lia)).
  assert (Hbound : Z.abs M < 2 ^ 51 * 2 ^ kz).
  { assert (E1 : 2 ^ kz = 2 ^ (kz - k1) * 2 ^ k1)
      by (rewrite <- pow2_split by (unfold kz; lia); f_equal; lia).
    assert (E2 : 2 ^ kz = 2 ^ (kz - k2) * 2 ^ k2)
      by (rewrite <- pow2_split by (unfold kz; lia); f_equal; lia).
    assert (4 <= 2 ^ k1) by (change 4 with (2 ^ 2) at 1; apply pow2_le_mono; lia).
    assert (4 <= 2 ^ k2) by (change 4 with (2 ^ 2) at 1; apply pow2_le_mono; lia).
    assert (m1 * 2 ^ (kz - k1) < 2 ^ 51 * 2 ^ kz).
    { rewrite E1. assert (m1 < 2 ^ 51 * 2 ^ k1) by lia.
      rewrite (Z.mul_comm (2 ^ (kz - k1))), Z.mul_assoc.
      apply Z.mul_lt_mono_pos_r; assumption. }
    assert (m2 * 2 ^ (kz - k2) < 2 ^ 51 * 2 ^ kz).
    { rewrite E2. assert (m2 < 2 ^ 51 * 2 ^ k2) by lia.
      rewrite (Z.mul_comm (2 ^ (kz - k2))), Z.mul_assoc.
      apply Z.mul_lt_mono_pos_r; assumption. }
    assert (0 < m1 * 2 ^ (kz - k1)) by (apply Z.mul_pos_pos; lia).
    assert (0 < m2 * 2 ^ (kz - k2)) by (apply Z.mul_pos_pos; lia).
    unfold M. lia. }
  clearbody M. split.
  - intros ->. reflexivity.
  - intros HM. destruct M as [| p | p]; try lia; cbn [binary_normalize Z.abs] in *;
      rewrite SFabs_binary_round; apply binary_round_rounds;
      solve [assumption | unfold kz; lia].
Qed.

(** *** The value of a float *)

Lemma Qfrac_le (A B C D : Z) :
  0 < B -> 0 < D -> (Qfrac A B <= Qfrac C D)%Q <-> A * D <= C * B.
Proof.
  intros HB HD. unfold Qfrac, Qle. cbn [Qnum Qden]. rewrite !Z2Pos.id by lia. tauto.
Qed.

Lemma Qfrac_lt (A B C D : Z) :
  0 < B -> 0 < D -> (Qfrac A B < Qfrac C D)%Q <-> A * D < C * B.
Proof.
  intros HB HD. unfold Qfrac, Qlt. cbn [Qnum Qden]. rewrite !Z2Pos.id by lia. tauto.
Qed.

Lemma Qfrac_eq (A B C D : Z) :
  0 < B -> 0 < D -> (Qfrac A B == Qfrac C D)%Q <-> A * D = C * B.
Proof.
  intros HB HD. unfold Qfrac, Qeq. cbn [Qnum Qden]. rewrite !Z2Pos.id by lia. tauto.
Qed.

Lemma Qfrac_mul (A B C D : Z) :
  0 < B -> 0 < D -> (Qfrac A B * Qfrac C D == Qfrac (A * C) (B * D))%Q.
Proof.
  intros HB HD. unfold Qfrac, Qeq, Qmult. cbn [Qnum Qden].
  rewrite Z2Pos.inj_mul by lia. reflexivity.
Qed.

Lemma Qfrac_inject (A : Z) : (Qfrac A 1 == inject_Z A)%Q.
Proof. reflexivity. Qed.

Lemma Qfrac_div (N D : Z) : 0 < D -> (Qfrac N D == inject_Z N / inject_Z D)%Q.
Proof.
  intros HD. unfold Qfrac. rewrite (Qmake_Qdiv N (Z.to_pos D)), Z2Pos.id by lia.
  reflexivity.
Qed.

Lemma one_minus_u : (1 - roundoff == Qfrac (2 ^ 53 - 1) (2 ^ 53))%Q.
Proof. reflexivity. Qed.

Lemma one_plus_u : (1 + roundoff == Qfrac (2 ^ 53 + 1) (2 ^ 53))%Q.
Proof. reflexivity. Qed.

Lemma Qval_fin (f : float) (m k : Z) : finite64 f m k -> (Qval f == Qfrac m (2 ^ k))%Q.
Proof.
  intros (-> & Hm & Hk). cbn [Qval]. rewrite Z2Pos.id by lia.
  destruct (0 <=? - k) eqn:E; rewrite ?Z.leb_le, ?Z.leb_gt in E.
  - replace k with 0 by lia. change (- 0) with 0. change (2 ^ 0) with 1.
    rewrite Z.mul_1_r. reflexivity.
  - rewrite Z.opp_involutive. reflexivity.
Qed.

Lemma fin_mk (n k : Z) :
  2 <= k -> 2 ^ 52 <= n <= 2 ^ 53 ->
  exists m k', finite64 (mk_float false n (- k)) m k' /\ k - 1 <= k' <= k /\
               m * 2 ^ k = n * 2 ^ k'.
Proof.
  intros Hk Hn. unfold mk_float.
  destruct (n =? 2 ^ 53) eqn:E; rewrite ?Z.eqb_eq, ?Z.eqb_neq in E.
  - exists (2 ^ 52), (k - 1). split; [| split; [lia |]].
    + split; [| lia]. f_equal. lia.
    + subst n. replace k with (1 + (k - 1)) at 1 by lia.
      rewrite pow2_split by lia. change (2 ^ 53) with (2 ^ 52 * 2 ^ 1). ring.
  - exists n, k. split; [| split; [lia | reflexivity]].
    split; [reflexivity | lia].
Qed.

(** a rounded float is normal and close to the rational it rounds *)
Lemma rounds_near (f : float) (N D : Z) :
  0 < N -> 0 < D -> rounds f N D ->
  near f (Qfrac N D) /\
  exists m k, finite64 f m k /\ 1 <= k /\ N * 2 ^ k < 2 ^ 54 * D.
Proof.
  intros HN HD (k & Hk & [Hlo Hhi] & ->).
  assert (HPk := pow2_pos k ltac:(lia)).
  assert (HA : 0 <= N * 2 ^ k) by nia.
  pose proof (rne_error (N * 2 ^ k) D HD HA) as [Hel Heh].
  pose proof (rne_bounds (N * 2 ^ k) D HD HA) as [Hbl Hbh].
  assert (Hq : 2 ^ 52 <= N * 2 ^ k / D < 2 ^ 53).
  { split; [apply Z.div_le_lower_bound | apply Z.div_lt_upper_bound]; lia. }
  set (n := rne (N * 2 ^ k) D) in *.
  destruct (fin_mk n k Hk ltac:(lia)) as (m & k' & Hfin & Hk' & E).
  assert (HPk' := pow2_pos k' ltac:(lia)).
  split.
  - unfold near. rewrite (Qval_fin _ _ _ Hfin), one_minus_u, one_plus_u.
    rewrite !Qfrac_mul by lia. rewrite !Qfrac_le by lia.
    clearbody n. clear Hbl Hbh Hq Hfin.
    split.
    + apply (Z.mul_le_mono_pos_r _ _ (2 ^ k)); [lia |].
      replace (m * (D * 2 ^ 53) * 2 ^ k) with (n * D * 2 ^ 53 * 2 ^ k')
        by (replace (m * (D * 2 ^ 53) * 2 ^ k) with ((m * 2 ^ k) * (D * 2 ^ 53)) by ring;
            rewrite E; ring).
      replace (N * (2 ^ 53 - 1) * 2 ^ k' * 2 ^ k)
        with ((2 ^ 53 - 1) * (N * 2 ^ k) * 2 ^ k') by ring.
      apply Z.mul_le_mono_nonneg_r; [lia |]. lia.
    + apply (Z.mul_le_mono_pos_r _ _ (2 ^ k)); [lia |].
      replace (m * (D * 2 ^ 53) * 2 ^ k) with (n * D * 2 ^ 53 * 2 ^ k')
        by (replace (m * (D * 2 ^ 53) * 2 ^ k) with ((m * 2 ^ k) * (D * 2 ^ 53)) by ring;
            rewrite E; ring).
      replace (N * (2 ^ 53 + 1) * 2 ^ k' * 2 ^ k)
        with ((2 ^ 53 + 1) * (N * 2 ^ k) * 2 ^ k') by ring.
      apply Z.mul_le_mono_nonneg_r; [lia |]. lia.
  - exists m, k'. split; [assumption |]. split; [lia |].
    assert (2 ^ k' <= 2 ^ k) by (apply pow2_le_mono; lia).
    change (2 ^ 54) with (2 * 2 ^ 53). nia.
Qed.

(** *** The operations, up to a relative error *)

Lemma near_eq (f : float) (r r' : Q) : (r == r')%Q -> near f r -> near f r'.
Proof. unfold near. intros E [H1 H2]. rewrite <- E. split; assumption. Qed.

Lemma nrm_weaken (K K' : Z) (f : float) : K <= K' -> nrm K f -> nrm K' f.
Proof. intros H (m & k & Hf & Hk). exists m, k. split; [assumption | lia]. Qed.

Lemma fin_inj (f : float) (m k m' k' : Z) :
  finite64 f m k -> finite64 f m' k' -> m = m' /\ k = k'.
Proof.
  intros (-> & Hm & Hk) (E & Hm' & Hk'). injection E as E1 E2.
  split; [| lia]. apply Z2Pos.inj in E1; lia.
Qed.

Lemma Qval_pos (f : float) (m k : Z) : finite64 f m k -> (0 < Qval f)%Q.
Proof.
  intros Hf. rewrite (Qval_fin _ _ _ Hf).
  destruct Hf as (_ & Hm & Hk). pose proof (pow2_pos k Hk).
  change 0%Q with (Qfrac 0 1). apply Qfrac_lt; lia.
Qed.

(** the exponent of a float, from bounds on its value *)
Lemma fin_k_lower (f : float) (m k b : Z) :
  finite64 f m k -> 0 <= b -> (Qval f <= inject_Z (2 ^ b))%Q -> 52 - b <= k.
Proof.
  intros Hf Hb Hv. rewrite (Qval_fin _ _ _ Hf), <- Qfrac_inject in Hv.
  destruct Hf as (_ & Hm & Hk).
  pose proof (pow2_pos k Hk). pose proof (pow2_pos b Hb).
  rewrite Qfrac_le in Hv by lia. rewrite Z.mul_1_r, <- pow2_split in Hv by lia.
  assert (51 < b + k); [| lia]. apply pow2_lt_inv; [lia |].
  change (2 ^ 51) with (2 ^ 52 / 2). 
  assert (2 ^ 52 / 2 < 2 ^ 52) by reflexivity. lia.
Qed.

Lemma fin_k_upper (f : float) (m k a : Z) :
  finite64 f m k -> 0 <= a -> (Qfrac 1 (2 ^ a) <= Qval f)%Q -> k <= 52 + a.
Proof.
  intros Hf Ha Hv. rewrite (Qval_fin _ _ _ Hf) in Hv.
  destruct Hf as (_ & Hm & Hk).
  pose proof (pow2_pos k Hk). pose proof (pow2_pos a Ha).
  rewrite Qfrac_le in Hv by lia. rewrite Z.mul_1_l in Hv.
  assert (k < 53 + a); [| lia]. apply pow2_lt_inv; [lia |].
  rewrite pow2_split by lia. nia.
Qed.

Lemma int_truediv_near (a b : Z) :
  0 < a < 2 ^ 51 -> 0 < b < 2 ^ 51 ->
  exists f, int_truediv a b = Ok f /\ nrm 105 f /\ near f (Qfrac a b).
Proof.
  intros Ha Hb. destruct (int_truediv_rounds a b Ha Hb) as (f & E & Hr).
  exists f. split; [assumption |].
  destruct (rounds_near f a b ltac:(lia) ltac:(lia) Hr) as [Hn (m & k & Hf & Hk & Hb')].
  split; [| assumption].
  exists m, k. split; [assumption |]. split; [assumption |].
  assert (k < 105); [| lia]. apply pow2_lt_inv; [lia |].
  pose proof (pow2_pos k ltac:(lia)).
  change (2 ^ 105) with (2 ^ 54 * 2 ^ 51). nia.
Qed.

(** equal ratios have the same quotient *)
Lemma int_truediv_ratio (a b c d : Z) :
  0 < a < 2 ^ 51 -> 0 < b < 2 ^ 51 -> 0 < c < 2 ^ 51 -> 0 < d < 2 ^ 51 ->
  a * d = c * b -> int_truediv a b = int_truediv c d.
Proof.
  intros Ha Hb Hc Hd E.
  destruct (int_truediv_rounds a b Ha Hb) as (f & -> & Hf).
  destruct (int_truediv_rounds c d Hc Hd) as (g & -> & Hg).
  f_equal. apply (rounds_unique f g c d); [lia | | assumption].
  apply (rounds_ratio f a b c d); try lia; assumption.
Qed.

Lemma rne_1 (A : Z) : rne A 1 = A.
Proof. unfold rne, loc_of. rewrite Z.mod_1_r, Z.div_1_r. reflexivity. Qed.

Lemma float_of_int_exact (y : Z) :
  0 < y < 2 ^ 51 ->
  exists f, float_of_int y = Ok f /\ nrm 53 f /\ (Qval f == inject_Z y)%Q.
Proof.
  intros Hy. destruct (float_of_int_rounds y Hy) as (f & E & Hr).
  exists f. split; [assumption |].
  destruct (rounds_near f y 1 ltac:(lia) ltac:(lia) Hr) as [_ (m & k & Hf & Hk & Hb')].
  split.
  - exists m, k. split; [assumption |]. split; [assumption |].
    assert (k < 54); [| lia]. apply pow2_lt_inv; [lia |].
    pose proof (pow2_pos k ltac:(lia)). nia.
  - destruct Hr as (k0 & Hk0 & Hbin & Emk).
    rewrite rne_1 in Emk.
    pose proof (pow2_pos k0 ltac:(lia)).
    destruct (fin_mk (y * 2 ^ k0) k0 Hk0 ltac:(lia)) as (m' & k' & Hf' & Hk' & Em).
    rewrite <- Emk in Hf'. destruct (fin_inj _ _ _ _ _ Hf Hf') as [<- <-].
    rewrite (Qval_fin _ _ _ Hf), <- Qfrac_inject.
    pose proof (pow2_pos k ltac:(lia)).
    apply Qfrac_eq; [lia | lia |]. nia.
Qed.

Lemma float_mul_near (f g : float) (K1 K2 : Z) :
  nrm K1 f -> nrm K2 g -> K1 + K2 <= 1000 ->
  (Qval f <= inject_Z (2 ^ 20))%Q -> (Qval g <= inject_Z (2 ^ 20))%Q ->
  nrm (K1 + K2) (float_mul f g) /\ near (float_mul f g) (Qval f * Qval g).
Proof.
  intros (m1 & k1 & Hf & Hk1) (m2 & k2 & Hg & Hk2) HK Hvf Hvg.
  pose proof (fin_k_lower _ _ _ 20 Hf ltac:(lia) Hvf) as Hl1.
  pose proof (fin_k_lower _ _ _ 20 Hg ltac:(lia) Hvg) as Hl2.
  pose proof Hf as (_ & Hm1 & _). pose proof Hg as (_ & Hm2 & _).
  pose proof (pow2_pos k1 ltac:(lia)) as HP1. pose proof (pow2_pos k2 ltac:(lia)) as HP2.
  assert (HP := pow2_pos (k1 + k2) ltac:(lia)).
  assert (Hval : m1 * m2 < 2 ^ 51 * 2 ^ (k1 + k2)).
  { assert (2 ^ 55 <= 2 ^ (k1 + k2)) by (apply pow2_le_mono; lia).
    assert (m1 * m2 < 2 ^ 53 * 2 ^ 53) by (apply Z.mul_lt_mono_nonneg; lia).
    change (2 ^ 53 * 2 ^ 53) with (2 ^ 51 * 2 ^ 55) in *. lia. }
  pose proof (float_mul_rounds f g m1 k1 m2 k2 Hf Hg ltac:(lia) Hval) as Hr.
  assert (HN : 0 < m1 * m2) by (apply Z.mul_pos_pos; lia).
  destruct (rounds_near _ _ _ HN HP Hr) as [Hn (m & k & Hfin & Hk & Hb)].
  split.
  - exists m, k. split; [assumption |]. split; [assumption |].
    assert (k < k1 + k2); [| lia]. apply pow2_lt_inv; [lia |].
    pose proof (pow2_pos k ltac:(lia)).
    assert (2 ^ 104 <= m1 * m2) by (change (2 ^ 104) with (2 ^ 52 * 2 ^ 52); nia).
    change (2 ^ 104) with (2 ^ 54 * 2 ^ 50) in *. nia.
  - apply (near_eq _ (Qfrac (m1 * m2) (2 ^ (k1 + k2)))); [| assumption].
    rewrite (Qval_fin _ _ _ Hf), (Qval_fin _ _ _ Hg), Qfrac_mul, pow2_split by lia.
    reflexivity.
Qed.

Lemma Qfrac_quot (A B C D : Z) :
  0 < B -> 0 < C -> 0 < D -> (Qfrac A B / Qfrac C D == Qfrac (A * D) (B * C))%Q.
Proof.
  intros HB HC HD. rewrite !Qfrac_div by nia.
  rewrite !inject_Z_mult.
  assert (~ inject_Z B == 0)%Q by (change 0%Q with (inject_Z 0); rewrite inject_Z_injective; lia).
  assert (~ inject_Z C == 0)%Q by (change 0%Q with (inject_Z 0); rewrite inject_Z_injective; lia).
  assert (~ inject_Z D == 0)%Q by (change 0%Q with (inject_Z 0); rewrite inject_Z_injective; lia).
  field. repeat split; assumption.
Qed.

Lemma float_div_near (f g : float) (K1 K2 : Z) :
  nrm K1 f -> nrm K2 g -> K1 <= 400 ->
  (Qval f <= inject_Z (2 ^ 20))%Q -> (Qfrac 1 (2 ^ 20) <= Qval g)%Q ->
  exists h, float_div f g = Ok h /\ nrm 500 h /\ near h (Qval f / Qval g).
Proof.
  intros (m1 & k1 & Hf & Hk1) (m2 & k2 & Hg & Hk2) HK Hvf Hvg.
  pose proof (fin_k_lower _ _ _ 20 Hf ltac:(lia) Hvf) as Hl1.
  pose proof (fin_k_upper _ _ _ 20 Hg ltac:(lia) Hvg) as Hl2.
  pose proof Hf as (_ & Hm1 & _). pose proof Hg as (_ & Hm2 & _).
  pose proof (pow2_pos k1 ltac:(lia)) as HP1. pose proof (pow2_pos k2 ltac:(lia)) as HP2.
  assert (Hval : m1 * 2 ^ k2 < 2 ^ 51 * (m2 * 2 ^ k1)).
  { assert (2 ^ k2 <= 2 ^ 72) by (apply pow2_le_mono; lia).
    assert (2 ^ 32 <= 2 ^ k1) by (apply pow2_le_mono; lia).
    assert (m1 * 2 ^ k2 < 2 ^ 53 * 2 ^ 72) by nia.
    assert (2 ^ 52 * 2 ^ 32 <= m2 * 2 ^ k1) by nia.
    change (2 ^ 53 * 2 ^ 72) with (2 ^ 41 * (2 ^ 52 * 2 ^ 32)) in *. nia. }
  destruct (float_div_rounds f g m1 k1 m2 k2 Hf Hg ltac:(lia) ltac:(lia) Hval)
    as (h & E & Hr).
  exists h. split; [assumption |].
  assert (HN : 0 < m1 * 2 ^ k2) by (apply Z.mul_pos_pos; lia).
  assert (HD : 0 < m2 * 2 ^ k1) by (apply Z.mul_pos_pos; lia).
  destruct (rounds_near _ _ _ HN HD Hr) as [Hn (m & k & Hfin & Hk & Hb)].
  split.
  - exists m, k. split; [assumption |]. split; [assumption |].
    assert (k < 500); [| lia]. apply pow2_lt_inv; [lia |].
    pose proof (pow2_pos k ltac:(lia)).
    assert (2 ^ k1 <= 2 ^ 400) by (apply pow2_le_mono; lia).
    assert (m1 * 2 ^ k2 * 2 ^ k < 2 ^ 54 * (2 ^ 53 * 2 ^ 400)) by nia.
    assert (2 ^ 52 * 1 <= m1 * 2 ^ k2) by nia.
    change (2 ^ 500) with (2 ^ 54 * 2 ^ 394 * 2 ^ 52).
    change (2 ^ 54 * (2 ^ 53 * 2 ^ 400)) with (2 ^ 54 * 2 ^ 401 * 2 ^ 52) in *.
    nia.
  - apply (near_eq _ (Qfrac (m1 * 2 ^ k2) (m2 * 2 ^ k1))); [| assumption].
    rewrite (Qval_fin _ _ _ Hf), (Qval_fin _ _ _ Hg), Qfrac_quot by lia.
    rewrite (Z.mul_comm (2 ^ k1)). reflexivity.
Qed.

(** *** Differences, comparisons and integer parts *)

Lemma nrm_nonneg (K : Z) (f : float) : nrm K f -> nonneg f.
Proof. intros (m & k & Hf & _). right. exists m, k. assumption. Qed.

Lemma Qfrac_sub_pow (m1 m2 k1 k2 : Z) :
  0 <= k1 -> 0 <= k2 ->
  let kz := Z.max k1 k2 in
  (Qfrac m1 (2 ^ k1) - Qfrac m2 (2 ^ k2) ==
   Qfrac (m1 * 2 ^ (kz - k1) - m2 * 2 ^ (kz - k2)) (2 ^ kz))%Q.
Proof.
  intros Hk1 Hk2 kz.
  assert (HP1 := pow2_pos k1 Hk1). assert (HP2 := pow2_pos k2 Hk2).
  assert (HPz := pow2_pos kz ltac:(unfold kz; lia)).
  assert (E1 : 2 ^ kz = 2 ^ (kz - k1) * 2 ^ k1)
    by (rewrite <- pow2_split by (unfold kz; lia); f_equal; lia).
  assert (E2 : 2 ^ kz = 2 ^ (kz - k2) * 2 ^ k2)
    by (rewrite <- pow2_split by (unfold kz; lia); f_equal; lia).
  unfold Qfrac, Qminus, Qplus, Qopp, Qeq. cbn [Qnum Qden].
  rewrite Pos2Z.inj_mul, !Z2Pos.id by lia.
  set (P1 := 2 ^ (kz - k1)) in *. set (P2 := 2 ^ (kz - k2)) in *.
  rewrite Z.mul_add_distr_r. rewrite E1 at 1. rewrite E2. ring.
Qed.

Lemma float_abs_sub_near (f g : float) (K1 K2 : Z) :
  nrm K1 f -> nrm K2 g -> K1 <= 400 -> K2 <= 400 ->
  (Qval f <= inject_Z (2 ^ 20))%Q -> (Qval g <= inject_Z (2 ^ 20))%Q ->
  ((Qval f == Qval g)%Q -> float_abs (float_sub f g) = S754_zero false) /\
  (~ (Qval f == Qval g)%Q ->
   nrm 1000 (float_abs (float_sub f g)) /\
   near (float_abs (float_sub f g)) (Qabs (Qval f - Qval g))).
Proof.
  intros (m1 & k1 & Hf & Hk1) (m2 & k2 & Hg & Hk2) HK1 HK2 Hvf Hvg.
  pose proof (fin_k_lower _ _ _ 20 Hf ltac:(lia) Hvf) as Hl1.
  pose proof (fin_k_lower _ _ _ 20 Hg ltac:(lia) Hvg) as Hl2.
  pose proof (float_abs_sub f g m1 k1 m2 k2 Hf Hg ltac:(lia) ltac:(lia)) as H.
  cbv zeta in H.
  pose proof (Qfrac_sub_pow m1 m2 k1 k2 ltac:(lia) ltac:(lia)) as Esub.
  cbv zeta in Esub.
  set (kz := Z.max k1 k2) in *.
  set (M := m1 * 2 ^ (kz - k1) - m2 * 2 ^ (kz - k2)) in *.
  assert (HPz := pow2_pos kz ltac:(unfold kz; lia)).
  rewrite <- (Qval_fin _ _ _ Hf), <- (Qval_fin _ _ _ Hg) in Esub.
  assert (Hiff : (Qval f == Qval g)%Q <-> M = 0).
  { split.
    - intros E. assert (E0 : (Qfrac M (2 ^ kz) == Qfrac 0 1)%Q).
      { rewrite <- Esub, E. unfold Qminus. rewrite Qplus_opp_r. reflexivity. }
      rewrite Qfrac_eq in E0 by lia. lia.
    - intros E. rewrite E in Esub.
      assert (E0 : (Qfrac 0 (2 ^ kz) == 0)%Q) by reflexivity.
      rewrite E0 in Esub. lra. }
  destruct H as [H0 H1]. split.
  - intros E. apply H0, Hiff, E.
  - intros E. assert (HM : M <> 0) by tauto. specialize (H1 HM).
    assert (HN : 0 < Z.abs M) by lia.
    destruct (rounds_near _ _ _ HN HPz H1) as [Hn (m & k & Hfin & Hk & Hb)].
    split.
    + exists m, k. split; [assumption |]. split; [assumption |].
      assert (k < 1000); [| lia]. apply pow2_lt_inv; [lia |].
      pose proof (pow2_pos k ltac:(lia)).
      assert (2 ^ kz <= 2 ^ 400) by (apply pow2_le_mono; unfold kz; lia).
      assert (1 * 2 ^ k <= Z.abs M * 2 ^ k) by (apply Z.mul_le_mono_nonneg_r; lia).
      change (2 ^ 1000) with (2 ^ 54 * 2 ^ 400 * 2 ^ 546). nia.
    + apply (near_eq _ (Qfrac (Z.abs M) (2 ^ kz))); [| assumption].
      rewrite Esub. reflexivity.
Qed.

(** *** Comparisons *)

Lemma SFcompare_fin (f g : float) (m1 k1 m2 k2 : Z) :
  finite64 f m1 k1 -> finite64 g m2 k2 ->
  SFcompare f g = Some (m1 * 2 ^ k2 ?= m2 * 2 ^ k1).
Proof.
  intros (-> & Hm1 & Hk1) (-> & Hm2 & Hk2). cbn [SFcompare]. f_equal.
  assert (HP1 := pow2_pos k1 Hk1). assert (HP2 := pow2_pos k2 Hk2).
  destruct (Z.compare_spec (- k1) (- k2)) as [E | E | E]; symmetry.
  - assert (k1 = k2) by lia. subst k2.
    change (Pos.compare_cont Eq (Z.to_pos m1) (Z.to_pos m2))
      with (Pos.compare (Z.to_pos m1) (Z.to_pos m2)).
    rewrite Pos2Z.inj_compare, !Z2Pos.id by lia.
    destruct (Z.compare_spec m1 m2) as [E' | E' | E'];
      [apply Z.compare_eq_iff | apply Z.compare_lt_iff | apply Z.compare_gt_iff]; nia.
  - apply Z.compare_lt_iff.
    assert (2 * 2 ^ k2 <= 2 ^ k1).
    { replace k1 with (1 + k2 + (k1 - k2 - 1)) by lia. rewrite !pow2_split by lia.
      pose proof (pow2_pos (k1 - k2 - 1) ltac:(lia)). change (2 ^ 1) with 2. nia. }
    change (2 ^ 53) with (2 * 2 ^ 52) in *. nia.
  - apply Z.compare_gt_iff.
    assert (2 * 2 ^ k1 <= 2 ^ k2).
    { replace k2 with (1 + k1 + (k2 - k1 - 1)) by lia. rewrite !pow2_split by lia.
      pose proof (pow2_pos (k2 - k1 - 1) ltac:(lia)). change (2 ^ 1) with 2. nia. }
    change (2 ^ 53) with (2 * 2 ^ 52) in *. nia.
Qed.

Lemma SFcompare_nonneg (f g : float) :
  nonneg f -> nonneg g -> SFcompare f g = Some (Qcompare (Qval f) (Qval g)).
Proof.
  intros [-> | (m1 & k1 & Hf)] [-> | (m2 & k2 & Hg)].
  - reflexivity.
  - pose proof (Qval_pos _ _ _ Hg) as Hp. destruct Hg as (-> & _ & _).
    cbn [SFcompare]. f_equal. symmetry. apply Qlt_alt. exact Hp.
  - pose proof (Qval_pos _ _ _ Hf) as Hp. destruct Hf as (-> & _ & _).
    cbn [SFcompare]. f_equal. symmetry. apply Qgt_alt. exact Hp.
  - rewrite (SFcompare_fin f g m1 k1 m2 k2 Hf Hg). f_equal.
    rewrite (Qcompare_comp _ _ (Qval_fin _ _ _ Hf) _ _ (Qval_fin _ _ _ Hg)).
    pose proof Hf as (_ & _ & Hk1). pose proof Hg as (_ & _ & Hk2).
    assert (HP1 := pow2_pos k1 Hk1). assert (HP2 := pow2_pos k2 Hk2).
    unfold Qcompare, Qfrac. cbn [Qnum Qden]. rewrite !Z2Pos.id by lia. reflexivity.
Qed.

Lemma float_lt_spec (f g : float) :
  nonneg f -> nonneg g -> float_lt f g = true <-> (Qval f < Qval g)%Q.
Proof.
  intros Hf Hg. unfold float_lt, SFltb. rewrite (SFcompare_nonneg f g Hf Hg).
  rewrite Qlt_alt. destruct (Qval f ?= Qval g)%Q; split; congruence.
Qed.

Lemma float_ge_spec (f g : float) :
  nonneg f -> nonneg g -> float_ge f g = true <-> (Qval g <= Qval f)%Q.
Proof.
  intros Hf Hg. unfold float_ge, SFleb. rewrite (SFcompare_nonneg g f Hg Hf).
  rewrite Qle_alt. destruct (Qval g ?= Qval f)%Q; split; congruence.
Qed.

(** *** [math.floor] and [math.ceil] *)

Lemma math_floor_spec (K : Z) (f : float) :
  nrm K f ->
  exists lo, math_floor f = Ok lo /\
             (inject_Z lo <= Qval f)%Q /\ (Qval f < inject_Z lo + 1)%Q.
Proof.
  intros (m & k & Hf & Hk). pose proof (Qval_fin _ _ _ Hf) as Ev.
  destruct Hf as (-> & Hm & _). assert (HP := pow2_pos k ltac:(lia)).
  cbn [math_floor]. replace (0 <=? - k) with false by (symmetry; apply Z.leb_gt; lia).
  rewrite Z.opp_involutive, Z2Pos.id by lia.
  eexists. split; [reflexivity |]. rewrite Ev.
  replace (inject_Z (m / 2 ^ k) + 1)%Q with (inject_Z (m / 2 ^ k + 1))
    by (rewrite inject_Z_plus; reflexivity).
  rewrite <- !Qfrac_inject. rewrite Qfrac_le, Qfrac_lt by lia.
  pose proof (Z.div_mod m (2 ^ k) ltac:(lia)). pose proof (Z.mod_pos_bound m (2 ^ k) HP).
  nia.
Qed.

Lemma math_ceil_spec (K : Z) (f : float) :
  nrm K f ->
  exists hi, math_ceil f = Ok hi /\
             (inject_Z hi - 1 < Qval f)%Q /\ (Qval f <= inject_Z hi)%Q.
Proof.
  intros (m & k & Hf & Hk). pose proof (Qval_fin _ _ _ Hf) as Ev.
  destruct Hf as (-> & Hm & _). assert (HP := pow2_pos k ltac:(lia)).
  cbn [math_ceil]. replace (0 <=? - k) with false by (symmetry; apply Z.leb_gt; lia).
  rewrite Z.opp_involutive, Z2Pos.id by lia.
  eexists. split; [reflexivity |]. rewrite Ev.
  assert (E : (inject_Z (- (- m / 2 ^ k)) - 1 == inject_Z (- (- m / 2 ^ k) + -1))%Q)
    by (rewrite inject_Z_plus; reflexivity).
  rewrite E. rewrite <- !Qfrac_inject. rewrite Qfrac_le, Qfrac_lt by lia.
  pose proof (Z.div_mod (- m) (2 ^ k) ltac:(lia)).
  pose proof (Z.mod_pos_bound (- m) (2 ^ k) HP).
  nia.
Qed.

End Binary64.

(* ===================================================================== *)
(** ** The size that preserves the aspect ratio                           *)
(* ===================================================================== *)

Import Binary64.

(** a side of an image or of a viewport: positive and below 65536 pixels *)
Definition dim (z : Z) : Prop := 0 < z < 2 ^ 16.

(** the key of a candidate: the computed distance of [c / d] to the
    aspect ratio *)
Definition key_of (a : float) (c d : Z) : result float :=
  q ← int_truediv c d; Ok (float_abs (float_sub a q)).

(** the aspect-ratio error of the size [(x', y')] for an image [(w, h)] *)
Definition aspect_error (w h x' y' : Z) : Q := Qabs (Qfrac w h - Qfrac x' y').

(** the ceiling of [N / D] *)
Definition ceil_div (N D : Z) : Z := - (- N / D).

(** the key of the height [n]: [0 if n == 0 else abs(aspect - x / n)] *)
Definition height_key (a : float) (x n : Z) : result float :=
  if n =? 0 then Ok (S754_zero false) else key_of a x n.

(** [n] is the floor or the ceiling of [N / D], at least 1: the one of
    less error *)
Definition best_of (err : Z -> Q) (N D n : Z) : Prop :=
  (n = Z.max (N / D) 1 \/ n = Z.max (ceil_div N D) 1) /\
  (err n <= err (Z.max (N / D) 1))%Q /\
  (err n <= err (Z.max (ceil_div N D) 1))%Q.

Lemma Qfrac_sub (A B C D : Z) :
  0 < B -> 0 < D -> (Qfrac A B - Qfrac C D == Qfrac (A * D - C * B) (B * D))%Q.
Proof.
  intros HB HD. unfold Qfrac, Qminus, Qplus, Qopp, Qeq. cbn [Qnum Qden].
  rewrite !Z2Pos.inj_mul, !Pos2Z.inj_mul, !Z2Pos.id by lia. ring.
Qed.

Lemma Qfrac_pos (A B : Z) : 0 < A -> 0 < B -> (0 < Qfrac A B)%Q.
Proof. intros HA HB. change 0%Q with (Qfrac 0 1). apply Qfrac_lt; lia. Qed.

Lemma Qfrac_scale (c A B : Z) : 0 < B -> (inject_Z c * Qfrac A B == Qfrac (c * A) B)%Q.
Proof.
  intros HB. rewrite <- Qfrac_inject, Qfrac_mul by lia. rewrite Z.mul_1_l. reflexivity.
Qed.

Lemma Zlt_of_Qle_lt (a b : Z) (q : Q) :
  (inject_Z a <= q)%Q -> (q < inject_Z b)%Q -> a < b.
Proof. intros H1 H2. rewrite Zlt_Qlt. lra. Qed.

Lemma Zlt_of_Qlt_le (a b : Z) (q : Q) :
  (inject_Z a < q)%Q -> (q <= inject_Z b)%Q -> a < b.
Proof. intros H1 H2. rewrite Zlt_Qlt. lra. Qed.

Lemma Zle_of_Qle_le (a b : Z) (q : Q) :
  (inject_Z a <= q)%Q -> (q <= inject_Z b)%Q -> a <= b.
Proof. intros H1 H2. rewrite Zle_Qle. lra. Qed.

Lemma inject_Z_succ (a : Z) : (inject_Z (a + 1) == inject_Z a + 1)%Q.
Proof. rewrite inject_Z_plus. reflexivity. Qed.

Lemma inject_Z_pred (a : Z) : (inject_Z (a - 1) == inject_Z a - 1)%Q.
Proof. unfold Z.sub. rewrite inject_Z_plus. reflexivity. Qed.

Lemma nonneg_Qval (f : float) : nonneg f -> (0 <= Qval f)%Q.
Proof.
  intros [-> | (m & k & Hf)]; [cbn; lra |].
  apply Qlt_le_weak. apply (Qval_pos _ _ _ Hf).
Qed.

(** the size of a rational of two dimensions *)
Lemma Qfrac_dims (a b : Z) :
  0 < a <= 2 ^ 17 -> 0 < b <= 2 ^ 17 ->
  (1 # 131072 <= Qfrac a b)%Q /\ (Qfrac a b <= 131072 # 1)%Q.
Proof.
  intros Ha Hb. change (1 # 131072)%Q with (Qfrac 1 (2 ^ 17)).
  change (131072 # 1)%Q with (Qfrac (2 ^ 17) 1). rewrite !Qfrac_le by lia. lia.
Qed.

(** the comparison of two quotients of dimensions is the exact one *)
Lemma float_ge_ratio (a b c d : Z) (fa fc : float) :
  dim a -> dim b -> dim c -> dim d ->
  int_truediv a b = Ok fa -> int_truediv c d = Ok fc ->
  float_ge fc fa = (a * d <=? c * b).
Proof.
  unfold dim. intros Ha Hb Hc Hd Ea Ec.
  destruct (int_truediv_near a b ltac:(lia) ltac:(lia)) as (fa' & Ea' & Hna & [Hal Hah]).
  destruct (int_truediv_near c d ltac:(lia) ltac:(lia)) as (fc' & Ec' & Hnc & [Hcl Hch]).
  rewrite Ea in Ea'. injection Ea' as <-. rewrite Ec in Ec'. injection Ec' as <-.
  pose proof (float_ge_spec fc fa (nrm_nonneg _ _ Hnc) (nrm_nonneg _ _ Hna)) as Hge.
  destruct (Qfrac_dims a b ltac:(lia) ltac:(lia)) as [Hrl Hrh].
  destruct (Qfrac_dims c d ltac:(lia) ltac:(lia)) as [Hsl Hsh].
  assert (Hbd : 0 < b * d) by nia.
  assert (Hcb : c * b < 2 ^ 32) by (change (2 ^ 32) with (2 ^ 16 * 2 ^ 16); nia).
  assert (Had : a * d < 2 ^ 32) by (change (2 ^ 32) with (2 ^ 16 * 2 ^ 16); nia).
  pose proof (Qfrac_sub c d a b ltac:(lia) ltac:(lia)) as Esub.
  rewrite (Z.mul_comm d b) in Esub.
  set (rho := Qfrac a b) in *. set (sigma := Qfrac c d) in *.
  set (delta := Qfrac 1 (b * d)).
  assert (Hs : (sigma <= inject_Z (2 ^ 32) * delta)%Q).
  { unfold sigma, delta. rewrite Qfrac_scale by lia. rewrite Qfrac_le by lia. nia. }
  assert (Hr : (rho <= inject_Z (2 ^ 32) * delta)%Q).
  { unfold rho, delta. rewrite Qfrac_scale by lia. rewrite Qfrac_le by lia. nia. }
  change (inject_Z (2 ^ 32)) with (4294967296 # 1)%Q in *.
  unfold roundoff in *.
  destruct (Z.compare_spec (a * d) (c * b)) as [E | E | E].
  - rewrite (int_truediv_ratio a b c d) in Ea by lia.
    rewrite Ea in Ec. injection Ec as ->.
    replace (a * d <=? c * b) with true by (symmetry; apply Z.leb_le; lia).
    apply Hge. lra.
  - replace (a * d <=? c * b) with true by (symmetry; apply Z.leb_le; lia).
    apply Hge.
    assert (Hgap : (delta <= sigma - rho)%Q).
    { rewrite Esub. unfold delta. rewrite Qfrac_le by lia. nia. }
    lra.
  - replace (a * d <=? c * b) with false by (symmetry; apply Z.leb_gt; lia).
    destruct (float_ge fc fa) eqn:Eg; [| reflexivity]. exfalso.
    assert (Hv : (Qval fa <= Qval fc)%Q) by (apply Hge; reflexivity).
    assert (Hgap : (delta <= rho - sigma)%Q).
    { assert (E' : (rho - sigma == - (sigma - rho))%Q) by ring.
      rewrite E', Esub. unfold delta.
      assert (E'' : (- Qfrac (c * b - a * d) (b * d) == Qfrac (a * d - c * b) (b * d))%Q).
      { unfold Qfrac, Qopp, Qeq. cbn [Qnum Qden]. ring. }
      rewrite E''. rewrite Qfrac_le by lia. nia. }
    lra.
Qed.

Lemma key_of_spec (w h c d : Z) (a : float) :
  dim w -> dim h -> int_truediv w h = Ok a ->
  0 <= c <= 2 ^ 16 -> 0 < d <= 2 ^ 16 ->
  exists K vq,
    key_of a c d = Ok K /\ nonneg K /\
    (Qfrac c d * (1 - roundoff) <= vq /\ vq <= Qfrac c d * (1 + roundoff))%Q /\
    (Qabs (Qval a - vq) * (1 - roundoff) <= Qval K /\
     Qval K <= Qabs (Qval a - vq) * (1 + roundoff))%Q /\
    (0 < c -> c * h = w * d -> K = S754_zero false).
Proof.
  unfold dim. intros Hw Hh Ea Hc Hd.
  destruct (int_truediv_near w h ltac:(lia) ltac:(lia)) as (a' & Ea' & Hna & [Hal Hah]).
  rewrite Ea in Ea'. injection Ea' as <-.
  destruct (Qfrac_dims w h ltac:(lia) ltac:(lia)) as [Hrl Hrh].
  pose proof Hna as (ma & ka & Hfa & _). pose proof (Qval_pos _ _ _ Hfa) as Hpa.
  unfold key_of.
  destruct (Z.eq_dec c 0) as [-> | Hc0].
  - (* the candidate 0 *)
    exists a, 0%Q. destruct d as [| pd | pd]; try lia. cbn [int_truediv mbind].
    change (Z.pos pd <? 0) with false.
    assert (Ez : float_abs (float_sub a (S754_zero false)) = a).
    { destruct Hfa as (-> & _). reflexivity. }
    cbn [mbind result_mbind rbind]. rewrite Ez.
    split; [reflexivity |]. split; [right; exists ma, ka; assumption |].
    assert (E0 : (Qfrac 0 (Z.pos pd) == 0)%Q) by reflexivity.
    assert (Eabs : (Qabs (Qval a - 0) == Qval a)%Q).
    { rewrite Qabs_pos; lra. }
    rewrite E0, Eabs. unfold roundoff. repeat split; try lra. lia.
  - destruct (int_truediv_near c d ltac:(lia) ltac:(lia)) as (q & Eq & Hnq & [Hql Hqh]).
    destruct (Qfrac_dims c d ltac:(lia) ltac:(lia)) as [Hcl Hch].
    rewrite Eq. cbn [mbind result_mbind rbind].
    assert (Hva : (Qval a <= inject_Z (2 ^ 20))%Q).
    { change (inject_Z (2 ^ 20)) with (1048576 # 1)%Q. unfold roundoff in *. lra. }
    assert (Hvq : (Qval q <= inject_Z (2 ^ 20))%Q).
    { change (inject_Z (2 ^ 20)) with (1048576 # 1)%Q. unfold roundoff in *. lra. }
    destruct (float_abs_sub_near a q 105 105 Hna Hnq ltac:(lia) ltac:(lia) Hva Hvq)
      as [Hz Hnz].
    exists (float_abs (float_sub a q)), (Qval q).
    split; [reflexivity |].
    destruct (Qeq_dec (Qval a) (Qval q)) as [E | E].
    + rewrite (Hz E). split; [left; reflexivity |].
      split; [split; assumption |]. split; [| reflexivity].
      assert (Eabs : (Qabs (Qval a - Qval q) == 0)%Q).
      { assert (E0 : (Qval a - Qval q == 0)%Q) by lra. rewrite E0. reflexivity. }
      rewrite Eabs. cbn [Qval]. lra.
    + destruct (Hnz E) as [Hn [Hkl Hkh]].
      split; [apply (nrm_nonneg _ _ Hn) |].
      split; [split; assumption |]. split; [split; assumption |].
      intros Hcp Er. exfalso. apply E.
      rewrite (int_truediv_ratio c d w h) in Eq by lia.
      rewrite Ea in Eq. injection Eq as ->. reflexivity.
Qed.

(** an order of [Z], through [Q] *)
Ltac Zify_Q :=
  first [rewrite Zlt_Qlt | rewrite Zle_Qle];
  rewrite ?inject_Z_succ, ?inject_Z_pred.

(** the floor and the ceiling of a float that is close to [N / D] *)
Lemma round_window (K : Z) (T : float) (N D : Z) :
  nrm K T -> 0 < N -> 0 < D < 2 ^ 16 -> N < 2 ^ 16 * D ->
  (Qfrac N D * (1 - (4 # 9007199254740992)) <= Qval T)%Q ->
  (Qval T <= Qfrac N D * (1 + (4 # 9007199254740992)))%Q ->
  exists lo hi,
    math_floor T = Ok lo /\ math_ceil T = Ok hi /\
    ((N mod D = 0 /\
      ((lo = N / D - 1 /\ hi = N / D) \/ (lo = N / D /\ hi = N / D) \/
       (lo = N / D /\ hi = N / D + 1))) \/
     (N mod D <> 0 /\ lo = N / D /\ hi = N / D + 1)).
Proof.
  intros HT HN HD Hlt Hl Hh.
  destruct (math_floor_spec K T HT) as (lo & Elo & Hlo1 & Hlo2).
  destruct (math_ceil_spec K T HT) as (hi & Ehi & Hhi1 & Hhi2).
  exists lo, hi. split; [assumption |]. split; [assumption |].
  pose proof (Z.div_mod N D ltac:(lia)) as Edm.
  pose proof (Z.mod_pos_bound N D ltac:(lia)) as Rdm.
  set (f := N / D) in *. set (r := N mod D) in *.
  assert (Hf : 0 <= f < 2 ^ 16) by (split; [apply Z.div_pos | apply Z.div_lt_upper_bound]; lia).
  assert (HF : (0 <= inject_Z f /\ inject_Z f <= 65536 # 1)%Q).
  { change 0%Q with (inject_Z 0). change (65536 # 1)%Q with (inject_Z (2 ^ 16)).
    rewrite <- !Zle_Qle. lia. }
  assert (Ht : (Qfrac N D <= 65536 # 1)%Q).
  { change (65536 # 1)%Q with (Qfrac (2 ^ 16) 1). rewrite Qfrac_le by lia. lia. }
  set (t := Qfrac N D) in *. set (V := Qval T) in *.
  destruct (Z.eq_dec r 0) as [Hr | Hr]; [left | right]; (split; [assumption |]).
  - assert (Et : (t == inject_Z f)%Q).
    { unfold t. rewrite <- Qfrac_inject. rewrite Qfrac_eq by lia. lia. }
    rewrite Et in Hl, Hh.
    destruct (Q_dec V (inject_Z f)) as [[Hc | Hc] | Hc].
    + left. split.
      * assert (lo < f) by (Zify_Q; lra). assert (f - 1 < lo + 1) by (Zify_Q; lra). lia.
      * assert (f - 1 < hi) by (Zify_Q; lra). assert (hi - 1 < f) by (Zify_Q; lra). lia.
    + right. right. split.
      * assert (lo < f + 1) by (Zify_Q; lra). assert (f < lo + 1) by (Zify_Q; lra). lia.
      * assert (f < hi) by (Zify_Q; lra). assert (hi - 1 < f + 1) by (Zify_Q; lra). lia.
    + right. left. split.
      * assert (lo <= f) by (Zify_Q; lra). assert (f < lo + 1) by (Zify_Q; lra). lia.
      * assert (f <= hi) by (Zify_Q; lra). assert (hi - 1 < f) by (Zify_Q; lra). lia.
  - assert (Hi : (1 # 65536 <= Qfrac 1 D)%Q).
    { change (1 # 65536)%Q with (Qfrac 1 (2 ^ 16)). rewrite Qfrac_le by lia. lia. }
    assert (Hlow : (inject_Z f + Qfrac 1 D <= t)%Q).
    { unfold t. rewrite <- Qfrac_inject.
      assert (E : (Qfrac f 1 + Qfrac 1 D == Qfrac (f * D + 1) D)%Q).
      { unfold Qfrac, Qplus, Qeq. cbn [Qnum Qden]. rewrite !Pos2Z.inj_mul, !Z2Pos.id by lia.
        ring. }
      rewrite E, Qfrac_le by lia. nia. }
    assert (Hhigh : (t + Qfrac 1 D <= inject_Z f + 1)%Q).
    { unfold t. rewrite <- inject_Z_succ, <- Qfrac_inject.
      assert (E : (Qfrac N D + Qfrac 1 D == Qfrac (N + 1) D)%Q).
      { unfold Qfrac, Qplus, Qeq. cbn [Qnum Qden]. rewrite !Pos2Z.inj_mul, !Z2Pos.id by lia.
        ring. }
      rewrite E, Qfrac_le by lia. nia. }
    set (i := Qfrac 1 D) in *.
    split.
    + assert (lo < f + 1) by (Zify_Q; lra). assert (f < lo + 1) by (Zify_Q; lra). lia.
    + assert (f < hi) by (Zify_Q; lra). assert (hi - 1 < f + 1) by (Zify_Q; lra). lia.
Qed.

Lemma ceil_div_exact (N D : Z) : 0 < D -> N mod D = 0 -> ceil_div N D = N / D.
Proof.
  intros HD H. unfold ceil_div.
  pose proof (Z.div_mod N D ltac:(lia)) as E. rewrite H, Z.add_0_r in E.
  rewrite E at 1. rewrite <- Z.mul_opp_r, Z.mul_comm, Z.div_mul by lia. lia.
Qed.

Lemma ceil_div_inexact (N D : Z) : 0 < D -> N mod D <> 0 -> ceil_div N D = N / D + 1.
Proof.
  intros HD H. unfold ceil_div.
  pose proof (Z.div_mod N D ltac:(lia)) as E.
  pose proof (Z.mod_pos_bound N D HD) as R.
  assert (- N / D = - (N / D) - 1); [| lia].
  symmetry. apply (Z.div_unique_pos (- N) D _ (D - N mod D)); lia.
Qed.

Lemma round_aspect_spec (T : float) (key : Z -> result float)
    (lo hi : Z) (Klo Khi : float) :
  math_floor T = Ok lo -> math_ceil T = Ok hi ->
  key lo = Ok Klo -> key hi = Ok Khi ->
  round_aspect T key = Ok (Z.max (if float_lt Khi Klo then hi else lo) 1).
Proof.
  intros E1 E2 E3 E4. unfold round_aspect, min_by_key.
  rewrite E1, E2. cbn [mbind result_mbind rbind]. rewrite E3, E4. reflexivity.
Qed.

Lemma float_lt_zero_r (K : float) : nonneg K -> float_lt K (S754_zero false) = false.
Proof.
  intros HK. destruct (float_lt K (S754_zero false)) eqn:E; [| reflexivity].
  apply float_lt_spec in E; [| assumption | left; reflexivity].
  pose proof (nonneg_Qval K HK). cbn [Qval] in E. lra.
Qed.

Lemma float_lt_zero_l (K : float) :
  nonneg K -> (0 < Qval K)%Q -> float_lt (S754_zero false) K = true.
Proof.
  intros HK Hp. apply float_lt_spec; [left; reflexivity | assumption |].
  cbn [Qval]. assumption.
Qed.

Section Width.
Variables w h x y : Z.
Hypothesis Hw : dim w.
Hypothesis Hh : dim h.
Hypothesis Hx : dim x.
Hypothesis Hy : dim y.
Variable a : float.
Hypothesis Ea : int_truediv w h = Ok a.
Hypothesis Hbranch : w * y <= x * h.

(** the product [y * aspect] is close to the exact width *)
Lemma width_number :
  exists fy, float_of_int y = Ok fy /\
    exists lo hi,
      math_floor (float_mul fy a) = Ok lo /\ math_ceil (float_mul fy a) = Ok hi /\
      (((y * w) mod h = 0 /\
        ((lo = y * w / h - 1 /\ hi = y * w / h) \/
         (lo = y * w / h /\ hi = y * w / h) \/
         (lo = y * w / h /\ hi = y * w / h + 1))) \/
       ((y * w) mod h <> 0 /\ lo = y * w / h /\ hi = y * w / h + 1)).
Proof.
  unfold dim in *.
  destruct (int_truediv_near w h ltac:(lia) ltac:(lia)) as (a' & Ea' & Hna & [Hal Hah]).
  rewrite Ea in Ea'. injection Ea' as <-.
  destruct (Qfrac_dims w h ltac:(lia) ltac:(lia)) as [Hrl Hrh].
  destruct (float_of_int_exact y ltac:(lia)) as (fy & Efy & Hnfy & Evy).
  exists fy. split; [assumption |].
  assert (HY : (1 <= inject_Z y /\ inject_Z y <= 65536 # 1)%Q).
  { change 1%Q with (inject_Z 1). change (65536 # 1)%Q with (inject_Z (2 ^ 16)).
    rewrite <- !Zle_Qle. lia. }
  assert (Hvy : (Qval fy <= inject_Z (2 ^ 20))%Q).
  { change (inject_Z (2 ^ 20)) with (1048576 # 1)%Q. lra. }
  assert (Hva : (Qval a <= inject_Z (2 ^ 20))%Q).
  { change (inject_Z (2 ^ 20)) with (1048576 # 1)%Q. unfold roundoff in *. lra. }
  destruct (float_mul_near fy a 53 105 Hnfy Hna ltac:(lia) Hvy Hva) as [HnT [HTl HTh]].
  apply (round_window 158 _ (y * w) h HnT); try nia.
  - (* lower bound *)
    assert (Et : (Qfrac (y * w) h == inject_Z y * Qfrac w h)%Q)
      by (rewrite Qfrac_scale by lia; reflexivity).
    rewrite Et. rewrite Evy in HTl.
    assert (Hp : (inject_Z y * (Qfrac w h * (1 - roundoff)) <= inject_Z y * Qval a)%Q)
      by (apply Qmult_le_l; lra).
    set (P := (inject_Z y * Qval a)%Q) in *.
    assert (Ht : (inject_Z y * (Qfrac w h * (1 - roundoff)) == (inject_Z y * Qfrac w h) * (1 - roundoff))%Q)
      by ring.
    rewrite Ht in Hp.
    assert (Htp : (0 <= inject_Z y * Qfrac w h)%Q) by (apply Qmult_le_0_compat; lra).
    set (t := (inject_Z y * Qfrac w h)%Q) in *. unfold roundoff in *. lra.
  - assert (Et : (Qfrac (y * w) h == inject_Z y * Qfrac w h)%Q)
      by (rewrite Qfrac_scale by lia; reflexivity).
    rewrite Et. rewrite Evy in HTh.
    assert (Hp : (inject_Z y * Qval a <= inject_Z y * (Qfrac w h * (1 + roundoff)))%Q)
      by (apply Qmult_le_l; lra).
    set (P := (inject_Z y * Qval a)%Q) in *.
    assert (Ht : (inject_Z y * (Qfrac w h * (1 + roundoff)) == (inject_Z y * Qfrac w h) * (1 + roundoff))%Q)
      by ring.
    rewrite Ht in Hp.
    assert (Htp : (0 <= inject_Z y * Qfrac w h)%Q) by (apply Qmult_le_0_compat; lra).
    set (t := (inject_Z y * Qfrac w h)%Q) in *. unfold roundoff in *. lra.
Qed.

(** the chosen width: the floor or the ceiling of the exact width, the
    one of less aspect-ratio error *)
Lemma width_result :
  exists x',
    (fy ← float_of_int y;
     x' ← round_aspect (float_mul fy a) (fun n => key_of a n y);
     Ok (x', y)) = Ok (x', y) /\
    1 <= x' <= x /\
    (x' = Z.max (y * w / h) 1 \/ x' = Z.max (ceil_div (y * w) h) 1) /\
    (aspect_error w h x' y <= aspect_error w h (Z.max (y * w / h) 1) y)%Q /\
    (aspect_error w h x' y <= aspect_error w h (Z.max (ceil_div (y * w) h) 1) y)%Q.
Proof.
  destruct width_number as (fy & Efy & lo & hi & Elo & Ehi & Hcases).
  unfold dim in *.
  destruct (int_truediv_near w h ltac:(lia) ltac:(lia)) as (a' & Ea' & Hna & [Hal Hah]).
  rewrite Ea in Ea'. injection Ea' as <-.
  destruct (Qfrac_dims w h ltac:(lia) ltac:(lia)) as [Hrl Hrh].
  pose proof (Z.div_mod (y * w) h ltac:(lia)) as Edm.
  pose proof (Z.mod_pos_bound (y * w) h ltac:(lia)) as Rdm.
  assert (HN : 0 < y * w) by nia.
  set (N := y * w) in *. set (f := N / h) in *. set (r := N mod h) in *.
  assert (Hf0 : 0 <= f) by (apply Z.div_pos; lia).
  assert (Hfx : f <= x) by (apply Z.div_le_upper_bound; unfold N; nia).
  assert (Hi : (0 < Qfrac 1 y /\ Qfrac 1 y <= 1)%Q).
  { split; [apply Qfrac_pos; lia |]. change 1%Q with (Qfrac 1 1).
    rewrite Qfrac_le by lia. lia. }
  assert (Hphi : (Qfrac f y <= (65536 # 1) * Qfrac 1 y)%Q).
  { change (65536 # 1)%Q with (inject_Z (2 ^ 16)). rewrite Qfrac_scale by lia.
    rewrite Qfrac_le by lia. nia. }
  assert (Esucc : (Qfrac (f + 1) y == Qfrac f y + Qfrac 1 y)%Q).
  { unfold Qfrac, Qplus, Qeq. cbn [Qnum Qden]. rewrite !Pos2Z.inj_mul, !Z2Pos.id by lia.
    ring. }
  assert (Epred : (Qfrac (f - 1) y == Qfrac f y - Qfrac 1 y)%Q).
  { unfold Qfrac, Qminus, Qplus, Qopp, Qeq. cbn [Qnum Qden].
    rewrite !Pos2Z.inj_mul, !Z2Pos.id by lia. ring. }
  rewrite Efy. cbn [mbind result_mbind rbind].
  destruct Hcases as [[Hr Hlh] | [Hr [-> ->]]].
  - (* the exact width is an integer *)
    assert (Hfh : f * h = w * y) by (unfold N in *; lia).
    assert (Hf1 : 1 <= f) by nia.
    destruct (key_of_spec w h f y a Hw Hh Ea ltac:(lia) ltac:(lia))
      as (Kf & vf & EKf & _ & _ & _ & Hzero).
    rewrite (Hzero ltac:(lia) Hfh) in EKf. clear Hzero.
    assert (Hres : round_aspect (float_mul fy a) (fun n => key_of a n y) = Ok f).
    { destruct Hlh as [[-> ->] | [[-> ->] | [-> ->]]].
      - destruct (key_of_spec w h (f - 1) y a Hw Hh Ea ltac:(lia) ltac:(lia))
          as (K1 & v1 & EK1 & HK1 & [_ Hv1] & [HKl _] & _).
        rewrite (round_aspect_spec _ _ _ _ _ _ Elo Ehi EK1 EKf).
        rewrite float_lt_zero_l; [f_equal; lia | assumption |].
        assert (Erho : (Qfrac w h == Qfrac f y)%Q) by (rewrite Qfrac_eq by lia; lia).
        rewrite Epred in Hv1. rewrite Erho in Hal.
        pose proof (Qle_Qabs (Qval a - v1)) as Habs.
        set (A := Qabs (Qval a - v1)) in *. set (phi := Qfrac f y) in *.
        set (i := Qfrac 1 y) in *. unfold roundoff in *. lra.
      - rewrite (round_aspect_spec _ _ _ _ _ _ Elo Ehi EKf EKf).
        rewrite float_lt_zero_r by (left; reflexivity). f_equal. lia.
      - destruct (key_of_spec w h (f + 1) y a Hw Hh Ea ltac:(lia) ltac:(lia))
          as (K1 & v1 & EK1 & HK1 & _).
        rewrite (round_aspect_spec _ _ _ _ _ _ Elo Ehi EKf EK1).
        rewrite float_lt_zero_r by assumption. f_equal. lia. }
    rewrite Hres. exists f. split; [reflexivity |].
    rewrite (ceil_div_exact N h ltac:(lia) Hr). fold f.
    rewrite Z.max_l by lia.
    split; [lia |]. split; [left; reflexivity |]. split; apply Qle_refl.
  - (* the exact width is between two integers *)
    rewrite (ceil_div_inexact N h ltac:(lia) Hr). fold f.
    assert (Hlt1 : f * h < w * y) by (unfold N, r in *; lia).
    assert (Hlt2 : w * y < (f + 1) * h) by (unfold N, r in *; nia).
    assert (Hfx' : f + 1 <= x) by nia.
    destruct (key_of_spec w h f y a Hw Hh Ea ltac:(lia) ltac:(lia))
      as (Kf & vf & EKf & HKf & [Hvfl Hvfh] & [HKfl HKfh] & _).
    destruct (key_of_spec w h (f + 1) y a Hw Hh Ea ltac:(lia) ltac:(lia))
      as (Kc & vc & EKc & HKc & [Hvcl Hvch] & [HKcl HKch] & _).
    rewrite (round_aspect_spec _ _ _ _ _ _ Elo Ehi EKf EKc).
    cbn [mbind result_mbind rbind].
    eexists. split; [reflexivity |].
    destruct (Z.eq_dec f 0) as [Hfz | Hfz].
    + (* below one pixel *)
      rewrite Hfz. change (0 + 1) with 1.
      assert (E1 : Z.max (if float_lt Kc Kf then 1 else 0) 1 = 1)
        by (destruct (float_lt Kc Kf); reflexivity).
      rewrite E1. change (Z.max 0 1) with 1. change (Z.max 1 1) with 1.
      split; [lia |]. split; [left; reflexivity |]. split; apply Qle_refl.
    + assert (Hf1 : 1 <= f) by lia.
      rewrite (Z.max_l f 1) by lia. rewrite (Z.max_l (f + 1) 1) by lia.
      assert (Em : Z.max (if float_lt Kc Kf then f + 1 else f) 1 =
                   if float_lt Kc Kf then f + 1 else f)
        by (destruct (float_lt Kc Kf); lia).
      rewrite Em.
      (* the two exact errors *)
      assert (Hrf : (Qfrac f y < Qfrac w h)%Q) by (rewrite Qfrac_lt by lia; lia).
      assert (Hrc : (Qfrac w h < Qfrac f y + Qfrac 1 y)%Q)
        by (rewrite <- Esucc, Qfrac_lt by lia; lia).
      assert (Eef : (aspect_error w h f y == Qfrac w h - Qfrac f y)%Q).
      { unfold aspect_error. apply Qabs_pos. lra. }
      assert (Eec : (aspect_error w h (f + 1) y == Qfrac f y + Qfrac 1 y - Qfrac w h)%Q).
      { unfold aspect_error. rewrite Esucc, Qabs_neg by lra. ring. }
      (* their difference is a multiple of [1 / (h * y)] *)
      set (Z0 := (2 * f + 1) * h - 2 * (w * y)).
      assert (EZ : (2 * Qfrac f y + Qfrac 1 y - 2 * Qfrac w h == Qfrac Z0 (h * y))%Q).
      { unfold Z0, Qfrac, Qminus, Qplus, Qmult, Qopp, Qeq. cbn [Qnum Qden].
        rewrite !Pos2Z.inj_mul, !Z2Pos.id by nia. ring. }
      assert (Hhy : 0 < h * y < 2 ^ 32) by (change (2 ^ 32) with (2 ^ 16 * 2 ^ 16); nia).
      assert (Hgap : (Z0 <= 0 /\ (Qfrac Z0 (h * y) <= 0)%Q) \/
                     (0 < Z0 /\ (1 # 4294967296 <= Qfrac Z0 (h * y))%Q)).
      { destruct (Z_le_gt_dec Z0 0) as [Hz | Hz]; [left | right]; (split; [lia |]).
        - change 0%Q with (Qfrac 0 1). rewrite Qfrac_le by lia. lia.
        - change (1 # 4294967296)%Q with (Qfrac 1 (2 ^ 32)). rewrite Qfrac_le by lia. nia. }
      assert (Hgap' : (0 <= Z0 /\ (0 <= Qfrac Z0 (h * y))%Q) \/
                      (Z0 < 0 /\ (Qfrac Z0 (h * y) <= - (1 # 4294967296))%Q)).
      { destruct (Z_lt_ge_dec Z0 0) as [Hz | Hz]; [right | left]; (split; [lia |]).
        - change (- (1 # 4294967296))%Q with (Qfrac (- 1) (2 ^ 32)).
          rewrite Qfrac_le by lia. nia.
        - change 0%Q with (Qfrac 0 1). rewrite Qfrac_le by lia. lia. }
      pose proof (Qle_Qabs (Qval a - vf)) as Haf1.
      pose proof (Qle_Qabs (- (Qval a - vf))) as Haf2. rewrite Qabs_opp in Haf2.
      pose proof (Qle_Qabs (Qval a - vc)) as Hac1.
      pose proof (Qle_Qabs (- (Qval a - vc))) as Hac2. rewrite Qabs_opp in Hac2.
      assert (Hcf : (Qabs (Qval a - vf) <= Qval a - vf \/ Qabs (Qval a - vf) <= - (Qval a - vf))%Q).
      { apply Qabs_case; intros; [left | right]; apply Qle_refl. }
      assert (Hcc : (Qabs (Qval a - vc) <= Qval a - vc \/ Qabs (Qval a - vc) <= - (Qval a - vc))%Q).
      { apply Qabs_case; intros; [left | right]; apply Qle_refl. }
      rewrite Esucc in Hvcl, Hvch.
      destruct (float_lt Kc Kf) eqn:Elt.
      * apply float_lt_spec in Elt; [| assumption | assumption].
        split; [lia |]. split; [right; reflexivity |].
        split; [| apply Qle_refl]. rewrite Eef, Eec.
        set (Af := Qabs (Qval a - vf)) in *. set (Ac := Qabs (Qval a - vc)) in *.
        set (phi := Qfrac f y) in *. set (i := Qfrac 1 y) in *.
        set (rho := Qfrac w h) in *. set (g := Qfrac Z0 (h * y)) in *.
        unfold roundoff in *.
        destruct Hgap as [[_ Hg] | [_ Hg]]; [lra |]. exfalso.
        destruct Hcf as [Hcf | Hcf]; lra.
      * assert (Hge : (Qval Kf <= Qval Kc)%Q).
        { apply Qnot_lt_le. intros Hc.
          apply (float_lt_spec Kc Kf HKc HKf) in Hc. congruence. }
        split; [lia |]. split; [left; reflexivity |].
        split; [apply Qle_refl |]. rewrite Eef, Eec.
        set (Af := Qabs (Qval a - vf)) in *. set (Ac := Qabs (Qval a - vc)) in *.
        set (phi := Qfrac f y) in *. set (i := Qfrac 1 y) in *.
        set (rho := Qfrac w h) in *. set (g := Qfrac Z0 (h * y)) in *.
        unfold roundoff in *.
        destruct Hgap' as [[_ Hg] | [_ Hg]]; [lra |]. exfalso.
        destruct Hcc as [Hcc | Hcc]; lra.
Qed.

End Width.

Section Height.
Variables w h x y : Z.
Hypothesis Hw : dim w.
Hypothesis Hh : dim h.
Hypothesis Hx : dim x.
Hypothesis Hy : dim y.
Variable a : float.
Hypothesis Ea : int_truediv w h = Ok a.
Hypothesis Hbranch : x * h < w * y.

(** the quotient [x / aspect] is close to the exact height *)
Lemma height_number :
  exists fx T, float_of_int x = Ok fx /\ float_div fx a = Ok T /\
    exists lo hi,
      math_floor T = Ok lo /\ math_ceil T = Ok hi /\
      (((x * h) mod w = 0 /\
        ((lo = x * h / w - 1 /\ hi = x * h / w) \/
         (lo = x * h / w /\ hi = x * h / w) \/
         (lo = x * h / w /\ hi = x * h / w + 1))) \/
       ((x * h) mod w <> 0 /\ lo = x * h / w /\ hi = x * h / w + 1)).
Proof.
  unfold dim in *.
  destruct (int_truediv_near w h ltac:(lia) ltac:(lia)) as (a' & Ea' & Hna & [Hal Hah]).
  rewrite Ea in Ea'. injection Ea' as <-.
  destruct (Qfrac_dims w h ltac:(lia) ltac:(lia)) as [Hrl Hrh].
  destruct (float_of_int_exact x ltac:(lia)) as (fx & Efx & Hnfx & Evx).
  assert (HX : (1 <= inject_Z x /\ inject_Z x <= 65536 # 1)%Q).
  { change 1%Q with (inject_Z 1). change (65536 # 1)%Q with (inject_Z (2 ^ 16)).
    rewrite <- !Zle_Qle. lia. }
  assert (Hvx : (Qval fx <= inject_Z (2 ^ 20))%Q).
  { change (inject_Z (2 ^ 20)) with (1048576 # 1)%Q. lra. }
  assert (Hva : (Qfrac 1 (2 ^ 20) <= Qval a)%Q).
  { change (Qfrac 1 (2 ^ 20)) with (1 # 1048576)%Q. unfold roundoff in *. lra. }
  destruct (float_div_near fx a 53 105 Hnfx Hna ltac:(lia) Hvx Hva)
    as (T & ET & HnT & [HTl HTh]).
  exists fx, T. split; [assumption |]. split; [assumption |].
  assert (Hap : (0 < Qval a)%Q) by (unfold roundoff in *; lra).
  assert (Hrp : (0 < Qfrac w h)%Q) by lra.
  assert (Ez : (Qval fx / Qval a * Qval a == inject_Z x)%Q).
  { rewrite Evx. unfold Qdiv. rewrite <- Qmult_assoc, (Qmult_comm (/ Qval a)).
    rewrite Qmult_inv_r by lra. ring. }
  assert (Et : (Qfrac (x * h) w * Qfrac w h == inject_Z x)%Q).
  { rewrite Qfrac_mul by lia. rewrite <- Qfrac_inject. rewrite Qfrac_eq by nia. ring. }
  assert (Hzp : (0 < Qval fx / Qval a)%Q).
  { apply Qlt_shift_div_l; lra. }
  assert (Htp : (0 < Qfrac (x * h) w)%Q) by (apply Qfrac_pos; nia).
  set (Zq := (Qval fx / Qval a)%Q) in *. set (t := Qfrac (x * h) w) in *.
  set (rho := Qfrac w h) in *.
  (* [Zq * (1 - roundoff) <= t <= Zq * (1 + roundoff)] *)
  assert (H1 : (t <= Zq * (1 + roundoff))%Q).
  { apply (Qmult_le_r _ _ rho Hrp). rewrite Et, <- Ez.
    assert (E : (Zq * (1 + roundoff) * rho == Zq * (rho * (1 + roundoff)))%Q) by ring.
    rewrite E. apply Qmult_le_l; assumption. }
  assert (H2 : (Zq * (1 - roundoff) <= t)%Q).
  { apply (Qmult_le_r _ _ rho Hrp). rewrite Et, <- Ez.
    assert (E : (Zq * (1 - roundoff) * rho == Zq * (rho * (1 - roundoff)))%Q) by ring.
    rewrite E. apply Qmult_le_l; assumption. }
  apply (round_window 500 T (x * h) w HnT); try nia; fold t; unfold roundoff in *; lra.
Qed.

Lemma height_key_spec (n : Z) :
  1 <= n <= 2 ^ 16 ->
  exists K vq,
    height_key a x n = Ok K /\ nonneg K /\
    (Qfrac x n * (1 - roundoff) <= vq /\ vq <= Qfrac x n * (1 + roundoff))%Q /\
    (Qabs (Qval a - vq) * (1 - roundoff) <= Qval K /\
     Qval K <= Qabs (Qval a - vq) * (1 + roundoff))%Q /\
    (x * h = w * n -> K = S754_zero false).
Proof.
  intros Hn. unfold height_key.
  replace (n =? 0) with false by (symmetry; apply Z.eqb_neq; lia).
  unfold dim in Hx.
  destruct (key_of_spec w h x n a Hw Hh Ea ltac:(lia) ltac:(lia))
    as (K & vq & EK & HK & Hv & HKv & Hzero).
  exists K, vq. repeat split; try tauto.
Qed.

(** the chosen height: the floor or the ceiling of the exact height, the
    one of less aspect-ratio error *)
Lemma height_result :
  exists y',
    (fx ← float_of_int x;
     number ← float_div fx a;
     y' ← round_aspect number (height_key a x);
     Ok (x, y')) = Ok (x, y') /\
    1 <= y' <= y /\
    (y' = Z.max (x * h / w) 1 \/ y' = Z.max (ceil_div (x * h) w) 1) /\
    (aspect_error w h x y' <= aspect_error w h x (Z.max (x * h / w) 1))%Q /\
    (aspect_error w h x y' <= aspect_error w h x (Z.max (ceil_div (x * h) w) 1))%Q.
Proof.
  destruct height_number as (fx & T & Efx & ET & lo & hi & Elo & Ehi & Hcases).
  pose proof Hw as Hw'. pose proof Hh as Hh'. pose proof Hx as Hx'. pose proof Hy as Hy'.
  unfold dim in Hw', Hh', Hx', Hy'.
  destruct (int_truediv_near w h ltac:(lia) ltac:(lia)) as (a' & Ea' & Hna & [Hal Hah]).
  rewrite Ea in Ea'. injection Ea' as <-.
  destruct (Qfrac_dims w h ltac:(lia) ltac:(lia)) as [Hrl Hrh].
  pose proof (Z.div_mod (x * h) w ltac:(lia)) as Edm.
  pose proof (Z.mod_pos_bound (x * h) w ltac:(lia)) as Rdm.
  assert (HN : 0 < x * h) by nia.
  set (N := x * h) in *. set (f := N / w) in *. set (r := N mod w) in *.
  assert (Hf0 : 0 <= f) by (apply Z.div_pos; lia).
  assert (Hfy : f < y) by (apply Z.div_lt_upper_bound; unfold N; nia).
  rewrite Efx. cbn [mbind result_mbind rbind]. rewrite ET. cbn [mbind result_mbind rbind].
  destruct Hcases as [[Hr Hlh] | [Hr [-> ->]]].
  - (* the exact height is an integer *)
    assert (Hfw : x * h = w * f) by (unfold N in *; lia).
    assert (Hf1 : 1 <= f) by nia.
    destruct (height_key_spec f ltac:(lia)) as (Kf & vf & EKf & _ & _ & _ & Hzero).
    rewrite (Hzero Hfw) in EKf. clear Hzero.
    assert (Hres : round_aspect T (height_key a x) = Ok f).
    { destruct Hlh as [[-> ->] | [[-> ->] | [-> ->]]].
      - destruct (Z.eq_dec f 1) as [Hf | Hf].
        + assert (E0 : height_key a x (f - 1) = Ok (S754_zero false))
            by (rewrite Hf; reflexivity).
          rewrite (round_aspect_spec _ _ _ _ _ _ Elo Ehi E0 EKf).
          rewrite float_lt_zero_r by (left; reflexivity). f_equal. lia.
        + destruct (height_key_spec (f - 1) ltac:(lia))
            as (K1 & v1 & EK1 & HK1 & [Hv1 _] & [HKl _] & _).
          rewrite (round_aspect_spec _ _ _ _ _ _ Elo Ehi EK1 EKf).
          rewrite float_lt_zero_l; [f_equal; lia | assumption |].
          assert (Erho : (Qfrac w h == Qfrac x f)%Q) by (rewrite Qfrac_eq by lia; lia).
          assert (Hsep : (Qfrac x f * (65537 # 65536) <= Qfrac x (f - 1))%Q).
          { change (65537 # 65536)%Q with (Qfrac 65537 65536).
            rewrite Qfrac_mul by lia. rewrite Qfrac_le by lia. nia. }
          rewrite Erho in Hah, Hrl.
          pose proof (Qle_Qabs (- (Qval a - v1))) as Habs. rewrite Qabs_opp in Habs.
          set (A := Qabs (Qval a - v1)) in *. set (F := Qfrac x f) in *.
          set (F1 := Qfrac x (f - 1)) in *. unfold roundoff in *. lra.
      - rewrite (round_aspect_spec _ _ _ _ _ _ Elo Ehi EKf EKf).
        rewrite float_lt_zero_r by (left; reflexivity). f_equal. lia.
      - destruct (height_key_spec (f + 1) ltac:(lia)) as (K1 & v1 & EK1 & HK1 & _).
        rewrite (round_aspect_spec _ _ _ _ _ _ Elo Ehi EKf EK1).
        rewrite float_lt_zero_r by assumption. f_equal. lia. }
    rewrite Hres. exists f. split; [reflexivity |].
    rewrite (ceil_div_exact N w ltac:(lia) Hr). fold f.
    rewrite Z.max_l by lia.
    split; [lia |]. split; [left; reflexivity |]. split; apply Qle_refl.
  - (* the exact height is between two integers *)
    rewrite (ceil_div_inexact N w ltac:(lia) Hr). fold f.
    assert (Hlt1 : f * w < x * h) by (unfold N, r in *; lia).
    assert (Hlt2 : x * h < (f + 1) * w) by (unfold N, r in *; nia).
    destruct (height_key_spec (f + 1) ltac:(lia))
      as (Kc & vc & EKc & HKc & [Hvcl Hvch] & [HKcl HKch] & _).
    destruct (Z.eq_dec f 0) as [Hfz | Hfz].
    + (* below one pixel *)
      assert (E0 : height_key a x f = Ok (S754_zero false)) by (rewrite Hfz; reflexivity).
      rewrite (round_aspect_spec _ _ _ _ _ _ Elo Ehi E0 EKc).
      rewrite float_lt_zero_r by assumption. cbn [mbind result_mbind rbind].
      eexists. split; [reflexivity |]. rewrite Hfz.
      change (0 + 1) with 1. change (Z.max 0 1) with 1. change (Z.max 1 1) with 1.
      split; [lia |]. split; [left; reflexivity |]. split; apply Qle_refl.
    + assert (Hf1 : 1 <= f) by lia.
      destruct (height_key_spec f ltac:(lia))
        as (Kf & vf & EKf & HKf & [Hvfl Hvfh] & [HKfl HKfh] & _).
      rewrite (round_aspect_spec _ _ _ _ _ _ Elo Ehi EKf EKc).
      cbn [mbind result_mbind rbind].
      eexists. split; [reflexivity |].
      rewrite (Z.max_l f 1) by lia. rewrite (Z.max_l (f + 1) 1) by lia.
      assert (Em : Z.max (if float_lt Kc Kf then f + 1 else f) 1 =
                   if float_lt Kc Kf then f + 1 else f)
        by (destruct (float_lt Kc Kf); lia).
      rewrite Em.
      (* the two exact errors *)
      assert (Hrf : (Qfrac w h < Qfrac x f)%Q) by (rewrite Qfrac_lt by lia; lia).
      assert (Hrc : (Qfrac x (f + 1) < Qfrac w h)%Q) by (rewrite Qfrac_lt by lia; lia).
      assert (Eef : (aspect_error w h x f == Qfrac x f - Qfrac w h)%Q).
      { unfold aspect_error. rewrite Qabs_neg by lra. ring. }
      assert (Eec : (aspect_error w h x (f + 1) == Qfrac w h - Qfrac x (f + 1))%Q).
      { unfold aspect_error. apply Qabs_pos. lra. }
      (* their difference is a multiple of [1 / (f * (f + 1) * h)] *)
      set (Z0 := x * h * (2 * f + 1) - 2 * (w * (f * (f + 1)))).
      assert (HD : 0 < f * (f + 1) * h) by nia.
      assert (EZ : (Qfrac x f + Qfrac x (f + 1) - 2 * Qfrac w h ==
                    Qfrac Z0 (f * (f + 1) * h))%Q).
      { unfold Z0, Qfrac, Qminus, Qplus, Qmult, Qopp, Qeq. cbn [Qnum Qden].
        rewrite !Pos2Z.inj_mul, !Z2Pos.id by nia. ring. }
      assert (Hbig : x * ((f + 1) * h) <= 2 ^ 48).
      { change (2 ^ 48) with (2 ^ 16 * (2 ^ 16 * 2 ^ 16)).
        apply Z.mul_le_mono_nonneg; try lia. apply Z.mul_le_mono_nonneg; lia. }
      assert (Hgap : (Z0 <= 0 /\ (Qfrac Z0 (f * (f + 1) * h) <= 0)%Q) \/
                     (0 < Z0 /\
                      (Qfrac x f * (1 # 281474976710656) <= Qfrac Z0 (f * (f + 1) * h))%Q)).
      { destruct (Z_le_gt_dec Z0 0) as [Hz | Hz]; [left | right]; (split; [lia |]).
        - change 0%Q with (Qfrac 0 1). rewrite Qfrac_le by lia. lia.
        - change (1 # 281474976710656)%Q with (Qfrac 1 (2 ^ 48)).
          rewrite Qfrac_mul by lia. rewrite Qfrac_le by lia.
          clearbody Z0. clear - Hz Hbig Hf1 HD Hx'.
          replace (x * 1 * (f * (f + 1) * h)) with (f * (x * ((f + 1) * h))) by ring.
          replace (Z0 * (f * 2 ^ 48)) with (f * (Z0 * 2 ^ 48)) by ring.
          apply Z.mul_le_mono_nonneg_l; [lia |]. nia. }
      assert (Hgap' : (0 <= Z0 /\ (0 <= Qfrac Z0 (f * (f + 1) * h))%Q) \/
                      (Z0 < 0 /\
                       (Qfrac Z0 (f * (f + 1) * h) <=
                        - (Qfrac x f * (1 # 281474976710656)))%Q)).
      { destruct (Z_lt_ge_dec Z0 0) as [Hz | Hz]; [right | left]; (split; [lia |]).
        - change (1 # 281474976710656)%Q with (Qfrac 1 (2 ^ 48)).
          rewrite Qfrac_mul by lia.
          assert (E : (- Qfrac (x * 1) (f * 2 ^ 48) == Qfrac (- (x * 1)) (f * 2 ^ 48))%Q)
            by reflexivity.
          rewrite E. rewrite Qfrac_le by lia.
          clearbody Z0. clear - Hz Hbig Hf1 HD Hx'.
          replace (- (x * 1) * (f * (f + 1) * h)) with (f * (- (x * ((f + 1) * h)))) by ring.
          replace (Z0 * (f * 2 ^ 48)) with (f * (Z0 * 2 ^ 48)) by ring.
          apply Z.mul_le_mono_nonneg_l; [lia |]. nia.
        - change 0%Q with (Qfrac 0 1). rewrite Qfrac_le by lia. lia. }
      pose proof (Qle_Qabs (Qval a - vf)) as Haf1.
      pose proof (Qle_Qabs (- (Qval a - vf))) as Haf2. rewrite Qabs_opp in Haf2.
      pose proof (Qle_Qabs (Qval a - vc)) as Hac1.
      pose proof (Qle_Qabs (- (Qval a - vc))) as Hac2. rewrite Qabs_opp in Hac2.
      assert (Hcf : (Qabs (Qval a - vf) <= Qval a - vf \/ Qabs (Qval a - vf) <= - (Qval a - vf))%Q).
      { apply Qabs_case; intros; [left | right]; apply Qle_refl. }
      assert (Hcc : (Qabs (Qval a - vc) <= Qval a - vc \/ Qabs (Qval a - vc) <= - (Qval a - vc))%Q).
      { apply Qabs_case; intros; [left | right]; apply Qle_refl. }
      destruct (float_lt Kc Kf) eqn:Elt.
      * apply float_lt_spec in Elt; [| assumption | assumption].
        split; [lia |]. split; [right; reflexivity |].
        split; [| apply Qle_refl]. rewrite Eef, Eec.
        set (Af := Qabs (Qval a - vf)) in *. set (Ac := Qabs (Qval a - vc)) in *.
        set (F := Qfrac x f) in *. set (G := Qfrac x (f + 1)) in *.
        set (rho := Qfrac w h) in *. set (g := Qfrac Z0 (f * (f + 1) * h)) in *.
        unfold roundoff in *.
        destruct Hgap' as [[_ Hg] | [_ Hg]]; [lra |]. exfalso.
        destruct Hcf as [Hcf | Hcf]; lra.
      * assert (Hge : (Qval Kf <= Qval Kc)%Q).
        { apply Qnot_lt_le. intros Hc.
          apply (float_lt_spec Kc Kf HKc HKf) in Hc. congruence. }
        split; [lia |]. split; [left; reflexivity |].
        split; [apply Qle_refl |]. rewrite Eef, Eec.
        set (Af := Qabs (Qval a - vf)) in *. set (Ac := Qabs (Qval a - vc)) in *.
        set (F := Qfrac x f) in *. set (G := Qfrac x (f + 1)) in *.
        set (rho := Qfrac w h) in *. set (g := Qfrac Z0 (f * (f + 1) * h)) in *.
        unfold roundoff in *.
        destruct Hgap as [[_ Hg] | [_ Hg]]; [lra |]. exfalso.
        destruct Hcc as [Hcc | Hcc]; lra.
Qed.

End Height.

(** C8.  For an image [(w, h)] and a viewport [(x, y)] whose four sides
    are positive and below 65536, [get_size_that_preserves_ratio]
    returns a size [(x', y')] that fits the viewport and has no side
    below 1.  The side of the looser viewport ratio is shrunk and the
    other one is the viewport's: when [w / h <= x / y] the height is [y]
    and the width is the floor or the ceiling of the exact width
    [y * w / h], otherwise the width is [x] and the height is the floor
    or the ceiling of the exact height [x * h / w]; in both cases it is
    the one of the two (raised to 1) of less aspect-ratio error, and the
    exact value when that is an integer. *)
Theorem get_size_that_preserves_ratio_fits (w h x y : Z) :
  dim w -> dim h -> dim x -> dim y ->
  exists x' y',
    get_size_that_preserves_ratio (w, h) (x, y) = Ok (x', y') /\
    1 <= x' <= x /\ 1 <= y' <= y /\
    ((w * y <= x * h /\ y' = y /\
      best_of (fun n => aspect_error w h n y) (y * w) h x') \/
     (x * h < w * y /\ x' = x /\
      best_of (fun n => aspect_error w h x n) (x * h) w y')).
Proof.
  intros Hw Hh Hx Hy. pose proof Hw as Hw'. pose proof Hh as Hh'.
  pose proof Hx as Hx'. pose proof Hy as Hy'. unfold dim in Hw', Hh', Hx', Hy'.
  destruct (int_truediv_near w h ltac:(lia) ltac:(lia)) as (a & Ea & _).
  destruct (int_truediv_near x y ltac:(lia) ltac:(lia)) as (r & Er & _).
  unfold get_size_that_preserves_ratio.
  rewrite Ea. cbn [mbind result_mbind rbind]. rewrite Er. cbn [mbind result_mbind rbind].
  rewrite (float_ge_ratio w h x y a r Hw Hh Hx Hy Ea Er).
  destruct (w * y <=? x * h) eqn:Eb; rewrite ?Z.leb_le, ?Z.leb_gt in Eb.
  - destruct (width_result w h x y Hw Hh Hx Hy a Ea Eb)
      as (x' & E & Hfit & Hc & He1 & He2).
    exists x', y. split; [exact E |]. split; [assumption |]. split; [lia |].
    left. split; [assumption |]. split; [reflexivity |].
    split; [assumption |]. split; assumption.
  - destruct (height_result w h x y Hw Hh Hx Hy a Ea Eb)
      as (y' & E & Hfit & Hc & He1 & He2).
    exists x, y'. split; [exact E |]. split; [lia |]. split; [assumption |].
    right. split; [assumption |]. split; [reflexivity |].
    split; [assumption |]. split; assumption.
Qed.

(** an image of 1000 x 500 in a viewport of 200 x 200 *)
Lemma get_size_that_preserves_ratio_fits_witness :
  get_size_that_preserves_ratio (1000, 500) (200, 200) = Ok (200, 100).
Proof.
  destruct (get_size_that_preserves_ratio_fits 1000 500 200 200)
    as (x' & y' & E & Hx & Hy & [[Hb _] | (_ & -> & [Hc | Hc] & _)]);
    try (unfold dim; lia); try (exfalso; lia);
    rewrite E; rewrite Hc; reflexivity.
Defined.

(* ===================================================================== *)
(** ** What the per-page conversion writes                                 *)
(* ===================================================================== *)

(** [m] takes every world to one that is [R]-related to it *)
Definition frames (R : world -> world -> Prop) {A} (m : M A) : Prop :=
  forall w, R w (snd (m w)).

Section Frames.
Context (R : world -> world -> Prop).
Hypothesis R_refl : forall w, R w w.
Hypothesis R_trans : forall a b c, R a b -> R b c -> R a c.

Lemma frames_ret {A} (a : A) : frames R (ret a).
Proof using R_refl. intros w. apply R_refl. Qed.

Lemma frames_raise {A} (e : exn) : frames R (@raise A e).
Proof using R_refl. intros w. apply R_refl. Qed.

Lemma frames_lift {A} (r : result A) : frames R (lift r).
Proof using R_refl. intros w. apply R_refl. Qed.

Lemma frames_get : frames R get.
Proof using R_refl. intros w. apply R_refl. Qed.

Lemma frames_bind {A B} (m : M A) (k : A -> M B) :
  frames R m -> (forall a, frames R (k a)) -> frames R (bind m k).
Proof using R_trans.
  intros Hm Hk w. unfold bind. specialize (Hm w).
  destruct (m w) as [[a|e] w1]; simpl in *; [|exact Hm].
  eapply R_trans; [exact Hm|apply Hk].
Qed.

Lemma frames_try_except {A} (m : M A) handled h :
  frames R m -> (forall e, frames R (h e)) -> frames R (try_except m handled h).
Proof using R_trans.
  intros Hm Hh w. unfold try_except. specialize (Hm w).
  destruct (m w) as [[a|e] w1]; simpl in *; [exact Hm|].
  destruct (handled e); [|exact Hm].
  eapply R_trans; [exact Hm|apply Hh].
Qed.

Lemma frames_modify (f : world -> world) :
  (forall w, R w (f w)) -> frames R (modify f).
Proof. intros H w. apply H. Qed.
End Frames.

(** the worlds the conversion of a page with quality [q] can lead to:
    nothing but the file system, the class attribute [LossyFmt.quality],
    which stays or becomes [q], the interrupt flag, which stays or
    becomes [True], and the handler of the interrupt signal, which stays
    or becomes the pool's, has changed *)
Definition conversion_frame (q : Z) (w w' : world) : Prop :=
  cfg w' = cfg w /\ env w' = env w /\ heap w' = heap w /\
  (ctrl_c_entered w' = ctrl_c_entered w \/ ctrl_c_entered w' = Some true) /\
  default_sigint_handler w' = default_sigint_handler w /\
  (sigint w' = sigint w \/ sigint w' = pool_CTRL_C_handler) /\
  (LossyFmt_quality w' = LossyFmt_quality w \/ LossyFmt_quality w' = q).

Lemma conversion_frame_refl q w : conversion_frame q w w.
Proof. unfold conversion_frame. tauto. Qed.

Lemma conversion_frame_trans q a b c :
  conversion_frame q a b -> conversion_frame q b c -> conversion_frame q a c.
Proof.
  unfold conversion_frame.
  intros (H1 & H2 & H3 & H4 & H5 & H6 & H7) (G1 & G2 & G3 & G4 & G5 & G6 & G7).
  repeat split; try congruence.
  - destruct G4 as [G4|G4]; [rewrite G4; exact H4|now right].
  - destruct G6 as [G6|G6]; [rewrite G6; exact H6|now right].
  - destruct G7 as [G7|G7]; [rewrite G7; exact H7|now right].
Qed.

Lemma conversion_frame_set_fs q f w : conversion_frame q w (set_fs f w).
Proof. unfold conversion_frame. simpl. tauto. Qed.

Lemma conversion_frame_set_quality q w : conversion_frame q w (set_quality q w).
Proof. unfold conversion_frame. simpl. tauto. Qed.

Lemma conversion_frame_set_ctrl_c q w :
  conversion_frame q w (set_ctrl_c (Some true) w).
Proof. unfold conversion_frame. simpl. tauto. Qed.

Lemma conversion_frame_set_sigint q h w :
  h = sigint w \/ h = pool_CTRL_C_handler ->
  conversion_frame q w (set_sigint h w).
Proof. unfold conversion_frame. simpl. tauto. Qed.

Ltac frame_step q :=
  match goal with
  | |- frames _ (ret _) => apply frames_ret, conversion_frame_refl
  | |- frames _ (raise _) => apply frames_raise, conversion_frame_refl
  | |- frames _ (lift _) => apply frames_lift, conversion_frame_refl
  | |- frames _ get => apply frames_get, conversion_frame_refl
  | |- frames _ (modify (set_fs _)) =>
      apply frames_modify; intros ?; apply conversion_frame_set_fs
  | |- frames _ (modify (set_quality _)) =>
      apply frames_modify; intros ?; apply conversion_frame_set_quality
  | |- frames _ (modify (set_ctrl_c (Some true))) =>
      apply frames_modify; intros ?; apply conversion_frame_set_ctrl_c
  | |- frames _ (bind _ _) =>
      apply (frames_bind _ (conversion_frame_trans q)); [|intros ?]
  | |- frames _ (try_except _ _ _) =>
      apply (frames_try_except _ (conversion_frame_trans q)); [|intros ?]
  | |- frames _ (match ?x with _ => _ end) => destruct x
  | |- frames _ (let _ := _ in _) => cbv zeta
  end.

Ltac frame q := repeat (frame_step q).

Lemma frames_sigint_point q source step :
  frames (conversion_frame q) (sigint_point source step).
Proof. unfold sigint_point, handle_sigint. frame q. Qed.

Lemma frames_write_file q p f : frames (conversion_frame q) (write_file p f).
Proof. unfold write_file. frame q. Qed.

Lemma frames_read_file q p : frames (conversion_frame q) (read_file p).
Proof. unfold read_file. frame q. Qed.

Lemma frames_Image_open q p : frames (conversion_frame q) (Image_open p).
Proof. unfold Image_open. frame q. Qed.

Lemma frames_init q p : frames (conversion_frame q) (PageM.init p).
Proof. unfold PageM.init. frame q. Qed.

Lemma frames_img q p : frames (conversion_frame q) (PageM.img p).
Proof. unfold PageM.img. frame q. apply frames_Image_open. Qed.

Lemma frames_fmt q p : frames (conversion_frame q) (PageM.fmt p).
Proof.
  unfold PageM.fmt. frame q; try apply frames_img. apply frames_read_file.
Qed.

Lemma frames_landscape q p : frames (conversion_frame q) (PageM.landscape p).
Proof. unfold PageM.landscape, PageM.size. frame q. apply frames_img. Qed.

Lemma frames_save q p dest : frames (conversion_frame q) (PageM.save p dest).
Proof.
  unfold PageM.save, Formats.save. frame q;
    first [apply frames_fmt | apply frames_img | apply frames_write_file].
Qed.

Lemma frames_convert_page source options savedir :
  frames (conversion_frame (opt_quality options))
    (convert_page source options savedir).
Proof.
  unfold convert_page, entry_fp.
  frame (opt_quality options);
    first [apply frames_sigint_point | apply frames_init | apply frames_fmt
          | apply frames_img | apply frames_landscape | apply frames_save].
Qed.

Lemma frames_convert_page_worker source options savedir :
  frames (conversion_frame (opt_quality options))
    (convert_page_worker source options savedir).
Proof.
  set (q := opt_quality options).
  intros w. unfold convert_page_worker, worker_sigint_CTRL_C.
  unfold bind at 1. simpl.
  destruct (ctrl_c_entered w) as [[|]|] eqn:Hc.
  - apply conversion_frame_refl.
  - unfold bind at 1. simpl. unfold try_finally.
    assert (H : frames (conversion_frame q)
                  (try_except
                     (b <- convert_page source options savedir ;;
                      ret (Value b))
                     is_KeyboardInterrupt
                     (fun _ =>
                        modify (set_ctrl_c (Some true)) ;;;
                        ret (Exc KeyboardInterrupt)))).
    { frame q. apply frames_convert_page. }
    specialize (H (set_sigint (default_sigint_handler w) w)).
    destruct (try_except _ _ _ _) as [r w1].
    simpl in *. unfold conversion_frame in *. simpl in *.
    destruct H as (H1 & H2 & H3 & H4 & H5 & H6 & H7).
    repeat split; auto.
  - apply (frames_bind _ (conversion_frame_trans q) _ _
             (frames_convert_page source options savedir)
             (fun b => frames_ret _ (conversion_frame_refl q) (Value b))).
Qed.

(** the class attribute is left as it is *)
Definition keeps_quality (w w' : world) : Prop :=
  LossyFmt_quality w' = LossyFmt_quality w.

Lemma keeps_quality_refl w : keeps_quality w w.
Proof. reflexivity. Qed.

Lemma keeps_quality_trans a b c :
  keeps_quality a b -> keeps_quality b c -> keeps_quality a c.
Proof. unfold keeps_quality. congruence. Qed.

Ltac keep_step :=
  match goal with
  | |- frames _ (ret _) => apply frames_ret, keeps_quality_refl
  | |- frames _ (raise _) => apply frames_raise, keeps_quality_refl
  | |- frames _ (lift _) => apply frames_lift, keeps_quality_refl
  | |- frames _ get => apply frames_get, keeps_quality_refl
  | |- frames _ (modify (set_fs _)) =>
      apply frames_modify; intros ?; reflexivity
  | |- frames _ (modify (set_ctrl_c _)) =>
      apply frames_modify; intros ?; reflexivity
  | |- frames _ (bind _ _) =>
      apply (frames_bind _ keeps_quality_trans); [|intros ?]
  | |- frames _ (match ?x with _ => _ end) => destruct x
  | |- frames _ (let _ := _ in _) => cbv zeta
  end.

Lemma keeps_quality_save p dest : frames keeps_quality (PageM.save p dest).
Proof.
  unfold PageM.save, Formats.save, PageM.fmt, PageM.img, Image_open,
    read_file, write_file.
  repeat keep_step.
Qed.

Lemma keeps_quality_sigint_point source step :
  frames keeps_quality (sigint_point source step).
Proof. unfold sigint_point, handle_sigint. repeat keep_step. Qed.

Lemma convert_page_sets_quality source options savedir w page w' :
  convert_page source options savedir w = (Ok (true, page), w') ->
  LossyFmt_quality w' = opt_quality options.
Proof.
  unfold convert_page. intros H.
  apply bind_Ok_inv in H as ([] & w0 & _ & H).
  apply bind_Ok_inv in H as (src_fp & w1 & _ & H).
  apply bind_Ok_inv in H as (page0 & w2 & _ & H).
  apply bind_Ok_inv in H as (opened & w3 & _ & H).
  destruct opened as [[[source_fmt img] page1]|page1]; [|discriminate].
  apply bind_Ok_inv in H as ([img' page2] & w4 & _ & H).
  apply bind_Ok_inv in H as ([] & w5 & Hset & H).
  unfold modify in Hset. injection Hset as <-.
  assert (Htail : forall (m : M (bool * Page)) r wa wb,
            frames keeps_quality m -> m wa = (r, wb) ->
            LossyFmt_quality wb = LossyFmt_quality wa).
  { intros m r wa wb Hm E. specialize (Hm wa). now rewrite E in Hm. }
  eapply (Htail _ _ (set_quality (opt_quality options) w4)); [|exact H].
  repeat keep_step;
    first [apply keeps_quality_sigint_point | apply keeps_quality_save].
Qed.

(* ===================================================================== *)
(** ** What the per-page conversion reads                                  *)
(* ===================================================================== *)

(** Two worlds with the same file system, the same platform and format
    tables (where the platform also decides the arrival of interrupts),
    the same [config.ignore_page_err], the same handlers of the interrupt
    signal and the same interrupt flag; with [q], also the same
    [LossyFmt.quality]. *)
Definition same_inputs (q : bool) (w1 w2 : world) : Prop :=
  fs w1 = fs w2 /\ env w1 = env w2 /\
  ignore_page_err (cfg w1) = ignore_page_err (cfg w2) /\
  sigint w1 = sigint w2 /\
  default_sigint_handler w1 = default_sigint_handler w2 /\
  ctrl_c_entered w1 = ctrl_c_entered w2 /\
  (q = true -> LossyFmt_quality w1 = LossyFmt_quality w2).

(** run from those two worlds, [m1] and [m2] return the same and leave
    worlds that are again such *)
Definition agree_at (q : bool) {A} (w1 w2 : world) (m1 m2 : M A) : Prop :=
  fst (m1 w1) = fst (m2 w2) /\ same_inputs q (snd (m1 w1)) (snd (m2 w2)).

Lemma same_inputs_weaken q w1 w2 : same_inputs q w1 w2 -> same_inputs false w1 w2.
Proof. unfold same_inputs. intuition discriminate. Qed.

Lemma agree_at_weaken q {A} w1 w2 (m1 m2 : M A) :
  agree_at q w1 w2 m1 m2 -> agree_at false w1 w2 m1 m2.
Proof. intros [H1 H2]. split; [exact H1|]. eapply same_inputs_weaken; eauto. Qed.

Lemma at_ret q {A} w1 w2 (a : A) :
  same_inputs q w1 w2 -> agree_at q w1 w2 (ret a) (ret a).
Proof. now split. Qed.

Lemma at_raise q {A} w1 w2 (e : exn) :
  same_inputs q w1 w2 -> agree_at q w1 w2 (@raise A e) (@raise A e).
Proof. now split. Qed.

Lemma at_lift q {A} w1 w2 (r : result A) :
  same_inputs q w1 w2 -> agree_at q w1 w2 (lift r) (lift r).
Proof. now split. Qed.

Lemma at_bind q {A B} w1 w2 (m1 m2 : M A) (k1 k2 : A -> M B) :
  agree_at q w1 w2 m1 m2 ->
  (forall a w1' w2', same_inputs q w1' w2' -> agree_at q w1' w2' (k1 a) (k2 a)) ->
  agree_at q w1 w2 (bind m1 k1) (bind m2 k2).
Proof.
  unfold agree_at, bind. intros [Hr Hw] Hk.
  destruct (m1 w1) as [[a1|e1] w1'], (m2 w2) as [[a2|e2] w2'];
    simpl in *; try discriminate.
  - injection Hr as <-. apply Hk, Hw.
  - injection Hr as <-. split; [reflexivity|assumption].
Qed.

Lemma at_get_bind q {A} w1 w2 (k1 k2 : world -> M A) :
  agree_at q w1 w2 (k1 w1) (k2 w2) ->
  agree_at q w1 w2 (bind get k1) (bind get k2).
Proof. exact (fun H => H). Qed.

Lemma at_try_except q {A} w1 w2 (m1 m2 : M A) handled h1 h2 :
  agree_at q w1 w2 m1 m2 ->
  (forall e w1' w2', same_inputs q w1' w2' -> agree_at q w1' w2' (h1 e) (h2 e)) ->
  agree_at q w1 w2 (try_except m1 handled h1) (try_except m2 handled h2).
Proof.
  unfold agree_at, try_except. intros [Hr Hw] Hh.
  destruct (m1 w1) as [[a1|e1] w1'], (m2 w2) as [[a2|e2] w2'];
    simpl in *; try discriminate.
  - split; assumption.
  - injection Hr as <-.
    destruct (handled e1); [apply Hh, Hw|split; [reflexivity|assumption]].
Qed.

Lemma at_set_fs q w1 w2 f :
  same_inputs q w1 w2 ->
  agree_at q w1 w2 (modify (set_fs f)) (modify (set_fs f)).
Proof.
  unfold agree_at, same_inputs. simpl. intuition.
Qed.

Lemma at_set_ctrl_c q w1 w2 c :
  same_inputs q w1 w2 ->
  agree_at q w1 w2 (modify (set_ctrl_c c)) (modify (set_ctrl_c c)).
Proof.
  unfold agree_at, same_inputs. simpl. intuition.
Qed.

Lemma at_set_quality {A} w1 w2 v (k1 k2 : unit -> M A) :
  same_inputs false w1 w2 ->
  agree_at true (set_quality v w1) (set_quality v w2) (k1 tt) (k2 tt) ->
  agree_at false w1 w2 (bind (modify (set_quality v)) k1)
    (bind (modify (set_quality v)) k2).
Proof. intros _ H. apply (agree_at_weaken true). exact H. Qed.

(** rewrite what is read of the second world into what is read of the
    first *)
Ltac use_inputs :=
  match goal with
  | H : same_inputs _ ?w1 ?w2 |- agree_at _ ?w1 ?w2 _ _ =>
      let Hfs := fresh "Hfs" in
      let Henv := fresh "Henv" in
      let Hign := fresh "Hign" in
      let Hsig := fresh "Hsig" in
      let Hdef := fresh "Hdef" in
      let Hflag := fresh "Hflag" in
      let Hq := fresh "Hq" in
      pose proof H as (Hfs & Henv & Hign & Hsig & Hdef & Hflag & Hq);
      cbv beta;
      rewrite <- ?Hfs, <- ?Henv, <- ?Hign, <- ?Hsig, <- ?Hdef, <- ?Hflag;
      try (rewrite <- (Hq eq_refl));
      clear Hfs Henv Hign Hsig Hdef Hflag Hq
  end.

Ltac at_step :=
  match goal with
  | |- agree_at _ _ _ (bind get _) (bind get _) =>
      apply at_get_bind; use_inputs
  | |- agree_at _ _ _ (ret _) (ret _) => apply at_ret; assumption
  | |- agree_at _ _ _ (raise _) (raise _) => apply at_raise; assumption
  | |- agree_at _ _ _ (lift _) (lift _) => apply at_lift; assumption
  | |- agree_at _ _ _ (modify (set_fs _)) (modify (set_fs _)) =>
      apply at_set_fs; assumption
  | |- agree_at _ _ _ (modify (set_ctrl_c _)) (modify (set_ctrl_c _)) =>
      apply at_set_ctrl_c; assumption
  | |- agree_at _ _ _ (bind _ _) (bind _ _) =>
      apply at_bind; [|intros ? ? ? ?]
  | |- agree_at _ _ _ (try_except _ _ _) (try_except _ _ _) =>
      apply at_try_except; [|intros ? ? ? ?]
  | |- agree_at _ _ _ (match ?x with _ => _ end) (match ?x with _ => _ end) =>
      destruct x
  | |- agree_at _ _ _ (let _ := _ in _) _ => cbv zeta
  end.

Lemma at_sigint_point q w1 w2 source step :
  same_inputs q w1 w2 ->
  agree_at q w1 w2 (sigint_point source step) (sigint_point source step).
Proof. intros H. unfold sigint_point, handle_sigint. repeat at_step. Qed.

Lemma at_write_file q w1 w2 p f :
  same_inputs q w1 w2 -> agree_at q w1 w2 (write_file p f) (write_file p f).
Proof. intros H. unfold write_file. repeat at_step. Qed.

Lemma at_read_file q w1 w2 p :
  same_inputs q w1 w2 -> agree_at q w1 w2 (read_file p) (read_file p).
Proof. intros H. unfold read_file. repeat at_step. Qed.

Lemma at_Image_open q w1 w2 p :
  same_inputs q w1 w2 -> agree_at q w1 w2 (Image_open p) (Image_open p).
Proof. intros H. unfold Image_open. repeat at_step. Qed.

Lemma at_init q w1 w2 p :
  same_inputs q w1 w2 -> agree_at q w1 w2 (PageM.init p) (PageM.init p).
Proof. intros H. unfold PageM.init. repeat at_step. Qed.

Lemma at_img q w1 w2 p :
  same_inputs q w1 w2 -> agree_at q w1 w2 (PageM.img p) (PageM.img p).
Proof.
  intros H. unfold PageM.img. repeat at_step. now apply at_Image_open.
Qed.

Lemma at_fmt q w1 w2 p :
  same_inputs q w1 w2 -> agree_at q w1 w2 (PageM.fmt p) (PageM.fmt p).
Proof.
  intros H. unfold PageM.fmt.
  repeat at_step; first [now apply at_img | now apply at_read_file].
Qed.

Lemma at_landscape q w1 w2 p :
  same_inputs q w1 w2 ->
  agree_at q w1 w2 (PageM.landscape p) (PageM.landscape p).
Proof.
  intros H. unfold PageM.landscape, PageM.size.
  repeat at_step. now apply at_img.
Qed.

Lemma at_save w1 w2 p dest :
  same_inputs true w1 w2 ->
  agree_at true w1 w2 (PageM.save p dest) (PageM.save p dest).
Proof.
  intros H. unfold PageM.save, Formats.save.
  repeat at_step;
    first [now apply at_fmt | now apply at_img | now apply at_write_file].
Qed.

Lemma same_inputs_set_quality q v w1 w2 :
  same_inputs q w1 w2 ->
  same_inputs true (set_quality v w1) (set_quality v w2).
Proof. unfold same_inputs. simpl. intuition. Qed.

Lemma at_convert_page source options savedir w1 w2 :
  same_inputs false w1 w2 ->
  agree_at false w1 w2 (convert_page source options savedir)
    (convert_page source options savedir).
Proof.
  intros H. unfold convert_page, entry_fp.
  repeat first
    [ match goal with
      | Hs : same_inputs false ?a ?b
        |- agree_at false ?a ?b (bind (modify (set_quality ?v)) _) _ =>
          apply at_set_quality; [exact Hs|];
          pose proof (same_inputs_set_quality false v a b Hs)
      end
    | at_step
    | now apply at_sigint_point
    | now apply at_init | now apply at_fmt | now apply at_img
    | now apply at_landscape | now apply at_save ].
Qed.

Lemma run_with_handler {A} (m : M A) h f w :
  (modify (set_sigint h) ;;; try_finally m f) w =
  (fst (m (set_sigint h w)), f (snd (m (set_sigint h w)))).
Proof.
  unfold bind, modify, try_finally. simpl.
  now destruct (m (set_sigint h w)).
Qed.

(** the decorated call, with the [except] clause of the decorator *)
Definition guarded {B} (func : M B) : M (returned B) :=
  try_except (b <- func ;; ret (Value b)) is_KeyboardInterrupt
    (fun _ => modify (set_ctrl_c (Some true)) ;;; ret (Exc KeyboardInterrupt)).

Lemma at_convert_page_worker source options savedir w1 w2 :
  same_inputs false w1 w2 ->
  agree_at false w1 w2 (convert_page_worker source options savedir)
    (convert_page_worker source options savedir).
Proof.
  intros H. unfold convert_page_worker, worker_sigint_CTRL_C.
  apply at_get_bind.
  pose proof H as (_ & _ & _ & _ & Hdef & Hc & _). rewrite <- Hc.
  assert (Hrun : forall wa wb, same_inputs false wa wb ->
            agree_at false wa wb
              (b <- convert_page source options savedir ;; ret (Value b))
              (b <- convert_page source options savedir ;; ret (Value b))).
  { intros wa wb Hab. apply at_bind; [now apply at_convert_page|].
    intros a wa' wb' Hab'. now apply at_ret. }
  destruct (ctrl_c_entered w1) as [[|]|].
  - now apply at_ret.
  - fold (guarded (convert_page source options savedir)).
    unfold agree_at. rewrite !run_with_handler. rewrite <- Hdef.
    assert (Hmid : same_inputs false
                     (set_sigint (default_sigint_handler w1) w1)
                     (set_sigint (default_sigint_handler w1) w2)).
    { unfold same_inputs in *. simpl. intuition. }
    assert (Hg : agree_at false
                   (set_sigint (default_sigint_handler w1) w1)
                   (set_sigint (default_sigint_handler w1) w2)
                   (guarded (convert_page source options savedir))
                   (guarded (convert_page source options savedir))).
    { unfold guarded. apply at_try_except; [now apply Hrun|].
      intros e wa wb Hab. repeat at_step. }
    destruct Hg as [Hr Hw]. split; [exact Hr|].
    unfold same_inputs in *. simpl. intuition.
  - now apply Hrun.
Qed.

(** a page that is not converted leaves the files and
    [LossyFmt.quality] as they were *)
Definition keeps_files_quality (w w' : world) : Prop :=
  fs w' = fs w /\ LossyFmt_quality w' = LossyFmt_quality w.

Lemma keeps_files_quality_refl w : keeps_files_quality w w.
Proof. split; reflexivity. Qed.

Lemma keeps_files_quality_trans a b c :
  keeps_files_quality a b -> keeps_files_quality b c ->
  keeps_files_quality a c.
Proof. unfold keeps_files_quality. intros [] []. split; congruence. Qed.

Ltac kfq_step :=
  match goal with
  | |- frames _ (ret _) => apply frames_ret, keeps_files_quality_refl
  | |- frames _ (raise _) => apply frames_raise, keeps_files_quality_refl
  | |- frames _ (lift _) => apply frames_lift, keeps_files_quality_refl
  | |- frames _ get => apply frames_get, keeps_files_quality_refl
  | |- frames _ (modify (set_ctrl_c _)) =>
      apply frames_modify; intros ?; split; reflexivity
  | |- frames _ (bind _ _) =>
      apply (frames_bind _ keeps_files_quality_trans); [|intros ?]
  | |- frames _ (try_except _ _ _) =>
      apply (frames_try_except _ keeps_files_quality_trans); [|intros ?]
  | |- frames _ (match ?x with _ => _ end) => destruct x
  | |- frames _ (let _ := _ in _) => cbv zeta
  end.

Lemma frames_run {A} (R : world -> world -> Prop) (m : M A) w r w' :
  frames R m -> m w = (r, w') -> R w w'.
Proof. intros H E. specialize (H w). now rewrite E in H. Qed.

Lemma convert_page_not_converted source options savedir w page w' :
  convert_page source options savedir w = (Ok (false, page), w') ->
  fs w' = fs w /\ LossyFmt_quality w' = LossyFmt_quality w.
Proof.
  unfold convert_page. intros H.
  apply bind_Ok_inv in H as ([] & w0 & H0 & H).
  apply bind_Ok_inv in H as (src_fp & w1 & H1 & H).
  apply bind_Ok_inv in H as (page0 & w2 & H2 & H).
  apply bind_Ok_inv in H as (opened & w3 & H3 & H).
  assert (Hopen : keeps_files_quality w w3).
  { eapply keeps_files_quality_trans;
      [eapply (frames_run _ _ _ _ _ _ H0)|].
    eapply keeps_files_quality_trans;
      [eapply (frames_run _ _ _ _ _ _ H1)|].
    eapply keeps_files_quality_trans;
      [eapply (frames_run _ _ _ _ _ _ H2)|].
    eapply (frames_run _ _ _ _ _ _ H3). }
  destruct opened as [[[source_fmt img] page1]|page1].
  - exfalso.
    apply bind_Ok_inv in H as ([img' page2] & w4 & _ & H).
    apply bind_Ok_inv in H as ([] & w5 & _ & H).
    apply bind_Ok_inv in H as ([] & w6 & _ & H).
    apply bind_Ok_inv in H as (w7 & w8 & _ & H).
    apply bind_Ok_inv in H as (new_fp & w9 & _ & H).
    apply bind_Ok_inv in H as (page3 & w10 & _ & H).
    apply bind_Ok_inv in H as ([] & w11 & _ & H).
    discriminate.
  - injection H as _ <-. exact Hopen.
  Unshelve.
  all: unfold sigint_point, handle_sigint, entry_fp, PageM.init, PageM.fmt,
         PageM.img, Image_open, read_file; repeat kfq_step.
Qed.


(** the sample book loaded, under a configuration that does not tolerate
    page errors *)
Definition loaded_strict : world :=
  mkWorld (fs loaded) (LossyFmt_quality loaded) (ctrl_c_entered loaded)
    (sigint loaded) (default_sigint_handler loaded)
    (mkConfig false 1 0 false "repacked with reCBZ"
       [WebpLossy; WebpLossless; Jpeg])
    (env loaded) (heap loaded).

Definition jpeg_options (quality : Z) : Options :=
  {| opt_format := Some Jpeg;
     opt_quality := quality;
     opt_size := (0, 0);
     opt_keep_ratio := false;
     opt_grayscale := false;
     opt_noup := false;
     opt_nodown := false |}.

Definition page_notes : entry :=
  EPage (Sample.page_at Sample.cachedir0 "notes.txt").

(** a process of a pool in which a [SIGINT] arrives at a step of every
    conversion *)
Definition interrupted_at (step : nat) (w : world) : world :=
  let w := init_pool w in
  mkWorld (fs w) (LossyFmt_quality w) (ctrl_c_entered w) (sigint w)
    (default_sigint_handler w) (cfg w)
    (mkEnv (CACHE_PREFIX (env w)) (gettempdir (env w)) (cpu_count (env w))
       (fmt_name (env w)) (fmt_desc (env w)) (fmt_ext (env w))
       (FormatDict (env w)) (epub_dest (env w)) (encoded_size (env w))
       (listing (env w)) (completion (env w))
       (fun _ k => Nat.eqb k step))
    (heap w).



(* ===================================================================== *)
(** * Further properties of the code                                      *)
(* ===================================================================== *)

(* ===================================================================== *)
(** ** What only reads, and what only writes files                        *)
(* ===================================================================== *)

(** nothing but the file system has changed *)
Definition only_fs (w w' : world) : Prop := w' = set_fs (fs w') w.

Lemma only_fs_refl w : only_fs w w.
Proof. now destruct w. Qed.

Lemma only_fs_trans a b c : only_fs a b -> only_fs b c -> only_fs a c.
Proof. unfold only_fs. intros H1 H2. rewrite H2, H1. reflexivity. Qed.

Lemma only_fs_set_fs f w : only_fs w (set_fs f w).
Proof. reflexivity. Qed.

Lemma frames_for_each (R : world -> world -> Prop) {A} (l : list A) body :
  (forall w, R w w) -> (forall a b c, R a b -> R b c -> R a c) ->
  (forall x, frames R (body x)) -> frames R (for_each l body).
Proof.
  intros Hr Ht Hb. induction l as [|x l IH]; simpl.
  - now apply frames_ret.
  - apply frames_bind; [exact Ht | apply Hb | intros _; exact IH].
Qed.

Lemma frames_map_M (R : world -> world -> Prop) {A B} (f : A -> M B) l :
  (forall w, R w w) -> (forall a b c, R a b -> R b c -> R a c) ->
  (forall x, frames R (f x)) -> frames R (map_M f l).
Proof.
  intros Hr Ht Hb. induction l as [|x l IH]; simpl.
  - now apply frames_ret.
  - apply frames_bind; [exact Ht | apply Hb |].
    intros y. apply frames_bind; [exact Ht | exact IH |].
    intros r. now apply frames_ret.
Qed.

Ltac fs_step :=
  match goal with
  | |- frames _ (ret _) => apply frames_ret, only_fs_refl
  | |- frames _ (raise _) => apply frames_raise, only_fs_refl
  | |- frames _ (lift _) => apply frames_lift, only_fs_refl
  | |- frames _ get => apply frames_get, only_fs_refl
  | |- frames _ (modify (set_fs _)) =>
      apply frames_modify; intros ?; apply only_fs_set_fs
  | |- frames _ (bind _ _) =>
      apply (frames_bind _ only_fs_trans); [|intros ?]
  | |- frames _ (for_each _ _) =>
      apply (frames_for_each _ _ _ only_fs_refl only_fs_trans); intros ?
  | |- frames _ (map_M _ _) =>
      apply (frames_map_M _ _ _ only_fs_refl only_fs_trans); intros ?
  | |- frames _ (match ?x with _ => _ end) => destruct x
  | |- frames _ (let _ := _ in _) => cbv zeta
  end.

Ltac fs_frame := repeat fs_step.

Lemma only_fs_write_file p f : frames only_fs (write_file p f).
Proof. unfold write_file. fs_frame. Qed.

Lemma only_fs_read_file p : frames only_fs (read_file p).
Proof. unfold read_file. fs_frame. Qed.

Lemma only_fs_makedirs p : frames only_fs (makedirs p).
Proof. unfold makedirs. fs_frame. Qed.

Lemma only_fs_init p : frames only_fs (PageM.init p).
Proof. unfold PageM.init. fs_frame. Qed.

Lemma only_fs_get_self self : frames only_fs (get_self self).
Proof. unfold get_self. fs_frame. Qed.

Lemma only_fs_zip_extract members name cachedir :
  frames only_fs (zip_extract members name cachedir).
Proof.
  unfold zip_extract. fs_frame;
    first [apply only_fs_makedirs | apply only_fs_write_file].
Qed.

Lemma only_fs_extract self count : frames only_fs (extract self count).
Proof.
  unfold extract, rglob. fs_frame;
    first [apply only_fs_get_self | apply only_fs_read_file
          | apply only_fs_zip_extract | apply only_fs_init].
Qed.

(** the world has not changed *)
Definition unchanged (w w' : world) : Prop := w' = w.

Lemma unchanged_refl w : unchanged w w.
Proof. reflexivity. Qed.

Lemma unchanged_trans a b c : unchanged a b -> unchanged b c -> unchanged a c.
Proof. unfold unchanged. congruence. Qed.

Ltac ro_step :=
  match goal with
  | |- frames _ (ret _) => apply frames_ret, unchanged_refl
  | |- frames _ (raise _) => apply frames_raise, unchanged_refl
  | |- frames _ (lift _) => apply frames_lift, unchanged_refl
  | |- frames _ get => apply frames_get, unchanged_refl
  | |- frames _ (bind _ _) =>
      apply (frames_bind _ unchanged_trans); [|intros ?]
  | |- frames _ (map_M _ _) =>
      apply (frames_map_M _ _ _ unchanged_refl unchanged_trans); intros ?
  | |- frames _ (match ?x with _ => _ end) => destruct x
  | |- frames _ (let _ := _ in _) => cbv zeta
  end.

Ltac read_only := repeat ro_step.

Lemma unchanged_init p : frames unchanged (PageM.init p).
Proof. unfold PageM.init. read_only. Qed.

Lemma unchanged_get_self self : frames unchanged (get_self self).
Proof. unfold get_self. read_only. Qed.

Lemma unchanged_read_file p : frames unchanged (read_file p).
Proof. unfold read_file. read_only. Qed.

Lemma unchanged_run {A} (m : M A) w r w' :
  frames unchanged m -> m w = (r, w') -> w' = w.
Proof. intros H E. specialize (H w). now rewrite E in H. Qed.

Lemma frames_Ok {A} (m : M A) w r w' :
  frames only_fs m -> m w = (r, w') -> w' = set_fs (fs w') w.
Proof. intros H E. specialize (H w). now rewrite E in H. Qed.

Lemma human_sort_Permutation lst r :
  human_sort lst = Ok r -> lst <> [] /\ Permutation lst r.
Proof.
  intros H. apply human_sort_Ok in H as (Hne & _ & _ & Hp & _). auto.
Qed.

(** what a call of [extract] that returns has done *)
Lemma extract_Ok_inv self count w pages w' :
  extract self count w = (Ok pages, w') ->
  exists a members comment selected sorted_paths,
    heap w !! self = Some a /\
    fs w !! a_fp a = Some (NFile (FZip members comment)) /\
    select_members (map (fun m => fst (fst m)) members) count = Ok selected /\
    for_each selected (fun file => zip_extract members file (_cachedir a)) w =
      (Ok tt, w') /\
    human_sort_paths
      (List.filter (is_file_in (fs w'))
         (listing (env w')
            (List.filter (is_under (_cachedir a))
               (map fst (map_to_list (fs w')))))) = Ok sorted_paths /\
    map fp pages = map Path sorted_paths.
Proof.
  unfold extract. intros H.
  apply bind_Ok_inv in H as (a & w1 & Ha & H).
  assert (heap w !! self = Some a /\ w1 = w) as [Hself ->].
  { unfold get_self, bind, get in Ha. destruct (heap w !! self); [|discriminate].
    now injection Ha as -> ->. }
  apply bind_Ok_inv in H as (z & w2 & Hz & H).
  assert (fs w !! a_fp a = Some (NFile z) /\ w2 = w) as [Hzip ->].
  { unfold read_file, bind, get in Hz.
    destruct (fs w !! a_fp a) as [[f|]|]; try discriminate.
    now injection Hz as -> ->. }
  destruct z as [|members comment|]; try discriminate.
  destruct (len _ <? 1)%nat; [discriminate|].
  apply bind_Ok_inv in H as (selected & w3 & Hsel & H).
  apply lift_Ok_inv in Hsel as [Hsel ->].
  apply bind_Ok_inv in H as ([] & w4 & Hext & H).
  apply bind_Ok_inv in H as (found & w5 & Hfound & H).
  unfold rglob, bind, get, ret in Hfound. injection Hfound as <- <-.
  apply bind_Ok_inv in H as (w6 & w7 & Hget & H).
  injection Hget as <- <-.
  apply bind_Ok_inv in H as (sorted_paths & w8 & Hsort & H).
  apply lift_Ok_inv in Hsort as [Hsort ->].
  assert (w' = w4) as ->.
  { pose proof (frames_map_M unchanged (fun p => PageM.init (Path p))
                  sorted_paths unchanged_refl unchanged_trans
                  (fun p => unchanged_init (Path p)) w4) as Hf.
    now rewrite H in Hf. }
  exists a, members, comment, selected, sorted_paths.
  repeat split; try assumption.
  eapply (map_M_Ok_inv _ (fun p pg => fp pg = Path p)) in H.
  - now apply Forall2_map_eq.
  - intros x w9 y w10. apply PageM_init_fp.
Qed.

(* ===================================================================== *)
(** ** [fetch_pages], [fetch_chapters] and [add_chapter]                  *)
(* ===================================================================== *)

Lemma slice_to_nonneg {A} (l : list A) (n : Z) :
  0 <= n -> slice_to l n = firstn (Z.to_nat n) l.
Proof.
  intros Hn. unfold slice_to, slice_bound.
  rewrite (proj2 (Z.ltb_ge n 0)) by lia.
  destruct (Z.le_gt_cases n (Z.of_nat (len l))) as [H|H].
  - f_equal. lia.
  - replace (Z.to_nat (Z.max 0 (Z.min (Z.of_nat (len l)) n))) with (len l) by lia.
    rewrite firstn_all. symmetry. apply firstn_all2. lia.
Qed.

Lemma cut_chapters_nonneg {A} (lengths : list Z) : forall index_copy : list A,
  Forall (fun n => 0 <= n) lengths ->
  len (cut_chapters index_copy lengths) = len lengths /\
  concat (cut_chapters index_copy lengths) =
  firstn (Z.to_nat (sum lengths)) index_copy /\
  (sum lengths <= Z.of_nat (len index_copy) ->
   map (fun c => Z.of_nat (len c)) (cut_chapters index_copy lengths) = lengths).
Proof.
  induction lengths as [|n rest IH]; intros index_copy Hpos.
  - repeat split; reflexivity.
  - inversion Hpos as [|? ? Hn Hrest]; subst.
    assert (Hs : 0 <= sum rest).
    { clear - Hrest. induction Hrest; simpl; [lia|]. unfold sum in *. simpl. lia. }
    cbn [cut_chapters]. rewrite slice_to_nonneg by assumption.
    assert (Hdrop : skipn (len (firstn (Z.to_nat n) index_copy)) index_copy =
                    skipn (Z.to_nat n) index_copy).
    { rewrite length_firstn.
      destruct (Nat.le_gt_cases (Z.to_nat n) (len index_copy)) as [H|H].
      - f_equal. lia.
      - rewrite Nat.min_r by lia.
        rewrite skipn_all. symmetry. apply skipn_all2. lia. }
    rewrite Hdrop.
    destruct (IH (skipn (Z.to_nat n) index_copy) Hrest) as (IH1 & IH2 & IH3).
    split; [simpl; now rewrite IH1|]. split.
    + cbn [concat]. rewrite IH2.
      change (sum (n :: rest)) with (n + sum rest).
      rewrite Z2Nat.inj_add by lia.
      apply take_take_drop.
    + change (sum (n :: rest)) with (n + sum rest). intros Hle.
      cbn [map]. rewrite IH3.
      * f_equal. rewrite length_firstn. lia.
      * rewrite length_skipn. lia.
Qed.

Lemma get_self_Ok self w a w' :
  get_self self w = (Ok a, w') -> heap w !! self = Some a /\ w' = w.
Proof.
  unfold get_self, bind, get. destruct (heap w !! self); [|discriminate].
  now intros [= -> ->].
Qed.

Lemma get_self_run self w a :
  heap w !! self = Some a -> get_self self w = (Ok a, w).
Proof. unfold get_self, bind, get. now intros ->. Qed.

Lemma set_index_id a : set_index (_index a) a = a.
Proof. now destruct a. Qed.

Lemma set_heap_id w : set_heap (heap w) w = w.
Proof. now destruct w. Qed.

Lemma extract_pages_nonempty self count w pages w' :
  extract self count w = (Ok pages, w') -> pages <> [].
Proof.
  intros H. apply extract_Ok_inv in H
    as (a & ms & c & sel & sp & _ & _ & _ & _ & Hs & Hfp).
  apply human_sort_Permutation in Hs as [Hne Hp].
  intros ->. simpl in Hfp. symmetry in Hfp. apply map_eq_nil in Hfp. subst sp.
  apply Permutation_nil_r in Hp. contradiction.
Qed.

(** [fetch_pages]: the index afterwards is what is returned; it is the
    index as it was, or, when that was empty, the extracted pages, and
    never empty *)
Lemma fetch_pages_Ok self w a idx w' :
  heap w !! self = Some a ->
  fetch_pages self w = (Ok idx, w') ->
  idx <> [] /\
  heap w' = <[self := set_index idx a]> (heap w) /\
  (_index a <> [] -> idx = _index a /\ w' = w).
Proof.
  intros Hself H. unfold fetch_pages in H.
  rewrite (bind_Ok _ _ _ _ _ (get_self_run _ _ _ Hself)) in H.
  destruct (_index a) as [|e idx0] eqn:Hi; simpl in H.
  - apply bind_Ok_inv in H as (pages & w1 & Hex & H).
    pose proof (frames_Ok _ _ _ _ (only_fs_extract self 0) Hex) as Hw1.
    assert (Hh : heap w1 = heap w) by (rewrite Hw1; reflexivity).
    assert (Hself1 : heap w1 !! self = Some a) by now rewrite Hh.
    rewrite (bind_Ok _ _ _ _ _ (get_self_run _ _ _ Hself1)) in H.
    unfold put_self, bind, modify, ret in H. injection H as <- <-.
    split; [|split].
    + apply extract_pages_nonempty in Hex. destruct pages; [easy|discriminate].
    + simpl. now rewrite Hh.
    + intros Hne. contradiction.
  - injection H as <- <-. split; [discriminate|]. split.
    + rewrite <- Hi, set_index_id. symmetry. now apply insert_id.
    + auto.
Qed.

Lemma sum_app l1 l2 : sum (l1 ++ l2) = sum l1 + sum l2.
Proof. unfold sum. induction l1 as [|x l1 IH]; simpl; lia. Qed.

Lemma sum_nonneg l : Forall (fun n => 0 <= n) l -> 0 <= sum l.
Proof. unfold sum. induction 1; simpl; lia. Qed.

(** The chapter lengths describe the index: no length is negative and,
    once there are chapters, the index is not empty and the lengths add up
    to its length. *)
Definition chapters_cover (a : Archive) : Prop :=
  Forall (fun n => 0 <= n) (_chapter_lengths a) /\
  (_chapter_lengths a <> [] ->
   _index a <> [] /\ sum (_chapter_lengths a) = Z.of_nat (len (_index a))).

(** what [fetch_chapters] leaves and returns *)
Lemma fetch_chapters_Ok self w a chapters w' :
  heap w !! self = Some a ->
  fetch_chapters self w = (Ok chapters, w') ->
  exists idx lens,
    idx <> [] /\
    (_index a <> [] -> idx = _index a) /\
    lens = (if (len (_chapter_lengths a) =? 0)%nat
            then [Z.of_nat (len idx)] else _chapter_lengths a) /\
    heap w' = <[self := set_chapter_lengths lens (set_index idx a)]> (heap w) /\
    chapters = cut_chapters idx lens.
Proof.
  intros Hself H. unfold fetch_chapters in H.
  apply bind_Ok_inv in H as (idx & w1 & Hfetch & H).
  destruct (fetch_pages_Ok _ _ _ _ _ Hself Hfetch) as (Hne & Hh & Hsame).
  assert (Hself1 : heap w1 !! self = Some (set_index idx a))
    by (rewrite Hh; apply lookup_insert_eq).
  rewrite (bind_Ok _ _ _ _ _ (get_self_run _ _ _ Hself1)) in H.
  exists idx. eexists. split; [exact Hne|]. split; [apply Hsame|].
  split; [reflexivity|].
  cbn [_chapter_lengths set_index] in H.
  destruct (len (_chapter_lengths a) =? 0)%nat eqn:El.
  - unfold put_self in H. unfold bind at 1 in H. unfold modify at 1 in H.
    unfold get_self, bind, get, ret in H. cbn in H.
    rewrite lookup_insert_eq in H. injection H as <- <-. cbn.
    split; [|reflexivity].
    rewrite Hh. now rewrite insert_insert_eq.
  - unfold bind at 1 in H. unfold ret at 1 in H.
    rewrite (bind_Ok _ _ _ _ _ (get_self_run _ _ _ Hself1)) in H.
    injection H as <- <-. split; [|reflexivity].
    rewrite Hh. reflexivity.
Qed.

(** [fetch_chapters] cuts the index into consecutive chapters, one for
    every chapter length: put one after the other they are the pages at
    the front of the index, as many as the lengths add up to.  The first
    call on an archive without chapters makes the whole index its single
    chapter; a later call leaves the index and the lengths as they are. *)
Theorem fetch_chapters_cuts_index (self : nat) (w : world) (a : Archive)
    (chapters : list (list entry)) (w' : world) :
  heap w !! self = Some a ->
  Forall (fun n => 0 <= n) (_chapter_lengths a) ->
  fetch_chapters self w = (Ok chapters, w') ->
  exists a',
    heap w' !! self = Some a' /\
    _index a' <> [] /\
    len chapters = len (_chapter_lengths a') /\
    concat chapters =
      firstn (Z.to_nat (sum (_chapter_lengths a'))) (_index a') /\
    (sum (_chapter_lengths a') <= Z.of_nat (len (_index a')) ->
     map (fun c => Z.of_nat (len c)) chapters = _chapter_lengths a') /\
    (_chapter_lengths a = [] ->
     chapters = [_index a'] /\
     _chapter_lengths a' = [Z.of_nat (len (_index a'))]) /\
    (_chapter_lengths a <> [] -> _chapter_lengths a' = _chapter_lengths a) /\
    (_index a <> [] -> _index a' = _index a).
Proof.
  intros Hself Hpos H.
  destruct (fetch_chapters_Ok _ _ _ _ _ Hself H)
    as (idx & lens & Hne & Hsame & Hlens & Hh & ->).
  exists (set_chapter_lengths lens (set_index idx a)).
  split; [rewrite Hh; apply lookup_insert_eq|]. cbn.
  assert (Hpos' : Forall (fun n => 0 <= n) lens).
  { rewrite Hlens. destruct (_ =? _)%nat; [|assumption].
    constructor; [lia|constructor]. }
  destruct (cut_chapters_nonneg lens idx Hpos') as (H1 & H2 & H3).
  split; [exact Hne|]. split; [exact H1|]. split; [exact H2|].
  split; [exact H3|]. split; [|split].
  - intros E. rewrite E in Hlens. simpl in Hlens. subst lens.
    cbn [cut_chapters]. rewrite slice_to_nonneg by lia.
    rewrite Nat2Z.id. now rewrite firstn_all.
  - intros E. rewrite Hlens.
    destruct (_chapter_lengths a); [contradiction|reflexivity].
  - exact Hsame.
Qed.

Lemma fetch_chapters_cuts_index_witness :
  exists a',
    heap (snd (fetch_chapters 0 Sample.w0)) !! 0%nat = Some a' /\
    fst (fetch_chapters 0 Sample.w0) = Ok [_index a'].
Proof.
  assert (Hrun : fetch_chapters 0 Sample.w0 =
                 (Ok (match fst (fetch_chapters 0 Sample.w0) with
                      | Ok chapters => chapters
                      | Raise _ => []
                      end), snd (fetch_chapters 0 Sample.w0)))
    by (vm_compute; reflexivity).
  destruct (fetch_chapters_cuts_index 0 Sample.w0
              (Sample.new_archive ["book.cbz"] Sample.cachedir0)
              (match fst (fetch_chapters 0 Sample.w0) with
               | Ok chapters => chapters
               | Raise _ => []
               end)
              (snd (fetch_chapters 0 Sample.w0))
              eq_refl (List.Forall_nil _) Hrun)
    as (a' & Ha & _ & _ & _ & _ & Hfirst & _).
  exists a'. split; [exact Ha|].
  destruct (Hfirst eq_refl) as [Hc _].
  rewrite Hrun at 1. cbn [fst]. f_equal. exact Hc.
Defined.

Lemma cut_chapters_app {A} (lengths : list Z) : forall (index_copy new : list A),
  Forall (fun n => 0 <= n) lengths ->
  sum lengths = Z.of_nat (len index_copy) ->
  cut_chapters (index_copy ++ new) (lengths ++ [Z.of_nat (len new)]) =
  cut_chapters index_copy lengths ++ [new].
Proof.
  induction lengths as [|n rest IH]; intros index_copy new Hpos Hsum.
  - destruct index_copy; [|discriminate]. cbn.
    rewrite slice_to_nonneg by lia. rewrite Nat2Z.id. now rewrite firstn_all.
  - inversion Hpos as [|? ? Hn Hrest]; subst.
    pose proof (sum_nonneg _ Hrest) as Hs.
    change (sum (n :: rest)) with (n + sum rest) in Hsum.
    cbn [cut_chapters app]. rewrite !slice_to_nonneg by assumption.
    rewrite firstn_app.
    replace (Z.to_nat n - len index_copy)%nat with 0%nat by lia.
    cbn [firstn]. rewrite app_nil_r. f_equal.
    rewrite length_firstn. rewrite Nat.min_l by lia.
    rewrite skipn_app.
    replace (Z.to_nat n - len index_copy)%nat with 0%nat by lia.
    cbn [skipn]. apply IH; [assumption|].
    rewrite length_skipn. lia.
Qed.

Lemma fetch_pages_self self w idx w' :
  fetch_pages self w = (Ok idx, w') -> exists a, heap w !! self = Some a.
Proof.
  unfold fetch_pages. intros H.
  apply bind_Ok_inv in H as (a & w1 & Ha & _).
  apply get_self_Ok in Ha as [Ha _]. eauto.
Qed.

(** the pages [add_chapter] takes from the second archive *)
Definition taken (start end_ : option Z) (pages : list entry) : list entry :=
  let c := match start with
           | Some s => if negb (s =? 0) then slice_from pages s else pages
           | None => pages
           end in
  match end_ with
  | Some e => if negb (e =? 0) then slice_to c e else c
  | None => c
  end.

Lemma taken_contiguous start end_ pages :
  exists before after, pages = before ++ taken start end_ pages ++ after.
Proof.
  unfold taken.
  set (c := match start with
            | Some s => if negb (s =? 0) then slice_from pages s else pages
            | None => pages
            end).
  assert (Hc : exists before, pages = before ++ c).
  { unfold c. destruct start as [s|]; [|now exists []].
    destruct (negb (s =? 0)); [|now exists []].
    eexists. unfold slice_from. symmetry. apply firstn_skipn. }
  destruct Hc as [before Hc].
  assert (He : forall e, c = slice_to c e ++ skipn (slice_bound (len c) e) c).
  { intros e. unfold slice_to. symmetry. apply firstn_skipn. }
  exists before.
  destruct end_ as [e|]; [destruct (negb (e =? 0))|].
  - eexists. rewrite <- He. exact Hc.
  - exists []. now rewrite app_nil_r.
  - exists []. now rewrite app_nil_r.
Qed.

(** [add_chapter] appends a run of the second archive's pages to the
    index and its length to the chapter lengths, together: the lengths
    still describe the index, the chapters cut afterwards are the former
    chapters followed by the new one, and the call returns the new
    index. *)
Theorem add_chapter_appends_chapter (self second_archive : nat)
    (start end_ : option Z) (w : world) (a : Archive)
    (r : list entry) (w' : world) :
  heap w !! self = Some a ->
  chapters_cover a ->
  add_chapter self second_archive start end_ w = (Ok r, w') ->
  exists a' chapters new_chapter pages before after,
    heap w' !! self = Some a' /\
    chapters_cover a' /\
    r = _index a' /\
    cut_chapters (_index a') (_chapter_lengths a') = chapters ++ [new_chapter] /\
    _index a' = concat chapters ++ new_chapter /\
    fst (fetch_pages second_archive w) = Ok pages /\
    pages = before ++ new_chapter ++ after /\
    (_chapter_lengths a <> [] ->
     chapters = cut_chapters (_index a) (_chapter_lengths a)).
Proof.
  intros Hself Hcover H. unfold add_chapter in H.
  apply bind_Ok_inv in H as (pages & w1 & Hfetch & H).
  destruct (fetch_pages_self _ _ _ _ Hfetch) as [a2 Hsecond].
  destruct (fetch_pages_Ok _ _ _ _ _ Hsecond Hfetch) as (Hpne & Hh1 & Hsame2).
  (* the archive [self] once the second one has been fetched *)
  assert (H1 : exists a1, heap w1 !! self = Some a1 /\ chapters_cover a1 /\
                 (_chapter_lengths a <> [] -> a1 = a)).
  { destruct (decide (self = second_archive)) as [<-|Hne].
    - assert (a2 = a) as -> by congruence.
      exists (set_index pages a). split; [rewrite Hh1; apply lookup_insert_eq|].
      destruct Hcover as [Hpos Hc]. split; [split|].
      + exact Hpos.
      + cbn. intros Hl. destruct (Hc Hl) as [Hi Hs].
        destruct (Hsame2 Hi) as [-> _]. auto.
      + intros Hl. destruct (Hc Hl) as [Hi _].
        destruct (Hsame2 Hi) as [-> _]. apply set_index_id.
    - exists a. split; [|auto].
      rewrite Hh1. now rewrite lookup_insert_ne by congruence. }
  destruct H1 as (a1 & Hself1 & Hcover1 & Ha1).
  apply bind_Ok_inv in H as (new_chapter & w2 & Hnew & H).
  assert (new_chapter = taken start end_ pages /\ w2 = w1) as [Hnc ->].
  { unfold taken. destruct end_ as [e|]; [destruct (negb (e =? 0))|].
    - destruct start; [|discriminate]. now injection Hnew as <- <-.
    - now injection Hnew as <- <-.
    - now injection Hnew as <- <-. }
  apply bind_Ok_inv in H as (chapters & w3 & Hch & H).
  destruct (fetch_chapters_Ok _ _ _ _ _ Hself1 Hch)
    as (idx & lens & Hine & Hisame & Hlens & Hh3 & Hchs).
  set (a3 := set_chapter_lengths lens (set_index idx a1)) in *.
  assert (Hself3 : heap w3 !! self = Some a3)
    by (rewrite Hh3; apply lookup_insert_eq).
  rewrite (bind_Ok _ _ _ _ _ (get_self_run _ _ _ Hself3)) in H.
  cbv zeta in H.
  set (a' := set_index (_index _ ++ new_chapter) _) in H.
  unfold put_self in H. unfold bind at 1 in H. unfold modify at 1 in H.
  assert (Hself4 : heap (set_heap (<[self := a']> (heap w3)) w3) !! self =
                   Some a') by apply lookup_insert_eq.
  unfold fetch_pages in H.
  rewrite (bind_Ok _ _ _ _ _ (get_self_run _ _ _ Hself4)) in H.
  assert (Hidx' : _index a' = idx ++ new_chapter) by reflexivity.
  assert (Hlens' : _chapter_lengths a' = lens ++ [Z.of_nat (len new_chapter)])
    by reflexivity.
  rewrite Hidx' in H.
  destruct idx as [|e0 idx0] eqn:Eidx; [contradiction|].
  cbn [app len Nat.eqb length] in H. injection H as <- <-. rewrite <- Eidx in *.
  (* the lengths described the index before the new chapter *)
  assert (Hcover3 : Forall (fun n => 0 <= n) lens /\
                    sum lens = Z.of_nat (len idx)).
  { destruct Hcover1 as [Hpos Hc]. rewrite Hlens.
    destruct (_chapter_lengths a1) as [|l0 ls] eqn:El; cbn.
    - split; [constructor; [lia|constructor]|]. unfold sum. simpl. lia.
    - split; [exact Hpos|].
      destruct Hc as [Hi Hs]; [discriminate|].
      now rewrite (Hisame Hi). }
  destruct Hcover3 as [Hpos3 Hsum3].
  destruct (taken_contiguous start end_ pages) as (before & after & Hcont).
  rewrite <- Hnc in Hcont.
  exists a', chapters, new_chapter, pages, before, after.
  split; [exact Hself4|]. split; [|split; [|split; [|split; [|split; [|split]]]]].
  - split.
    + rewrite Hlens'. apply Forall_app. split; [exact Hpos3|].
      constructor; [lia|constructor].
    + intros _. rewrite Hidx', Hlens'. split.
      * rewrite Eidx. discriminate.
      * rewrite sum_app, length_app. unfold sum at 2. simpl. lia.
  - rewrite Hidx'. now rewrite Eidx.
  - rewrite Hidx', Hlens', Hchs. now apply cut_chapters_app.
  - rewrite Hidx', Hchs. f_equal.
    destruct (cut_chapters_nonneg lens idx Hpos3) as (_ & -> & _).
    rewrite Hsum3, Nat2Z.id. now rewrite firstn_all.
  - now rewrite Hfetch.
  - exact Hcont.
  - intros Hl. specialize (Ha1 Hl). subst a1.
    rewrite Hchs, Hlens.
    destruct Hcover as [_ Hc]. destruct (Hc Hl) as [Hi _].
    rewrite (Hisame Hi).
    destruct (_chapter_lengths a); [contradiction|reflexivity].
Qed.

Lemma add_chapter_appends_chapter_witness :
  exists a',
    heap (snd (add_chapter 0 1 None None Sample.w0)) !! 0%nat = Some a' /\
    chapters_cover a' /\
    fst (add_chapter 0 1 None None Sample.w0) = Ok (_index a').
Proof.
  assert (Hrun : add_chapter 0 1 None None Sample.w0 =
                 (Ok (match fst (add_chapter 0 1 None None Sample.w0) with
                      | Ok r => r
                      | Raise _ => []
                      end), snd (add_chapter 0 1 None None Sample.w0)))
    by (vm_compute; reflexivity).
  destruct (add_chapter_appends_chapter 0 1 None None Sample.w0
              (Sample.new_archive ["book.cbz"] Sample.cachedir0)
              (match fst (add_chapter 0 1 None None Sample.w0) with
               | Ok r => r
               | Raise _ => []
               end)
              (snd (add_chapter 0 1 None None Sample.w0))
              eq_refl (conj (List.Forall_nil _) (fun H => False_ind _ (H eq_refl)))
              Hrun)
    as (a' & chapters & new_chapter & pages & before & after &
        Ha & Hc & Hr & _).
  exists a'. split; [exact Ha|]. split; [exact Hc|].
  rewrite <- Hr. rewrite Hrun at 1. reflexivity.
Defined.

(* ===================================================================== *)
(** ** [convert_pages]                                                    *)
(* ===================================================================== *)

(** the archive of the sample book once it is loaded *)
Definition loaded_archive : Archive :=
  match heap loaded !! 0%nat with
  | Some a => a
  | None => Sample.new_archive [] []
  end.

(** the sample world with a single process configured *)
Definition one_process (w : world) : world :=
  mkWorld (fs w) (LossyFmt_quality w) (ctrl_c_entered w) (sigint w)
    (default_sigint_handler w)
    (mkConfig (ignore_page_err (cfg w)) (samples_count (cfg w)) 1
       (compress_zip (cfg w)) (ZIPCOMMENT (cfg w))
       (allowed_page_formats (cfg w)))
    (env w) (heap w).

Lemma fetch_pages_keeps_config self w idx w' :
  fetch_pages self w = (Ok idx, w') -> cfg w' = cfg w /\ env w' = env w.
Proof.
  unfold fetch_pages. intros H.
  apply bind_Ok_inv in H as (a & w1 & Ha & H).
  apply get_self_Ok in Ha as [Ha ->].
  destruct (len (_index a) =? 0)%nat.
  - apply bind_Ok_inv in H as (pages & w1 & Hex & H).
    pose proof (frames_Ok _ _ _ _ (only_fs_extract self 0) Hex) as Hw1.
    apply bind_Ok_inv in H as (a1 & w2 & Ha1 & H).
    apply get_self_Ok in Ha1 as [_ ->].
    unfold put_self, bind, modify, ret in H. injection H as _ <-.
    rewrite Hw1. split; reflexivity.
  - injection H as _ <-. split; reflexivity.
Qed.

Lemma get_format_class_Ok name w f w' :
  get_format_class name w = (Ok f, w') -> w' = w.
Proof.
  unfold get_format_class. destruct name as [n|]; [|now intros [= _ <-]].
  destruct (String.eqb n ""); [now intros [= _ <-]|].
  unfold bind, get. destruct (FormatDict (env w) n); [|discriminate].
  now intros [= _ <-].
Qed.

Lemma map_M_item_Ok l w items w' :
  map_M item l w = (Ok items, w') -> w' = w /\ len items = len l.
Proof.
  revert w items w'. induction l as [|x l IH]; simpl; intros w items w' H.
  - injection H as <- <-. auto.
  - apply bind_Ok_inv in H as (y & w1 & Hy & H).
    destruct x; [|discriminate]. injection Hy as <- <-.
    apply bind_Ok_inv in H as (r & w2 & Hr & H).
    apply IH in Hr as [-> Hl]. injection H as <- <-. simpl. auto.
Qed.

Lemma frames_map_M_worker options savedir l :
  frames (conversion_frame (opt_quality options))
    (map_M (fun source => convert_page_worker source options savedir) l).
Proof.
  apply frames_map_M.
  - apply conversion_frame_refl.
  - apply conversion_frame_trans.
  - intros x. apply frames_convert_page_worker.
Qed.

(** the options of a batch: the archive's, with the arguments that are
    given in their place *)
Definition batch_options (a : Archive) (f : option (option Format))
    (quality : option Z) (grayscale : option bool) (size : option (Z * Z))
  : Options :=
  let options := match f with
                 | Some f' => set_opt_format f' (_page_opt a)
                 | None => _page_opt a
                 end in
  let options := match quality with
                 | Some q => set_opt_quality q options
                 | None => options
                 end in
  let options := match grayscale with
                 | Some g => set_opt_grayscale g options
                 | None => options
                 end in
  match size with
  | Some s => set_opt_size s options
  | None => options
  end.

(** With a pool of size 1 (one process configured or one page) the
    results of [map_workers] are the iterator of the builtin [map].  The
    list of the files that failed consumes it, and the list of the
    converted pages, built from the same iterator, is empty: every page is
    converted, but the index is left empty and the call returns the empty
    tuple, while the chapter lengths stay as they were. *)
Theorem convert_pages_one_process_empties_index (self : nat)
    (fmt : option string) (quality : option Z) (grayscale : option bool)
    (size : option (Z * Z)) (w : world) (a : Archive)
    (r : list entry) (w' : world) :
  heap w !! self = Some a ->
  ConfigM.pcount w = 1 \/
    (1 <= ConfigM.pcount w /\ exists e, _index a = [e]) ->
  convert_pages self fmt quality grayscale size w = (Ok r, w') ->
  r = [] /\
  exists a' tasks f w1 w2 items,
    heap w' !! self = Some a' /\
    _index a' = [] /\
    _chapter_lengths a' = _chapter_lengths a /\
    fetch_pages self w = (Ok tasks, w1) /\
    tasks <> [] /\
    map_M (fun source =>
             convert_page_worker source
               (batch_options a f quality grayscale size) None) tasks w1 =
      (Ok items, w2) /\
    len items = len tasks /\
    fs w' = fs w2.
Proof.
  intros Hself Hone H. unfold convert_pages in H.
  rewrite (bind_Ok _ _ _ _ _ (get_self_run _ _ _ Hself)) in H.
  apply bind_Ok_inv in H as (options & w0 & Hopt & H).
  assert (Hf : exists f, options =
                 match f with
                 | Some f' => set_opt_format f' (_page_opt a)
                 | None => _page_opt a
                 end /\ w0 = w).
  { destruct fmt as [n|].
    - apply bind_Ok_inv in Hopt as (f & w1 & Hg & Hopt).
      apply get_format_class_Ok in Hg as ->.
      injection Hopt as <- <-. exists (Some f). auto.
    - injection Hopt as <- <-. exists None. auto. }
  destruct Hf as (f & Hoptions & ->).
  cbv zeta in H.
  set (options' := match size with
                   | Some s => set_opt_size s _
                   | None => _
                   end) in H.
  assert (Hbatch : options' = batch_options a f quality grayscale size)
    by (unfold options', batch_options; now rewrite Hoptions).
  clearbody options'. subst options'.
  set (worker := fun source => convert_page_worker source _ None) in *.
  apply bind_Ok_inv in H as (tasks & w1 & Hfetch & H).
  destruct (fetch_pages_Ok _ _ _ _ _ Hself Hfetch) as (Hne & Hh1 & Hsame).
  destruct (fetch_pages_keeps_config _ _ _ _ Hfetch) as [Hc1 He1].
  apply bind_Ok_inv in H as (results & w1' & Hmap & H).
  assert (results = map_object worker tasks /\ w1' = w1) as [-> ->].
  { unfold map_workers, bind, get in Hmap.
    assert (Hp : ConfigM.pcount w1 = ConfigM.pcount w)
      by (unfold ConfigM.pcount; now rewrite Hc1, He1).
    rewrite Hp in Hmap.
    replace (Z.min (Z.of_nat (len tasks)) (ConfigM.pcount w) =? 1) with true
      in Hmap.
    - now injection Hmap as <- <-.
    - symmetry. apply Z.eqb_eq.
      destruct Hone as [Hp1|[Hp1 [e He]]].
      + destruct tasks; [contradiction|]. simpl len in *. lia.
      + destruct (Hsame ltac:(rewrite He; discriminate)) as [-> _].
        rewrite He. simpl. lia. }
  apply bind_Ok_inv in H as ([l it] & w2 & Hit1 & H).
  cbn [iterate] in Hit1.
  apply bind_Ok_inv in Hit1 as (l' & w2' & Hrun & Hit1).
  injection Hit1 as -> <- ->.
  cbn [fst snd] in H.
  apply bind_Ok_inv in H as (items1 & w3 & Hitems & H).
  apply map_M_item_Ok in Hitems as [-> Hlen].
  apply bind_Ok_inv in H as (a2 & w3 & Ha2 & H).
  apply get_self_Ok in Ha2 as [Ha2 ->].
  pose proof (frames_map_M_worker
                (batch_options a f quality grayscale size) None tasks w1) as Hfr.
  fold worker in Hfr. rewrite Hrun in Hfr. cbn [snd] in Hfr.
  destruct Hfr as (_ & _ & Hh2 & _).
  assert (a2 = set_index tasks a) as ->.
  { rewrite Hh2, Hh1, lookup_insert_eq in Ha2. congruence. }
  unfold put_self in H. unfold bind at 1 in H. unfold modify at 1 in H.
  unfold iterate at 1 in H. unfold bind at 1 in H. unfold bind at 1 in H.
  cbn [map_M ret fst snd] in H.
  unfold bind at 1 in H. cbn [map_M ret fst snd] in H.
  unfold get_self at 1 in H. unfold bind at 1 in H. unfold bind at 1 in H.
  cbn [get heap set_heap] in H. rewrite lookup_insert_eq in H.
  cbn [ret List.filter map] in H.
  unfold bind, modify, ret in H. injection H as <- <-.
  split; [reflexivity|].
  eexists. exists tasks, f, w1, w2, l.
  split; [cbn; apply lookup_insert_eq|].
  split; [reflexivity|]. split; [reflexivity|].
  split; [exact Hfetch|]. split; [exact Hne|].
  split; [exact Hrun|].
  split; [|reflexivity].
  clear - Hrun. revert w1 l w2 Hrun.
  induction tasks as [|x tasks IH]; simpl; intros w1 l w2 H.
  - now injection H as <- _.
  - apply bind_Ok_inv in H as (y & w3 & _ & H).
    apply bind_Ok_inv in H as (r' & w4 & Hr & H).
    injection H as <- _. simpl. f_equal. eapply IH. exact Hr.
Qed.

Lemma convert_pages_one_process_empties_index_witness :
  fst (convert_pages 0 None None None None (one_process Sample.w0)) = Ok [].
Proof.
  assert (Hrun : convert_pages 0 None None None None (one_process Sample.w0) =
                 (Ok (match fst (convert_pages 0 None None None None
                                   (one_process Sample.w0)) with
                      | Ok r => r
                      | Raise _ => []
                      end),
                  snd (convert_pages 0 None None None None
                         (one_process Sample.w0))))
    by (vm_compute; reflexivity).
  set (r := match fst (convert_pages 0 None None None None
                         (one_process Sample.w0)) with
            | Ok r => r
            | Raise _ => []
            end) in *.
  destruct (convert_pages_one_process_empties_index 0 None None None None
              (one_process Sample.w0)
              (Sample.new_archive ["book.cbz"] Sample.cachedir0) r
              (snd (convert_pages 0 None None None None
                      (one_process Sample.w0)))
              eq_refl (or_introl eq_refl) Hrun) as [Hr _].
  rewrite Hrun. cbn [fst]. now rewrite Hr.
Defined.

Lemma pool_run_length {A B} (func : A -> M B) tasks order :
  forall slots w r w',
    pool_run func tasks order slots w = (Ok r, w') -> len r = len slots.
Proof.
  induction order as [|i order IH]; simpl; intros slots w r w' H.
  - now injection H as <- _.
  - destruct (tasks !! i).
    + apply bind_Ok_inv in H as (y & w1 & _ & H).
      apply IH in H. now rewrite length_insert in H.
    + eauto.
Qed.

Lemma collect_length {B} (slots : list (option B)) l :
  collect slots = Some l -> len l = len slots.
Proof.
  revert l. induction slots as [|[y|] slots IH]; simpl; intros l H.
  - now injection H as <-.
  - destruct (collect slots); [|discriminate]. injection H as <-.
    simpl. f_equal. now apply IH.
  - discriminate.
Qed.

Lemma pool_map_length {A B} (func : A -> M B) tasks w l w' :
  pool_map func tasks w = (Ok l, w') -> len l = len tasks.
Proof.
  unfold pool_map. unfold bind at 1. cbn [get]. intros H.
  apply bind_Ok_inv in H as (slots & w1 & Hrun & H).
  apply pool_run_length in Hrun. rewrite length_replicate in Hrun.
  destruct (collect slots) eqn:Ec; [|discriminate].
  injection H as <- _. apply collect_length in Ec. congruence.
Qed.

Lemma map_M_item_pure l w items w' :
  map_M item l w = (Ok items, w') ->
  forall w0, map_M item l w0 = (Ok items, w0).
Proof.
  revert w items w'. induction l as [|x l IH]; simpl; intros w items w' H w0.
  - now injection H as <- _.
  - apply bind_Ok_inv in H as (y & w1 & Hy & H).
    destruct x; [|discriminate]. injection Hy as <- <-.
    apply bind_Ok_inv in H as (r & w2 & Hr & H).
    injection H as <- _.
    unfold bind at 1. cbn [item ret].
    unfold bind at 1. now rewrite (IH _ _ _ Hr w0).
Qed.

Lemma filter_partition_length {A} (f : A -> bool) (l : list A) :
  (len (List.filter f l) + len (List.filter (fun x => negb (f x)) l) = len l)%nat.
Proof.
  induction l as [|x l IH]; [reflexivity|]. simpl.
  destruct (f x); simpl; lia.
Qed.

(* ===================================================================== *)
(** ** [add_page] and [remove_page]                                       *)
(* ===================================================================== *)

Lemma add_page_Ok self fp_ i w a u w1 :
  heap w !! self = Some a ->
  add_page self fp_ i w = (Ok u, w1) ->
  exists_in (fs w) fp_ = true /\
  w1 = set_heap
         (<[self := set_index (list_insert (_index a) i (EPath fp_)) a]> (heap w))
         w.
Proof.
  intros Hself H. unfold add_page in H.
  unfold path_exists in H. unfold bind at 1 in H. unfold bind at 1 in H.
  cbn [get ret] in H.
  destruct (exists_in (fs w) fp_); [|discriminate].
  apply bind_Ok_inv in H as (pg & w2 & Hinit & H).
  apply (unchanged_run _ _ _ _ (unchanged_init fp_)) in Hinit as ->.
  rewrite (bind_Ok _ _ _ _ _ (get_self_run _ _ _ Hself)) in H.
  unfold put_self, modify in H. injection H as _ <-. auto.
Qed.

Lemma set_index_set_index l l' a : set_index l (set_index l' a) = set_index l a.
Proof. reflexivity. Qed.

(** A path added at a position from 0 to the length of the index is the
    entry [remove_page] removes at that position, and the archive is then
    as it was before the two calls. *)
Theorem add_page_remove_page_round_trip (self : nat) (fp_ : path) (index : Z)
    (w : world) (a : Archive) (w1 : world) :
  heap w !! self = Some a ->
  0 <= index <= Z.of_nat (len (_index a)) ->
  add_page self fp_ index w = (Ok tt, w1) ->
  remove_page self index w1 = (Ok (EPath fp_), w).
Proof.
  intros Hself Hi H.
  destruct (add_page_Ok _ _ _ _ _ _ _ Hself H) as [_ ->].
  unfold remove_page.
  erewrite bind_Ok by (apply get_self_run; cbn; apply lookup_insert_eq).
  cbn [_index set_index].
  set (k := Z.to_nat index).
  assert (Hk : (k <= len (_index a))%nat) by lia.
  assert (Hins : list_insert (_index a) index (EPath fp_) =
                 firstn k (_index a) ++ EPath fp_ :: skipn k (_index a)).
  { unfold list_insert, slice_bound.
    rewrite (proj2 (Z.ltb_ge index 0)) by lia.
    now replace (Z.to_nat (Z.max 0 (Z.min (Z.of_nat (len (_index a))) index)))
      with k by lia. }
  rewrite Hins.
  assert (Hpop : list_pop (firstn k (_index a) ++ EPath fp_ :: skipn k (_index a))
                   index = Ok (EPath fp_, _index a)).
  { unfold list_pop. rewrite length_app, length_firstn. cbn [len length].
    rewrite length_skipn.
    rewrite (proj2 (Z.ltb_ge index 0)) by lia.
    replace ((index <? 0) || (_ <=? index)) with false
      by (symmetry; apply orb_false_iff; split;
          [apply Z.ltb_ge|apply Z.leb_gt]; lia).
    fold k.
    assert (Hl : len (firstn k (_index a)) = k)
      by (rewrite length_firstn; lia).
    rewrite nth_error_app2 by lia. rewrite Hl, Nat.sub_diag. cbn [nth_error].
    do 2 f_equal.
    rewrite firstn_app, Hl, Nat.sub_diag. cbn [firstn]. rewrite app_nil_r.
    rewrite firstn_firstn, Nat.min_id.
    rewrite skipn_app, Hl.
    replace (S k - k)%nat with 1%nat by lia. cbn [skipn].
    rewrite skipn_firstn_comm.
    replace (k - S k)%nat with 0%nat by lia. cbn [firstn app].
    apply firstn_skipn. }
  unfold bind at 1. unfold lift at 1. rewrite Hpop. cbn [fst snd].
  unfold put_self, bind, modify, ret. f_equal.
  cbn [heap set_heap]. rewrite insert_insert_eq, set_index_set_index.
  rewrite set_index_id, insert_id by assumption.
  now destruct w.
Qed.

Lemma add_page_remove_page_round_trip_witness :
  remove_page 0 1
    (snd (add_page 0 (Sample.cachedir0 ++ ["p1.png"]) 1 loaded)) =
  (Ok (EPath (Sample.cachedir0 ++ ["p1.png"])), loaded).
Proof.
  apply (add_page_remove_page_round_trip 0 _ 1 loaded loaded_archive).
  - vm_compute. reflexivity.
  - vm_compute. split; discriminate.
  - vm_compute. reflexivity.
Defined.

(** By default [add_page] inserts at position [-1]: the path goes in
    front of the last page, not behind it, and [remove_page(-1)] then
    removes that last page and leaves the added path at the end. *)
Theorem add_page_default_is_before_last (self : nat) (fp_ : path)
    (w : world) (a : Archive) (front : list entry) (last_page : entry)
    (w1 : world) :
  heap w !! self = Some a ->
  _index a = front ++ [last_page] ->
  add_page self fp_ (-1) w = (Ok tt, w1) ->
  heap w1 !! self = Some (set_index (front ++ [EPath fp_; last_page]) a) /\
  exists w2,
    remove_page self (-1) w1 = (Ok last_page, w2) /\
    heap w2 !! self = Some (set_index (front ++ [EPath fp_]) a).
Proof.
  intros Hself Hidx H.
  destruct (add_page_Ok _ _ _ _ _ _ _ Hself H) as [_ ->].
  assert (Hins : list_insert (_index a) (-1) (EPath fp_) =
                 front ++ [EPath fp_; last_page]).
  { unfold list_insert, slice_bound. rewrite Hidx, length_app. cbn [len length].
    cbn [Z.ltb Z.compare].
    replace (Z.to_nat _) with (len front) by lia.
    rewrite firstn_app, Nat.sub_diag, firstn_all. cbn [firstn].
    rewrite skipn_app, Nat.sub_diag, skipn_all. cbn [skipn app].
    now rewrite app_nil_r. }
  rewrite Hins. split; [cbn; apply lookup_insert_eq|].
  unfold remove_page.
  erewrite bind_Ok by (apply get_self_run; cbn; apply lookup_insert_eq).
  cbn [_index set_index].
  assert (Hpop : list_pop (front ++ [EPath fp_; last_page]) (-1) =
                 Ok (last_page, front ++ [EPath fp_])).
  { unfold list_pop. rewrite length_app. cbn [len length Z.ltb Z.compare].
    replace ((_ <? 0) || _) with false
      by (symmetry; apply orb_false_iff; split;
          [apply Z.ltb_ge|apply Z.leb_gt]; lia).
    replace (Z.to_nat _) with (S (len front)) by lia.
    rewrite nth_error_app2 by lia.
    replace (S (len front) - len front)%nat with 1%nat by lia.
    cbn [nth_error]. do 2 f_equal.
    rewrite firstn_app.
    replace (S (len front) - len front)%nat with 1%nat by lia.
    rewrite firstn_all2 by lia. cbn [firstn].
    rewrite skipn_all2 by (rewrite length_app; simpl; lia).
    now rewrite app_nil_r. }
  unfold bind at 1. unfold lift at 1. rewrite Hpop. cbn [fst snd].
  unfold put_self, bind, modify, ret. eexists. split; [reflexivity|].
  cbn. apply lookup_insert_eq.
Qed.

Lemma add_page_default_is_before_last_witness :
  exists w2,
    remove_page 0 (-1)
      (snd (add_page 0 (Sample.cachedir0 ++ ["p1.png"]) (-1) loaded)) =
    (Ok (EPage (Sample.page_at Sample.cachedir0 "p10.png")), w2).
Proof.
  destruct (add_page_default_is_before_last 0 (Sample.cachedir0 ++ ["p1.png"])
              loaded loaded_archive
              (removelast (_index loaded_archive))
              (EPage (Sample.page_at Sample.cachedir0 "p10.png"))
              (snd (add_page 0 (Sample.cachedir0 ++ ["p1.png"]) (-1) loaded)))
    as (_ & w2 & Hpop & _).
  - vm_compute. reflexivity.
  - vm_compute. reflexivity.
  - vm_compute. reflexivity.
  - exists w2. exact Hpop.
Defined.

(* ===================================================================== *)
(** ** [extract] and the cache directory                                  *)
(* ===================================================================== *)

(** the files there are stay files *)
Definition keeps_files (w w' : world) : Prop :=
  forall q, is_file_in (fs w) q = true -> is_file_in (fs w') q = true.

Lemma keeps_files_refl w : keeps_files w w.
Proof. intros q H. exact H. Qed.

Lemma keeps_files_trans a b c :
  keeps_files a b -> keeps_files b c -> keeps_files a c.
Proof. intros H1 H2 q H. auto. Qed.

Lemma keeps_files_write_file p f : frames keeps_files (write_file p f).
Proof.
  intros w. unfold write_file, bind, get, modify.
  destruct (_ && _); [|apply keeps_files_refl].
  intros q Hq. unfold is_file_in in *. cbn.
  destruct (decide (q = p)) as [->|Hne].
  - now rewrite lookup_insert_eq.
  - now rewrite lookup_insert_ne by congruence.
Qed.

Lemma keeps_files_makedirs p : frames keeps_files (makedirs p).
Proof.
  unfold makedirs.
  apply frames_for_each;
    [apply keeps_files_refl | apply keeps_files_trans |].
  intros d w. unfold bind, get, modify, ret.
  destruct (exists_in (fs w) d) eqn:Ex.
  - destruct (is_dir_in (fs w) d); apply keeps_files_refl.
  - intros q Hq. unfold is_file_in in *. cbn.
    destruct (decide (q = d)) as [->|Hne].
    + unfold exists_in in Ex. apply orb_false_elim in Ex as [_ Ex].
      apply bool_decide_eq_false in Ex.
      destruct (fs w !! d); [|discriminate]. exfalso. apply Ex. eauto.
    + now rewrite lookup_insert_ne by congruence.
Qed.

Lemma keeps_files_zip_extract members name cachedir :
  frames keeps_files (zip_extract members name cachedir).
Proof.
  unfold zip_extract. destruct (getinfo members name).
  - destruct (is_dir_member name); [apply keeps_files_makedirs|].
    apply frames_bind;
      [apply keeps_files_trans | apply keeps_files_makedirs |].
    intros _. apply keeps_files_write_file.
  - apply frames_raise, keeps_files_refl.
Qed.

(** [extract] returns one page for every regular file that is below the
    cache directory when the selected members have been unpacked, whether
    this call or an earlier one has put it there (a file that was there
    before the call is still there); it changes nothing but the file
    system.  The enumeration of a directory tree is taken to list every
    entry once. *)
Theorem extract_returns_every_cached_file (self : nat) (count : Z)
    (w : world) (a : Archive) (pages : list Page) (w' : world) :
  heap w !! self = Some a ->
  (forall l, Permutation (listing (env w) l) l) ->
  extract self count w = (Ok pages, w') ->
  w' = set_fs (fs w') w /\
  (exists files,
     Permutation (map fp pages) (map (fun p => Path (path_str p)) files) /\
     List.NoDup files /\
     forall p, In p files <->
       is_under (_cachedir a) p = true /\ is_file_in (fs w') p = true) /\
  (forall p, is_file_in (fs w) p = true -> is_file_in (fs w') p = true).
Proof.
  intros Hself Hlist H.
  pose proof (frames_Ok _ _ _ _ (only_fs_extract self count) H) as Hw'.
  apply extract_Ok_inv in H
    as (a0 & members & comment & selected & sorted_paths &
        Hself0 & Hzip & Hsel & Hrun & Hsort & Hfp).
  assert (a0 = a) as -> by congruence.
  split; [exact Hw'|]. split.
  - set (keys := map fst (map_to_list (fs w'))) in *.
    exists (List.filter (is_file_in (fs w'))
              (List.filter (is_under (_cachedir a)) keys)).
    split; [|split].
    + rewrite Hfp. unfold human_sort_paths in Hsort.
      apply human_sort_Permutation in Hsort as [_ Hp].
      rewrite <- Hp. rewrite List.map_map. apply Permutation_map.
      assert (He : env w' = env w) by (rewrite Hw'; reflexivity).
      rewrite He.
      generalize (Hlist (List.filter (is_under (_cachedir a)) keys)).
      generalize (listing (env w) (List.filter (is_under (_cachedir a)) keys)).
      generalize (List.filter (is_under (_cachedir a)) keys).
      clear. intros l l' Hp. symmetry in Hp.
      induction Hp as [|x l l' Hp IH|x y l|l l' l'' _ IH1 _ IH2]; simpl.
      * constructor.
      * destruct (is_file_in (fs w') x); [now constructor|exact IH].
      * destruct (is_file_in (fs w') x), (is_file_in (fs w') y);
          try reflexivity. apply perm_swap.
      * etransitivity; eassumption.
    + apply List.NoDup_filter, List.NoDup_filter.
      unfold keys. apply NoDup_ListNoDup, NoDup_fst_map_to_list.
    + intros p. rewrite !List.filter_In. split.
      * intros [[_ Hu] Hf]. auto.
      * intros [Hu Hf]. split; [split|]; try assumption.
        unfold is_file_in in Hf.
        destruct (fs w' !! p) as [n|] eqn:E; [|discriminate].
        unfold keys. apply in_map_iff. exists (p, n). split; [reflexivity|].
        apply list_elem_of_In, elem_of_map_to_list. exact E.
  - pose proof (frames_for_each keeps_files selected
                  (fun file => zip_extract members file (_cachedir a))
                  keeps_files_refl keeps_files_trans
                  (fun file => keeps_files_zip_extract members file _) w) as Hk.
    now rewrite Hrun in Hk.
Qed.

Lemma extract_returns_every_cached_file_witness :
  is_file_in (fs (snd (extract 0 0 Sample.w0))) ["book.cbz"] = true /\
  exists files,
    Permutation
      (map fp (match fst (extract 0 0 Sample.w0) with
               | Ok pages => pages
               | Raise _ => []
               end))
      (map (fun p => Path (path_str p)) files) /\
    List.NoDup files.
Proof.
  assert (Hrun : extract 0 0 Sample.w0 =
                 (Ok (match fst (extract 0 0 Sample.w0) with
                      | Ok pages => pages
                      | Raise _ => []
                      end), snd (extract 0 0 Sample.w0)))
    by (vm_compute; reflexivity).
  destruct (extract_returns_every_cached_file 0 0 Sample.w0
              (Sample.new_archive ["book.cbz"] Sample.cachedir0)
              (match fst (extract 0 0 Sample.w0) with
               | Ok pages => pages
               | Raise _ => []
               end)
              (snd (extract 0 0 Sample.w0))
              eq_refl (fun l => Permutation_sym (Permutation_rev l)) Hrun)
    as (_ & (files & Hp & Hnd & _) & Hkeep).
  split; [apply Hkeep; reflexivity|].
  exists files. split; [exact Hp|exact Hnd].
Defined.

(* ===================================================================== *)
(** ** [human_sort], whatever the storage order                           *)
(* ===================================================================== *)

Section SortedUnique.
Context {A : Type} (lt : A -> A -> option bool) (key : A -> list val).
Hypothesis lt_key :
  forall a b, lt a b = Some (Order.is_Lt (Order.list_cmp (key a) (key b))).

Lemma key_le_antisym a b :
  key_le key a b -> key_le key b a -> key a = key b.
Proof.
  unfold key_le, Order.list_le. intros Hab Hba.
  rewrite Order.list_cmp_antisym in Hba.
  apply Order.list_cmp_eq.
  destruct (Order.list_cmp (key a) (key b)); simpl in *; congruence.
Qed.

Lemma sorted_of_sorted l :
  StronglySorted (key_le key) l -> sorted lt l = Some l.
Proof using lt_key.
  induction 1 as [|x l Hs IH Hall]; [reflexivity|].
  simpl. rewrite IH. destruct l as [|y l']; [reflexivity|].
  simpl. rewrite lt_key.
  inversion Hall as [|? ? Hxy _]; subst.
  unfold key_le, Order.list_le in Hxy.
  rewrite Order.list_cmp_antisym.
  destruct (Order.list_cmp (key x) (key y)); simpl; congruence.
Qed.

Lemma sorted_unique (l1 : list A) : forall l2,
  Permutation l1 l2 ->
  StronglySorted (key_le key) l1 -> StronglySorted (key_le key) l2 ->
  (forall a b, In a l1 -> In b l1 -> key a = key b -> a = b) ->
  l1 = l2.
Proof.
  induction l1 as [|x l1 IH]; intros l2 Hp Hs1 Hs2 Hinj.
  - apply Permutation_nil in Hp. now subst.
  - destruct l2 as [|y l2].
    { apply Permutation_sym, Permutation_nil in Hp. discriminate. }
    inversion Hs1 as [|? ? Hs1' Hall1]; subst.
    inversion Hs2 as [|? ? Hs2' Hall2]; subst.
    assert (Hy : In y (x :: l1))
      by (eapply Permutation_in; [symmetry; exact Hp|now left]).
    assert (Hx : In x (y :: l2))
      by (eapply Permutation_in; [exact Hp|now left]).
    assert (E : x = y).
    { destruct Hy as [E|Hy]; [exact E|].
      destruct Hx as [E|Hx]; [now symmetry|].
      apply Hinj; [now left|now right|].
      apply key_le_antisym.
      - exact (proj1 (List.Forall_forall _ _) Hall1 _ Hy).
      - exact (proj1 (List.Forall_forall _ _) Hall2 _ Hx). }
    subst y. f_equal. apply IH; try assumption.
    + eapply Permutation_cons_inv. exact Hp.
    + intros a b Ha Hb. apply Hinj; now right.
Qed.
End SortedUnique.

Lemma forallb_Permutation {A} (f : A -> bool) l l' :
  Permutation l l' -> forallb f l = forallb f l'.
Proof.
  induction 1 as [|x l l' _ IH|x y l|l l' l'' _ IH1 _ IH2]; simpl.
  - reflexivity.
  - now rewrite IH.
  - now rewrite !andb_assoc, (andb_comm (f y)).
  - congruence.
Qed.

(** The result of [human_sort] does not depend on the order in which the
    names are stored, provided no two different names have the same key
    (as [p01] and [p1] have): any two arrangements of such names are
    sorted into the same sequence. *)
Theorem human_sort_ignores_storage_order (lst lst' : list string) :
  Permutation lst lst' ->
  (forall a b, In a lst -> In b lst ->
     alphanum_key a = alphanum_key b -> a = b) ->
  human_sort lst = human_sort lst'.
Proof.
  intros Hp Hinj.
  destruct lst as [|x0 l0] eqn:El.
  { apply Permutation_nil in Hp. now subst. }
  rewrite <- El in *.
  assert (Hne : lst <> []) by (rewrite El; discriminate).
  clear El.
  assert (Hne' : lst' <> []).
  { intros ->. apply Permutation_sym, Permutation_nil in Hp. contradiction. }
  pose proof (forallb_Permutation sortable _ _ Hp) as Hall.
  destruct (human_sort_cases lst Hne) as [[Hs E]|[Hs E]];
    destruct (human_sort_cases lst' Hne') as [[Hs' E']|[Hs' E']];
    try congruence.
  rewrite E, E'.
  destruct (sorted_spec plain_lt plain_key plain_lt_cmp lst)
    as (r & Hr & Hpr & Hsr).
  destruct (sorted_spec plain_lt plain_key plain_lt_cmp lst')
    as (r' & Hr' & Hpr' & Hsr').
  rewrite Hr, Hr'.
  assert (r = r') as <-; [|reflexivity].
  apply (sorted_unique plain_key); try assumption.
  - now rewrite <- Hpr, <- Hpr'.
  - intros a b Ha Hb Hk.
    assert (Ha' : In a lst)
      by (eapply Permutation_in; [symmetry; exact Hpr|exact Ha]).
    assert (Hb' : In b lst)
      by (eapply Permutation_in; [symmetry; exact Hpr|exact Hb]).
    apply Hinj; try assumption.
    rewrite !alphanum_key_sortable
      by (apply (proj1 (forallb_forall _ _) Hs); assumption).
    now rewrite Hk.
Qed.

Lemma human_sort_ignores_storage_order_witness :
  human_sort ["ch2/p10"; "ch10/p1"; "ch2/p9"] =
  human_sort ["ch10/p1"; "ch2/p9"; "ch2/p10"].
Proof.
  apply human_sort_ignores_storage_order.
  - apply Permutation_cons_append.
  - intros a b Ha Hb.
    simpl in Ha, Hb.
    destruct Ha as [<-|[<-|[<-|[]]]], Hb as [<-|[<-|[<-|[]]]];
      intros E; try reflexivity; vm_compute in E; discriminate.
Defined.

(** Sorting what [human_sort] returned changes nothing. *)
Theorem human_sort_idempotent (lst r : list string) :
  human_sort lst = Ok r -> human_sort r = Ok r.
Proof.
  intros H. apply human_sort_Ok in H as (Hne & Hall & _ & Hp & Hs & _).
  assert (Hne' : r <> []).
  { intros ->. apply Permutation_sym, Permutation_nil in Hp. contradiction. }
  rewrite (forallb_Permutation sortable _ _ Hp) in Hall.
  destruct (human_sort_cases r Hne') as [[_ E]|[E _]]; [|congruence].
  now rewrite E, (sorted_of_sorted plain_lt plain_key plain_lt_cmp r Hs).
Qed.

Lemma human_sort_idempotent_witness :
  human_sort ["p1"; "p2"; "p10"] = Ok ["p1"; "p2"; "p10"].
Proof.
  apply (human_sort_idempotent ["p10"; "p1"; "p2"]). reflexivity.
Defined.

(* ===================================================================== *)
(** ** [Page.__init__], and pages that cannot be opened                   *)
(* ===================================================================== *)

Lemma relative_to_app base : forall rest, relative_to (base ++ rest) base = Ok rest.
Proof.
  induction base as [|b base IH]; intros rest; [now destruct rest|].
  simpl. now rewrite String.eqb_refl.
Qed.

Lemma filter_none {A} (f : A -> bool) (l : list A) :
  Forall (fun x => f x = false) l -> List.filter f l = [].
Proof. induction 1 as [|x l Hx _ IH]; simpl; [reflexivity|now rewrite Hx]. Qed.

(** the page of a file below the cache directory of a book *)
Lemma PageM_init_in_cache (w : world) (g book : string) (rest : path) :
  Forall (fun part => contains (CACHE_PREFIX (env w)) part = false)
    (gettempdir (env w)) ->
  contains (CACHE_PREFIX (env w)) g = true ->
  let cache := gettempdir (env w) ++ [g; book] in
  PageM.init (cache ++ rest) w =
  (Ok (mkPage (cache ++ rest) rest (name_of (cache ++ rest))
         (stem_of (cache ++ rest)) None None true), w).
Proof.
  intros Htmp Hg cache. unfold PageM.init.
  unfold bind at 1. cbn [get]. cbv zeta.
  assert (Hf : List.filter (contains (CACHE_PREFIX (env w))) (cache ++ rest) =
               g :: List.filter (contains (CACHE_PREFIX (env w)))
                      (book :: rest)).
  { unfold cache. rewrite <- app_assoc. rewrite List.filter_app.
    rewrite (filter_none _ _ Htmp). cbn [app List.filter]. now rewrite Hg. }
  rewrite Hf.
  assert (Hrel : relative_to (cache ++ rest)
                   (joinpath (gettempdir (env w)) g) = Ok (book :: rest)).
  { unfold cache, joinpath.
    replace ((gettempdir (env w) ++ [g; book]) ++ rest)
      with ((gettempdir (env w) ++ [g]) ++ book :: rest)
      by (now rewrite <- !app_assoc).
    apply relative_to_app. }
  unfold bind at 1. unfold lift at 1. rewrite Hrel.
  assert (Hrel2 : relative_to (cache ++ rest)
                    (joinpath (joinpath (gettempdir (env w)) g) book) =
                  Ok rest).
  { unfold cache, joinpath. rewrite <- (app_assoc _ [g] [book]).
    apply relative_to_app. }
  unfold bind at 1. unfold lift at 1. rewrite Hrel2. reflexivity.
Qed.

(** [Page(fp)] finds the book's cache directory in [fp]: for a file
    below the directory [book] of the global cache directory [g] (the
    first part of [fp] that contains [CACHE_PREFIX]) in the temporary
    directory, [rel_path] is the path of the file below [book], so that
    the cache directory joined with [rel_path] is [fp] again.  A path no
    part of which contains the prefix is refused with an [IndexError]. *)
Theorem Page_init_rel_path (w : world) :
  (forall g book rest,
     Forall (fun part => contains (CACHE_PREFIX (env w)) part = false)
       (gettempdir (env w)) ->
     contains (CACHE_PREFIX (env w)) g = true ->
     let cache := gettempdir (env w) ++ [g; book] in
     exists page,
       PageM.init (cache ++ rest) w = (Ok page, w) /\
       fp page = cache ++ rest /\
       rel_path page = rest /\
       cache ++ rel_path page = fp page /\
       name page = name_of (cache ++ rest)) /\
  (forall file_name,
     Forall (fun part => contains (CACHE_PREFIX (env w)) part = false)
       file_name ->
     PageM.init file_name w = (Raise IndexError, w)).
Proof.
  split.
  - intros g book rest Htmp Hg cache.
    eexists. split; [now apply PageM_init_in_cache|]. cbn. auto.
  - intros file_name Hnone. unfold PageM.init.
    unfold bind at 1. cbn [get]. cbv zeta.
    now rewrite (filter_none _ _ Hnone).
Qed.

Lemma Page_init_rel_path_witness :
  exists page,
    PageM.init (Sample.cachedir0 ++ ["ch1"; "p1.png"]) Sample.w0 =
      (Ok page, Sample.w0) /\
    rel_path page = ["ch1"; "p1.png"].
Proof.
  destruct (Page_init_rel_path Sample.w0) as [H _].
  destruct (H "reCBZ_0" "book_0" ["ch1"; "p1.png"]) as (page & Hi & _ & Hr & _).
  - repeat constructor.
  - reflexivity.
  - exists page. split; [exact Hi|exact Hr].
Defined.

(** the file at [p] cannot be opened as an image *)
Definition not_an_image (w : world) (p : path) : Prop :=
  match fs w !! p with
  | Some (NFile (FImage _ _ _)) => False
  | _ => True
  end.

Lemma PageM_init_env p w w0 :
  env w0 = env w ->
  fst (PageM.init p w0) = fst (PageM.init p w) /\ snd (PageM.init p w0) = w0.
Proof.
  intros He. unfold PageM.init, bind, get, lift, ret, raise. rewrite He.
  destruct (List.filter _ _); [auto|].
  destruct (relative_to _ _) as [[|]|]; auto.
  destruct (relative_to _ _); auto.
Qed.

(** the body of the worker on a page that cannot be opened *)
Lemma convert_page_unreadable (source : Page) (options : Options)
    (savedir : option path) (w : world) (page : Page) :
  PageM.init (fp source) w = (Ok page, w) ->
  not_an_image w (fp source) ->
  forall w0, fs w0 = fs w -> cfg w0 = cfg w -> env w0 = env w ->
  let expected : result (bool * Page) :=
    if ignore_page_err (cfg w) then Ok (false, page)
    else Raise (match fs w !! fp source with
                | Some (NFile _) => UnidentifiedImageError
                | _ => IOError
                end) in
  let run := convert_page (EPage source) options savedir w0 in
  fs (snd run) = fs w /\
  LossyFmt_quality (snd run) = LossyFmt_quality w0 /\
  (fst run = expected \/ fst run = Raise KeyboardInterrupt) /\
  (sigint_arrives (env w) (EPage source) 0 = false -> run = (expected, w0)).
Proof.
  intros Hinit Hbad.
  pose proof (PageM_init_fp _ _ _ _ Hinit) as Hfp.
  assert (Hclosed : _closed page = true /\ _fmt page = None).
  { revert Hinit. unfold PageM.init. unfold bind at 1. cbn [get]. cbv zeta.
    destruct (List.filter _ _); [discriminate|].
    unfold bind at 1. unfold lift at 1.
    destruct (relative_to _ _) as [[|]|]; try discriminate.
    unfold bind at 1. unfold lift at 1.
    destruct (relative_to _ _); [|discriminate].
    intros [= <-]. auto. }
  destruct Hclosed as [Hcl Hfm].
  intros w0 Hfs Hcfg Henv expected run.
  assert (Hpoint : exists r0 w1,
            sigint_point (EPage source) 0 w0 = (r0, w1) /\
            fs w1 = fs w /\ cfg w1 = cfg w /\ env w1 = env w /\
            LossyFmt_quality w1 = LossyFmt_quality w0 /\
            (r0 = Ok tt \/ r0 = Raise KeyboardInterrupt) /\
            (sigint_arrives (env w) (EPage source) 0 = false ->
             r0 = Ok tt /\ w1 = w0)).
  { unfold sigint_point, handle_sigint, bind, get, modify, ret, raise.
    rewrite Henv.
    destruct (sigint_arrives (env w) (EPage source) 0).
    - destruct (sigint w0); eexists _, _; (split; [reflexivity|]);
        cbn; repeat split; auto; discriminate.
    - eexists _, _. split; [reflexivity|]. repeat split; auto. }
  destruct Hpoint as (r0 & w1 & Hp & Hfs1 & Hcfg1 & Henv1 & Hq1 & Hr0 & Hquiet).
  destruct Hr0 as [->| ->].
  2: { assert (Erun : run = (Raise KeyboardInterrupt, w1))
         by (unfold run, convert_page; unfold bind at 1; now rewrite Hp).
       rewrite Erun. cbn [fst snd]. split; [exact Hfs1|]. split; [exact Hq1|].
       split; [now right|].
       intros Hs. destruct (Hquiet Hs) as [? _]. discriminate. }
  assert (Erun : run = (expected, w1)).
  { unfold run, convert_page. unfold bind at 1. rewrite Hp.
    unfold bind at 1. cbn [entry_fp ret].
    assert (Hinit1 : PageM.init (fp source) w1 = (Ok page, w1)).
    { destruct (PageM_init_env (fp source) w w1 Henv1) as [H1 H2].
      rewrite Hinit in H1.
      destruct (PageM.init (fp source) w1) as [r1 w2]. cbn [fst snd] in H1, H2.
      congruence. }
    rewrite (bind_Ok _ _ _ _ _ Hinit1).
    unfold bind at 1. unfold try_except at 1 2.
    unfold bind at 1. unfold PageM.fmt. rewrite Hfm.
    unfold bind at 1. unfold PageM.img. rewrite Hcl.
    unfold bind at 1. unfold Image_open. unfold bind at 1. cbn [get].
    rewrite Hfs1, Hfp. unfold not_an_image in Hbad. unfold expected.
    destruct (fs w !! fp source) as [[[im hd sz| |]|]|];
      try contradiction; cbn; unfold bind, get; cbn; rewrite Hcfg1;
      destruct (ignore_page_err (cfg w)); reflexivity. }
  rewrite Erun. cbn [fst snd]. split; [exact Hfs1|]. split; [exact Hq1|].
  split; [now left|].
  intros Hs. destruct (Hquiet Hs) as [_ ->]. reflexivity.
Qed.

(** A page whose file is missing or is not an image is not converted:
    the worker writes nothing and leaves [LossyFmt.quality] alone.  With
    [config.ignore_page_err] it returns [(False, page)] for a page at the
    same path; without it the error of [Image.open] is raised (unless an
    interrupt arrives first). *)
Theorem convert_page_worker_skips_unreadable (source : Page)
    (options : Options) (savedir : option path) (w : world) (page : Page) :
  ctrl_c_entered w <> Some true ->
  PageM.init (fp source) w = (Ok page, w) ->
  not_an_image w (fp source) ->
  let run := convert_page_worker (EPage source) options savedir w in
  fs (snd run) = fs w /\
  LossyFmt_quality (snd run) = LossyFmt_quality w /\
  (sigint_arrives (env w) (EPage source) 0 = false ->
   ignore_page_err (cfg w) = true ->
   fst run = Ok (Value (false, page)) /\ fp page = fp source) /\
  (sigint_arrives (env w) (EPage source) 0 = false ->
   ignore_page_err (cfg w) = false ->
   exists e, fst run = Raise e /\ is_open_error e = true).
Proof.
  intros Hc Hinit Hbad run.
  pose proof (PageM_init_fp _ _ _ _ Hinit) as Hfp.
  set (err := match fs w !! fp source with
              | Some (NFile _) => UnidentifiedImageError
              | _ => IOError
              end).
  assert (Herr : is_open_error err = true)
    by (unfold err; destruct (fs w !! fp source) as [[|]|]; reflexivity).
  assert (Hrun : exists r w',
            run = (r, w') /\ fs w' = fs w /\
            LossyFmt_quality w' = LossyFmt_quality w /\
            (sigint_arrives (env w) (EPage source) 0 = false ->
             r = if ignore_page_err (cfg w)
                 then Ok (Value (false, page)) else Raise err)).
  { unfold run, convert_page_worker, worker_sigint_CTRL_C.
    unfold bind at 1. cbn [get].
    destruct (ctrl_c_entered w) as [[|]|] eqn:Ec; [congruence| |].
    - rewrite run_with_handler.
      set (w0 := set_sigint (default_sigint_handler w) w).
      destruct (convert_page_unreadable source options savedir w page
                  Hinit Hbad w0 eq_refl eq_refl eq_refl)
        as (Hf & Hq & _ & Hquiet).
      fold err in Hquiet.
      unfold try_except, bind, modify, ret.
      destruct (convert_page (EPage source) options savedir w0)
        as [[b|e] w1] eqn:E; cbn [fst snd] in *.
      + eexists _, _. split; [reflexivity|].
        split; [exact Hf|]. split; [exact Hq|]. intros Hs.
        specialize (Hquiet Hs). injection Hquiet as Hb _.
        destruct (ignore_page_err (cfg w)); [|discriminate].
        now injection Hb as ->.
      + destruct (is_KeyboardInterrupt e) eqn:Ek; cbn [fst snd].
        * eexists _, _. split; [reflexivity|].
          split; [exact Hf|]. split; [exact Hq|]. intros Hs.
          specialize (Hquiet Hs). injection Hquiet as He _.
          destruct (ignore_page_err (cfg w)); [discriminate|].
          injection He as ->. unfold err in Ek.
          destruct (fs w !! fp source) as [[|]|]; discriminate.
        * eexists _, _. split; [reflexivity|].
          split; [exact Hf|]. split; [exact Hq|]. intros Hs.
          specialize (Hquiet Hs). injection Hquiet as He _.
          destruct (ignore_page_err (cfg w)); [discriminate|].
          now injection He as ->.
    - destruct (convert_page_unreadable source options savedir w page
                  Hinit Hbad w eq_refl eq_refl eq_refl)
        as (Hf & Hq & _ & Hquiet).
      fold err in Hquiet.
      unfold bind, ret.
      destruct (convert_page (EPage source) options savedir w)
        as [[b|e] w1] eqn:E; cbn [fst snd] in *.
      + eexists _, _. split; [reflexivity|].
        split; [exact Hf|]. split; [exact Hq|]. intros Hs.
        specialize (Hquiet Hs). injection Hquiet as Hb _.
        destruct (ignore_page_err (cfg w)); [|discriminate].
        now injection Hb as ->.
      + eexists _, _. split; [reflexivity|].
        split; [exact Hf|]. split; [exact Hq|]. intros Hs.
        specialize (Hquiet Hs). injection Hquiet as He _.
        destruct (ignore_page_err (cfg w)); [discriminate|].
        now injection He as ->. }
  destruct Hrun as (r & w' & -> & Hfs' & Hq' & Hres). cbn [fst snd].
  split; [exact Hfs'|]. split; [exact Hq'|]. split.
  - intros Hs Hi. rewrite (Hres Hs), Hi. auto.
  - intros Hs Hi. rewrite (Hres Hs), Hi. exists err. auto.
Qed.

Lemma convert_page_worker_skips_unreadable_witness :
  fs (snd (convert_page_worker
             (EPage (Sample.page_at Sample.cachedir0 "notes.txt"))
             Sample.options0 None loaded)) = fs loaded.
Proof.
  destruct (convert_page_worker_skips_unreadable
              (Sample.page_at Sample.cachedir0 "notes.txt")
              Sample.options0 None loaded
              (Sample.page_at Sample.cachedir0 "notes.txt"))
    as (Hfs & _).
  - vm_compute. discriminate.
  - vm_compute. reflexivity.
  - vm_compute. exact I.
  - exact Hfs.
Defined.

(* ===================================================================== *)
(** ** Pool sizes, and sizes of the same aspect                           *)
(* ===================================================================== *)

Lemma map_workers_nil {A B} (func : A -> M B) (multithread : bool)
    (w : world) :
  map_workers func [] multithread w =
  (Raise (ValueError "Number of processes must be at least 1"), w).
Proof.
  unfold map_workers, bind, get. cbn [len length Z.of_nat].
  assert (H : Z.min 0 (ConfigM.pcount w) <= 0) by lia.
  rewrite (proj2 (Z.eqb_neq _ 1)) by lia.
  now rewrite (proj2 (Z.ltb_lt _ 1)) by lia.
Qed.

(** [config.pcount()] is a usable pool size on every machine: the
    configured number of processes when that is positive, otherwise 4
    when the number of cores is unknown and else the number of cores,
    less one when there are three or more. *)
Theorem pcount_at_least_one (w : world) :
  (forall n, cpu_count (env w) = Some n -> 1 <= n) ->
  1 <= ConfigM.pcount w /\
  (0 < processes (cfg w) -> ConfigM.pcount w = processes (cfg w)) /\
  (processes (cfg w) <= 0 ->
   match cpu_count (env w) with
   | None => ConfigM.pcount w = 4
   | Some n => ConfigM.pcount w = (if n <? 3 then n else n - 1)
   end).
Proof.
  intros Hcpu. unfold ConfigM.pcount.
  destruct (0 <? processes (cfg w)) eqn:Ep;
    rewrite ?Z.ltb_lt, ?Z.ltb_ge in Ep.
  - split; [lia|]. split; [reflexivity|lia].
  - destruct (cpu_count (env w)) as [n|].
    + specialize (Hcpu n eq_refl).
      rewrite (proj2 (Z.leb_le 1 n)) by lia. cbn [andb].
      destruct (n <? 3) eqn:E3; rewrite ?Z.ltb_lt, ?Z.ltb_ge in E3.
      * split; [lia|]. split; [lia|reflexivity].
      * split; [lia|]. split; [lia|reflexivity].
    + split; [lia|]. split; [lia|reflexivity].
Qed.

Lemma pcount_at_least_one_witness : 1 <= ConfigM.pcount Sample.w0.
Proof.
  apply (pcount_at_least_one Sample.w0).
  intros n [= <-]. lia.
Defined.

(** An image that has the aspect ratio of the viewport is given the size
    of the viewport exactly (for sides below 65536). *)
Theorem get_size_that_preserves_ratio_same_aspect (w h x y : Z) :
  dim w -> dim h -> dim x -> dim y ->
  w * y = x * h ->
  get_size_that_preserves_ratio (w, h) (x, y) = Ok (x, y).
Proof.
  intros Hw Hh Hx Hy Hsame.
  pose proof Hw as Hw'. pose proof Hh as Hh'.
  pose proof Hx as Hx'. pose proof Hy as Hy'. unfold dim in Hw', Hh', Hx', Hy'.
  destruct (Binary64.int_truediv_near w h ltac:(lia) ltac:(lia)) as (a & Ea & _).
  destruct (Binary64.int_truediv_near x y ltac:(lia) ltac:(lia)) as (r & Er & _).
  unfold get_size_that_preserves_ratio.
  rewrite Ea. cbn [mbind result_mbind rbind]. rewrite Er.
  cbn [mbind result_mbind rbind].
  rewrite (float_ge_ratio w h x y a r Hw Hh Hx Hy Ea Er).
  rewrite (proj2 (Z.leb_le _ _)) by lia.
  destruct (width_result w h x y Hw Hh Hx Hy a Ea ltac:(lia))
    as (x' & E & _ & Hc & _).
  unfold key_of in E. rewrite E.
  assert (Hdiv : y * w / h = x).
  { replace (y * w) with (x * h) by lia. apply Z.div_mul. lia. }
  assert (Hceil : ceil_div (y * w) h = x).
  { unfold ceil_div. replace (- (y * w)) with (- x * h) by lia.
    rewrite Z.div_mul by lia. lia. }
  rewrite Hdiv, Hceil in Hc. do 2 f_equal. lia.
Qed.

Lemma get_size_that_preserves_ratio_same_aspect_witness :
  get_size_that_preserves_ratio (1920, 1080) (1280, 720) = Ok (1280, 720).
Proof.
  apply get_size_that_preserves_ratio_same_aspect; unfold dim; lia.
Defined.

(* ===================================================================== *)
(** ** [write_archive] and [write_zip], once more                         *)
(* ===================================================================== *)

(** Writing over the source.  With the default name the destination is
    [<stem of the source>.<format>] in the current directory.  When that
    is the source archive itself and its pages have not been fetched yet,
    [write_archive] removes the source and then fails to open it: the
    call raises and the archive is lost. *)
Theorem write_archive_default_name_removes_source (self : nat) (w : world)
    (a : Archive) (book_format : string) (source : file) :
  str_in book_format ["cbz"; "zip"; "epub"] = true ->
  heap w !! self = Some a ->
  _index a = [] ->
  destination a book_format "" = a_fp a ->
  fs w !! a_fp a = Some (NFile source) ->
  write_archive self book_format "" w =
  (Raise IOError, set_fs (delete (a_fp a) (fs w)) w) /\
  fs (set_fs (delete (a_fp a) (fs w)) w) !! a_fp a = None.
Proof.
  intros Hfmt Hself Hidx Hdest Hsrc.
  split; [|cbn; apply lookup_delete_eq].
  unfold write_archive.
  assert (Hvalid : str_in book_format VALID_BOOK_FORMATS = true).
  { unfold str_in, VALID_BOOK_FORMATS in *. cbn [existsb] in *.
    destruct (String.eqb book_format "cbz"), (String.eqb book_format "zip"),
      (String.eqb book_format "epub"); cbn in *;
      first [reflexivity | discriminate]. }
  rewrite Hvalid. cbn [negb].
  rewrite (bind_Ok _ _ _ _ _ (get_self_run _ _ _ Hself)).
  cbn [String.eqb negb]. unfold bind at 1. cbn [ret].
  rewrite Hdest.
  assert (Hex : path_exists (a_fp a) w = (Ok true, w)).
  { unfold path_exists, bind, get, ret, exists_in. rewrite Hsrc.
    rewrite bool_decide_eq_true_2 by eauto. now rewrite orb_true_r. }
  rewrite (bind_Ok _ _ _ _ _ Hex).
  assert (Hun : unlink (a_fp a) w =
                (Ok tt, set_fs (delete (a_fp a) (fs w)) w)).
  { unfold unlink, bind, get, modify. now rewrite Hsrc. }
  rewrite (bind_Ok _ _ _ _ _ Hun).
  set (w1 := set_fs (delete (a_fp a) (fs w)) w).
  assert (Hfetch : fetch_chapters self w1 = (Raise IOError, w1)).
  { unfold fetch_chapters, fetch_pages.
    assert (Hself1 : heap w1 !! self = Some a) by exact Hself.
    unfold bind at 1. unfold bind at 1.
    rewrite (get_self_run _ _ _ Hself1). rewrite Hidx. cbn [len length Nat.eqb].
    unfold bind at 1. unfold extract. unfold bind at 1.
    rewrite (get_self_run _ _ _ Hself1).
    unfold bind at 1. unfold read_file, bind at 1, get.
    unfold w1 at 1. cbn [fs set_fs]. now rewrite lookup_delete_eq. }
  unfold write_container. unfold str_in in Hfmt. cbn [existsb] in Hfmt.
  destruct (String.eqb book_format "cbz") eqn:E1;
    [now rewrite (bind_Raise _ _ _ _ _ Hfetch)|].
  destruct (String.eqb book_format "zip") eqn:E2;
    [now rewrite (bind_Raise _ _ _ _ _ Hfetch)|].
  destruct (String.eqb book_format "epub") eqn:E3;
    [now rewrite (bind_Raise _ _ _ _ _ Hfetch)|].
  discriminate.
Qed.

Lemma write_archive_default_name_removes_source_witness :
  write_archive 0 "cbz" "" Sample.w0 =
  (Raise IOError, set_fs (delete ["book.cbz"] (fs Sample.w0)) Sample.w0).
Proof.
  apply (write_archive_default_name_removes_source 0 Sample.w0
           (Sample.new_archive ["book.cbz"] Sample.cachedir0) "cbz"
           Sample.book); reflexivity.
Defined.

(** [write_zip] stores, for every page in the order of the chapters,
    the file of the page as it is, deflated or stored as
    [config.compress_zip] says, sets the comment, and changes nothing but
    the container it writes. *)
Theorem write_zip_stores_page_files (w : world) (save_path : path)
    (chapters : list (list Page)) :
  is_dir_in (fs w) (parent save_path) = true ->
  is_dir_in (fs w) save_path = false ->
  Forall (Forall (page_ok w save_path)) chapters ->
  exists members,
    write_zip save_path (map (map EPage) chapters) chapter_prefix w =
    (Ok save_path,
     set_fs (<[save_path := NFile (FZip members (ZIPCOMMENT (cfg w)))]> (fs w))
       w) /\
    Forall2 (fun (m : string * file * bool) (p : Page) =>
               fs w !! fp p = Some (NFile (snd (fst m))) /\
               snd m = compress_zip (cfg w))
      members (concat chapters).
Proof.
  intros Hdir Hnd Hok.
  eexists. split; [apply write_zip_members; assumption|].
  generalize 0%nat. generalize (len chapters).
  induction Hok as [|chapter rest Hch _ IH]; intros n i; [constructor|].
  cbn [chapters_members concat]. apply Forall2_app; [|apply IH].
  unfold chapter_members.
  induction Hch as [|p ps Hp _ IHp]; [constructor|].
  cbn [map]. constructor; [|exact IHp]. cbn [fst snd]. split; [|reflexivity].
  destruct Hp as (Hf & _). unfold file_of, is_file_in in *.
  destruct (fs w !! fp p) as [[f|]|]; try discriminate. reflexivity.
Qed.

Lemma write_zip_stores_page_files_witness :
  exists members,
    fst (write_zip ["out.cbz"] (map (map EPage) Sample.chapters3)
           chapter_prefix Sample.w3) = Ok ["out.cbz"] /\
    Forall2 (fun (m : string * file * bool) (p : Page) =>
               fs Sample.w3 !! fp p = Some (NFile (snd (fst m))) /\
               snd m = false)
      members (concat Sample.chapters3).
Proof.
  destruct (write_zip_stores_page_files Sample.w3 ["out.cbz"] Sample.chapters3)
    as (members & Hrun & Hm).
  - reflexivity.
  - reflexivity.
  - repeat constructor; try reflexivity; discriminate.
  - exists members. split; [now rewrite Hrun|exact Hm].
Defined.
(* ===================================================================== *)
(** ** [compute_fmt_sizes] and the archive object                          *)
(* ===================================================================== *)

(** the archive objects, the configuration and the platform are as they
    were *)
Definition keeps_objects (w w' : world) : Prop :=
  heap w' = heap w /\ cfg w' = cfg w /\ env w' = env w.

Lemma keeps_objects_refl w : keeps_objects w w.
Proof. unfold keeps_objects. auto. Qed.

Lemma keeps_objects_trans a b c :
  keeps_objects a b -> keeps_objects b c -> keeps_objects a c.
Proof. unfold keeps_objects. intros (? & ? & ?) (? & ? & ?). repeat split; congruence. Qed.

Lemma frames_weaken (R R' : world -> world -> Prop) {A} (m : M A) :
  (forall w w', R w w' -> R' w w') -> frames R m -> frames R' m.
Proof. intros H Hm w. apply H, Hm. Qed.

Lemma only_fs_keeps_objects w w' : only_fs w w' -> keeps_objects w w'.
Proof. unfold only_fs. intros ->. repeat split. Qed.

Lemma unchanged_keeps_objects w w' : unchanged w w' -> keeps_objects w w'.
Proof. unfold unchanged. intros ->. apply keeps_objects_refl. Qed.

Lemma conversion_keeps_objects q w w' :
  conversion_frame q w w' -> keeps_objects w w'.
Proof. intros (H1 & H2 & H3 & _). repeat split; assumption. Qed.

Section PoolFrames.
Context {A B : Type} (func : A -> M B) (tasks : list A).
Context (R : world -> world -> Prop) (P : A -> B -> Prop) (w0 : world).
Hypothesis R_refl : forall w, R w w.
Hypothesis R_trans : forall a b c, R a b -> R b c -> R a c.
Hypothesis func_frames : forall x, frames R (func x).
Hypothesis func_P :
  forall x w y w', R w0 w -> func x w = (Ok y, w') -> P x y.

Lemma map_M_related l : forall w r w',
  R w0 w -> map_M func l w = (Ok r, w') -> Forall2 P l r /\ R w0 w'.
Proof using R_trans func_frames func_P.
  induction l as [|x l IH]; simpl; intros w r w' Hw H.
  - injection H as <- <-. split; [constructor|exact Hw].
  - apply bind_Ok_inv in H as (y & w1 & Hy & H).
    apply bind_Ok_inv in H as (r' & w2 & Hr & H).
    injection H as <- <-.
    assert (Hw1 : R w0 w1).
    { eapply R_trans; [exact Hw|]. pose proof (func_frames x w) as Hf.
      now rewrite Hy in Hf. }
    destruct (IH _ _ _ Hw1 Hr) as [HF Hw2].
    split; [|exact Hw2]. constructor; [|exact HF].
    exact (func_P x w y w1 Hw Hy).
Qed.

(** every filled slot holds a value of the task at its position *)
Definition slots_related (slots : list (option B)) : Prop :=
  forall i y, slots !! i = Some (Some y) ->
    exists x, tasks !! i = Some x /\ P x y.

Lemma pool_run_related order : forall slots w r w',
  R w0 w -> slots_related slots ->
  pool_run func tasks order slots w = (Ok r, w') ->
  slots_related r /\ R w0 w' /\ len r = len slots.
Proof using R_trans func_frames func_P.
  induction order as [|i order IH]; simpl; intros slots w r w' Hw Hs H.
  - injection H as <- <-. auto.
  - destruct (tasks !! i) as [x|] eqn:Ex; [|eauto].
    apply bind_Ok_inv in H as (y & w1 & Hy & H).
    assert (Hw1 : R w0 w1).
    { eapply R_trans; [exact Hw|]. pose proof (func_frames x w) as Hf.
      now rewrite Hy in Hf. }
    apply IH in H; [|exact Hw1|].
    + destruct H as (H1 & H2 & H3). rewrite length_insert in H3. auto.
    + intros j z Hj.
      destruct (decide (j = i)) as [->|Hne].
      * apply list_lookup_insert_Some in Hj as [(_ & E & _)|(Hne & _)];
          [|contradiction].
        injection E as <-. exists x. split; [exact Ex|].
        exact (func_P x w y w1 Hw Hy).
      * rewrite list_lookup_insert_ne in Hj by congruence. now apply Hs.
Qed.

Lemma collect_lookup (slots : list (option B)) : forall l,
  collect slots = Some l ->
  forall i y, l !! i = Some y -> slots !! i = Some (Some y).
Proof.
  induction slots as [|[z|] slots IH]; simpl; intros l H i y Hi.
  - injection H as <-. discriminate.
  - destruct (collect slots) as [r|]; [|discriminate]. injection H as <-.
    destruct i as [|i]; simpl in *; [congruence|]. eapply IH; eauto.
  - discriminate.
Qed.

Lemma pool_map_related w l w' :
  R w0 w -> pool_map func tasks w = (Ok l, w') ->
  Forall2 P tasks l /\ R w0 w'.
Proof using R_trans func_frames func_P.
  intros Hw H. pose proof (pool_map_length _ _ _ _ _ H) as Hlen.
  unfold pool_map in H. unfold bind at 1 in H. cbn [get] in H.
  apply bind_Ok_inv in H as (slots & w1 & Hrun & H).
  destruct (collect slots) as [l'|] eqn:Ec; [|discriminate].
  injection H as <- <-.
  apply pool_run_related in Hrun; [|exact Hw|].
  - destruct Hrun as (Hs & Hw1 & _). split; [|exact Hw1].
    apply Forall2_same_length_lookup_2; [congruence|].
    intros i x y Hx Hy.
    destruct (Hs i y (collect_lookup _ _ Ec _ _ Hy)) as (x' & Hx' & HP).
    congruence.
  - intros i y Hi. apply lookup_replicate in Hi as [Hi _]. discriminate.
Qed.

(** the items of what [map_workers] returned, for the thread pool *)
Lemma map_workers_threads_related w results w1 it w2 :
  R w0 w ->
  map_workers func tasks true w = (Ok results, w1) ->
  iterate results w1 = (Ok it, w2) ->
  Forall2 P tasks (fst it) /\ R w0 w2.
Proof using R_trans func_frames func_P.
  intros Hw Hmap Hit. unfold map_workers in Hmap.
  unfold bind at 1 in Hmap. cbn [get] in Hmap.
  destruct (_ =? 1).
  - injection Hmap as <- <-. cbn [iterate] in Hit.
    apply bind_Ok_inv in Hit as (l & w3 & Hl & Hit).
    injection Hit as <- <-. cbn [fst].
    eapply map_M_related; eauto.
  - destruct (_ <? 1); [discriminate|].
    apply bind_Ok_inv in Hmap as (l & w3 & Hl & Hmap).
    injection Hmap as <- <-. cbn [iterate] in Hit.
    injection Hit as <- <-. cbn [fst].
    eapply pool_map_related; eauto.
Qed.
End PoolFrames.

Section FramesOfPools.
Context (R : world -> world -> Prop).
Hypothesis R_refl : forall w, R w w.
Hypothesis R_trans : forall a b c, R a b -> R b c -> R a c.
Hypothesis R_processes :
  forall B (m : M B) w, R w (snd (in_processes m w)).

Lemma frames_pool_run {A B} (func : A -> M B) tasks order :
  (forall x, frames R (func x)) ->
  forall slots, frames R (pool_run func tasks order slots).
Proof using R_refl R_trans.
  intros Hf. induction order as [|i order IH]; intros slots; simpl.
  - now apply frames_ret.
  - destruct (tasks !! i); [|apply IH].
    apply frames_bind; [exact R_trans|apply Hf|]. intros y. apply IH.
Qed.

Lemma frames_pool_map {A B} (func : A -> M B) tasks :
  (forall x, frames R (func x)) -> frames R (pool_map func tasks).
Proof using R_refl R_trans.
  intros Hf. unfold pool_map.
  apply frames_bind; [exact R_trans|now apply frames_get|]. intros w.
  apply frames_bind; [exact R_trans|now apply frames_pool_run|].
  intros slots. destruct (collect slots);
    [now apply frames_ret|now apply frames_raise].
Qed.

(** running the workers and going through what [map_workers] returned *)
Lemma frames_map_workers_iterate {A B C} (func : A -> M B) tasks multithread
    (k : list B * results A B -> M C) :
  (forall x, frames R (func x)) ->
  (forall it, frames R (k it)) ->
  frames R (results <- map_workers func tasks multithread ;;
            it <- iterate results ;; k it).
Proof using R_refl R_trans R_processes.
  intros Hf Hk w. unfold map_workers.
  unfold bind at 1. unfold bind at 1. cbn [get].
  destruct (_ =? 1).
  - cbn [ret iterate].
    apply (frames_bind R R_trans
             (l <- map_M func tasks ;; ret (l, map_object func [])) k).
    + apply frames_bind; [exact R_trans|now apply frames_map_M|].
      intros l. now apply frames_ret.
    + exact Hk.
  - destruct (_ <? 1); [apply R_refl|].
    destruct multithread.
    + unfold bind at 1.
      pose proof (frames_pool_map func tasks Hf w) as Hp.
      destruct (pool_map func tasks w) as [[l|e] w1]; cbn [snd] in Hp;
        [|exact Hp].
      cbn [ret iterate]. unfold bind at 1. cbn [ret].
      eapply R_trans; [exact Hp|apply Hk].
    + unfold bind at 1.
      pose proof (R_processes _ (pool_map func tasks) w) as Hp.
      destruct (in_processes (pool_map func tasks) w) as [[l|e] w1];
        cbn [snd] in Hp; [|exact Hp].
      cbn [ret iterate]. unfold bind at 1. cbn [ret].
      eapply R_trans; [exact Hp|apply Hk].
Qed.
End FramesOfPools.

Lemma keeps_objects_processes {B} (m : M B) w :
  keeps_objects w (snd (in_processes m w)).
Proof.
  unfold in_processes. destruct (m (init_pool w)) as [r w1]. cbn.
  repeat split.
Qed.

Ltac keeps_step :=
  match goal with
  | |- frames _ (ret _) => apply frames_ret, keeps_objects_refl
  | |- frames _ (raise _) => apply frames_raise, keeps_objects_refl
  | |- frames _ (lift _) => apply frames_lift, keeps_objects_refl
  | |- frames _ get => apply frames_get, keeps_objects_refl
  | |- frames _ (modify (set_fs _)) =>
      apply frames_modify; intros ?; repeat split
  | |- frames _ (bind (map_workers _ _ _) _) =>
      apply (frames_map_workers_iterate _ keeps_objects_refl
               keeps_objects_trans (@keeps_objects_processes));
      [intros ?|intros ?]
  | |- frames _ (bind _ _) =>
      apply (frames_bind _ keeps_objects_trans); [|intros ?]
  | |- frames _ (map_M _ _) =>
      apply (frames_map_M _ _ _ keeps_objects_refl keeps_objects_trans);
      intros ?
  | |- frames _ (match ?x with _ => _ end) => destruct x
  | |- frames _ (let _ := _ in _) => cbv zeta
  end.

Ltac keeps := repeat keeps_step.

Lemma keeps_objects_read_file p : frames keeps_objects (read_file p).
Proof. unfold read_file. keeps. Qed.

Lemma keeps_objects_sum_sizes paths : frames keeps_objects (sum_sizes paths).
Proof. unfold sum_sizes, stat_size. keeps. apply keeps_objects_read_file. Qed.

Lemma keeps_objects_worker source options savedir :
  frames keeps_objects (convert_page_worker source options savedir).
Proof.
  eapply frames_weaken; [|apply frames_convert_page_worker].
  apply conversion_keeps_objects.
Qed.

Lemma keeps_objects_item r : frames keeps_objects (item r).
Proof. unfold item. keeps. Qed.

Lemma keeps_objects_compute_single_fmt sample_pages cachedir options0 f :
  frames keeps_objects (compute_single_fmt sample_pages cachedir options0 f).
Proof.
  unfold compute_single_fmt, mkdir. keeps;
    first [apply keeps_objects_worker | apply keeps_objects_item
          | apply keeps_objects_sum_sizes].
Qed.

Lemma keeps_objects_compute_fmt_sizes self :
  frames keeps_objects (compute_fmt_sizes self).
Proof.
  unfold compute_fmt_sizes. keeps;
    first [ apply keeps_objects_compute_single_fmt
          | apply keeps_objects_sum_sizes
          | eapply frames_weaken;
              [apply only_fs_keeps_objects | apply only_fs_extract]
          | eapply frames_weaken;
              [apply (conversion_keeps_objects 0) | apply frames_fmt]
          | eapply frames_weaken;
              [apply unchanged_keeps_objects | apply unchanged_get_self] ].
Qed.

(** [compute_fmt_sizes] works on the files only: whether it returns or
    raises, the archive objects (index, chapter lengths, bad files) and
    the configuration are as before.  When it returns, the report is the
    row of the source followed by one row for every allowed page format,
    under that format's description and name. *)
Theorem compute_fmt_sizes_one_row_per_format (self : nat) (w : world) :
  let run := compute_fmt_sizes self w in
  heap (snd run) = heap w /\ cfg (snd run) = cfg w /\
  forall report, fst run = Ok report ->
    exists source_fsize rows,
      report = source_fsize :: rows /\
      Permutation
        (map (fun r => (desc_of r, fmt_of r)) rows)
        (map (fun f => (fmt_desc (env w) f, fmt_name (env w) f))
           (allowed_page_formats (cfg w))).
Proof.
  intros run.
  destruct (keeps_objects_compute_fmt_sizes self w) as (Hh & Hc & _).
  split; [exact Hh|]. split; [exact Hc|].
  intros report Hrun. unfold run in Hrun.
  destruct (compute_fmt_sizes self w) as [r w'] eqn:H. cbn [fst] in Hrun.
  subst r. unfold compute_fmt_sizes in H.
  unfold bind at 1 in H. cbn [get] in H.
  apply bind_Ok_inv in H as (source_pages & w1 & Hex & H).
  pose proof (only_fs_keeps_objects _ _ (only_fs_extract self (samples_count (cfg w)) w)) as K1.
  rewrite Hex in K1. cbn [snd] in K1.
  apply bind_Ok_inv in H as (nbytes & w2 & Hsum & H).
  pose proof (keeps_objects_sum_sizes (map fp source_pages) w1) as K2.
  rewrite Hsum in K2. cbn [snd] in K2.
  destruct source_pages as [|first rest]; [discriminate|].
  apply bind_Ok_inv in H as (sf & w3 & Hfmt & H).
  pose proof (frames_weaken _ _ _ (conversion_keeps_objects 0)
                (frames_fmt 0 first) w2) as K3.
  rewrite Hfmt in K3. cbn [snd] in K3.
  apply bind_Ok_inv in H as (a & w4 & Ha & H).
  apply get_self_Ok in Ha as [_ ->].
  apply bind_Ok_inv in H as (results & w5 & Hmap & H).
  apply bind_Ok_inv in H as (it & w6 & Hit & H).
  apply lift_Ok_inv in H as [Hrank _].
  assert (K : keeps_objects w w3)
    by (eapply keeps_objects_trans; [|exact K3];
        eapply keeps_objects_trans; [exact K1|exact K2]).
  destruct (map_workers_threads_related
              (compute_single_fmt (first :: rest) (_cachedir a) (_page_opt a))
              (allowed_page_formats (cfg w)) keeps_objects
              (fun f (row : fsize) =>
                 (desc_of row, fmt_of row) =
                 (fmt_desc (env w) f, fmt_name (env w) f))
              w keeps_objects_trans
              (keeps_objects_compute_single_fmt _ _ _))
    with (w := w3) (results := results) (w1 := w5) (it := it) (w2 := w6)
    as [HF _].
  - intros f wa row wb Ka Hrow. unfold compute_single_fmt in Hrow.
    unfold bind at 1 in Hrow. cbn [get] in Hrow.
    apply bind_Ok_inv in Hrow as (u & wc & _ & Hrow).
    apply bind_Ok_inv in Hrow as (res & wd & _ & Hrow).
    apply bind_Ok_inv in Hrow as (it' & we & _ & Hrow).
    apply bind_Ok_inv in Hrow as (items & wf & _ & Hrow).
    apply bind_Ok_inv in Hrow as (nb & wg & _ & Hrow).
    injection Hrow as <- _.
    destruct Ka as (_ & _ & ->). reflexivity.
  - exact K.
  - exact Hmap.
  - exact Hit.
  - unfold rank_fmt_sizes in Hrank.
    destruct (sorted_spec fsize_lt fsize_key fsize_lt_key (fst it))
      as (ranked & Hs & Hp & _).
    rewrite Hs, list_insert_0 in Hrank. injection Hrank as <-.
    eexists. exists ranked. split; [reflexivity|].
    rewrite <- Hp.
    clear - HF. induction HF as [|f row fs rows Hrow _ IH]; [constructor|].
    cbn [map]. rewrite Hrow. now constructor.
Qed.

Lemma compute_fmt_sizes_one_row_per_format_witness :
  exists source_fsize rows,
    fst (compute_fmt_sizes 0 Sample.w0) = Ok (source_fsize :: rows) /\
    Permutation (map (fun r => (desc_of r, fmt_of r)) rows)
      [("WebP", "webp"); ("WebP Lossless", "webpll"); ("JPEG", "jpeg")].
Proof.
  destruct (compute_fmt_sizes_one_row_per_format 0 Sample.w0) as (_ & _ & H).
  destruct (H _ compute_fmt_sizes_sample_report)
    as (source_fsize & rows & E & Hp).
  exists source_fsize, rows. split; [|exact Hp].
  rewrite compute_fmt_sizes_sample_report. f_equal. exact E.
Defined.

(** the sample world with no page format allowed *)
Definition no_formats (w : world) : world :=
  mkWorld (fs w) (LossyFmt_quality w) (ctrl_c_entered w) (sigint w)
    (default_sigint_handler w)
    (mkConfig (ignore_page_err (cfg w)) (samples_count (cfg w))
       (processes (cfg w)) (compress_zip (cfg w)) (ZIPCOMMENT (cfg w)) [])
    (env w) (heap w).

(** [map_workers] on no task at all: the pool size is [min(0, pcount())],
    so a pool of no process is asked for and the pool constructor raises
    its [ValueError]; there is no empty result.  So [compute_fmt_sizes]
    never returns when no page format is allowed. *)
Theorem map_workers_no_tasks :
  (forall (A B : Type) (func : A -> M B) (multithread : bool) (w : world),
     map_workers func [] multithread w =
     (Raise (ValueError "Number of processes must be at least 1"), w)) /\
  (forall (self : nat) (w : world),
     allowed_page_formats (cfg w) = [] ->
     forall report, fst (compute_fmt_sizes self w) <> Ok report).
Proof.
  split; [intros A B; apply map_workers_nil|].
  intros self w Hnone report Hrun.
  destruct (compute_fmt_sizes self w) as [r w'] eqn:H. cbn [fst] in Hrun.
  subst r. unfold compute_fmt_sizes in H.
  unfold bind at 1 in H. cbn [get] in H.
  apply bind_Ok_inv in H as (source_pages & w1 & _ & H).
  apply bind_Ok_inv in H as (nbytes & w2 & _ & H).
  destruct source_pages as [|first rest]; [discriminate|].
  apply bind_Ok_inv in H as (sf & w3 & _ & H).
  apply bind_Ok_inv in H as (a & w4 & _ & H).
  apply bind_Ok_inv in H as (results & w5 & Hmap & _).
  rewrite Hnone, map_workers_nil in Hmap. discriminate.
Qed.

Lemma map_workers_no_tasks_witness :
  fst (compute_fmt_sizes 0 (no_formats Sample.w0)) <> Ok [].
Proof.
  exact (proj2 map_workers_no_tasks 0%nat (no_formats Sample.w0) eq_refl []).
Defined.

(* ===================================================================== *)
(** ** [convert_pages] with a pool                                        *)
(* ===================================================================== *)

Lemma map_M_item_values l w items w' :
  map_M item l w = (Ok items, w') -> l = map Value items.
Proof.
  revert w items w'. induction l as [|x l IH]; simpl; intros w items w' H.
  - now injection H as <- _.
  - apply bind_Ok_inv in H as (y & w1 & Hy & H).
    destruct x; [|discriminate]. injection Hy as <- <-.
    apply bind_Ok_inv in H as (r & w2 & Hr & H).
    injection H as <- _. simpl. f_equal. eapply IH. exact Hr.
Qed.


(* ===================================================================== *)
(** ** A written book, extracted again                                     *)
(* ===================================================================== *)

(** a part of a path as [write_zip] and [extract] leave it, and as
    [human_sort] can sort it: not empty, not ["."] or [".."], without
    separator and without superscript digit *)
Definition clean_part (x : string) : bool :=
  is_member_part x && no_sep x && no_superscript x.

Lemma clean_part_member x : clean_part x = true -> is_member_part x = true.
Proof. now intros [[H _]%andb_prop _]%andb_prop. Qed.

Lemma clean_part_no_sep x : clean_part x = true -> no_sep x = true.
Proof. now intros [[_ H]%andb_prop _]%andb_prop. Qed.

Lemma clean_part_no_superscript x :
  clean_part x = true -> no_superscript x = true.
Proof. now intros [_ H]%andb_prop. Qed.

Lemma split_sep_app a : forall cur s,
  no_sep a = true -> split_sep cur (a +:+ s) = split_sep (cur +:+ a) s.
Proof.
  induction a as [|c a IH]; intros cur s; simpl.
  - now rewrite append_nil_r.
  - intros [Hc Ha]%andb_prop. apply negb_true_iff in Hc. rewrite Hc.
    rewrite IH by assumption. now rewrite append_assoc.
Qed.

Lemma split_sep_join_parts (r : path) : forall cur,
  r <> [] -> Forall (fun x => clean_part x = true) r ->
  split_sep cur (join_parts r) =
  match r with
  | a :: r' => (cur +:+ a) :: r'
  | [] => []
  end.
Proof.
  induction r as [|a r IH]; intros cur Hne Hc; [contradiction|].
  inversion Hc as [|? ? Ha Hr]; subst.
  apply clean_part_no_sep in Ha as Hsep.
  destruct r as [|b r'].
  - simpl. now apply split_sep_no_sep.
  - change (join_parts (a :: b :: r'))
      with (a +:+ "/" +:+ join_parts (b :: r')).
    rewrite split_sep_app by assumption.
    change ("/" +:+ join_parts (b :: r'))
      with (String "/" (join_parts (b :: r'))).
    cbn [split_sep is_sep Ascii.eqb Bool.eqb]. f_equal.
    rewrite IH by (assumption || discriminate). reflexivity.
Qed.

Lemma clean_part_not_root x : clean_part x = true -> String.eqb x "/" = false.
Proof.
  intros Hs%clean_part_no_sep. apply String.eqb_neq. intros ->. discriminate.
Qed.

Lemma filter_all {A} (f : A -> bool) (l : list A) :
  Forall (fun x => f x = true) l -> List.filter f l = l.
Proof. induction 1 as [|x l Hx _ IH]; simpl; [reflexivity|]. now rewrite Hx, IH. Qed.

(** the name of a member, split again, is the relative path *)
Lemma member_parts_path_str (r : path) :
  r <> [] -> Forall (fun x => clean_part x = true) r ->
  List.filter is_member_part (split_sep "" (path_str r)) = r.
Proof.
  intros Hne Hc. destruct r as [|a r']; [contradiction|].
  inversion Hc as [|? ? Ha Hr]; subst.
  unfold path_str. rewrite (clean_part_not_root _ Ha).
  rewrite split_sep_join_parts by (assumption || discriminate).
  change ("" +:+ a) with a. apply filter_all.
  eapply List.Forall_impl; [|exact Hc]. apply clean_part_member.
Qed.

Lemma path_str_inj (r r' : path) :
  r <> [] -> Forall (fun x => clean_part x = true) r ->
  r' <> [] -> Forall (fun x => clean_part x = true) r' ->
  path_str r = path_str r' -> r = r'.
Proof.
  intros H1 H2 H3 H4 E.
  rewrite <- (member_parts_path_str r), <- (member_parts_path_str r') by assumption.
  now rewrite E.
Qed.

(** an absolute path of clean parts is read back from its string *)
Lemma Path_path_str (parts : path) :
  Forall (fun x => clean_part x = true) parts ->
  Path (path_str ("/" :: parts)) = "/" :: parts.
Proof.
  intros Hc.
  change (path_str ("/" :: parts)) with (String "/" (join_parts parts)).
  unfold Path.
  change (starts_with_sep (String "/" (join_parts parts))) with true.
  change (split_sep "" (String "/" (join_parts parts)))
    with ("" :: split_sep "" (join_parts parts)).
  change (List.filter is_part ("" :: split_sep "" (join_parts parts)))
    with (List.filter is_part (split_sep "" (join_parts parts))).
  f_equal. destruct parts as [|a r'].
  - reflexivity.
  - rewrite split_sep_join_parts by (assumption || discriminate).
    change ("" +:+ a) with a. apply filter_all.
    eapply List.Forall_impl; [|exact Hc].
    intros x [H _]%clean_part_member%andb_prop. exact H.
Qed.

Lemma is_dir_member_cons c s :
  s <> "" -> is_dir_member (String c s) = is_dir_member s.
Proof.
  intros Hs. unfold is_dir_member. destruct s as [|c' s']; [contradiction|].
  cbn [String.length]. rewrite !Nat.sub_succ, !Nat.sub_0_r. reflexivity.
Qed.

Lemma is_dir_member_no_sep a :
  no_sep a = true -> is_dir_member a = false.
Proof.
  induction a as [|c a IH]; [reflexivity|]. simpl. intros [Hc Ha]%andb_prop.
  destruct a as [|c' a'].
  - unfold is_dir_member. simpl. now apply negb_true_iff.
  - rewrite is_dir_member_cons by discriminate. now apply IH.
Qed.

Lemma is_dir_member_app pre a :
  a <> "" -> no_sep a = true -> is_dir_member (pre +:+ a) = false.
Proof.
  intros Ha Hs. induction pre as [|c pre IH]; [now apply is_dir_member_no_sep|].
  change (String c pre +:+ a) with (String c (pre +:+ a)).
  rewrite is_dir_member_cons; [exact IH|].
  destruct pre; [exact Ha|discriminate].
Qed.

Lemma clean_part_nonempty x : clean_part x = true -> x <> "".
Proof.
  intros [[H _]%andb_prop _]%clean_part_member%andb_prop ->. discriminate.
Qed.

Lemma is_dir_member_join (r : path) : forall pre,
  r <> [] -> Forall (fun x => clean_part x = true) r ->
  is_dir_member (pre +:+ join_parts r) = false.
Proof.
  induction r as [|a r IH]; intros pre Hne Hc; [contradiction|].
  inversion Hc as [|? ? Ha Hr]; subst.
  destruct r as [|b r'].
  - apply is_dir_member_app; [now apply clean_part_nonempty|].
    now apply clean_part_no_sep in Ha.
  - change (join_parts (a :: b :: r'))
      with (a +:+ "/" +:+ join_parts (b :: r')).
    rewrite <- !append_assoc. apply IH; [discriminate|assumption].
Qed.

Lemma is_dir_member_path_str (r : path) :
  r <> [] -> Forall (fun x => clean_part x = true) r ->
  is_dir_member (path_str r) = false.
Proof.
  intros Hne Hc. destruct r as [|a r']; [contradiction|].
  inversion Hc as [|? ? Ha Hr]; subst.
  unfold path_str. rewrite (clean_part_not_root _ Ha).
  apply (is_dir_member_join (a :: r') "" Hne Hc).
Qed.

Lemma for_each_app {A} (l1 l2 : list A) body w w1 :
  for_each l1 body w = (Ok tt, w1) ->
  for_each (l1 ++ l2) body w = for_each l2 body w1.
Proof.
  revert w. induction l1 as [|x l1 IH]; simpl; intros w H.
  - now injection H as <-.
  - apply bind_Ok_inv in H as ([] & w2 & Hx & H).
    rewrite (bind_Ok _ _ _ _ _ Hx). now apply IH.
Qed.

Lemma set_fs_id w : set_fs (fs w) w = w.
Proof. now destruct w. Qed.

(** [makedirs] creates the missing directories above and at [p], and
    touches nothing else, when none of them is a file *)
Lemma makedirs_ancestors (p : path) (w : world) : forall k,
  (k <= len p)%nat ->
  (forall j f, (1 <= j <= k)%nat ->
     fs w !! (firstn j p : path) <> Some (NFile f)) ->
  exists f',
    for_each (ancestors p k) (fun d =>
      w <- get ;;
      if exists_in (fs w) d then
        (if is_dir_in (fs w) d then ret tt else raise IOError)
      else modify (set_fs (<[d := NDir]> (fs w)))) w = (Ok tt, set_fs f' w) /\
    (forall q : path, f' !! q = fs w !! q \/
               (fs w !! q = None /\ f' !! q = Some NDir /\
                exists j, (1 <= j <= k)%nat /\ q = firstn j p)) /\
    (forall j, (1 <= j <= k)%nat -> is_dir_in f' (firstn j p) = true).
Proof.
  induction k as [|k IH]; intros Hk Hfile.
  - exists (fs w). cbn [ancestors for_each]. rewrite set_fs_id.
    split; [reflexivity|]. split; [auto|]. intros j Hj. lia.
  - destruct IH as (f1 & Hrun & Hlook & Hdirs); [lia| |].
    { intros j f Hj. apply Hfile. lia. }
    cbn [ancestors]. rewrite (for_each_app _ _ _ _ _ Hrun).
    set (d := firstn (S k) p : path).
    assert (Hlen : forall j, (1 <= j <= k)%nat -> firstn j p <> d).
    { intros j Hj E. apply (f_equal len) in E. unfold d in E.
      rewrite !length_firstn in E. lia. }
    cbn [for_each]. unfold bind at 1. unfold bind at 1. cbn [get fs set_fs].
    destruct (exists_in f1 d) eqn:Ex.
    + assert (Hd : is_dir_in f1 d = true).
      { unfold exists_in in Ex. unfold is_dir_in.
        destruct (is_root d); [reflexivity|]. cbn [orb] in Ex |- *.
        apply bool_decide_eq_true in Ex. destruct Ex as [n Ex].
        rewrite Ex. destruct n as [f|]; [|reflexivity].
        exfalso. destruct (Hlook d) as [Hq|(_ & Hq & _)]; [|congruence].
        apply (Hfile (S k) f); [lia|]. fold d. congruence. }
      rewrite Hd. cbn [ret]. exists f1.
      split; [reflexivity|]. split.
      * intros q. destruct (Hlook q) as [Hq|(H1 & H2 & j & Hj & Hq)];
          [now left|right].
        split; [exact H1|]. split; [exact H2|]. exists j. split; [lia|exact Hq].
      * intros j Hj. destruct (decide (j = S k)) as [->|Hne]; [exact Hd|].
        apply Hdirs. lia.
    + cbn [modify ret]. exists (<[d := NDir]> f1).
      split; [reflexivity|].
      assert (Hnone : f1 !! d = None).
      { unfold exists_in in Ex. apply orb_false_elim in Ex as [_ Ex].
        apply bool_decide_eq_false in Ex.
        destruct (f1 !! d); [|reflexivity]. exfalso. apply Ex. eauto. }
      split.
      * intros q. destruct (decide (q = d)) as [->|Hne].
        -- right. rewrite lookup_insert_eq.
           destruct (Hlook d) as [Hq|(_ & Hq & _)]; [|congruence].
           split; [congruence|]. split; [reflexivity|].
           exists (S k). split; [lia|reflexivity].
        -- rewrite lookup_insert_ne by congruence.
           destruct (Hlook q) as [Hq|(H1 & H2 & j & Hj & Hq)];
             [now left|right].
           split; [exact H1|]. split; [exact H2|].
           exists j. split; [lia|exact Hq].
      * intros j Hj. unfold is_dir_in.
        destruct (decide (j = S k)) as [->|Hne].
        -- fold d. rewrite lookup_insert_eq. apply orb_true_r.
        -- rewrite lookup_insert_ne by (apply not_eq_sym, Hlen; lia).
           apply Hdirs. lia.
Qed.

Lemma is_under_app (d r : path) : r <> [] -> is_under d (d ++ r) = true.
Proof.
  intros Hr. induction d as [|x d IH]; simpl.
  - destruct r; [contradiction|reflexivity].
  - now rewrite String.eqb_refl.
Qed.

Lemma is_under_inv (d : path) : forall q : path,
  is_under d q = true -> exists r, r <> [] /\ q = d ++ r.
Proof.
  induction d as [|x d IH]; intros [|a q] H; try discriminate.
  - exists (a :: q). split; [discriminate|reflexivity].
  - simpl in H. apply andb_prop in H as [Ha Hq].
    apply String.eqb_eq in Ha. subst a.
    destruct (IH q Hq) as (r & Hr & ->). exists r. auto.
Qed.

Lemma getinfo_absent members name :
  ~ In name (map (fun m : string * file * bool => fst (fst m)) members) ->
  getinfo members name = None.
Proof.
  induction members as [|[[n f] c] members IH]; [reflexivity|].
  simpl. intros H. rewrite IH by tauto.
  destruct (String.eqb n name) eqn:E; [|reflexivity].
  apply String.eqb_eq in E. tauto.
Qed.

Lemma getinfo_unique members n f c :
  List.NoDup (map (fun m : string * file * bool => fst (fst m)) members) ->
  In (n, f, c) members -> getinfo members n = Some f.
Proof.
  induction members as [|[[n' f'] c'] members IH]; [contradiction|].
  simpl. intros Hnd [E|Hin].
  - injection E as -> -> ->. inversion Hnd as [|? ? Hnot _]; subst.
    rewrite (getinfo_absent _ _ Hnot). now rewrite String.eqb_refl.
  - inversion Hnd as [|? ? _ Hnd']; subst. now rewrite IH.
Qed.

Section Unpack.
Context (d : path) (members : list (string * file * bool)).
Hypothesis d_nonempty : d <> [].

(** the cache directory while the members are unpacked: no directory on
    the way to it is a file, the files below it are the members unpacked
    so far, and the directories below it lead to them *)
Definition unpacked (f : gmap path node) (done : list (path * file)) : Prop :=
  (forall k g, (k <= len d)%nat -> f !! (firstn k d : path) <> Some (NFile g)) /\
  (forall (q : path) g, is_under d q = true -> f !! q = Some (NFile g) ->
     exists r, In (r, g) done /\ q = d ++ r) /\
  (forall q : path, is_under d q = true -> f !! q = Some NDir ->
     exists r g j, In (r, g) done /\ (j < len r)%nat /\ q = d ++ firstn j r) /\
  (forall r g, In (r, g) done -> f !! (d ++ r : path) = Some (NFile g)).

Lemma zip_extract_step (w : world) (done : list (path * file))
    (r : path) (g : file) :
  unpacked (fs w) done ->
  r <> [] -> Forall (fun x => clean_part x = true) r ->
  getinfo members (path_str r) = Some g ->
  (forall r' g', In (r', g') done ->
     r' <> r /\
     (forall j, (j < len r)%nat -> r' <> firstn j r) /\
     (forall j, (j < len r')%nat -> r <> firstn j r')) ->
  exists f',
    zip_extract members (path_str r) d w = (Ok tt, set_fs f' w) /\
    unpacked f' ((r, g) :: done).
Proof using d_nonempty.
  intros (HD & HF & HN & HG) Hne Hclean Hget Hfree.
  unfold zip_extract. rewrite Hget.
  rewrite (member_parts_path_str r Hne Hclean).
  rewrite (is_dir_member_path_str r Hne Hclean).
  set (t := d ++ r : path).
  assert (Hparent : parent t = d ++ removelast r).
  { unfold parent, t. now apply removelast_app. }
  set (p := d ++ removelast r : path) in *.
  assert (Hlr : len (removelast r) = (len r - 1)%nat).
  { rewrite removelast_firstn_len, length_firstn.
    destruct r; [contradiction|simpl]. lia. }
  assert (Hrl : removelast r = firstn (len r - 1) r)
    by (rewrite removelast_firstn_len; destruct r; [contradiction|]; simpl;
        now rewrite Nat.sub_0_r).
  assert (Hlenr : (1 <= len r)%nat) by (destruct r; [contradiction|simpl; lia]).
  assert (Hlend : (1 <= len d)%nat) by (destruct d; [contradiction|simpl; lia]).
  assert (Hlp : len p = (len d + len r - 1)%nat)
    by (unfold p; rewrite length_app, Hlr; lia).
  (* the ancestors of the target *)
  assert (Hanc : forall j, (1 <= j <= len p)%nat ->
            ((j <= len d)%nat /\ firstn j p = firstn j d) \/
            (exists i, (1 <= i < len r)%nat /\ firstn j p = d ++ firstn i r)).
  { intros j Hj. unfold p. rewrite firstn_app.
    destruct (Nat.le_gt_cases j (len d)) as [Hle|Hgt].
    - left. split; [exact Hle|].
      replace (j - len d)%nat with 0%nat by lia. cbn [firstn].
      now rewrite app_nil_r.
    - right. exists (j - len d)%nat. split; [lia|].
      rewrite firstn_all2 by lia. f_equal.
      rewrite Hrl, firstn_firstn. f_equal. lia. }
  destruct (makedirs_ancestors p w (len p)) as (f1 & Hmk & Hlook & Hdirs);
    [lia| |].
  { intros j g0 Hj E.
    destruct (Hanc j Hj) as [[Hle Ep]|(i & Hi & Ep)]; rewrite Ep in E.
    - exact (HD j g0 Hle E).
    - destruct (HF (d ++ firstn i r) g0) as (r' & Hin & Er');
        [apply is_under_app; destruct r; [contradiction|];
         destruct i; [lia|discriminate]|exact E|].
      apply app_inv_head in Er'.
      destruct (Hfree r' g0 Hin) as (_ & Hp & _).
      apply (Hp i); [lia|congruence]. }
  assert (Hmk' : makedirs (parent t) w = (Ok tt, set_fs f1 w)).
  { rewrite Hparent. fold p. unfold makedirs. exact Hmk. }
  rewrite (bind_Ok _ _ _ _ _ Hmk').
  assert (Ht_len : forall j, (j <= len p)%nat -> firstn j p <> t).
  { intros j Hj E. apply (f_equal len) in E.
    unfold t in E. rewrite length_firstn, length_app in E. lia. }
  assert (Ht1 : f1 !! t = fs w !! t).
  { destruct (Hlook t) as [E|(_ & _ & j & Hj & E)]; [exact E|].
    exfalso. apply (Ht_len j); [lia|now symmetry]. }
  assert (Hnotdir : is_dir_in f1 t = false).
  { unfold is_dir_in.
    assert (Hroot : is_root t = false).
    { unfold t. destruct d as [|a [|b d']]; [contradiction| |reflexivity].
      destruct r; [contradiction|reflexivity]. }
    rewrite Hroot, Ht1. cbn [orb].
    destruct (fs w !! t) as [[g0|]|] eqn:E; try reflexivity.
    exfalso. destruct (HN t) as (r' & g' & j & Hin & Hj & Er');
      [apply is_under_app; exact Hne|exact E|].
    apply app_inv_head in Er'.
    destruct (Hfree r' g' Hin) as (_ & _ & Hp). now apply (Hp j). }
  assert (Hpdir : is_dir_in f1 (parent t) = true).
  { rewrite Hparent. fold p.
    rewrite <- (firstn_all p). apply Hdirs. lia. }
  exists (<[t := NFile g]> f1). split.
  { unfold write_file, bind, get, modify. cbn [fs set_fs].
    now rewrite Hpdir, Hnotdir. }
  (* the invariant *)
  assert (Hold : forall q : path, q <> t ->
            (<[t := NFile g]> f1) !! q = f1 !! q)
    by (intros q Hq; apply lookup_insert_ne; congruence).
  split; [|split; [|split]].
  - intros k g0 Hk E.
    rewrite Hold in E
      by (intros E'; apply (f_equal len) in E'; unfold t in E';
          rewrite length_firstn, length_app in E'; lia).
    destruct (Hlook (firstn k d)) as [E1|(_ & E1 & _)]; [|congruence].
    apply (HD k g0 Hk). congruence.
  - intros q g0 Hq E. destruct (decide (q = t)) as [->|Hqt].
    + rewrite lookup_insert_eq in E. injection E as <-.
      exists r. split; [now left|reflexivity].
    + rewrite Hold in E by assumption.
      destruct (Hlook q) as [E1|(_ & E1 & _)]; [|congruence].
      destruct (HF q g0 Hq) as (r' & Hin & Er'); [congruence|].
      exists r'. split; [now right|exact Er'].
  - intros q Hq E. destruct (decide (q = t)) as [->|Hqt].
    + rewrite lookup_insert_eq in E. discriminate.
    + rewrite Hold in E by assumption.
      destruct (Hlook q) as [E1|(_ & _ & j & Hj & E1)].
      * destruct (HN q Hq) as (r' & g' & i & Hin & Hi & Er'); [congruence|].
        exists r', g', i. split; [now right|auto].
      * destruct (Hanc j Hj) as [[Hle Ep]|(i & Hi & Ep)].
        -- exfalso. rewrite E1, Ep in Hq.
           destruct (is_under_inv _ _ Hq) as (x & Hx & Ex).
           apply (f_equal len) in Ex.
           rewrite length_firstn, length_app in Ex.
           destruct x; [contradiction|simpl in Ex; lia].
        -- exists r, g, i. split; [now left|]. split; [lia|congruence].
  - intros r' g' [E|Hin].
    + injection E as <- <-. apply lookup_insert_eq.
    + destruct (Hfree r' g' Hin) as (Hneq & _).
      rewrite Hold by (unfold t; intros E; apply app_inv_head in E; congruence).
      destruct (Hlook (d ++ r')) as [E1|(E1 & _)];
        rewrite (HG r' g' Hin) in *; [exact E1|discriminate].
Qed.
End Unpack.

(** no path of the list is a proper prefix of another *)
Definition prefix_free (rs : list path) : Prop :=
  forall r r', In r rs -> In r' rs ->
    forall j, (j < len r')%nat -> r <> firstn j r'.

Lemma unpack_all (d : path) (members : list (string * file * bool)) :
  d <> [] ->
  forall (todo done : list (path * file)) (w : world),
    unpacked d (fs w) done ->
    (forall r g, In (r, g) todo ->
       r <> [] /\ Forall (fun x => clean_part x = true) r /\
       getinfo members (path_str r) = Some g) ->
    List.NoDup (map fst (todo ++ done)) ->
    prefix_free (map fst (todo ++ done)) ->
    exists f',
      for_each (map (fun x : path * file => path_str (fst x)) todo)
        (fun file => zip_extract members file d) w = (Ok tt, set_fs f' w) /\
      unpacked d f' (rev todo ++ done).
Proof.
  intros Hd. induction todo as [|[r g] todo IH]; intros done w Hinv Hok Hnd Hpf.
  - exists (fs w). cbn. rewrite set_fs_id. auto.
  - destruct (Hok r g (or_introl eq_refl)) as (Hne & Hclean & Hget).
    assert (Hin_done : forall r' g', In (r', g') done ->
              In r' (map fst (todo ++ done))).
    { intros r' g' Hin. apply in_map_iff. exists (r', g').
      split; [reflexivity|]. apply in_or_app. now right. }
    cbn [app map fst] in Hnd, Hpf.
    inversion Hnd as [|? ? Hnotin Hnd']; subst.
    destruct (zip_extract_step d members Hd w done r g Hinv Hne Hclean Hget)
      as (f1 & Hstep & Hinv1).
    { intros r' g' Hin. pose proof (Hin_done _ _ Hin) as Hin'.
      split; [intros ->; contradiction|]. split.
      - intros j Hj. apply Hpf; [now right|now left|exact Hj].
      - intros j Hj. apply Hpf; [now left|now right|exact Hj]. }
    assert (Hperm : Permutation (r :: map fst (todo ++ done))
                      (map fst (todo ++ (r, g) :: done))).
    { change (r :: map fst (todo ++ done))
        with (map fst ((r, g) :: todo ++ done)).
      apply Permutation_map, Permutation_middle. }
    destruct (IH ((r, g) :: done) (set_fs f1 w)) as (f2 & Hrun & Hinv2).
    + exact Hinv1.
    + intros r' g' Hin. apply Hok. now right.
    + eapply Permutation_NoDup; [exact Hperm|exact Hnd].
    + intros a b Ha Hb.
      apply Hpf; eapply Permutation_in; try (symmetry; exact Hperm); assumption.
    + exists f2. split.
      * cbn [map for_each fst]. rewrite (bind_Ok _ _ _ _ _ Hstep).
        rewrite Hrun. reflexivity.
      * cbn [rev]. rewrite <- app_assoc. exact Hinv2.
Qed.

Lemma map_M_total {A B} (f : A -> M B) (P : A -> B -> Prop) (w : world) :
  forall l,
    (forall x, In x l -> exists y, f x w = (Ok y, w) /\ P x y) ->
    exists r, map_M f l w = (Ok r, w) /\ Forall2 P l r.
Proof.
  induction l as [|x l IH]; intros H.
  - exists []. split; [reflexivity|constructor].
  - destruct (H x (or_introl eq_refl)) as (y & Hy & HP).
    destruct IH as (r & Hr & HF); [intros z Hz; apply H; now right|].
    exists (y :: r). split; [|now constructor].
    cbn [map_M]. rewrite (bind_Ok _ _ _ _ _ Hy).
    rewrite (bind_Ok _ _ _ _ _ Hr). reflexivity.
Qed.

(** where the cache directory of a book is: a directory [book] of the
    global cache directory [g] in the temporary directory *)
Definition cache_layout (w : world) (d : path) : Prop :=
  exists tparts g book,
    gettempdir (env w) = "/" :: tparts /\
    d = gettempdir (env w) ++ [g; book] /\
    Forall (fun x => clean_part x = true) (tparts ++ [g; book]) /\
    Forall (fun part => contains (CACHE_PREFIX (env w)) part = false)
      (gettempdir (env w)) /\
    contains (CACHE_PREFIX (env w)) g = true.

(** A cache directory as [ComicArchive.__init__] makes it, with nothing
    below it yet; no directory on the way to it is a file, and the path
    [sp] is neither below it nor one of these directories. *)
Definition fresh_cache (w : world) (d sp : path) : Prop :=
  cache_layout w d /\
  (forall k f, (k <= len d)%nat ->
     fs w !! (firstn k d : path) <> Some (NFile f)) /\
  (forall q : path, is_under d q = true -> fs w !! q = None) /\
  is_under d sp = false /\
  (forall k, sp <> firstn k d).

Lemma fresh_cache_unpacked (w : world) (d sp : path) :
  fresh_cache w d sp -> unpacked d (fs w) [].
Proof.
  intros (_ & HnoFile & Hempty & _). split; [|split; [|split]].
  - exact HnoFile.
  - intros q f Hq E. rewrite (Hempty q Hq) in E. discriminate.
  - intros q Hq E. rewrite (Hempty q Hq) in E. discriminate.
  - intros r f [].
Qed.

(** the directories there are stay directories *)
Definition keeps_dirs (w w' : world) : Prop :=
  forall q : path, is_dir_in (fs w) q = true -> is_dir_in (fs w') q = true.

(** nothing changes but at the prefixes of [t] *)
Definition touches_to (t : path) (w w' : world) : Prop :=
  forall q : path, (forall j, q <> firstn j t) -> fs w' !! q = fs w !! q.

Lemma keeps_dirs_refl w : keeps_dirs w w.
Proof. intros q H. exact H. Qed.

Lemma keeps_dirs_trans a b c :
  keeps_dirs a b -> keeps_dirs b c -> keeps_dirs a c.
Proof. intros H1 H2 q H. auto. Qed.

Lemma touches_to_refl t w : touches_to t w w.
Proof. intros q H. reflexivity. Qed.

Lemma touches_to_trans t a b c :
  touches_to t a b -> touches_to t b c -> touches_to t a c.
Proof. intros H1 H2 q H. rewrite (H2 q H). now apply H1. Qed.

Lemma touches_to_prefix t j w w' :
  touches_to (firstn j t) w w' -> touches_to t w w'.
Proof.
  intros H q Hq. apply H. intros k. rewrite firstn_firstn. apply Hq.
Qed.

Lemma keeps_dirs_write_file p f : frames keeps_dirs (write_file p f).
Proof.
  intros w. unfold write_file, bind, get, modify.
  destruct (is_dir_in (fs w) (parent p)); [|apply keeps_dirs_refl].
  destruct (is_dir_in (fs w) p) eqn:Ep; [apply keeps_dirs_refl|].
  intros q Hq. cbn. unfold is_dir_in in *.
  destruct (decide (q = p)) as [->|Hne]; [congruence|].
  now rewrite lookup_insert_ne by congruence.
Qed.

Lemma touches_to_write_file p f : frames (touches_to p) (write_file p f).
Proof.
  intros w. unfold write_file, bind, get, modify.
  destruct (_ && _); [|apply touches_to_refl].
  intros q Hq. cbn. apply lookup_insert_ne.
  intros <-. apply (Hq (len p)). now rewrite firstn_all.
Qed.

Lemma keeps_dirs_makedirs p : frames keeps_dirs (makedirs p).
Proof.
  unfold makedirs.
  apply frames_for_each; [apply keeps_dirs_refl|apply keeps_dirs_trans|].
  intros d w. unfold bind, get, modify, ret.
  destruct (exists_in (fs w) d) eqn:Ex.
  - destruct (is_dir_in (fs w) d); apply keeps_dirs_refl.
  - intros q Hq. cbn. unfold is_dir_in in *.
    destruct (decide (q = d)) as [->|Hne].
    + rewrite lookup_insert_eq. apply orb_true_r.
    + now rewrite lookup_insert_ne by congruence.
Qed.

Lemma touches_to_makedirs p : frames (touches_to p) (makedirs p).
Proof.
  unfold makedirs.
  assert (H : forall k, frames (touches_to p)
            (for_each (ancestors p k) (fun d =>
               w <- get ;;
               if exists_in (fs w) d then
                 (if is_dir_in (fs w) d then ret tt else raise IOError)
               else modify (set_fs (<[d := NDir]> (fs w)))))).
  { induction k as [|k IH]; [apply frames_ret, touches_to_refl|].
    cbn [ancestors]. intros w.
    set (body := fun d : path => _).
    destruct (for_each (ancestors p k) body w) as [[[]|e] w1] eqn:E.
    - rewrite (for_each_app _ _ _ _ _ E). specialize (IH w).
      fold body in IH. rewrite E in IH. cbn [snd] in IH.
      eapply touches_to_trans; [exact IH|].
      cbn [for_each]. unfold body, bind, get, modify, ret.
      destruct (exists_in (fs w1) (firstn (S k) p)).
      + destruct (is_dir_in (fs w1) (firstn (S k) p)); apply touches_to_refl.
      + intros q Hq. cbn. apply lookup_insert_ne.
        apply not_eq_sym, Hq.
    - assert (Hr : for_each (ancestors p k ++ [firstn (S k) p]) body w =
                   (Raise e, w1)).
      { clear IH. revert w E. induction (ancestors p k) as [|x l IHl];
          intros w E; [discriminate|].
        cbn [app for_each] in *. unfold bind at 1 in E. unfold bind at 1.
        destruct (body x w) as [[[]|e'] w2]; [|exact E].
        now apply IHl. }
      rewrite Hr. cbn [snd]. specialize (IH w). fold body in IH.
      now rewrite E in IH. }
  apply H.
Qed.

Lemma parent_firstn (t : path) : parent t = firstn (len t - 1) t.
Proof.
  unfold parent. destruct t as [|x t]; [reflexivity|].
  rewrite removelast_firstn_len. f_equal. simpl. lia.
Qed.

(** [extract] of a member touches the cache directory and what is below
    it, and the directories on the way to it *)
Lemma zip_extract_frames members name d :
  frames keeps_dirs (zip_extract members name d) /\
  frames (fun w w' => forall q : path,
            is_under d q = false -> (forall k, q <> firstn k d) ->
            fs w' !! q = fs w !! q)
    (zip_extract members name d).
Proof.
  unfold zip_extract. destruct (getinfo members name) as [f|].
  2: { split; intros w; [apply keeps_dirs_refl|reflexivity]. }
  set (t := d ++ _).
  assert (Hk : frames keeps_dirs
                 (if is_dir_member name then makedirs t
                  else makedirs (parent t) ;;; write_file t f)).
  { destruct (is_dir_member name); [apply keeps_dirs_makedirs|].
    apply frames_bind; [apply keeps_dirs_trans|apply keeps_dirs_makedirs|].
    intros _. apply keeps_dirs_write_file. }
  assert (Ht : frames (touches_to t)
                 (if is_dir_member name then makedirs t
                  else makedirs (parent t) ;;; write_file t f)).
  { destruct (is_dir_member name); [apply touches_to_makedirs|].
    apply frames_bind; [apply touches_to_trans| |].
    - eapply frames_weaken; [|apply touches_to_makedirs].
      intros w w'. rewrite parent_firstn. apply touches_to_prefix.
    - intros _. apply touches_to_write_file. }
  split; [exact Hk|].
  eapply frames_weaken; [|exact Ht].
  intros w w' H q Hu Hp. apply H. intros j E.
  unfold t in E. rewrite firstn_app in E.
  destruct (Nat.le_gt_cases j (len d)) as [Hle|Hgt].
  - replace (j - len d)%nat with 0%nat in E by lia.
    cbn [firstn] in E. rewrite app_nil_r in E. exact (Hp j E).
  - rewrite firstn_all2 in E by lia.
    destruct (firstn (j - len d) _) as [|x l] eqn:El.
    + rewrite app_nil_r in E. apply (Hp (len d)). now rewrite firstn_all.
    + rewrite E, is_under_app in Hu by discriminate. discriminate.
Qed.

(** different clean relative paths have different member names *)
Lemma clean_names_NoDup (L : list (path * file)) :
  (forall r f, In (r, f) L ->
     r <> [] /\ Forall (fun x => clean_part x = true) r) ->
  List.NoDup (map fst L) ->
  List.NoDup (map (fun x : path * file => path_str (fst x)) L).
Proof.
  induction L as [|[r f] L IH]; intros Hc Hnd; [constructor|].
  cbn [map fst] in *. inversion Hnd as [|? ? Hnotin Hnd']; subst.
  constructor; [|apply IH; [intros r' f' Hin; apply (Hc r' f'); now right|
                            exact Hnd']].
  intros Hin. apply in_map_iff in Hin as ([r' f'] & E & Hin'). cbn [fst] in E.
  destruct (Hc r f (or_introl eq_refl)) as [H1 H2].
  destruct (Hc r' f' (or_intror Hin')) as [H3 H4].
  apply path_str_inj in E; try assumption. subst r'.
  apply Hnotin. apply in_map_iff. exists (r, f'). auto.
Qed.

Lemma select_members_all (compressed_files : list string) :
  select_members compressed_files 0 = Ok compressed_files.
Proof. reflexivity. Qed.

(** the text of a path of clean parts has no superscript digit, and can
    be sorted *)
Lemma join_parts_no_superscript (p : path) :
  Forall (fun x => no_superscript x = true) p ->
  no_superscript (join_parts p) = true.
Proof.
  induction 1 as [|x p Hx _ IH]; [reflexivity|].
  destruct p as [|y p]; [exact Hx|].
  change (join_parts (x :: y :: p)) with (x +:+ "/" +:+ join_parts (y :: p)).
  rewrite !no_superscript_app, Hx, IH. reflexivity.
Qed.

Lemma path_str_sortable (p : path) :
  Forall (fun x => no_superscript x = true) p -> sortable (path_str p) = true.
Proof.
  intros H. apply no_superscript_sortable. destruct p as [|a p]; [reflexivity|].
  cbn [path_str]. destruct (String.eqb a "/").
  - inversion H; subst.
    rewrite no_superscript_app, join_parts_no_superscript by assumption.
    reflexivity.
  - now apply join_parts_no_superscript.
Qed.

(** Unpacking members that are files under clean relative paths, into a
    cache directory that is ready for them: [extract] returns one page
    for every member it selects, at the member's relative path below the
    cache directory and with the member's content. *)
Lemma extract_unpacks (self : nat) (count : Z) (w : world) (a : Archive)
    (L : list (path * file)) (members : list (string * file * bool))
    (comment : string) :
  heap w !! self = Some a ->
  fs w !! a_fp a = Some (NFile (FZip members comment)) ->
  select_members (map (fun m : string * file * bool => fst (fst m)) members)
    count = Ok (map (fun x : path * file => path_str (fst x)) L) ->
  (forall r f, In (r, f) L -> getinfo members (path_str r) = Some f) ->
  (1 <= len members)%nat ->
  L <> [] ->
  (forall r f, In (r, f) L ->
     r <> [] /\ Forall (fun x => clean_part x = true) r) ->
  List.NoDup (map fst L) ->
  prefix_free (map fst L) ->
  cache_layout w (_cachedir a) ->
  unpacked (_cachedir a) (fs w) [] ->
  (forall l, Permutation (listing (env w) l) l) ->
  exists out f',
    extract self count w = (Ok out, set_fs f' w) /\
    Forall (fun pg : Page =>
              exists r f, In (r, f) L /\ fp pg = _cachedir a ++ r /\
                          rel_path pg = r /\
                          f' !! fp pg = Some (NFile f)) out /\
    Permutation
      (map (fun pg : Page => (rel_path pg, f' !! fp pg)) out)
      (map (fun x : path * file => (fst x, Some (NFile (snd x)))) L) /\
    keeps_dirs w (set_fs f' w) /\
    (forall q : path, is_under (_cachedir a) q = false ->
       (forall k, q <> firstn k (_cachedir a)) -> f' !! q = fs w !! q) /\
    (forall (q : path) f, is_under (_cachedir a) q = true ->
       f' !! q = Some (NFile f) ->
       exists r, In (r, f) L /\ q = _cachedir a ++ r).
Proof.
  intros Hself Hzip Hnames Hget Hmembers HLne HLclean Hdistinct Hfree Hlayout
         Hinv0 Hlist.
  destruct Hlayout as (tparts & g & book & Htmp & Hd & Hdclean & Hnopre & Hg).
  set (d := _cachedir a) in *.
  assert (Hdne : d <> []) by (rewrite Hd, Htmp; discriminate).
  destruct (unpack_all d members Hdne L [] w Hinv0) as (f' & Hunpack & Hinv).
  { intros r f Hin. destruct (HLclean r f Hin) as [H1 H2]. auto. }
  { now rewrite app_nil_r. }
  { now rewrite app_nil_r. }
  rewrite app_nil_r in Hinv.
  destruct Hinv as (_ & HF0 & _ & HG0).
  assert (HF : forall (q : path) f, is_under d q = true ->
            f' !! q = Some (NFile f) -> exists r, In (r, f) L /\ q = d ++ r).
  { intros q f Hq E. destruct (HF0 q f Hq E) as (r & Hin & Er).
    exists r. split; [now apply in_rev|exact Er]. }
  assert (HG : forall r f, In (r, f) L ->
            f' !! (d ++ r : path) = Some (NFile f)).
  { intros r f Hin. apply HG0. now apply in_rev in Hin. }
  clear HF0 HG0.
  set (w2 := set_fs f' w) in *.
  (* the files found *)
  set (found := listing (env w2)
                  (List.filter (is_under d) (map fst (map_to_list (fs w2))))).
  set (raw := List.filter (is_file_in (fs w2)) found).
  assert (Hraw : Permutation raw (map (fun x : path * file => d ++ fst x) L)).
  { apply Permutation.NoDup_Permutation.
    - unfold raw, found. apply List.NoDup_filter.
      eapply Permutation_NoDup; [symmetry; apply Hlist|].
      apply List.NoDup_filter, NoDup_ListNoDup, NoDup_fst_map_to_list.
    - replace (map (fun x : path * file => d ++ fst x) L)
        with (map (app d) (map fst L)) by (now rewrite List.map_map).
      revert Hdistinct. generalize (map fst L). clear.
      induction 1 as [|r l Hnotin _ IH]; cbn [map]; constructor; [|exact IH].
      intros Hin. apply in_map_iff in Hin as (r' & E & Hr').
      apply app_inv_head in E. subst r'. contradiction.
    - intros q. unfold raw, found. rewrite List.filter_In.
      assert (Hl : forall l, In q (listing (env w2) l) <-> In q l).
      { intros l. change (env w2) with (env w).
        split; apply Permutation_in; [|symmetry]; apply Hlist. }
      rewrite Hl, List.filter_In. split.
      + intros [[_ Hu] Hfile]. unfold is_file_in in Hfile.
        change (fs w2) with f' in Hfile.
        destruct (f' !! q) as [[f|]|] eqn:E; try discriminate.
        destruct (HF q f Hu E) as (r & Hin & ->).
        apply in_map_iff. exists (r, f). auto.
      + intros Hin. apply in_map_iff in Hin as ([r f] & <- & Hin).
        cbn [fst]. pose proof (HG r f Hin) as E.
        destruct (HLclean r f Hin) as [Hr _].
        split; [split|].
        * apply in_map_iff. exists (d ++ r, NFile f). split; [reflexivity|].
          apply list_elem_of_In, elem_of_map_to_list. exact E.
        * now apply is_under_app.
        * unfold is_file_in. change (fs w2) with f'. now rewrite E. }
  (* sorted, and turned into pages *)
  assert (Hrawne : map path_str raw <> []).
  { intros E. apply map_eq_nil in E. rewrite E in Hraw.
    apply Permutation_nil in Hraw. apply map_eq_nil in Hraw. contradiction. }
  assert (Hsortable : forallb sortable (map path_str raw) = true).
  { apply forallb_forall. intros s Hs.
    apply in_map_iff in Hs as (q & <- & Hq).
    apply (Permutation_in _ Hraw) in Hq.
    apply in_map_iff in Hq as ([r f] & <- & Hin). cbn [fst].
    destruct (HLclean r f Hin) as [_ Hr].
    apply path_str_sortable. rewrite Hd, Htmp. cbn [app].
    constructor; [reflexivity|]. rewrite <- app_assoc.
    rewrite (app_assoc tparts).
    eapply List.Forall_impl; [apply clean_part_no_superscript|].
    apply Forall_app. split; [exact Hdclean|exact Hr]. }
  destruct (human_sort_sortable _ Hrawne Hsortable)
    as (sorted_paths & Hsort & _).
  fold (human_sort_paths raw) in Hsort.
  pose proof (human_sort_Permutation _ _ Hsort) as [_ Hperm].
  assert (Hpath : forall r f, In (r, f) L ->
            Path (path_str (d ++ r)) = d ++ r).
  { intros r f Hin. destruct (HLclean r f Hin) as [_ Hr].
    rewrite Hd, Htmp. cbn [app]. rewrite <- app_assoc.
    rewrite (app_assoc tparts). apply Path_path_str.
    apply Forall_app. split; [exact Hdclean|exact Hr]. }
  destruct (map_M_total (fun p => PageM.init (Path p))
              (fun s pg => exists r f, In (r, f) L /\ s = path_str (d ++ r) /\
                                       fp pg = d ++ r /\ rel_path pg = r)
              w2 sorted_paths) as (out & Hout_run & Hout_rel).
  { intros s Hs.
    apply (Permutation_in _ (Permutation_sym Hperm)) in Hs.
    apply in_map_iff in Hs as (q & <- & Hq).
    apply (Permutation_in _ Hraw) in Hq.
    apply in_map_iff in Hq as ([r f] & <- & Hin). cbn [fst].
    rewrite (Hpath r f Hin).
    eexists. split.
    - rewrite Hd. apply (PageM_init_in_cache w2 g book r); assumption.
    - exists r, f. cbn. rewrite Hd. auto. }
  exists out, f'. split; [|split; [|split; [|split; [|split; [|exact HF]]]]].
  - unfold extract.
    rewrite (bind_Ok _ _ _ _ _ (get_self_run _ _ _ Hself)).
    assert (Hread : read_file (a_fp a) w = (Ok (FZip members comment), w))
      by (unfold read_file, bind, get; now rewrite Hzip).
    rewrite (bind_Ok _ _ _ _ _ Hread).
    replace (len (map (fun m : string * file * bool => fst (fst m)) members)
             <? 1)%nat with false.
    2: { symmetry. apply Nat.ltb_ge. rewrite length_map. exact Hmembers. }
    unfold bind at 1. unfold lift at 1.
    rewrite Hnames. fold d. rewrite (bind_Ok _ _ _ _ _ Hunpack). fold w2.
    unfold rglob. unfold bind at 1. unfold bind at 1. cbn [get ret].
    unfold bind at 1. cbn [get]. fold found. fold raw.
    unfold bind at 1. unfold lift at 1. rewrite Hsort.
    exact Hout_run.
  - clear - Hout_rel HG. induction Hout_rel as [|s pg ss pgs H _ IH];
      constructor; [|exact IH].
    destruct H as (r & f & Hin & _ & Hfp' & Hrel).
    exists r, f. rewrite Hfp'. auto.
  - assert (E : map (fun pg : Page => (rel_path pg, f' !! fp pg)) out =
                map (fun s => (drop (len d) (Path s), f' !! Path s))
                  sorted_paths).
    { clear - Hout_rel Hpath. induction Hout_rel as [|s pg ss pgs H _ IH];
        [reflexivity|].
      cbn [map]. rewrite IH. f_equal.
      destruct H as (r & f & Hin & -> & Hfp' & Hrel).
      rewrite (Hpath r f Hin), Hfp', Hrel.
      now rewrite drop_app_length. }
    rewrite E. rewrite <- Hperm. rewrite List.map_map.
    rewrite Hraw. rewrite List.map_map.
    apply Permutation_refl'. apply map_ext_in.
    intros [r f] Hin. cbn [fst snd]. rewrite (Hpath r f Hin).
    rewrite drop_app_length. f_equal. exact (HG r f Hin).
  - pose proof (frames_for_each keeps_dirs
                  (map (fun x : path * file => path_str (fst x)) L)
                  (fun file => zip_extract members file d)
                  keeps_dirs_refl keeps_dirs_trans
                  (fun file => proj1 (zip_extract_frames members file d)) w)
      as Hk.
    now rewrite Hunpack in Hk.
  - pose proof (frames_for_each
                  (fun w w' => forall q : path,
                     is_under d q = false -> (forall k, q <> firstn k d) ->
                     fs w' !! q = fs w !! q)
                  (map (fun x : path * file => path_str (fst x)) L)
                  (fun file => zip_extract members file d)) as Ho.
    specialize (Ho (fun w0 q _ _ => eq_refl)).
    assert (Htr : forall a0 b c : world,
              (forall q : path, is_under d q = false ->
                 (forall k, q <> firstn k d) -> fs b !! q = fs a0 !! q) ->
              (forall q : path, is_under d q = false ->
                 (forall k, q <> firstn k d) -> fs c !! q = fs b !! q) ->
              forall q : path, is_under d q = false ->
                (forall k, q <> firstn k d) -> fs c !! q = fs a0 !! q).
    { intros a0 b c H1 H2 q Hu Hp. rewrite (H2 q Hu Hp). now apply H1. }
    specialize (Ho Htr (fun file => proj2 (zip_extract_frames members file d)) w).
    rewrite Hunpack in Ho. exact Ho.
Qed.

(** Round trip.  A book written by [write_zip] as one chapter, and
    extracted by a second archive object into its fresh cache directory,
    gives back the pages: the same relative paths with the same file
    contents.  The relative paths are made of clean parts (not empty,
    not the dot or the double dot, without separator, and without a
    superscript digit, on which [human_sort] raises [ValueError]), as
    are the parts of the temporary directory; the paths differ from one
    another, and none is a proper prefix of another (no page is also a
    directory); the enumeration of a directory tree is taken to list
    every entry once. *)
Theorem write_zip_extract_round_trip (w : world) (save_path : path)
    (pages : list Page) (second : nat) (a : Archive) :
  is_dir_in (fs w) (parent save_path) = true ->
  is_dir_in (fs w) save_path = false ->
  pages <> [] ->
  Forall (page_ok w save_path) pages ->
  Forall (fun p => rel_path p <> [] /\
                   Forall (fun x => clean_part x = true) (rel_path p)) pages ->
  List.NoDup (map rel_path pages) ->
  prefix_free (map rel_path pages) ->
  heap w !! second = Some a ->
  a_fp a = save_path ->
  fresh_cache w (_cachedir a) save_path ->
  (forall l, Permutation (listing (env w) l) l) ->
  exists w1 out w2,
    write_zip save_path [map EPage pages] chapter_prefix w =
      (Ok save_path, w1) /\
    extract second 0 w1 = (Ok out, w2) /\
    Permutation
      (map (fun pg : Page => (rel_path pg, fs w2 !! fp pg)) out)
      (map (fun p : Page => (rel_path p, fs w !! fp p)) pages).
Proof.
  intros Hdir Hnd Hpages Hok Hclean Hdistinct Hfree Hsecond Hfp Hcache Hlist.
  pose proof (fresh_cache_unpacked _ _ _ Hcache) as Hinv.
  destruct Hcache as (Hlayout & HnoFile & Hempty & Hout & Hnotanc).
  set (d := _cachedir a) in *.
  set (L := map (fun p : Page => (rel_path p, file_of w p)) pages).
  set (members := map (fun p : Page =>
                         (path_str (rel_path p), file_of w p,
                          compress_zip (cfg w))) pages).
  set (w1 := with_zip w save_path members (ZIPCOMMENT (cfg w))).
  (* writing *)
  assert (Hwrite : write_zip save_path [map EPage pages] chapter_prefix w =
                   (Ok save_path, w1)).
  { pose proof (write_zip_members w save_path Hdir Hnd chapter_prefix [pages])
      as H.
    cbn [map len length chapters_members] in H. rewrite app_nil_r in H.
    apply H. constructor; [exact Hok|constructor]. }
  (* the members *)
  assert (HL : forall r f, In (r, f) L ->
            exists p, In p pages /\ r = rel_path p /\ f = file_of w p).
  { intros r f Hin. apply in_map_iff in Hin as (p & E & Hp).
    injection E as <- <-. eauto. }
  assert (HLclean : forall r f, In (r, f) L ->
            r <> [] /\ Forall (fun x => clean_part x = true) r).
  { intros r f Hin. destruct (HL r f Hin) as (p & Hp & -> & _).
    exact (proj1 (List.Forall_forall _ _) Hclean p Hp). }
  assert (HLfst : map fst L = map rel_path pages)
    by (unfold L; rewrite List.map_map; reflexivity).
  assert (Hnames : map (fun m : string * file * bool => fst (fst m)) members =
                   map (fun x : path * file => path_str (fst x)) L)
    by (unfold members, L; rewrite !List.map_map; reflexivity).
  assert (Hget : forall r f, In (r, f) L ->
            getinfo members (path_str r) = Some f).
  { intros r f Hin.
    apply (getinfo_unique members (path_str r) f (compress_zip (cfg w))).
    - rewrite Hnames. apply (clean_names_NoDup L HLclean).
      now rewrite HLfst.
    - destruct (HL r f Hin) as (p & Hp & -> & ->).
      unfold members. apply in_map_iff. exists p. auto. }
  (* the cache directory, once the book is written *)
  assert (Hinv1 : unpacked d (fs w1) []).
  { destruct Hinv as (HD & _). unfold w1, with_zip. cbn [fs set_fs].
    split; [|split; [|split]].
    - intros k f Hk. rewrite lookup_insert_ne by apply Hnotanc.
      now apply HD.
    - intros q f Hq E.
      rewrite lookup_insert_ne in E by (intros ->; congruence).
      rewrite (Hempty q Hq) in E. discriminate.
    - intros q Hq E.
      rewrite lookup_insert_ne in E by (intros ->; congruence).
      rewrite (Hempty q Hq) in E. discriminate.
    - intros r f []. }
  destruct (extract_unpacks second 0 w1 a L members (ZIPCOMMENT (cfg w)))
    as (out & f' & Hrun & _ & Hperm & _); try assumption.
  { unfold w1, with_zip. cbn [fs set_fs]. rewrite Hfp.
    apply lookup_insert_eq. }
  { rewrite select_members_all. f_equal. assumption. }
  { unfold members. rewrite length_map. destruct pages; [contradiction|].
    simpl. lia. }
  { unfold L. intros E. apply map_eq_nil in E. contradiction. }
  { now rewrite HLfst. }
  { now rewrite HLfst. }
  exists w1, out, (set_fs f' w1). split; [exact Hwrite|].
  split; [exact Hrun|].
  cbn [fs set_fs]. rewrite Hperm.
  unfold L. rewrite List.map_map. apply Permutation_refl'.
  apply map_ext_in. intros p Hp. cbn [fst snd]. f_equal.
  destruct (proj1 (List.Forall_forall _ _) Hok p Hp) as (Hfile & _).
  unfold file_of, is_file_in in *.
  destruct (fs w !! fp p) as [[f|]|]; try discriminate. reflexivity.
Qed.

(** the sample pages on disk, and a second archive object for the book
    that is going to be written *)
Definition w3_second : world :=
  set_heap
    (<[1%nat := mkArchive ["out.cbz"] Sample.options0 [] [] []
                  Sample.cachedir1]> (heap Sample.w3))
    Sample.w3.

Lemma write_zip_extract_round_trip_witness :
  exists w1 out w2,
    write_zip ["out.cbz"] [map EPage (concat Sample.chapters3)]
      chapter_prefix w3_second = (Ok ["out.cbz"], w1) /\
    extract 1 0 w1 = (Ok out, w2) /\
    Permutation
      (map (fun pg : Page => (rel_path pg, fs w2 !! fp pg)) out)
      (map (fun p : Page => (rel_path p, fs w3_second !! fp p))
         (concat Sample.chapters3)).
Proof.
  apply (write_zip_extract_round_trip w3_second ["out.cbz"]
           (concat Sample.chapters3) 1
           (mkArchive ["out.cbz"] Sample.options0 [] [] [] Sample.cachedir1)).
  - reflexivity.
  - reflexivity.
  - discriminate.
  - repeat constructor; try reflexivity; discriminate.
  - repeat constructor; try reflexivity; discriminate.
  - repeat constructor; cbn; intuition discriminate.
  - intros r r' Hr Hr' j Hj.
    assert (j = 0%nat) as ->.
    { cbn in Hr'. destruct Hr' as [<-|[<-|[<-|[<-|[<-|[<-|[]]]]]]];
        cbn in Hj; lia. }
    cbn in Hr. destruct Hr as [<-|[<-|[<-|[<-|[<-|[<-|[]]]]]]]; discriminate.
  - reflexivity.
  - reflexivity.
  - split; [|split; [|split; [|split]]].
    + exists ["tmp"], "reCBZ_0", "book_1".
      split; [reflexivity|]. split; [reflexivity|].
      split; [repeat constructor|]. split; [repeat constructor|].
      reflexivity.
    + intros k f Hk. cbn in Hk.
      destruct k as [|[|[|[|[|k]]]]]; try lia; vm_compute; discriminate.
    + intros q Hq.
      destruct (fs w3_second !! q) as [n|] eqn:E; [exfalso|reflexivity].
      apply elem_of_map_to_list, list_elem_of_In in E.
      apply (in_map fst) in E. cbn [fst] in E.
      assert (Hkeys : List.Forall
                (fun k => is_under Sample.cachedir1 k = false)
                (map fst (map_to_list (fs w3_second))))
        by (vm_compute; repeat constructor).
      change (is_under Sample.cachedir1 q = true) in Hq.
      rewrite (proj1 (List.Forall_forall _ _) Hkeys q E) in Hq.
      discriminate Hq.
    + reflexivity.
    + intros k. destruct k as [|k]; discriminate.
  - intros l. symmetry. apply Permutation_rev.
Defined.
(* ===================================================================== *)
(** ** The sample of a partial extraction, unpacked                       *)
(* ===================================================================== *)

Lemma every_sublist {A} (step : nat) (l : list A) :
  forall skip, every skip step l `sublist_of` l.
Proof.
  induction l as [|x l IH]; intros skip; [constructor|].
  destruct skip as [|skip]; cbn [every]; [apply sublist_skip|apply sublist_cons];
    apply IH.
Qed.

Lemma slice_sublist {A} (l : list A) (start stop : Z) (step : nat) :
  slice l start stop step `sublist_of` l.
Proof.
  unfold slice. etransitivity; [apply every_sublist|].
  etransitivity; [apply sublist_take|apply sublist_drop].
Qed.

Lemma every_map {A B} (f : A -> B) (step : nat) (l : list A) :
  forall skip, every skip step (map f l) = map f (every skip step l).
Proof.
  induction l as [|x l IH]; intros skip; [reflexivity|].
  destruct skip as [|skip]; cbn [map every]; now rewrite IH.
Qed.

Lemma slice_map {A B} (f : A -> B) (l : list A) (start stop : Z) (step : nat) :
  slice (map f l) start stop step = map f (slice l start stop step).
Proof.
  unfold slice. rewrite length_map.
  now rewrite List.skipn_map, List.firstn_map, every_map.
Qed.

(** the members of the sample book, under their paths *)
Definition book_source : list (path * file * bool) :=
  [(["p10.png"], Sample.png 100 100, false);
   (["p2.png"], Sample.png 100 100, false);
   (["p1.png"], Sample.png 200 100, false);
   (["notes.txt"], FData 12, false)].

(** C3, as the code has it.  For an archive of [n >= 1] members and a
    sample count [k > 0], the selection fails (with a [ValueError])
    exactly when [n < 2 * k], and [extract] then raises it without
    unpacking anything; otherwise the selection is every second member of
    the window from [n / 2 - k] to [n / 2 + k]: [k] members, the [i]-th
    one at position [n / 2 - k + 2 * i].  [extract] unpacks these and no
    other member: when the members are files under clean relative paths
    and the cache directory is fresh, the pages it returns are these [k]
    members, each with its content, and no other file is below the cache
    directory afterwards. *)
Theorem extract_sample_midpoint (self : nat) (w : world) (a : Archive)
    (source : list (path * file * bool)) (comment : string) (k : Z) :
  let members :=
    map (fun m : path * file * bool =>
           (path_str (fst (fst m)), snd (fst m), snd m)) source in
  heap w !! self = Some a ->
  fs w !! a_fp a = Some (NFile (FZip members comment)) ->
  (1 <= len source)%nat ->
  0 < k ->
  let names := map (fun m : string * file * bool => fst (fst m)) members in
  let n := Z.of_nat (len source) in
  ((exists e, select_members names k = Raise e) <-> n < 2 * k) /\
  (n < 2 * k ->
   extract self k w = (Raise (ValueError "is smaller than samples * 2"), w)) /\
  (2 * k <= n ->
   exists sample,
     select_members names k = Ok sample /\
     Z.of_nat (len sample) = k /\
     forall i, 0 <= i < k ->
       sample !! Z.to_nat i = names !! Z.to_nat (n / 2 - k + 2 * i)) /\
  (2 * k <= n ->
   Forall (fun m : path * file * bool =>
             fst (fst m) <> [] /\
             Forall (fun x => clean_part x = true) (fst (fst m))) source ->
   List.NoDup (map (fun m : path * file * bool => fst (fst m)) source) ->
   prefix_free (map (fun m : path * file * bool => fst (fst m)) source) ->
   fresh_cache w (_cachedir a) (a_fp a) ->
   (forall l, Permutation (listing (env w) l) l) ->
   exists sample pages w',
     Z.of_nat (len sample) = k /\
     (forall i, 0 <= i < k ->
        sample !! Z.to_nat i = source !! Z.to_nat (n / 2 - k + 2 * i)) /\
     extract self k w = (Ok pages, w') /\
     Permutation
       (map (fun pg : Page => (rel_path pg, fs w' !! fp pg)) pages)
       (map (fun m : path * file * bool =>
               (fst (fst m), Some (NFile (snd (fst m))))) sample) /\
     (forall (q : path) f, is_under (_cachedir a) q = true ->
        fs w' !! q = Some (NFile f) ->
        exists m, In m sample /\ q = _cachedir a ++ fst (fst m) /\
                  f = snd (fst m))).
Proof.
  intros members Hself Hzip Hlen Hk names n.
  assert (Hn : Z.of_nat (len names) = n)
    by (unfold names, members, n; now rewrite !length_map).
  assert (Hsel_err : n < 2 * k ->
    select_members names k = Raise (ValueError "is smaller than samples * 2")).
  { intros Hlt. unfold select_members.
    rewrite (proj2 (Z.ltb_lt 0 k) Hk).
    now rewrite (proj2 (Z.ltb_lt _ _)) by (rewrite Hn; lia). }
  assert (Hsel_ok : 2 * k <= n ->
    select_members names k =
    Ok (slice names (n / 2 - k) (n / 2 + k) 2)).
  { intros Hge. unfold select_members.
    rewrite (proj2 (Z.ltb_lt 0 k) Hk).
    rewrite (proj2 (Z.ltb_ge _ _)) by (rewrite Hn; lia).
    now rewrite Hn. }
  split; [|split; [|split]].
  - split.
    + intros [e He]. destruct (Z.lt_ge_cases n (2 * k)) as [|Hge]; [easy|].
      rewrite Hsel_ok in He by easy. discriminate.
    + intros Hlt. eexists. now apply Hsel_err.
  - intros Hlt. unfold extract, get_self, read_file, bind, get, lift. cbn.
    rewrite Hself. cbn. rewrite Hzip. cbn. fold names.
    replace (len names <=? 0)%nat with false
      by (symmetry; apply Nat.leb_gt;
          unfold names, members; rewrite !length_map; lia).
    now rewrite Hsel_err.
  - intros Hge. eexists. split; [now apply Hsel_ok|].
    rewrite <- Hn. apply slice_midpoint; lia.
  - intros Hge Hclean Hdistinct Hfree Hcache Hlist.
    set (sample := slice source (n / 2 - k) (n / 2 + k) 2).
    assert (Hsub : sample `sublist_of` source) by apply slice_sublist.
    assert (Hin : forall m, In m sample -> In m source).
    { intros m Hm. apply list_elem_of_In.
      eapply elem_of_sublist; [|exact Hsub]. now apply list_elem_of_In. }
    destruct (slice_midpoint source k Hk ltac:(fold n; lia)) as [Hslen Hsidx].
    fold n in Hslen, Hsidx. fold sample in Hslen, Hsidx.
    set (L := map (fun m : path * file * bool => (fst (fst m), snd (fst m)))
                sample).
    assert (HLin : forall r f, In (r, f) L ->
              exists c, In (r, f, c) sample).
    { intros r f HL. apply in_map_iff in HL as ([[r' f'] c] & E & Hm).
      injection E as <- <-. eauto. }
    assert (HLclean : forall r f, In (r, f) L ->
              r <> [] /\ Forall (fun x => clean_part x = true) r).
    { intros r f HL. destruct (HLin r f HL) as (c & Hm).
      exact (proj1 (List.Forall_forall _ _) Hclean _ (Hin _ Hm)). }
    assert (HLfst : map fst L =
                    map (fun m : path * file * bool => fst (fst m)) sample)
      by (unfold L; rewrite List.map_map; reflexivity).
    assert (Hrels : map (fun m : path * file * bool => fst (fst m)) sample
                    `sublist_of`
                    map (fun m : path * file * bool => fst (fst m)) source)
      by (apply (fmap_sublist _ _ _ Hsub)).
    assert (Hnames_nd : List.NoDup names).
    { unfold names, members. rewrite List.map_map. cbn [fst].
      pose proof (clean_names_NoDup
                    (map (fun m : path * file * bool =>
                            (fst (fst m), snd (fst m))) source)) as Hnd.
      rewrite !List.map_map in Hnd. cbn [fst] in Hnd. apply Hnd.
      - intros r f HL. apply in_map_iff in HL as (m & E & Hm).
        injection E as <- <-.
        exact (proj1 (List.Forall_forall _ _) Hclean _ Hm).
      - exact Hdistinct. }
    pose proof (fresh_cache_unpacked _ _ _ Hcache) as Hinv.
    destruct Hcache as (Hlayout & _).
    destruct (extract_unpacks self k w a L members comment)
      as (pages & f' & Hrun & _ & Hperm & _ & _ & Hbelow); try assumption.
    { fold names. rewrite (Hsel_ok Hge). f_equal.
      unfold names, members, L, sample. rewrite !List.map_map. cbn [fst].
      apply slice_map. }
    { intros r f HL. destruct (HLin r f HL) as (c & Hm).
      apply (getinfo_unique members _ _ c); [exact Hnames_nd|].
      unfold members. apply in_map_iff. exists (r, f, c). split; [reflexivity|].
      now apply Hin. }
    { unfold members. now rewrite length_map. }
    { intros E. unfold L in E. apply map_eq_nil in E.
      rewrite E in Hslen. simpl in Hslen. lia. }
    { rewrite HLfst. apply NoDup_ListNoDup.
      eapply sublist_NoDup; [|exact Hrels]. now apply NoDup_ListNoDup. }
    { rewrite HLfst. intros r r' Hr Hr'. apply Hfree.
      - apply list_elem_of_In. eapply elem_of_sublist; [|exact Hrels].
        now apply list_elem_of_In.
      - apply list_elem_of_In. eapply elem_of_sublist; [|exact Hrels].
        now apply list_elem_of_In. }
    exists sample, pages, (set_fs f' w).
    split; [exact Hslen|]. split; [exact Hsidx|]. split; [exact Hrun|].
    split.
    + cbn [fs set_fs]. rewrite Hperm. unfold L. rewrite List.map_map.
      reflexivity.
    + intros q f Hq E. cbn [fs set_fs] in E.
      destruct (Hbelow q f Hq E) as (r & HL & ->).
      destruct (HLin r f HL) as (c & Hm). exists (r, f, c). auto.
Qed.

Lemma extract_sample_midpoint_witness :
  let names := ["p10.png"; "p2.png"; "p1.png"; "notes.txt"] in
  ((exists e, select_members names 1 = Raise e) <-> 4 < 2 * 1) /\
  (exists sample,
     select_members names 1 = Ok sample /\
     Z.of_nat (len sample) = 1 /\
     forall i, 0 <= i < 1 ->
       sample !! Z.to_nat i = names !! Z.to_nat (4 / 2 - 1 + 2 * i)) /\
  (exists sample pages w',
     Z.of_nat (len sample) = 1 /\
     (forall i, 0 <= i < 1 ->
        sample !! Z.to_nat i = book_source !! Z.to_nat (4 / 2 - 1 + 2 * i)) /\
     extract 0 1 Sample.w0 = (Ok pages, w') /\
     Permutation
       (map (fun pg : Page => (rel_path pg, fs w' !! fp pg)) pages)
       (map (fun m : path * file * bool =>
               (fst (fst m), Some (NFile (snd (fst m))))) sample) /\
     (forall (q : path) f, is_under Sample.cachedir0 q = true ->
        fs w' !! q = Some (NFile f) ->
        exists m, In m sample /\ q = Sample.cachedir0 ++ fst (fst m) /\
                  f = snd (fst m))).
Proof.
  destruct (extract_sample_midpoint 0 Sample.w0
              (Sample.new_archive ["book.cbz"] Sample.cachedir0)
              book_source "" 1)
    as (H1 & _ & H3 & H4);
    [reflexivity | reflexivity | simpl; lia | lia |].
  split; [exact H1|]. split; [apply H3; simpl; lia|].
  apply H4.
  - simpl. lia.
  - repeat constructor; try reflexivity; discriminate.
  - repeat constructor; cbn; intuition discriminate.
  - intros r r' Hr Hr' j Hj.
    assert (j = 0%nat) as ->.
    { cbn in Hr'. destruct Hr' as [<-|[<-|[<-|[<-|[]]]]]; cbn in Hj; lia. }
    cbn in Hr. destruct Hr as [<-|[<-|[<-|[<-|[]]]]]; discriminate.
  - split; [|split; [|split; [|split]]].
    + exists ["tmp"], "reCBZ_0", "book_0".
      split; [reflexivity|]. split; [reflexivity|].
      split; [repeat constructor|]. split; [repeat constructor|].
      reflexivity.
    + intros k f Hk. cbn in Hk.
      destruct k as [|[|[|[|[|k]]]]]; try lia; vm_compute; discriminate.
    + intros q Hq.
      destruct (fs Sample.w0 !! q) as [n|] eqn:E; [exfalso|reflexivity].
      apply elem_of_map_to_list, list_elem_of_In in E.
      apply (in_map fst) in E. cbn [fst] in E.
      assert (Hkeys : List.Forall
                (fun k => is_under Sample.cachedir0 k = false)
                (map fst (map_to_list (fs Sample.w0))))
        by (vm_compute; repeat constructor).
      change (is_under Sample.cachedir0 q = true) in Hq.
      rewrite (proj1 (List.Forall_forall _ _) Hkeys q E) in Hq.
      discriminate Hq.
    + reflexivity.
    + intros k. destruct k as [|k]; discriminate.
  - intros l. symmetry. apply Permutation_rev.
Defined.

(* ===================================================================== *)
(** ** Fetching twice, and repacking                                       *)
(* ===================================================================== *)

(** The book is unpacked once: when [fetch_chapters] has returned, a
    second call returns the same chapters and changes nothing, neither
    the files nor the archive object, and [fetch_pages] returns the index
    as it is. *)
Theorem fetch_chapters_again (self : nat) (w : world)
    (chapters : list (list entry)) (w1 : world) :
  fetch_chapters self w = (Ok chapters, w1) ->
  fetch_chapters self w1 = (Ok chapters, w1) /\
  exists a1,
    heap w1 !! self = Some a1 /\
    fetch_pages self w1 = (Ok (_index a1), w1).
Proof.
  intros H.
  assert (Ha : exists a, heap w !! self = Some a).
  { unfold fetch_chapters in H.
    apply bind_Ok_inv in H as (idx & w0 & Hf & _).
    now apply fetch_pages_self in Hf. }
  destruct Ha as [a Hself].
  destruct (fetch_chapters_Ok _ _ _ _ _ Hself H)
    as (idx & lens & Hne & _ & Hlens & Hh & ->).
  set (a1 := set_chapter_lengths lens (set_index idx a)) in *.
  assert (Hself1 : heap w1 !! self = Some a1)
    by (rewrite Hh; apply lookup_insert_eq).
  assert (Hfetch : fetch_pages self w1 = (Ok idx, w1)).
  { unfold fetch_pages. rewrite (bind_Ok _ _ _ _ _ (get_self_run _ _ _ Hself1)).
    cbn [_index a1 set_chapter_lengths set_index].
    destruct idx; [contradiction|reflexivity]. }
  split.
  - unfold fetch_chapters. rewrite (bind_Ok _ _ _ _ _ Hfetch).
    rewrite (bind_Ok _ _ _ _ _ (get_self_run _ _ _ Hself1)).
    cbn [_chapter_lengths a1 set_chapter_lengths].
    assert (Hl : (len lens =? 0)%nat = false).
    { rewrite Hlens. destruct (_chapter_lengths a); reflexivity. }
    rewrite Hl. unfold bind at 1. cbn [ret].
    rewrite (bind_Ok _ _ _ _ _ (get_self_run _ _ _ Hself1)). reflexivity.
  - exists a1. split; [exact Hself1|exact Hfetch].
Qed.

Lemma fetch_chapters_again_witness :
  fetch_chapters 0 loaded = (fst (fetch_chapters 0 Sample.w0), loaded).
Proof.
  assert (Hrun : fetch_chapters 0 Sample.w0 =
                 (Ok (match fst (fetch_chapters 0 Sample.w0) with
                      | Ok chapters => chapters
                      | Raise _ => []
                      end), loaded))
    by (vm_compute; reflexivity).
  destruct (fetch_chapters_again 0 Sample.w0
              (match fst (fetch_chapters 0 Sample.w0) with
               | Ok chapters => chapters
               | Raise _ => []
               end) loaded Hrun) as [H _].
  rewrite H. rewrite Hrun at 2. reflexivity.
Defined.

Lemma cut_chapters_whole {A} (index_copy : list A) :
  cut_chapters index_copy [Z.of_nat (len index_copy)] = [index_copy].
Proof.
  cbn [cut_chapters]. rewrite slice_to_nonneg by lia.
  rewrite Nat2Z.id. now rewrite firstn_all.
Qed.

(** [fetch_chapters] on an archive that has not been fetched yet, whose
    extraction returns [pages]: the index is set to the pages and they
    are the single chapter *)
Lemma fetch_chapters_first (self : nat) (w : world) (a : Archive)
    (pages : list Page) (f' : gmap path node) :
  heap w !! self = Some a ->
  _index a = [] -> _chapter_lengths a = [] ->
  extract self 0 w = (Ok pages, set_fs f' w) ->
  exists w3,
    fetch_chapters self w = (Ok [map EPage pages], w3) /\
    fs w3 = f' /\ cfg w3 = cfg w /\ env w3 = env w.
Proof.
  intros Hself Hidx Hlens Hex.
  set (idx := map EPage pages).
  set (a1 := set_index idx a).
  set (w2 := set_heap (<[self := a1]> (heap w)) (set_fs f' w)).
  assert (Hfetch : fetch_pages self w = (Ok idx, w2)).
  { unfold fetch_pages. rewrite (bind_Ok _ _ _ _ _ (get_self_run _ _ _ Hself)).
    rewrite Hidx. cbn [len length Nat.eqb].
    rewrite (bind_Ok _ _ _ _ _ Hex).
    assert (Hself' : heap (set_fs f' w) !! self = Some a) by exact Hself.
    rewrite (bind_Ok _ _ _ _ _ (get_self_run _ _ _ Hself')).
    reflexivity. }
  assert (Hself2 : heap w2 !! self = Some a1) by apply lookup_insert_eq.
  set (a2 := set_chapter_lengths [Z.of_nat (len idx)] a1).
  exists (set_heap (<[self := a2]> (heap w2)) w2). split; [|auto].
  unfold fetch_chapters. rewrite (bind_Ok _ _ _ _ _ Hfetch).
  rewrite (bind_Ok _ _ _ _ _ (get_self_run _ _ _ Hself2)).
  cbn [_chapter_lengths a1 set_index]. rewrite Hlens.
  cbn [len length Nat.eqb]. unfold put_self.
  unfold bind at 1. unfold modify at 1.
  erewrite bind_Ok by (apply get_self_run; apply lookup_insert_eq).
  cbn [ret _chapter_lengths set_chapter_lengths].
  now rewrite cut_chapters_whole.
Qed.

(** Repacking.  [write_archive] on an archive that has not been fetched
    yet, to a destination that does not exist, unpacks the source into
    the cache directory and writes a container that holds the members of
    the source again: the same names with the same contents (in the
    natural order of their paths), each deflated or stored as
    [config.compress_zip] says; the source archive is left as it is.
    The members of the source are files under clean relative paths
    (parts that are not empty, not the dot or the double dot, without
    separator, and without a superscript digit, on which [human_sort]
    raises [ValueError]), none of them also a directory of another. *)
Theorem write_archive_repacks_pages (self : nat) (w : world) (a : Archive)
    (book_format file_name : string) (source : list (path * file * bool))
    (comment : string) :
  str_in book_format ["cbz"; "zip"] = true ->
  heap w !! self = Some a ->
  _index a = [] -> _chapter_lengths a = [] ->
  fs w !! a_fp a =
    Some (NFile (FZip (map (fun m : path * file * bool =>
                              (path_str (fst (fst m)), snd (fst m), snd m))
                         source) comment)) ->
  source <> [] ->
  Forall (fun m : path * file * bool =>
            fst (fst m) <> [] /\
            Forall (fun x => clean_part x = true) (fst (fst m))) source ->
  List.NoDup (map (fun m : path * file * bool => fst (fst m)) source) ->
  prefix_free (map (fun m : path * file * bool => fst (fst m)) source) ->
  fresh_cache w (_cachedir a) (a_fp a) ->
  (forall l, Permutation (listing (env w) l) l) ->
  let new_path := destination a book_format file_name in
  (file_name <> "" ->
   exists dir, parents0 (Path file_name) = Ok dir /\
               is_dir_in (fs w) dir = true) ->
  fs w !! new_path = None ->
  is_root new_path = false ->
  is_dir_in (fs w) (parent new_path) = true ->
  is_under (_cachedir a) new_path = false ->
  (forall k, new_path <> firstn k (_cachedir a)) ->
  exists members w',
    write_archive self book_format file_name w = (Ok new_path, w') /\
    fs w' !! new_path =
      Some (NFile (FZip members (ZIPCOMMENT (cfg w)))) /\
    Permutation
      (map (fun m : string * file * bool => (fst (fst m), snd (fst m)))
         members)
      (map (fun m : path * file * bool =>
              (path_str (fst (fst m)), snd (fst m))) source) /\
    Forall (fun m : string * file * bool => snd m = compress_zip (cfg w))
      members /\
    fs w' !! a_fp a = fs w !! a_fp a.
Proof.
  intros Hfmt Hself Hidx Hlens Hzip Hsrc Hclean Hdistinct Hfree Hcache Hlist
         new_path Hparent Hnew Hroot Hpdir Hnu Hnp.
  pose proof (fresh_cache_unpacked _ _ _ Hcache) as Hinv.
  destruct Hcache as (Hlayout & _ & _ & Hsu & Hsp).
  set (d := _cachedir a) in *.
  set (L := map (fun m : path * file * bool => (fst (fst m), snd (fst m)))
              source).
  set (members0 := map (fun m : path * file * bool =>
                          (path_str (fst (fst m)), snd (fst m), snd m))
                     source) in *.
  assert (HLclean : forall r f, In (r, f) L ->
            r <> [] /\ Forall (fun x => clean_part x = true) r).
  { intros r f Hin. apply in_map_iff in Hin as (m & E & Hm).
    injection E as <- <-.
    exact (proj1 (List.Forall_forall _ _) Hclean m Hm). }
  assert (HLfst : map fst L =
                  map (fun m : path * file * bool => fst (fst m)) source)
    by (unfold L; rewrite List.map_map; reflexivity).
  assert (Hnames : map (fun m : string * file * bool => fst (fst m)) members0 =
                   map (fun x : path * file => path_str (fst x)) L)
    by (unfold members0, L; rewrite !List.map_map; reflexivity).
  assert (Hget : forall r f, In (r, f) L ->
            getinfo members0 (path_str r) = Some f).
  { intros r f Hin. apply in_map_iff in Hin as (m & E & Hm).
    injection E as <- <-.
    apply (getinfo_unique members0 _ _ (snd m)).
    - rewrite Hnames. apply (clean_names_NoDup L HLclean).
      now rewrite HLfst.
    - unfold members0. apply in_map_iff. exists m. auto. }
  destruct (extract_unpacks self 0 w a L members0 comment)
    as (out & f' & Hrun & Hout & Hperm & Hkd & Houtside & _); try assumption.
  { rewrite select_members_all. f_equal. assumption. }
  { unfold members0. rewrite length_map. destruct source; [contradiction|].
    simpl. lia. }
  { unfold L. intros E. apply map_eq_nil in E. contradiction. }
  { now rewrite HLfst. }
  { now rewrite HLfst. }
  destruct (fetch_chapters_first self w a out f' Hself Hidx Hlens Hrun)
    as (w3 & Hfetch & Hfs3 & Hcfg3 & _).
  (* the container can be written *)
  assert (Hdir3 : is_dir_in (fs w3) (parent new_path) = true)
    by (rewrite Hfs3; exact (Hkd _ Hpdir)).
  assert (Hnd3 : is_dir_in (fs w3) new_path = false).
  { unfold is_dir_in. rewrite Hroot, Hfs3, (Houtside new_path Hnu Hnp), Hnew.
    reflexivity. }
  assert (Hok3 : Forall (page_ok w3 new_path) out).
  { eapply List.Forall_impl; [|exact Hout].
    intros pg (r & f & Hin & Hfp & Hrel & Hfile).
    destruct (HLclean r f Hin) as [Hr Hc].
    split; [|split].
    - unfold is_file_in. now rewrite Hfs3, Hfile.
    - rewrite Hfp. intros E. fold d in Hfp.
      rewrite <- E, is_under_app in Hnu by exact Hr. discriminate.
    - rewrite Hrel. destruct r as [|x r']; [contradiction|].
      inversion Hc; subst. cbn. now apply clean_part_not_root. }
  pose proof (write_zip_members w3 new_path Hdir3 Hnd3 chapter_prefix [out])
    as Hwrite.
  cbn [map len length chapters_members] in Hwrite.
  rewrite app_nil_r in Hwrite.
  assert (Hall : Forall (Forall (page_ok w3 new_path)) [out])
    by (constructor; [exact Hok3 | constructor]).
  specialize (Hwrite Hall). clear Hall.
  set (members := chapter_members w3 chapter_prefix 1 0 out) in *.
  exists members, (with_zip w3 new_path members (ZIPCOMMENT (cfg w3))).
  split; [|split; [|split; [|split]]].
  - unfold write_archive.
    assert (Hvalid : str_in book_format VALID_BOOK_FORMATS = true).
    { unfold str_in, VALID_BOOK_FORMATS in *. cbn [existsb] in *.
      destruct (String.eqb book_format "cbz"), (String.eqb book_format "zip");
        cbn in *; first [reflexivity | discriminate]. }
    rewrite Hvalid. cbn [negb].
    rewrite (bind_Ok _ _ _ _ _ (get_self_run _ _ _ Hself)).
    assert (Hcheck :
      (if negb (String.eqb file_name "") then
         parent_dir <- lift (parents0 (Path file_name)) ;;
         ex <- path_exists parent_dir ;;
         isd <- path_is_dir parent_dir ;;
         if ex && isd then ret tt
         else raise (ValueError "Parent folder does not exist")
       else ret tt) w = (Ok tt, w)).
    { destruct (String.eqb file_name "") eqn:E; [reflexivity|]. simpl.
      apply String.eqb_neq in E.
      destruct (Hparent E) as (dir & Hd & Hdir).
      unfold bind, lift, path_exists, path_is_dir, get, ret. rewrite Hd.
      cbn. now rewrite (is_dir_exists _ _ Hdir), Hdir. }
    rewrite (bind_Ok _ _ _ _ _ Hcheck). fold new_path.
    assert (Hex : path_exists new_path w = (Ok false, w)).
    { unfold path_exists, bind, get, ret, exists_in. rewrite Hroot, Hnew.
      reflexivity. }
    rewrite (bind_Ok _ _ _ _ _ Hex). unfold bind at 1. cbn [ret].
    unfold write_container. unfold str_in in Hfmt. cbn [existsb] in Hfmt.
    destruct (String.eqb book_format "cbz") eqn:E1.
    + rewrite (bind_Ok _ _ _ _ _ Hfetch). exact Hwrite.
    + destruct (String.eqb book_format "zip") eqn:E2; [|discriminate].
      rewrite (bind_Ok _ _ _ _ _ Hfetch). exact Hwrite.
  - unfold with_zip. cbn [fs set_fs]. rewrite Hcfg3. apply lookup_insert_eq.
  - set (G := fun x : path * option node =>
                (path_str (fst x),
                 match snd x with
                 | Some (NFile f) => f
                 | _ => FData 0
                 end)).
    transitivity (map G (map (fun pg : Page => (rel_path pg, f' !! fp pg)) out)).
    + unfold members, chapter_members. rewrite !List.map_map.
      apply Permutation_refl'. apply map_ext. intros pg.
      unfold G, file_of. cbn [fst snd]. now rewrite Hfs3.
    + rewrite Hperm. unfold L. rewrite !List.map_map. apply Permutation_refl'.
      apply map_ext. intros m. reflexivity.
  - unfold members, chapter_members. apply List.Forall_forall.
    intros m Hm. apply in_map_iff in Hm as (pg & <- & _). cbn [snd].
    now rewrite Hcfg3.
  - unfold with_zip. cbn [fs set_fs].
    rewrite lookup_insert_ne by (intros E; rewrite E, Hzip in Hnew; discriminate).
    rewrite Hfs3. now apply Houtside.
Qed.

Lemma write_archive_repacks_pages_witness :
  exists members w',
    write_archive 1 "cbz" "out" Sample.w0 =
      (Ok (destination (Sample.new_archive ["book.cbz"] Sample.cachedir1)
             "cbz" "out"), w') /\
    fs w' !! destination (Sample.new_archive ["book.cbz"] Sample.cachedir1)
               "cbz" "out" =
      Some (NFile (FZip members (ZIPCOMMENT (cfg Sample.w0)))) /\
    Permutation
      (map (fun m : string * file * bool => (fst (fst m), snd (fst m)))
         members)
      (map (fun m : path * file * bool =>
              (path_str (fst (fst m)), snd (fst m))) book_source) /\
    Forall (fun m : string * file * bool =>
              snd m = compress_zip (cfg Sample.w0)) members /\
    fs w' !! a_fp (Sample.new_archive ["book.cbz"] Sample.cachedir1) =
    fs Sample.w0 !! a_fp (Sample.new_archive ["book.cbz"] Sample.cachedir1).
Proof.
  apply (write_archive_repacks_pages 1 Sample.w0
           (Sample.new_archive ["book.cbz"] Sample.cachedir1) "cbz" "out"
           book_source "").
  - reflexivity.
  - reflexivity.
  - reflexivity.
  - reflexivity.
  - reflexivity.
  - discriminate.
  - repeat constructor; try reflexivity; discriminate.
  - repeat constructor; cbn; intuition discriminate.
  - intros r r' Hr Hr' j Hj.
    assert (j = 0%nat) as ->.
    { cbn in Hr'. destruct Hr' as [<-|[<-|[<-|[<-|[]]]]]; cbn in Hj; lia. }
    cbn in Hr. destruct Hr as [<-|[<-|[<-|[<-|[]]]]]; discriminate.
  - split; [|split; [|split; [|split]]].
    + exists ["tmp"], "reCBZ_0", "book_1".
      split; [reflexivity|]. split; [reflexivity|].
      split; [repeat constructor|]. split; [repeat constructor|].
      reflexivity.
    + intros k f Hk. cbn in Hk.
      destruct k as [|[|[|[|[|k]]]]]; try lia; vm_compute; discriminate.
    + intros q Hq.
      destruct (fs Sample.w0 !! q) as [n|] eqn:E; [exfalso|reflexivity].
      apply elem_of_map_to_list, list_elem_of_In in E.
      apply (in_map fst) in E. cbn [fst] in E.
      assert (Hkeys : List.Forall
                (fun k => is_under Sample.cachedir1 k = false)
                (map fst (map_to_list (fs Sample.w0))))
        by (vm_compute; repeat constructor).
      change (is_under Sample.cachedir1 q = true) in Hq.
      rewrite (proj1 (List.Forall_forall _ _) Hkeys q E) in Hq.
      discriminate Hq.
    + reflexivity.
    + intros k. destruct k as [|k]; discriminate.
  - intros l. symmetry. apply Permutation_rev.
  - intros _. exists []. split; reflexivity.
  - reflexivity.
  - reflexivity.
  - reflexivity.
  - reflexivity.
  - intros k. destruct k as [|[|[|[|[|k]]]]]; discriminate.
Defined.
(* ===================================================================== *)
(** ** [cleanup], and the index it leaves behind                           *)
(* ===================================================================== *)

(** [shutil.rmtree(d)]: the directory and everything below it is
    removed; what is not a directory is refused (with an [OSError]).
    The file system of the model has no permissions, so the removal
    never stops part way. *)
Definition rmtree (d : path) : M unit :=
  w <- get ;;
  if is_dir_in (fs w) d
  then modify (set_fs (filter (fun kv : path * node =>
                                 is_under d (fst kv) = false /\ fst kv <> d)
                         (fs w)))
  else raise IOError.

(** [ComicArchive.cleanup]; no [PermissionError] is raised by [rmtree]
    here, so the [except] clause has nothing to catch *)
Definition cleanup (self : nat) : M unit :=
  a <- get_self self ;;
  ex <- path_exists (_cachedir a) ;;
  if ex then rmtree (_cachedir a) else ret tt.

(** [fetch_chapters] on an archive whose index is not empty reads the
    object only *)
Lemma fetch_chapters_indexed (self : nat) (w : world) (a : Archive) :
  heap w !! self = Some a -> _index a <> [] ->
  exists lens w',
    fetch_chapters self w = (Ok (cut_chapters (_index a) lens), w') /\
    lens = (if (len (_chapter_lengths a) =? 0)%nat
            then [Z.of_nat (len (_index a))] else _chapter_lengths a) /\
    fs w' = fs w.
Proof.
  intros Hself Hne.
  assert (Hfetch : fetch_pages self w = (Ok (_index a), w)).
  { unfold fetch_pages. rewrite (bind_Ok _ _ _ _ _ (get_self_run _ _ _ Hself)).
    destruct (_index a); [contradiction|reflexivity]. }
  unfold fetch_chapters. rewrite (bind_Ok _ _ _ _ _ Hfetch).
  rewrite (bind_Ok _ _ _ _ _ (get_self_run _ _ _ Hself)).
  destruct (len (_chapter_lengths a) =? 0)%nat.
  - eexists _, _. split; [|split; [reflexivity|]].
    + unfold put_self. unfold bind at 1. unfold modify at 1.
      erewrite bind_Ok by (apply get_self_run; apply lookup_insert_eq).
      cbn [ret _chapter_lengths set_chapter_lengths]. reflexivity.
    + reflexivity.
  - exists (_chapter_lengths a), w. split; [|split; reflexivity].
    unfold bind at 1. cbn [ret].
    now rewrite (bind_Ok _ _ _ _ _ (get_self_run _ _ _ Hself)).
Qed.

(** the chapters of an archive whose lengths cover its index hold the
    whole index *)
Lemma chapters_cover_concat (a : Archive) :
  chapters_cover a ->
  concat (cut_chapters (_index a)
            (if (len (_chapter_lengths a) =? 0)%nat
             then [Z.of_nat (len (_index a))] else _chapter_lengths a)) =
  _index a.
Proof.
  intros [Hpos Hcover].
  destruct (_chapter_lengths a) as [|n rest] eqn:E.
  - cbn [len length Nat.eqb]. rewrite cut_chapters_whole. cbn.
    apply app_nil_r.
  - cbn [len length Nat.eqb].
    destruct (cut_chapters_nonneg (n :: rest) (_index a) Hpos) as (_ & -> & _).
    destruct Hcover as [_ ->]; [discriminate|].
    rewrite Nat2Z.id. apply firstn_all.
Qed.

(** [write_chapters] stores the first page first: it returns only if
    that entry is a page whose file is there *)
Lemma write_chapters_first (save_path : path) (prefix : string) (n : nat)
    (chapters : list (list entry)) :
  forall (i : nat) (w w' : world) (e : entry) (rest : list entry),
    write_chapters save_path prefix n i chapters w = (Ok tt, w') ->
    concat chapters = e :: rest ->
    exists p, e = EPage p /\ is_file_in (fs w) (fp p) = true.
Proof.
  induction chapters as [|chapter more IH]; intros i w w' e rest H Hc;
    [discriminate|].
  cbn [write_chapters] in H. destruct chapter as [|e0 chapter].
  - cbn [for_each] in H. unfold bind at 1 in H. cbn [ret] in H.
    exact (IH _ _ _ _ _ H Hc).
  - cbn [concat app] in Hc. injection Hc as -> _.
    apply bind_Ok_inv in H as ([] & w1 & H & _).
    cbn [for_each] in H. apply bind_Ok_inv in H as ([] & w2 & H & _).
    apply bind_Ok_inv in H as (page & w3 & Hpage & H).
    destruct e as [p|p]; [|discriminate].
    injection Hpage as <- <-. exists p. split; [reflexivity|].
    unfold bind at 1 in H. cbn [get] in H. unfold zip_write in H.
    apply bind_Ok_inv in H as (f & w4 & Hread & _).
    unfold read_file, bind, get in Hread. unfold is_file_in.
    destruct (fs w !! fp p) as [[f'|]|]; [reflexivity|discriminate..].
Qed.

(** [cleanup] removes the cache directory with everything below it, and
    nothing else: the archive object keeps its index.  So after
    [cleanup] the pages of the index name files that are gone:
    [fetch_pages] still returns that index, without unpacking the book
    again, and [write_archive] to a [.cbz] or [.zip] outside the cache
    directory does not return: it raises. *)
Theorem cleanup_leaves_index_dangling (self : nat) (w : world) (a : Archive)
    (book_format file_name : string) :
  heap w !! self = Some a ->
  is_dir_in (fs w) (_cachedir a) = true ->
  _index a <> [] ->
  Forall (fun e => exists p, e = EPage p /\
                             is_under (_cachedir a) (fp p) = true)
    (_index a) ->
  chapters_cover a ->
  str_in book_format ["cbz"; "zip"] = true ->
  is_under (_cachedir a) (destination a book_format file_name) = false ->
  exists w1,
    cleanup self w = (Ok tt, w1) /\
    heap w1 = heap w /\
    (forall q : path, is_under (_cachedir a) q = true -> fs w1 !! q = None) /\
    fs w1 !! _cachedir a = None /\
    (forall q : path, is_under (_cachedir a) q = false -> q <> _cachedir a ->
       fs w1 !! q = fs w !! q) /\
    fetch_pages self w1 = (Ok (_index a), w1) /\
    forall r, fst (write_archive self book_format file_name w1) <> Ok r.
Proof.
  intros Hself Hdir Hne Hpages Hcover Hfmt Hdest.
  set (d := _cachedir a) in *.
  set (f1 := filter (fun kv : path * node =>
                       is_under d (fst kv) = false /\ fst kv <> d) (fs w)).
  assert (Hunder : forall q : path, is_under d q = true -> f1 !! q = None).
  { intros q Hq. apply map_lookup_filter_None. right. intros x _ [Hx _].
    cbn [fst] in Hx. congruence. }
  exists (set_fs f1 w).
  split; [|split; [reflexivity|split; [exact Hunder|split; [|split; [|split]]]]].
  - unfold cleanup. rewrite (bind_Ok _ _ _ _ _ (get_self_run _ _ _ Hself)).
    fold d. unfold path_exists, bind at 1, bind at 1, get, ret.
    rewrite (is_dir_exists _ _ Hdir). unfold rmtree, bind, get, modify.
    now rewrite Hdir.
  - cbn [fs set_fs]. apply map_lookup_filter_None. right. intros x _ [_ Hx].
    now apply Hx.
  - intros q Hq Hqd. cbn [fs set_fs].
    destruct (fs w !! q) as [x|] eqn:E.
    + apply map_lookup_filter_Some. split; [exact E|]. now split.
    + apply map_lookup_filter_None. now left.
  - unfold fetch_pages.
    assert (Hself1 : heap (set_fs f1 w) !! self = Some a) by exact Hself.
    rewrite (bind_Ok _ _ _ _ _ (get_self_run _ _ _ Hself1)).
    destruct (_index a); [contradiction|reflexivity].
  - intros r Hr.
    set (w1 := set_fs f1 w) in *.
    destruct (write_archive self book_format file_name w1) as [res w'] eqn:H.
    cbn [fst] in Hr. subst res.
    assert (Hself1 : heap w1 !! self = Some a) by exact Hself.
    unfold write_archive in H.
    assert (Hvalid : str_in book_format VALID_BOOK_FORMATS = true).
    { unfold str_in, VALID_BOOK_FORMATS in *. cbn [existsb] in *.
      destruct (String.eqb book_format "cbz"), (String.eqb book_format "zip");
        cbn in *; first [reflexivity | discriminate]. }
    rewrite Hvalid in H. cbn [negb] in H.
    rewrite (bind_Ok _ _ _ _ _ (get_self_run _ _ _ Hself1)) in H.
    apply bind_Ok_inv in H as ([] & wA & Hcheck & H).
    assert (wA = w1) as ->.
    { refine (unchanged_run _ _ _ _ _ Hcheck).
      unfold path_exists, path_is_dir. read_only. }
    set (new_path := destination a book_format file_name) in *.
    apply bind_Ok_inv in H as (ex & wB & Hex & H).
    assert (wB = w1) as ->.
    { refine (unchanged_run _ _ _ _ _ Hex). unfold path_exists. read_only. }
    apply bind_Ok_inv in H as ([] & wB & Hun & H).
    assert (HB : heap wB = heap w1 /\
                 forall q : path, is_under d q = true -> fs wB !! q = None).
    { destruct ex.
      - unfold unlink, bind, get, modify in Hun.
        destruct (fs w1 !! new_path) as [[f|]|]; try discriminate.
        injection Hun as <-. split; [reflexivity|]. intros q Hq.
        cbn [fs set_fs]. apply lookup_delete_None. right. now apply Hunder.
      - injection Hun as <-. split; [reflexivity|exact Hunder]. }
    destruct HB as [HhB HfB].
    assert (HselfB : heap wB !! self = Some a) by (rewrite HhB; exact Hself).
    destruct (fetch_chapters_indexed self wB a HselfB Hne)
      as (lens & wC & Hfetch & Hlens & HfC).
    assert (Hzip : write_zip new_path (cut_chapters (_index a) lens)
                     chapter_prefix wC = (Ok r, w')).
    { unfold write_container in H. unfold str_in in Hfmt.
      cbn [existsb] in Hfmt.
      destruct (String.eqb book_format "cbz").
      - now rewrite (bind_Ok _ _ _ _ _ Hfetch) in H.
      - destruct (String.eqb book_format "zip"); [|discriminate].
        now rewrite (bind_Ok _ _ _ _ _ Hfetch) in H. }
    unfold write_zip in Hzip.
    apply bind_Ok_inv in Hzip as ([] & wD & Hcreate & Hzip).
    apply bind_Ok_inv in Hzip as ([] & wE & Hwrite & _).
    assert (HfD : forall q : path, is_under d q = true -> fs wD !! q = None).
    { unfold write_file, bind, get, modify in Hcreate.
      destruct (_ && _); [|discriminate]. injection Hcreate as <-.
      intros q Hq. cbn [fs set_fs]. rewrite lookup_insert_ne.
      - rewrite HfC. now apply HfB.
      - intros ->. congruence. }
    pose proof (chapters_cover_concat a Hcover) as Hconcat.
    rewrite <- Hlens in Hconcat.
    destruct (_index a) as [|e rest] eqn:Hidx; [contradiction|].
    destruct (write_chapters_first _ _ _ _ _ _ _ _ _ Hwrite Hconcat)
      as (p & -> & Hfile).
    inversion Hpages as [|? ? (p' & Hp' & Hup) _]; subst.
    injection Hp' as <-. unfold is_file_in in Hfile.
    now rewrite (HfD _ Hup) in Hfile.
Qed.

(** the archive object of the six sample pages *)
Definition archive3 : Archive :=
  mkArchive ["book.cbz"] Sample.options0
    (map EPage (concat Sample.chapters3)) [2; 1; 3] [] Sample.cachedir0.

Lemma cleanup_leaves_index_dangling_witness :
  exists w1,
    cleanup 0 Sample.w3 = (Ok tt, w1) /\
    heap w1 = heap Sample.w3 /\
    (forall q : path, is_under (_cachedir archive3) q = true ->
       fs w1 !! q = None) /\
    fs w1 !! _cachedir archive3 = None /\
    (forall q : path, is_under (_cachedir archive3) q = false ->
       q <> _cachedir archive3 -> fs w1 !! q = fs Sample.w3 !! q) /\
    fetch_pages 0 w1 = (Ok (_index archive3), w1) /\
    forall r, fst (write_archive 0 "cbz" "out" w1) <> Ok r.
Proof.
  apply (cleanup_leaves_index_dangling 0 Sample.w3 archive3 "cbz" "out").
  - reflexivity.
  - reflexivity.
  - discriminate.
  - repeat constructor; eexists; (split; [reflexivity|reflexivity]).
  - split; [repeat constructor; lia|].
    intros _. split; [discriminate|reflexivity].
  - reflexivity.
  - reflexivity.
Defined.

